(** * cnosdb: TSM block accessor and the buildtsi index rebuild

    A shallow embedding of two parts of the repository:

    - [Tsm1]: the typed block reads of the memory-mapped accessor
      ([mmapAccessor.readFloatBlock] and its nine siblings, generated from
      reader.gen.go.tmpl) and the reads of [TSMReader] that call them;
    - [Buildtsi]: the offline index rebuild ([IndexShard], [IndexTSMFile],
      [collectTSMFiles], [collectWALFiles]), the shards and the worker
      pool of [processRetentionPolicy].

    A Go function is a state transformer that either returns, panics (a
    Go run-time panic such as a slice bound out of range) or is
    interrupted (the process is killed between two effects). The
    goroutines of the worker pool are a state machine, one step per atomic
    operation of one goroutine. *)

From Stdlib Require Import ZArith Lia Strings.Ascii Strings.String.
From stdpp Require Import base option list strings.

Open Scope Z_scope.

(** ** Outcomes and the state monad shared by both parts *)

Inductive Outcome (A : Type) : Type :=
| Ret (a : A)            (* the Go function returned [a] *)
| Panic (msg : string)   (* a run-time panic unwound the function *)
| Interrupted.           (* the process stopped before the next effect *)
Arguments Ret {A} a.
Arguments Panic {A} msg.
Arguments Interrupted {A}.

Definition M (S A : Type) : Type := S -> Outcome A * S.

Definition ret {S A} (a : A) : M S A := fun s => (Ret a, s).

Definition bind {S A B} (c : M S A) (k : A -> M S B) : M S B :=
  fun s =>
    match c s with
    | (Ret a, s') => k a s'
    | (Panic msg, s') => (Panic msg, s')
    | (Interrupted, s') => (Interrupted, s')
    end.

Definition panic {S A} (msg : string) : M S A := fun s => (Panic msg, s).

Definition get {S} : M S S := fun s => (Ret s, s).
Definition modify {S} (f : S -> S) : M S unit := fun s => (Ret tt, f s).

Declare Scope go_scope.
Delimit Scope go_scope with go.
Notation "x <- c ;; k" := (bind c (fun x => k))
  (at level 100, c at next level, right associativity) : go_scope.
Notation "c ;; k" := (bind c (fun _ => k))
  (at level 100, right associativity) : go_scope.
Open Scope go_scope.

(** ** Fixed-width integers *)

(** Two's complement reduction to [int64]. *)
Definition wrap64 (z : Z) : Z := (z + 2 ^ 63) mod 2 ^ 64 - 2 ^ 63.

(** [a + b] on two [int64] operands. *)
Definition add64 (a b : Z) : Z := wrap64 (a + b).

Definition in_int64 (z : Z) : Prop := - 2 ^ 63 <= z < 2 ^ 63.
Definition in_uint32 (z : Z) : Prop := 0 <= z < 2 ^ 32.

(** ** Go slices of bytes *)

(** [s[lo:hi]] on a slice whose capacity is its length (a mapped region):
    [None] is the run-time panic "slice bounds out of range". *)
Definition slice {A} (s : list A) (lo hi : Z) : option (list A) :=
  if (0 <=? lo) && (lo <=? hi) && (hi <=? Z.of_nat (length s))
  then Some (take (Z.to_nat (hi - lo)) (drop (Z.to_nat lo) s))
  else None.

(** ** Part 1: the memory-mapped block accessor (package tsm1) *)

Module Tsm1.

(** The error values seen by a caller of the accessor.  [ErrTSMClosed] is
    the package's sentinel; every other error is produced by a block
    decoder. *)
Inductive error : Type :=
| ErrTSMClosed
| ErrDecode (msg : string).

(** [IndexEntry]: [Offset] is an [int64], [Size] a [uint32]. *)
Record IndexEntry : Type := {
  MinTime : Z;
  MaxTime : Z;
  Offset : Z;
  Size : Z
}.

Definition wf_entry (e : IndexEntry) : Prop :=
  in_int64 (Offset e) /\ in_uint32 (Size e).

(** [mmapAccessor]: the mapped bytes [b], the access counter bumped by
    [incAccess] (a [uint64]) and the number of holders of the read side of
    [mu]. *)
Record mmapAccessor : Type := {
  accessCount : Z;
  mu_readers : nat;
  b : list Byte.byte
}.

(** The state a read runs in: the accessor and, as a ghost log, the byte
    ranges [(lo, hi)] of the mapped region that were handed to a decoder,
    oldest first. *)
Record State : Type := {
  acc : mmapAccessor;
  reads : list (Z * Z)
}.

Definition incAccess : M State unit :=
  modify (fun s =>
    {| acc := {| accessCount := (accessCount (acc s) + 1) mod 2 ^ 64;
                 mu_readers := mu_readers (acc s);
                 b := b (acc s) |};
       reads := reads s |}).

Definition RLock : M State unit :=
  modify (fun s =>
    {| acc := {| accessCount := accessCount (acc s);
                 mu_readers := S (mu_readers (acc s));
                 b := b (acc s) |};
       reads := reads s |}).

Definition RUnlock : M State unit :=
  modify (fun s =>
    {| acc := {| accessCount := accessCount (acc s);
                 mu_readers := Nat.pred (mu_readers (acc s));
                 b := b (acc s) |};
       reads := reads s |}).

(** The state left by a read that bumped the counter, took and released
    the read lock and touched nothing else. *)
Definition accessed (s : State) : State :=
  {| acc := {| accessCount := (accessCount (acc s) + 1) mod 2 ^ 64;
               mu_readers := mu_readers (acc s);
               b := b (acc s) |};
     reads := reads s |}.

(** Modelled from the spec: [close] and [free] release the mapped region
    (they are not among the sources); a closed accessor has no mapped
    bytes left. *)
Definition closed (m : mmapAccessor) : Prop := b m = [].

(** [int64(len(m.b))] *)
Definition len_b : M State Z :=
  s <- get ;; ret (Z.of_nat (length (b (acc s)))).

(** [m.b[lo:hi]]: panics when the bounds are not inside the region,
    otherwise yields the bytes and logs the range. *)
Definition slice_b (lo hi : Z) : M State (list Byte.byte) :=
  s <- get ;;
  match slice (b (acc s)) lo hi with
  | None => panic "slice bounds out of range"
  | Some bs =>
      modify (fun s => {| acc := acc s; reads := reads s ++ [(lo, hi)] |}) ;;
      ret bs
  end.

(** [entry.Offset+int64(entry.Size)] and [entry.Offset+4], in [int64]. *)
Definition entry_end (entry : IndexEntry) : Z := add64 (Offset entry) (Size entry).
Definition entry_payload (entry : IndexEntry) : Z := add64 (Offset entry) 4.

(** What a read may have handed to a decoder: nothing, or the range
    [entry.Offset+4, entry.Offset+entry.Size) when it lies inside the
    mapped region. *)
Definition well_sliced (s s' : State) (entry : IndexEntry) : Prop :=
  reads s' = reads s \/
  (reads s' = reads s ++ [(entry_payload entry, entry_end entry)] /\
   0 <= entry_payload entry /\ entry_payload entry <= entry_end entry /\
   entry_end entry <= Z.of_nat (length (b (acc s)))).

(** The contract of one typed read started in [s] with result [run]: the
    decoder sees bytes of the mapped region only, and when the bounds
    check fails the read returns [ErrTSMClosed] beside [untouched], having
    read nothing and released the lock. *)
Definition guarded {A} (s : State) (entry : IndexEntry) (untouched : A)
  (run : Outcome (A * option error) * State) : Prop :=
  well_sliced s run.2 entry /\
  (Z.of_nat (length (b (acc s))) < entry_end entry ->
   run = (Ret (untouched, Some ErrTSMClosed), accessed s)).

(** Two reads return the same thing, and it is [ErrTSMClosed]. *)
Definition same_closed_error {A} (untouched : A)
  (run1 run2 : Outcome (A * option error) * State) : Prop :=
  run1.1 = Ret (untouched, Some ErrTSMClosed) /\ run2.1 = run1.1.

Section Accessor.

(** The value types and the block decoders of package tsm1 and the column
    arrays of package tsdb are not part of the sources at hand; the reads
    are parametric in them.  A decoder of the first family returns the
    decoded values and an error; one of the second family fills the array
    it is given and returns an error. *)
Context {FloatValue IntegerValue UnsignedValue StringValue BooleanValue : Type}.
Context {FloatArray IntegerArray UnsignedArray StringArray BooleanArray : Type}.

Variable DecodeFloatBlock :
  list Byte.byte -> list FloatValue -> list FloatValue * option error.
Variable DecodeFloatArrayBlock :
  list Byte.byte -> FloatArray -> FloatArray * option error.
Variable DecodeIntegerBlock :
  list Byte.byte -> list IntegerValue -> list IntegerValue * option error.
Variable DecodeIntegerArrayBlock :
  list Byte.byte -> IntegerArray -> IntegerArray * option error.
Variable DecodeUnsignedBlock :
  list Byte.byte -> list UnsignedValue -> list UnsignedValue * option error.
Variable DecodeUnsignedArrayBlock :
  list Byte.byte -> UnsignedArray -> UnsignedArray * option error.
Variable DecodeStringBlock :
  list Byte.byte -> list StringValue -> list StringValue * option error.
Variable DecodeStringArrayBlock :
  list Byte.byte -> StringArray -> StringArray * option error.
Variable DecodeBooleanBlock :
  list Byte.byte -> list BooleanValue -> list BooleanValue * option error.
Variable DecodeBooleanArrayBlock :
  list Byte.byte -> BooleanArray -> BooleanArray * option error.

(** The [read<T>Block] family returns [(values, error)] with a nil slice
    (here [[]]) beside every error; the [read<T>ArrayBlock] family
    returns the error and leaves its result in [*values], which is
    returned here next to the error. *)

Definition readFloatBlock (entry : IndexEntry) (values : list FloatValue)
  : M State (list FloatValue * option error) :=
  incAccess ;;
  RLock ;;
  n <- len_b ;;
  if n <? entry_end entry then
    RUnlock ;;
    ret ([], Some ErrTSMClosed)
  else
    blk <- slice_b (entry_payload entry) (entry_end entry) ;;
    let (a, err) := DecodeFloatBlock blk values in
    RUnlock ;;
    match err with
    | Some e => ret ([], Some e)
    | None => ret (a, None)
    end.

Definition readFloatArrayBlock (entry : IndexEntry) (values : FloatArray)
  : M State (FloatArray * option error) :=
  incAccess ;;
  RLock ;;
  n <- len_b ;;
  if n <? entry_end entry then
    RUnlock ;;
    ret (values, Some ErrTSMClosed)
  else
    blk <- slice_b (entry_payload entry) (entry_end entry) ;;
    let (values', err) := DecodeFloatArrayBlock blk values in
    RUnlock ;;
    ret (values', err).

Definition readIntegerBlock (entry : IndexEntry) (values : list IntegerValue)
  : M State (list IntegerValue * option error) :=
  incAccess ;;
  RLock ;;
  n <- len_b ;;
  if n <? entry_end entry then
    RUnlock ;;
    ret ([], Some ErrTSMClosed)
  else
    blk <- slice_b (entry_payload entry) (entry_end entry) ;;
    let (a, err) := DecodeIntegerBlock blk values in
    RUnlock ;;
    match err with
    | Some e => ret ([], Some e)
    | None => ret (a, None)
    end.

Definition readIntegerArrayBlock (entry : IndexEntry) (values : IntegerArray)
  : M State (IntegerArray * option error) :=
  incAccess ;;
  RLock ;;
  n <- len_b ;;
  if n <? entry_end entry then
    RUnlock ;;
    ret (values, Some ErrTSMClosed)
  else
    blk <- slice_b (entry_payload entry) (entry_end entry) ;;
    let (values', err) := DecodeIntegerArrayBlock blk values in
    RUnlock ;;
    ret (values', err).

Definition readUnsignedBlock (entry : IndexEntry) (values : list UnsignedValue)
  : M State (list UnsignedValue * option error) :=
  incAccess ;;
  RLock ;;
  n <- len_b ;;
  if n <? entry_end entry then
    RUnlock ;;
    ret ([], Some ErrTSMClosed)
  else
    blk <- slice_b (entry_payload entry) (entry_end entry) ;;
    let (a, err) := DecodeUnsignedBlock blk values in
    RUnlock ;;
    match err with
    | Some e => ret ([], Some e)
    | None => ret (a, None)
    end.

Definition readUnsignedArrayBlock (entry : IndexEntry) (values : UnsignedArray)
  : M State (UnsignedArray * option error) :=
  incAccess ;;
  RLock ;;
  n <- len_b ;;
  if n <? entry_end entry then
    RUnlock ;;
    ret (values, Some ErrTSMClosed)
  else
    blk <- slice_b (entry_payload entry) (entry_end entry) ;;
    let (values', err) := DecodeUnsignedArrayBlock blk values in
    RUnlock ;;
    ret (values', err).

Definition readStringBlock (entry : IndexEntry) (values : list StringValue)
  : M State (list StringValue * option error) :=
  incAccess ;;
  RLock ;;
  n <- len_b ;;
  if n <? entry_end entry then
    RUnlock ;;
    ret ([], Some ErrTSMClosed)
  else
    blk <- slice_b (entry_payload entry) (entry_end entry) ;;
    let (a, err) := DecodeStringBlock blk values in
    RUnlock ;;
    match err with
    | Some e => ret ([], Some e)
    | None => ret (a, None)
    end.

Definition readStringArrayBlock (entry : IndexEntry) (values : StringArray)
  : M State (StringArray * option error) :=
  incAccess ;;
  RLock ;;
  n <- len_b ;;
  if n <? entry_end entry then
    RUnlock ;;
    ret (values, Some ErrTSMClosed)
  else
    blk <- slice_b (entry_payload entry) (entry_end entry) ;;
    let (values', err) := DecodeStringArrayBlock blk values in
    RUnlock ;;
    ret (values', err).

Definition readBooleanBlock (entry : IndexEntry) (values : list BooleanValue)
  : M State (list BooleanValue * option error) :=
  incAccess ;;
  RLock ;;
  n <- len_b ;;
  if n <? entry_end entry then
    RUnlock ;;
    ret ([], Some ErrTSMClosed)
  else
    blk <- slice_b (entry_payload entry) (entry_end entry) ;;
    let (a, err) := DecodeBooleanBlock blk values in
    RUnlock ;;
    match err with
    | Some e => ret ([], Some e)
    | None => ret (a, None)
    end.

Definition readBooleanArrayBlock (entry : IndexEntry) (values : BooleanArray)
  : M State (BooleanArray * option error) :=
  incAccess ;;
  RLock ;;
  n <- len_b ;;
  if n <? entry_end entry then
    RUnlock ;;
    ret (values, Some ErrTSMClosed)
  else
    blk <- slice_b (entry_payload entry) (entry_end entry) ;;
    let (values', err) := DecodeBooleanArrayBlock blk values in
    RUnlock ;;
    ret (values', err).

End Accessor.

(** *** TSMReader *)

(** [TSMReader] as its typed reads use it: the number of holders of the
    read side of [t.mu], and [t.accessor]. *)
Record TSMReader (Acc : Type) : Type := {
  t_mu_readers : nat;
  accessor : Acc
}.
Arguments t_mu_readers {Acc} t.
Arguments accessor {Acc} t.

Section Reader.

Context {FloatValue IntegerValue UnsignedValue StringValue BooleanValue : Type}.
Context {FloatArray IntegerArray UnsignedArray StringArray BooleanArray : Type}.

(** [blockAccessor], the typed reads of the interface, over the state
    [Acc] of an implementation.  (Its other methods, [init], [read],
    [readAll], [readBlock], [readBytes], [rename], [path], [close] and
    [free], have no caller in the sources.) *)
Class blockAccessor (Acc : Type) : Type := {
  acc_readFloatBlock :
    IndexEntry -> list FloatValue -> M Acc (list FloatValue * option error);
  acc_readFloatArrayBlock :
    IndexEntry -> FloatArray -> M Acc (FloatArray * option error);
  acc_readIntegerBlock :
    IndexEntry -> list IntegerValue -> M Acc (list IntegerValue * option error);
  acc_readIntegerArrayBlock :
    IndexEntry -> IntegerArray -> M Acc (IntegerArray * option error);
  acc_readUnsignedBlock :
    IndexEntry -> list UnsignedValue
    -> M Acc (list UnsignedValue * option error);
  acc_readUnsignedArrayBlock :
    IndexEntry -> UnsignedArray -> M Acc (UnsignedArray * option error);
  acc_readStringBlock :
    IndexEntry -> list StringValue -> M Acc (list StringValue * option error);
  acc_readStringArrayBlock :
    IndexEntry -> StringArray -> M Acc (StringArray * option error);
  acc_readBooleanBlock :
    IndexEntry -> list BooleanValue -> M Acc (list BooleanValue * option error);
  acc_readBooleanArrayBlock :
    IndexEntry -> BooleanArray -> M Acc (BooleanArray * option error)
}.

Section Reads.
Context {Acc : Type} `{blockAccessor Acc}.

(** [t.mu.RLock()], [t.mu.RUnlock()] *)
Definition t_RLock : M (TSMReader Acc) unit :=
  modify (fun t => {| t_mu_readers := S (t_mu_readers t);
                      accessor := accessor t |}).

Definition t_RUnlock : M (TSMReader Acc) unit :=
  modify (fun t => {| t_mu_readers := Nat.pred (t_mu_readers t);
                      accessor := accessor t |}).

(** A method call on [t.accessor]. *)
Definition on_accessor {A} (c : M Acc A) : M (TSMReader Acc) A :=
  fun t =>
    let (o, a') := c (accessor t) in
    (o, {| t_mu_readers := t_mu_readers t; accessor := a' |}).

Definition ReadFloatBlockAt (entry : IndexEntry) (vals : list FloatValue)
  : M (TSMReader Acc) (list FloatValue * option error) :=
  t_RLock ;;
  r <- on_accessor (acc_readFloatBlock entry vals) ;;
  t_RUnlock ;;
  ret r.

Definition ReadFloatArrayBlockAt (entry : IndexEntry) (vals : FloatArray)
  : M (TSMReader Acc) (FloatArray * option error) :=
  t_RLock ;;
  r <- on_accessor (acc_readFloatArrayBlock entry vals) ;;
  t_RUnlock ;;
  ret r.

Definition ReadIntegerBlockAt (entry : IndexEntry) (vals : list IntegerValue)
  : M (TSMReader Acc) (list IntegerValue * option error) :=
  t_RLock ;;
  r <- on_accessor (acc_readIntegerBlock entry vals) ;;
  t_RUnlock ;;
  ret r.

Definition ReadIntegerArrayBlockAt (entry : IndexEntry) (vals : IntegerArray)
  : M (TSMReader Acc) (IntegerArray * option error) :=
  t_RLock ;;
  r <- on_accessor (acc_readIntegerArrayBlock entry vals) ;;
  t_RUnlock ;;
  ret r.

Definition ReadUnsignedBlockAt (entry : IndexEntry) (vals : list UnsignedValue)
  : M (TSMReader Acc) (list UnsignedValue * option error) :=
  t_RLock ;;
  r <- on_accessor (acc_readUnsignedBlock entry vals) ;;
  t_RUnlock ;;
  ret r.

Definition ReadUnsignedArrayBlockAt (entry : IndexEntry) (vals : UnsignedArray)
  : M (TSMReader Acc) (UnsignedArray * option error) :=
  t_RLock ;;
  r <- on_accessor (acc_readUnsignedArrayBlock entry vals) ;;
  t_RUnlock ;;
  ret r.

Definition ReadStringBlockAt (entry : IndexEntry) (vals : list StringValue)
  : M (TSMReader Acc) (list StringValue * option error) :=
  t_RLock ;;
  r <- on_accessor (acc_readStringBlock entry vals) ;;
  t_RUnlock ;;
  ret r.

Definition ReadStringArrayBlockAt (entry : IndexEntry) (vals : StringArray)
  : M (TSMReader Acc) (StringArray * option error) :=
  t_RLock ;;
  r <- on_accessor (acc_readStringArrayBlock entry vals) ;;
  t_RUnlock ;;
  ret r.

Definition ReadBooleanBlockAt (entry : IndexEntry) (vals : list BooleanValue)
  : M (TSMReader Acc) (list BooleanValue * option error) :=
  t_RLock ;;
  r <- on_accessor (acc_readBooleanBlock entry vals) ;;
  t_RUnlock ;;
  ret r.

Definition ReadBooleanArrayBlockAt (entry : IndexEntry) (vals : BooleanArray)
  : M (TSMReader Acc) (BooleanArray * option error) :=
  t_RLock ;;
  r <- on_accessor (acc_readBooleanArrayBlock entry vals) ;;
  t_RUnlock ;;
  ret r.

End Reads.

(** [mmapAccessor] implements the interface. *)
Definition mmap_blockAccessor
  (DecodeFloatBlock :
     list Byte.byte -> list FloatValue -> list FloatValue * option error)
  (DecodeFloatArrayBlock :
     list Byte.byte -> FloatArray -> FloatArray * option error)
  (DecodeIntegerBlock :
     list Byte.byte -> list IntegerValue -> list IntegerValue * option error)
  (DecodeIntegerArrayBlock :
     list Byte.byte -> IntegerArray -> IntegerArray * option error)
  (DecodeUnsignedBlock :
     list Byte.byte -> list UnsignedValue -> list UnsignedValue * option error)
  (DecodeUnsignedArrayBlock :
     list Byte.byte -> UnsignedArray -> UnsignedArray * option error)
  (DecodeStringBlock :
     list Byte.byte -> list StringValue -> list StringValue * option error)
  (DecodeStringArrayBlock :
     list Byte.byte -> StringArray -> StringArray * option error)
  (DecodeBooleanBlock :
     list Byte.byte -> list BooleanValue -> list BooleanValue * option error)
  (DecodeBooleanArrayBlock :
     list Byte.byte -> BooleanArray -> BooleanArray * option error)
  : blockAccessor State :=
  {| acc_readFloatBlock := readFloatBlock DecodeFloatBlock;
     acc_readFloatArrayBlock := readFloatArrayBlock DecodeFloatArrayBlock;
     acc_readIntegerBlock := readIntegerBlock DecodeIntegerBlock;
     acc_readIntegerArrayBlock := readIntegerArrayBlock DecodeIntegerArrayBlock;
     acc_readUnsignedBlock := readUnsignedBlock DecodeUnsignedBlock;
     acc_readUnsignedArrayBlock :=
       readUnsignedArrayBlock DecodeUnsignedArrayBlock;
     acc_readStringBlock := readStringBlock DecodeStringBlock;
     acc_readStringArrayBlock := readStringArrayBlock DecodeStringArrayBlock;
     acc_readBooleanBlock := readBooleanBlock DecodeBooleanBlock;
     acc_readBooleanArrayBlock :=
       readBooleanArrayBlock DecodeBooleanArrayBlock |}.

End Reader.

(** *** What the reads of a [TSMReader] over a mapped file are stated
    with *)

(** An entry whose block, the four bytes of its checksum included, lies
    inside the mapped region. *)
Definition valid_entry (m : mmapAccessor) (entry : IndexEntry) : Prop :=
  0 <= Offset entry /\ 4 <= Size entry /\
  Offset entry + Size entry <= Z.of_nat (length (b m)) /\
  Z.of_nat (length (b m)) < 2 ^ 63.

(** The bytes of the block after its checksum. *)
Definition payload_bytes (m : mmapAccessor) (entry : IndexEntry)
  : list Byte.byte :=
  take (Z.to_nat (Size entry - 4)) (drop (Z.to_nat (Offset entry + 4)) (b m)).

(** An entry that passes the bounds check although its block has no room
    for the checksum, or starts before the region. *)
Definition short_entry (m : mmapAccessor) (entry : IndexEntry) : Prop :=
  entry_end entry <= Z.of_nat (length (b m)) /\
  (entry_payload entry < 0 \/ entry_end entry < entry_payload entry).

(** The reader after a read that returned: the access is counted, both
    locks are as they were, and [ranges] were handed to a decoder. *)
Definition after_read (t : TSMReader State) (ranges : list (Z * Z))
  : TSMReader State :=
  {| t_mu_readers := t_mu_readers t;
     accessor := {| acc := acc (accessed (accessor t));
                    reads := reads (accessor t) ++ ranges |} |}.

(** The reader after a read that panicked inside the accessor: nothing
    was handed to a decoder and both read locks are still held. *)
Definition stuck_in_read (t : TSMReader State) : TSMReader State :=
  {| t_mu_readers := S (t_mu_readers t);
     accessor :=
       {| acc := {| accessCount :=
                      (accessCount (acc (accessor t)) + 1) mod 2 ^ 64;
                    mu_readers := S (mu_readers (acc (accessor t)));
                    b := b (acc (accessor t)) |};
          reads := reads (accessor t) |} |}.

(** What a read of the [read<T>Block] family returns for what the decoder
    returned: no values beside an error. *)
Definition values_or_error {V} (r : list V * option error)
  : list V * option error :=
  match r.2 with
  | Some e => ([], Some e)
  | None => (r.1, None)
  end.

End Tsm1.

(** ** Part 2: the index rebuild (package buildtsi) *)

Module Buildtsi.

(** A Go [[]byte] or [string] holding a key, a name or a file's contents
    is kept as a string of 8-bit characters. *)
Definition bytes : Type := string.

(** *** Paths *)

(** A path is kept as the list of its elements.  [filepath.Join] drops
    empty elements and joins the others with the separator, so on element
    lists it is concatenation and the empty string is the empty list. *)
Definition path : Type := list string.

Definition Join (a b : path) : path := a ++ b.

(** [filepath.Ext] on a file name: the suffix beginning at the final dot,
    empty if there is no dot. *)
Fixpoint Ext_from (s cur : string) : string :=
  match s with
  | EmptyString => cur
  | String c s' => if Ascii.eqb c "."%char then Ext_from s' s else Ext_from s' cur
  end.

Definition Ext (name : string) : string := Ext_from name "".

(** *** Errors *)

Inductive error : Type :=
| ErrNotExist                      (* os.ErrNotExist, ENOENT *)
| ErrNotDir                        (* ENOTDIR *)
| ErrExist                         (* os.ErrExist *)
| ErrIO (msg : string)             (* any other failure of a call *)
| ErrCreatingSeries (cause : error). (* fmt.Errorf("problem creating series: (%s)", err) *)

(** [os.IsNotExist] *)
Definition os_IsNotExist (err : option error) : bool :=
  match err with
  | Some ErrNotExist => true
  | _ => false
  end.

(** *** Series and the on-disk index *)

(** [models.Tag] and [models.Tags] *)
Record Tag : Type := { Key : bytes; Value : bytes }.
Definition Tags : Type := list Tag.

Record SeriesEntry : Type := {
  se_key : bytes;
  se_name : bytes;
  se_tags : Tags
}.

(** Modelled from the spec: the contents of a directory written by a tsi1
    index (package tsi1 is not among the sources): the series created in
    it, oldest first, and whether it was compacted since the last
    insert. *)
Record IndexData : Type := {
  series : list SeriesEntry;
  compacted : bool
}.

Definition empty_index : IndexData := {| series := []; compacted := false |}.

Fixpoint zip3 (keys names : list bytes) (tags : list Tags) : list SeriesEntry :=
  match keys, names, tags with
  | k :: keys', n :: names', t :: tags' =>
      {| se_key := k; se_name := n; se_tags := t |} :: zip3 keys' names' tags'
  | _, _, _ => []
  end.

Definition has_series (k : bytes) (l : list SeriesEntry) : bool :=
  existsb (fun e => String.eqb (se_key e) k) l.

(** Modelled from the spec: insertion is create-if-not-exists, a series
    already present is left alone. *)
Definition create_if_not_exists (l : list SeriesEntry) (e : SeriesEntry)
  : list SeriesEntry :=
  if has_series (se_key e) l then l else l ++ [e].

Definition add_series (ix : IndexData) (es : list SeriesEntry) : IndexData :=
  {| series := fold_left create_if_not_exists es (series ix);
     compacted := false |}.

(** *** The file system *)

(** A node of the file tree.  The files inside an index directory are not
    named: the directory is one node carrying the index's contents. *)
#[warnings="-register-all"]
Inductive Node : Type :=
| File (data : bytes)
| Dir (entries : list (string * Node))
| IndexDir (ix : IndexData).

Fixpoint ents_lookup (name : string) (es : list (string * Node)) : option Node :=
  match es with
  | [] => None
  | (n, v) :: es' => if String.eqb n name then Some v else ents_lookup name es'
  end.

Fixpoint ents_remove (name : string) (es : list (string * Node))
  : list (string * Node) :=
  match es with
  | [] => []
  | (n, v) :: es' =>
      if String.eqb n name then ents_remove name es'
      else (n, v) :: ents_remove name es'
  end.

Definition ents_put (name : string) (v : Node) (es : list (string * Node))
  : list (string * Node) :=
  (name, v) :: ents_remove name es.

Inductive Lookup : Type :=
| Found (n : Node)
| Missing             (* ENOENT *)
| NotDir.             (* ENOTDIR: an element of the path is a file *)

Fixpoint fs_lookup (p : path) (n : Node) : Lookup :=
  match p with
  | [] => Found n
  | c :: p' =>
      match n with
      | Dir es =>
          match ents_lookup c es with
          | Some n' => fs_lookup p' n'
          | None => Missing
          end
      | File _ => NotDir
      | IndexDir _ => Missing
      end
  end.

(** Removes the subtree at [p]; nothing changes when [p] does not exist. *)
Fixpoint fs_remove (p : path) (n : Node) : Node :=
  match p with
  | [] => n
  | c :: p' =>
      match n with
      | Dir es =>
          match p' with
          | [] => Dir (ents_remove c es)
          | _ :: _ =>
              match ents_lookup c es with
              | Some n' => Dir (ents_put c (fs_remove p' n') es)
              | None => n
              end
          end
      | _ => n
      end
  end.

(** Puts [v] at [p], creating the missing directories above it as
    [os.MkdirAll] does; [None] when an element above [p] is not a
    directory. *)
Fixpoint fs_put (p : path) (v : Node) (n : Node) : option Node :=
  match p with
  | [] => Some v
  | c :: p' =>
      match n with
      | Dir es =>
          match fs_put p' v (default (Dir []) (ents_lookup c es)) with
          | Some n' => Some (Dir (ents_put c n' es))
          | None => None
          end
      | _ => None
      end
  end.

(** The path without its last element. *)
Definition parent (p : path) : path := removelast p.

Fixpoint insert_sorted (x : string) (l : list string) : list string :=
  match l with
  | [] => [x]
  | y :: l' => if String.leb x y then x :: l else y :: insert_sorted x l'
  end.

Definition sort_names (l : list string) : list string :=
  fold_right insert_sorted [] l.

(** The names in a directory, sorted by file name as [ioutil.ReadDir]
    returns them. *)
Definition dir_names (es : list (string * Node)) : list string :=
  sort_names (remove_dups (map fst es)).

(** *** The world a rebuild runs in *)

Inductive Level : Type := Info | Warn.

(** Where a batch of series handed to the index was enumerated. *)
Inductive Source : Type :=
| FromTSM (p : path)
| FromCache.

(** The calls a rebuild makes to the operating system, the logger and the
    packages tsm1 and tsi1, with their arguments. *)
Inductive Event : Type :=
| EvLog (lvl : Level) (msg : string)
| EvStat (p : path)
| EvRemoveAll (p : path)
| EvReadDir (p : path)
| EvOpen (p : path)
| EvFileClose (p : path)
| EvNewTSMReader (p : path)
| EvReaderClose (p : path)
| EvCacheLoad (ps : list path)
| EvIndexOpen (p : path)
| EvCreateSeriesList (ip : path) (src : Source)
    (keys names : list bytes) (tags : list Tags)
| EvCompact (p : path)
| EvWait (p : path)
| EvIndexClose (p : path)
| EvRename (oldpath newpath : path).

(** [fs] is the file tree; [trace] the calls made so far, oldest first;
    [faults n ev] says whether the call [ev], made as the [n]-th call,
    fails for a reason outside the model (permissions, a full disk, ...)
    and with which message; [budget] is the number of calls the process
    can still make before it is killed, [None] when it is left alone. *)
Record World : Type := {
  fs : Node;
  trace : list Event;
  faults : nat -> Event -> option string;
  budget : option nat
}.

(** One call: it is where the process can be interrupted, it is logged,
    and it acts on the file tree given the fault the environment has for
    it. *)
Definition call {A} (ev : Event) (sem : option string -> Node -> A * Node)
  : M World A :=
  fun w =>
    match budget w with
    | Some O => (Interrupted, w)
    | _ =>
        let (a, fs') := sem (faults w (length (trace w)) ev) (fs w) in
        (Ret a, {| fs := fs';
                   trace := trace w ++ [ev];
                   faults := faults w;
                   budget := Nat.pred <$> budget w |})
    end.

(** [defer cleanup] around the rest of a function body: the deferred call
    runs when the body returns and when it panics. *)
Definition defer {S A} (cleanup : M S unit) (body : M S A) : M S A :=
  fun s =>
    match body s with
    | (Ret a, s') =>
        match cleanup s' with
        | (Ret _, s'') => (Ret a, s'')
        | (Panic msg, s'') => (Panic msg, s'')
        | (Interrupted, s'') => (Interrupted, s'')
        end
    | (Panic msg, s') =>
        match cleanup s' with
        | (Interrupted, s'') => (Interrupted, s'')
        | (_, s'') => (Panic msg, s'')
        end
    | (Interrupted, s') => (Interrupted, s')
    end.

(** A loop over [xs] whose body either goes on with a new loop state
    ([inl]) or returns from the enclosing function ([inr]). *)
Fixpoint for_each {S X St R} (xs : list X) (body : X -> St -> M S (St + R))
  (st : St) : M S (St + R) :=
  match xs with
  | [] => ret (inl st)
  | x :: xs' =>
      r <- body x st ;;
      match r with
      | inl st' => for_each xs' body st'
      | inr v => ret (inr v)
      end
  end.

(** *** The operating system *)

Definition log (lvl : Level) (msg : string) : M World unit :=
  call (EvLog lvl msg) (fun _ t => (tt, t)).

(** [os.Stat], keeping only the error. *)
Definition os_Stat (p : path) : M World (option error) :=
  call (EvStat p) (fun fault t =>
    match fault with
    | Some msg => (Some (ErrIO msg), t)
    | None =>
        match fs_lookup p t with
        | Found _ => (None, t)
        | Missing => (Some ErrNotExist, t)
        | NotDir => (Some ErrNotDir, t)
        end
    end).

(** [os.RemoveAll]: removes the path and what is below it; a path that
    does not exist is no error. *)
Definition os_RemoveAll (p : path) : M World (option error) :=
  call (EvRemoveAll p) (fun fault t =>
    match fault with
    | Some msg => (Some (ErrIO msg), t)
    | None =>
        match fs_lookup p t with
        | Found _ => (None, fs_remove p t)
        | Missing => (None, t)
        | NotDir => (Some ErrNotDir, t)
        end
    end).

(** [os.Rename] of [oldpath] to a [newpath] that does not exist, in one
    step.  (Replacing an existing [newpath] is not modelled and fails
    here.) *)
Definition fs_rename (oldpath newpath : path) (t : Node) : option error * Node :=
  match fs_lookup oldpath t with
  | Missing => (Some ErrNotExist, t)
  | NotDir => (Some ErrNotDir, t)
  | Found n =>
      match fs_lookup newpath t with
      | Found _ => (Some ErrExist, t)
      | NotDir => (Some ErrNotDir, t)
      | Missing =>
          let t' := fs_remove oldpath t in
          match fs_lookup (parent newpath) t' with
          | Found (Dir _) =>
              match fs_put newpath n t' with
              | Some t'' => (None, t'')
              | None => (Some ErrNotDir, t)
              end
          | Found _ => (Some ErrNotDir, t)
          | NotDir => (Some ErrNotDir, t)
          | Missing => (Some ErrNotExist, t)
          end
      end
  end.

Definition os_Rename (oldpath newpath : path) : M World (option error) :=
  call (EvRename oldpath newpath) (fun fault t =>
    match fault with
    | Some msg => (Some (ErrIO msg), t)
    | None => fs_rename oldpath newpath t
    end).

(** [ioutil.ReadDir], keeping the names of the entries. *)
Definition ioutil_ReadDir (p : path) : M World (list string * option error) :=
  call (EvReadDir p) (fun fault t =>
    match fault with
    | Some msg => ([], Some (ErrIO msg), t)
    | None =>
        match fs_lookup p t with
        | Found (Dir es) => (dir_names es, None, t)
        | Found (IndexDir _) => ([], None, t)
        | Found (File _) => ([], Some ErrNotDir, t)
        | Missing => ([], Some ErrNotExist, t)
        | NotDir => ([], Some ErrNotDir, t)
        end
    end).

(** An open [*os.File]: its path and the node it was opened on. *)
Record OSFile : Type := { f_path : path; f_node : Node }.

(** [os.Open] *)
Definition os_Open (p : path) : M World (option OSFile * option error) :=
  call (EvOpen p) (fun fault t =>
    match fault with
    | Some msg => (None, Some (ErrIO msg), t)
    | None =>
        match fs_lookup p t with
        | Found n => (Some {| f_path := p; f_node := n |}, None, t)
        | Missing => (None, Some ErrNotExist, t)
        | NotDir => (None, Some ErrNotDir, t)
        end
    end).

Definition File_Close (f : OSFile) : M World unit :=
  call (EvFileClose (f_path f)) (fun _ t => (tt, t)).

Section Rebuild.

(** Package tsm1 (file formats, cache) and package models (series keys)
    are not among the sources; the rebuild is parametric in what it uses
    of them:
    - the file extensions [tsm1.TSMFileExtension], [tsm1.WALFileExtension];
    - [readTSM]: the keys of the index of a TSM file, in index order, or
      [None] when [tsm1.NewTSMReader] rejects the file;
    - [replayWAL maxCacheSize files]: the keys [Cache.Keys] returns after
      [CacheLoader.Load] replayed the WAL files with these contents, or
      [None] when the load fails;
    - [tsm1.SeriesAndFieldFromCompositeKey], [models.ParseKeyBytes] and
      [models.ParseKeyBytesWithTags]. *)
Variable TSMFileExtension WALFileExtension : string.
Variable readTSM : bytes -> option (list bytes).
Variable replayWAL : Z -> list bytes -> option (list bytes).
Variable SeriesAndFieldFromCompositeKey : bytes -> bytes * bytes.
Variable ParseKeyBytes : bytes -> bytes * Tags.
Variable ParseKeyBytesWithTags : bytes -> Tags -> bytes * Tags.

(** *** Package tsm1 *)

(** A [*tsm1.TSMReader] as the rebuild sees it: the keys of its index. *)
Record TSMReader : Type := { r_path : path; r_keys : list bytes }.

Definition KeyCount (r : TSMReader) : nat := length (r_keys r).

(** [r.KeyAt(i)], keeping the key; nil when [i] is out of range. *)
Definition KeyAt (r : TSMReader) (i : nat) : bytes := nth i (r_keys r) "".

(** [tsm1.NewTSMReader] *)
Definition NewTSMReader (f : OSFile) : M World (option TSMReader * option error) :=
  call (EvNewTSMReader (f_path f)) (fun fault t =>
    match fault with
    | Some msg => (None, Some (ErrIO msg), t)
    | None =>
        match f_node f with
        | File data =>
            match readTSM data with
            | Some keys => (Some {| r_path := f_path f; r_keys := keys |}, None, t)
            | None => (None, Some (ErrIO "cannot read TSM file"), t)
            end
        | _ => (None, Some (ErrIO "is a directory"), t)
        end
    end).

Definition TSMReader_Close (r : TSMReader) : M World unit :=
  call (EvReaderClose (r_path r)) (fun _ t => (tt, t)).

(** The contents of the files at [ps], [None] when one of them is not a
    file. *)
Fixpoint read_files (ps : list path) (t : Node) : option (list bytes) :=
  match ps with
  | [] => Some []
  | p :: ps' =>
      match fs_lookup p t, read_files ps' t with
      | Found (File data), Some ds => Some (data :: ds)
      | _, _ => None
      end
  end.

(** A [*tsm1.Cache] after a load: its keys. *)
Record Cache : Type := { cache_keys : list bytes }.

Definition Keys (c : Cache) : list bytes := cache_keys c.

(** [tsm1.NewCache], [tsm1.NewCacheLoader] and [loader.Load(cache)] *)
Definition CacheLoader_Load (maxCacheSize : Z) (walPaths : list path)
  : M World (Cache * option error) :=
  call (EvCacheLoad walPaths) (fun fault t =>
    match fault with
    | Some msg => ({| cache_keys := [] |}, Some (ErrIO msg), t)
    | None =>
        match read_files walPaths t with
        | None => ({| cache_keys := [] |}, Some (ErrIO "cannot read WAL file"), t)
        | Some ds =>
            match replayWAL maxCacheSize ds with
            | Some keys => ({| cache_keys := keys |}, None, t)
            | None => ({| cache_keys := [] |}, Some (ErrIO "cannot replay WAL file"), t)
            end
        end
    end).

(** *** Package tsi1 *)

(** A [*tsi1.Index] as configured by [tsi1.NewIndex] and its options. *)
Record Index : Type := {
  idx_path : path;
  idx_maxLogFileSize : Z;
  idx_disableFsync : bool;
  idx_logFileBufferSize : Z
}.

(** Modelled from the spec: [Index.Open] creates the index directory at
    its path when there is none (or an empty one) and opens the index
    that is there otherwise. *)
Definition Index_Open (i : Index) : M World (option error) :=
  call (EvIndexOpen (idx_path i)) (fun fault t =>
    match fault with
    | Some msg => (Some (ErrIO msg), t)
    | None =>
        match fs_lookup (idx_path i) t with
        | Found (IndexDir _) => (None, t)
        | Found (Dir (_ :: _)) => (Some (ErrIO "not an index"), t)
        | Found (File _) => (Some ErrNotDir, t)
        | NotDir => (Some ErrNotDir, t)
        | Found (Dir []) | Missing =>
            match fs_put (idx_path i) (IndexDir empty_index) t with
            | Some t' => (None, t')
            | None => (Some ErrNotDir, t)
            end
        end
    end).

(** Modelled from the spec: [Index.CreateSeriesListIfNotExists] takes
    parallel slices of keys, names and tag sets and creates the series
    that the index at its path does not have yet.  [src] is not an
    argument of the Go method: it records the call site for the trace. *)
Definition CreateSeriesListIfNotExists (i : Index) (src : Source)
  (keys names : list bytes) (tagsSlice : list Tags) : M World (option error) :=
  call (EvCreateSeriesList (idx_path i) src keys names tagsSlice) (fun fault t =>
    match fault with
    | Some msg => (Some (ErrIO msg), t)
    | None =>
        match fs_lookup (idx_path i) t with
        | Found (IndexDir ix) =>
            match fs_put (idx_path i)
                    (IndexDir (add_series ix (zip3 keys names tagsSlice))) t with
            | Some t' => (None, t')
            | None => (Some ErrNotDir, t)
            end
        | _ => (Some (ErrIO "index is not open"), t)
        end
    end).

(** Modelled from the spec: [Index.Compact] compacts the index in place;
    [Index.Wait] returns when the compactions are done. *)
Definition Index_Compact (i : Index) : M World unit :=
  call (EvCompact (idx_path i)) (fun _ t =>
    match fs_lookup (idx_path i) t with
    | Found (IndexDir ix) =>
        match fs_put (idx_path i)
                (IndexDir {| series := series ix; compacted := true |}) t with
        | Some t' => (tt, t')
        | None => (tt, t)
        end
    | _ => (tt, t)
    end).

Definition Index_Wait (i : Index) : M World unit :=
  call (EvWait (idx_path i)) (fun _ t => (tt, t)).

Definition Index_Close (i : Index) : M World (option error) :=
  call (EvIndexClose (idx_path i)) (fun fault t =>
    match fault with
    | Some msg => (Some (ErrIO msg), t)
    | None => (None, t)
    end).

(** *** Go slices *)

(** The slices the rebuild makes hold slices ([[]byte], [models.Tags]):
    an element is a slice header of three words, 24 bytes on a 64-bit
    platform, where [runtime.maxAlloc] is [2^48] bytes. *)
Definition slice_header_size : Z := 24.
Definition maxAlloc : Z := 2 ^ 48.

(** [runtime.makeslice] refuses a length or capacity [n] that is negative
    or whose [n] elements take more than [maxAlloc] bytes (the product
    overflowing included): it panics. *)
Definition out_of_range (n : Z) : bool :=
  (n <? 0) || (maxAlloc <? slice_header_size * n).

(** [make([]T, 0, n)] for a slice type [T].  Memory within the limit
    that the machine cannot provide is a fatal error of the run time, not
    a panic: the process stops, which is an interrupted run; in a run
    that nobody interrupts the allocation succeeds. *)
Definition make_cap {T} (n : Z) : M World (list T) :=
  if out_of_range n then panic "makeslice: cap out of range" else ret [].

(** [make([]T, n)] for a slice type [T] with zero value [zero] *)
Definition make_len {T} (zero : T) (n : Z) : M World (list T) :=
  if out_of_range n then panic "makeslice: len out of range"
  else ret (replicate (Z.to_nat n) zero).

(** [s[i]] *)
Definition index {T} (s : list T) (i : nat) : M World T :=
  match s !! i with
  | Some x => ret x
  | None => panic "index out of range"
  end.

(** *** collectTSMFiles, collectWALFiles *)

Definition collectTSMFiles (p : path) : M World (list path * option error) :=
  r <- ioutil_ReadDir p ;;
  let (fis, err) := r in
  match err with
  | Some e => ret ([], Some e)
  | None =>
      ret (map (fun name => Join p [name])
             (filter (fun name => Ext name = "." +:+ TSMFileExtension) fis),
           None)
  end.

Definition collectWALFiles (p : path) : M World (list path * option error) :=
  if bool_decide (p = []) then ret ([], Some ErrNotExist)
  else
    err <- os_Stat p ;;
    if os_IsNotExist err then ret ([], err)
    else
      r <- ioutil_ReadDir p ;;
      let (fis, err) := r in
      match err with
      | Some e => ret ([], Some e)
      | None =>
          ret (map (fun name => Join p [name])
                 (filter (fun name => Ext name = "." +:+ WALFileExtension) fis),
               None)
      end.

(** *** IndexTSMFile *)

(** The variables of the batching loop of [IndexTSMFile]. *)
Record TSMBatch : Type := {
  keysBatch : list bytes;
  namesBatch : list bytes;
  tagsBatch : list Tags;
  ti : nat
}.

Definition IndexTSMFile_body (index_ : Index) (p : path) (batchSize : Z)
  (verboseLogging : bool) (r : TSMReader) (i : nat) (st : TSMBatch)
  : M World (TSMBatch + option error) :=
  let key := KeyAt r i in
  let seriesKey := fst (SeriesAndFieldFromCompositeKey key) in
  dst <- index (tagsBatch st) (ti st) ;;
  let (name, tags) := ParseKeyBytesWithTags seriesKey dst in
  let tagsBatch' := <[ti st := tags]> (tagsBatch st) in
  (if verboseLogging then log Info "Series" else ret tt) ;;
  let keysBatch' := keysBatch st ++ [seriesKey] in
  let namesBatch' := namesBatch st ++ [name] in
  let ti' := S (ti st) in
  (* Flush batch? *)
  if Z.of_nat (length keysBatch') =? batchSize then
    err <- CreateSeriesListIfNotExists index_ (FromTSM p)
             keysBatch' namesBatch' (take ti' tagsBatch') ;;
    match err with
    | Some e => ret (inr (Some (ErrCreatingSeries e)))
    | None =>
        ret (inl {| keysBatch := []; namesBatch := [];
                    tagsBatch := tagsBatch'; ti := 0 |})
    end
  else
    ret (inl {| keysBatch := keysBatch'; namesBatch := namesBatch';
                tagsBatch := tagsBatch'; ti := ti' |}).

Definition IndexTSMFile (index_ : Index) (p : path) (batchSize : Z)
  (verboseLogging : bool) : M World (option error) :=
  o <- os_Open p ;;
  match o with
  | (_, Some e) => ret (Some e)
  | (None, None) => panic "nil file"
  | (Some f, None) =>
  defer (File_Close f) (
    o <- NewTSMReader f ;;
    match o with
    | (_, Some e) =>
        log Warn "Unable to read, skipping" ;;
        ret None
    | (None, None) => panic "nil reader"
    | (Some r, None) =>
    defer (TSMReader_Close r) (
      keysBatch0 <- make_cap batchSize ;;
      namesBatch0 <- make_cap batchSize ;;
      tagsBatch0 <- make_len [] batchSize ;;
      l <- for_each (seq 0 (KeyCount r))
             (IndexTSMFile_body index_ p batchSize verboseLogging r)
             {| keysBatch := keysBatch0; namesBatch := namesBatch0;
                tagsBatch := tagsBatch0; ti := 0 |} ;;
      match l with
      | inr e => ret e
      | inl st =>
          (* Flush any remaining series in the batches *)
          if 0 <? Z.of_nat (length (keysBatch st)) then
            err <- CreateSeriesListIfNotExists index_ (FromTSM p)
                     (keysBatch st) (namesBatch st)
                     (take (ti st) (tagsBatch st)) ;;
            match err with
            | Some e => ret (Some (ErrCreatingSeries e))
            | None => ret None
            end
          else ret None
      end)
    end)
  end.

(** *** IndexShard *)

(** The variables of the batching loop over the cache's keys. *)
Record CacheBatch : Type := {
  c_keysBatch : list bytes;
  c_namesBatch : list bytes;
  c_tagsBatch : list Tags
}.

Definition IndexShard_cache_body (tsiIndex : Index) (batchSize : Z)
  (verboseLogging : bool) (key : bytes) (st : CacheBatch)
  : M World (CacheBatch + option error) :=
  let seriesKey := fst (SeriesAndFieldFromCompositeKey key) in
  let (name, tags) := ParseKeyBytes seriesKey in
  (if verboseLogging then log Info "Series" else ret tt) ;;
  let keysBatch' := c_keysBatch st ++ [seriesKey] in
  let namesBatch' := c_namesBatch st ++ [name] in
  let tagsBatch' := c_tagsBatch st ++ [tags] in
  (* Flush batch? *)
  if Z.of_nat (length keysBatch') =? batchSize then
    err <- CreateSeriesListIfNotExists tsiIndex FromCache
             keysBatch' namesBatch' tagsBatch' ;;
    match err with
    | Some e => ret (inr (Some (ErrCreatingSeries e)))
    | None =>
        ret (inl {| c_keysBatch := []; c_namesBatch := []; c_tagsBatch := [] |})
    end
  else
    ret (inl {| c_keysBatch := keysBatch'; c_namesBatch := namesBatch';
                c_tagsBatch := tagsBatch' |}).

(** The body of [IndexShard] is kept in four parts, in source order; a
    part either falls through to the next ([inl]) or returns from
    [IndexShard] ([inr]). *)

(** Write out tsm1 files. *)
Definition IndexShard_tsm (tsiIndex : Index) (dataDir : path) (batchSize : Z)
  (verboseLogging : bool) : M World (unit + option error) :=
  (* Find shard files. *)
  r <- collectTSMFiles dataDir ;;
  let (tsmPaths, err) := r in
  match err with
  | Some e => ret (inr (Some e))
  | None =>
      log Info "Iterating over tsm files" ;;
      for_each tsmPaths
        (fun p (_ : unit) =>
           log Info "Processing tsm file" ;;
           err <- IndexTSMFile tsiIndex p batchSize verboseLogging ;;
           match err with
           | Some e => ret (inr (Some e))
           | None => ret (inl tt)
           end) tt
  end.

(** Write out wal files. *)
Definition IndexShard_wal (tsiIndex : Index) (walDir : path)
  (maxCacheSize batchSize : Z) (verboseLogging : bool)
  : M World (unit + option error) :=
  r <- collectWALFiles walDir ;;
  let (walPaths, err) := r in
  match err with
  | Some e =>
      if negb (os_IsNotExist (Some e)) then ret (inr (Some e))
      else ret (inl tt)
  | None =>
      log Info "Building cache from wal files" ;;
      r <- CacheLoader_Load maxCacheSize walPaths ;;
      let (cache, err) := r in
      match err with
      | Some e => ret (inr (Some e))
      | None =>
          log Info "Iterating over cache" ;;
          keysBatch0 <- make_cap batchSize ;;
          namesBatch0 <- make_cap batchSize ;;
          tagsBatch0 <- make_cap batchSize ;;
          l <- for_each (Keys cache)
                 (IndexShard_cache_body tsiIndex batchSize verboseLogging)
                 {| c_keysBatch := keysBatch0; c_namesBatch := namesBatch0;
                    c_tagsBatch := tagsBatch0 |} ;;
          match l with
          | inr e => ret (inr e)
          | inl st =>
              (* Flush any remaining series in the batches *)
              if 0 <? Z.of_nat (length (c_keysBatch st)) then
                err <- CreateSeriesListIfNotExists tsiIndex FromCache
                         (c_keysBatch st) (c_namesBatch st) (c_tagsBatch st) ;;
                match err with
                | Some e => ret (inr (Some (ErrCreatingSeries e)))
                | None => ret (inl tt)
                end
              else ret (inl tt)
          end
      end
  end.

(** Compact, wait, close and rename. *)
Definition IndexShard_publish (tsiIndex : Index) (tmpPath indexPath : path)
  : M World (option error) :=
  (* Attempt to compact the index & wait for all compactions to complete. *)
  log Info "compacting index" ;;
  Index_Compact tsiIndex ;;
  Index_Wait tsiIndex ;;
  (* Close TSI index. *)
  log Info "Closing tsi index" ;;
  err <- Index_Close tsiIndex ;;
  match err with
  | Some e => ret (Some e)
  | None =>
      (* Rename TSI to standard path. *)
      log Info "Moving tsi to permanent location" ;;
      os_Rename tmpPath indexPath
  end.

(** [tsi1.NewIndex(sfile, "", tsi1.WithPath(tmpPath),
    tsi1.WithMaximumLogFileSize(maxLogFileSize), tsi1.DisableFsync(),
    tsi1.WithLogFileBufferSize(12*batchSize))] *)
Definition NewIndex (tmpPath : path) (maxLogFileSize batchSize : Z) : Index :=
  {| idx_path := tmpPath;
     idx_maxLogFileSize := maxLogFileSize;
     idx_disableFsync := true;
     idx_logFileBufferSize := wrap64 (12 * batchSize) |}.

(** The start of [IndexShard]: the check for an index, the removal of the
    temporary directory and the opening of the index there.  It either
    hands on the open index ([inl]) or returns from [IndexShard]
    ([inr]). *)
Definition IndexShard_open (dataDir : path) (maxLogFileSize batchSize : Z)
  : M World (Index + option error) :=
  log Info "Rebuilding shard" ;;
  (* Check if shard already has a TSI index. *)
  let indexPath := Join dataDir ["index"] in
  log Info "Checking index path" ;;
  err <- os_Stat indexPath ;;
  if negb (os_IsNotExist err) then
    log Info "tsi1 index already exists, skipping" ;;
    ret (inr None)
  else
  log Info "Opening shard" ;;
  (* Remove temporary index files if this is being re-run. *)
  let tmpPath := Join dataDir [".index"] in
  log Info "Cleaning up partial index from previous run, if any" ;;
  err <- os_RemoveAll tmpPath ;;
  match err with
  | Some e => ret (inr (Some e))
  | None =>
  (* Open TSI index in temporary path. *)
  let tsiIndex := NewIndex tmpPath maxLogFileSize batchSize in
  log Info "Opening tsi index in temporary location" ;;
  err <- Index_Open tsiIndex ;;
  match err with
  | Some e => ret (inr (Some e))
  | None => ret (inl tsiIndex)
  end
  end.

(** [IndexShard]: its four parts in source order, the last three under
    [defer tsiIndex.Close()].  The series file [sfile] and the logger's
    fields are left out: the model keeps of a log call its level and
    message. *)
Definition IndexShard (dataDir walDir : path) (maxLogFileSize maxCacheSize : Z)
  (batchSize : Z) (verboseLogging : bool) : M World (option error) :=
  let indexPath := Join dataDir ["index"] in
  let tmpPath := Join dataDir [".index"] in
  o <- IndexShard_open dataDir maxLogFileSize batchSize ;;
  match o with
  | inr e => ret e
  | inl tsiIndex =>
  defer (Index_Close tsiIndex ;; ret tt) (
    l <- IndexShard_tsm tsiIndex dataDir batchSize verboseLogging ;;
    match l with
    | inr e => ret e
    | inl _ =>
    l <- IndexShard_wal tsiIndex walDir maxCacheSize batchSize verboseLogging ;;
    match l with
    | inr e => ret e
    | inl _ => IndexShard_publish tsiIndex tmpPath indexPath
    end
    end)
  end.

(** The calls [IndexShard] makes on a shard that it skips. *)
Definition skip_events (dataDir : path) : list Event :=
  [ EvLog Info "Rebuilding shard";
    EvLog Info "Checking index path";
    EvStat (Join dataDir ["index"]);
    EvLog Info "tsi1 index already exists, skipping" ].

End Rebuild.

(** *** processRetentionPolicy: the worker pool

    Once the shard directories are listed, [processRetentionPolicy] makes
    the channel [errC] with one slot per shard, starts [o.concurrency]
    goroutines that claim shards through the shared cursor [maxi], and
    drains the channel. The goroutines interleave: the pool is a state
    and one step per atomic operation of one goroutine, chosen by a
    schedule, which also chooses how each call of [IndexShard] ends: by
    returning an error or nil, or in a panic. *)

Record shard := { ID : Z; Path : string }.

(** [uint32] arithmetic wraps around. *)
Definition wrap32 (z : Z) : Z := z mod 2 ^ 32.

(** [atomic.AddUint32(addr, delta)]: the new value *)
Definition atomic_AddUint32 (old delta : Z) : Z := wrap32 (old + delta).

(** Where a worker goroutine stands. *)
Inductive Worker :=
| AtLoop                               (* at the head of [for { ... }] *)
| Indexing (i : nat)                   (* inside [IndexShard] for [shards[i]] *)
| Sending (i : nat) (e : option error) (* at [errC <- ...] *)
| Returned                             (* [return // No more work.] *)
| Crashed (msg : string).              (* panicked, nothing recovers *)

(** Where the goroutine of [processRetentionPolicy] stands. *)
Inductive Orchestrator :=
| Spawning (k : Z)          (* [for k := 0; k < o.concurrency; k++] *)
| Draining (i : Z)          (* [for i := 0; i < cap(errC); i++] *)
| Done (err : option error). (* [return err], [return nil] *)

(** [claimed] and [drained] are ghost logs: the shard indexes handed to
    [IndexShard], and the values received from the channel, in order. *)
Record Pool := {
  maxi : Z;
  workers : list Worker;
  errC : list (option error);
  main : Orchestrator;
  claimed : list nat;
  drained : list (option error)
}.

(** How a call of [IndexShard] ends in a worker: it returns nil or an
    error, or it panics. *)
Inductive CallEnd :=
| Returns (err : option error)
| Panics (msg : string).

(** One goroutine and one atomic step of it.  [RunWorker k result] is the
    next step of worker [k], [result] being how its call of [IndexShard]
    ends, should the step be the end of that call. *)
Inductive Action :=
| RunMain
| RunWorker (k : nat) (result : CallEnd).

Definition is_crashed (wk : Worker) : bool :=
  match wk with Crashed _ => true | _ => false end.

(** No goroutine of the pool recovers from a panic: the panic of one
    worker ends the process, and with it every goroutine. *)
Definition died (s : Pool) : bool := existsb is_crashed (workers s).

Section Pool.
Variable shards : list shard.
Variable concurrency : Z.

(** [errC := make(chan error, len(shards))]; [var maxi uint32] *)
Definition pool_start : Pool :=
  {| maxi := 0; workers := []; errC := []; main := Spawning 0;
     claimed := []; drained := [] |}.

(** [cap(errC)] *)
Definition cap_errC : Z := Z.of_nat (length shards).

Definition worker_step (result : CallEnd) (wk : Worker) (s : Pool)
  : option (Worker * Pool) :=
  match wk with
  | AtLoop =>
      (* i := int(atomic.AddUint32(&maxi, 1) - 1) *)
      let new := atomic_AddUint32 (maxi s) 1 in
      let i := wrap32 (new - 1) in
      let s' := {| maxi := new; workers := workers s; errC := errC s;
                   main := main s; claimed := claimed s;
                   drained := drained s |} in
      if Z.of_nat (length shards) <=? i then Some (Returned, s')
      else
        match shards !! Z.to_nat i with
        | None => Some (Crashed "index out of range", s')
        | Some _ =>
            Some (Indexing (Z.to_nat i),
                  {| maxi := new; workers := workers s; errC := errC s;
                     main := main s; claimed := claimed s ++ [Z.to_nat i];
                     drained := drained s |})
        end
  | Indexing i =>
      (* errC <- IndexShard(...): the call returns, and the worker is at
         the send; or it panics, and the goroutine has no recover *)
      match result with
      | Returns e => Some (Sending i e, s)
      | Panics msg => Some (Crashed msg, s)
      end
  | Sending i e =>
      (* errC <- e: blocks while the buffer is full *)
      if Z.of_nat (length (errC s)) <? cap_errC then
        Some (AtLoop,
              {| maxi := maxi s; workers := workers s; errC := errC s ++ [e];
                 main := main s; claimed := claimed s;
                 drained := drained s |})
      else None
  | Returned => None
  | Crashed _ => None
  end.

Definition main_step (s : Pool) : option Pool :=
  match main s with
  | Spawning k =>
      if k <? concurrency then
        (* go func() { ... }() *)
        Some {| maxi := maxi s; workers := workers s ++ [AtLoop];
                errC := errC s; main := Spawning (k + 1);
                claimed := claimed s; drained := drained s |}
      else
        Some {| maxi := maxi s; workers := workers s; errC := errC s;
                main := Draining 0; claimed := claimed s;
                drained := drained s |}
  | Draining i =>
      if i <? cap_errC then
        (* err := <-errC: blocks while the buffer is empty *)
        match errC s with
        | [] => None
        | e :: rest =>
            Some {| maxi := maxi s; workers := workers s; errC := rest;
                    main := match e with
                            | Some err => Done (Some err)
                            | None => Draining (i + 1)
                            end;
                    claimed := claimed s; drained := drained s ++ [e] |}
        end
      else
        Some {| maxi := maxi s; workers := workers s; errC := errC s;
                main := Done None; claimed := claimed s;
                drained := drained s |}
  | Done _ => None
  end.

(** [None]: the goroutine is blocked, or has finished, or does not
    exist, or the process has died. *)
Definition step (a : Action) (s : Pool) : option Pool :=
  if died s then None
  else
    match a with
    | RunMain => main_step s
    | RunWorker k result =>
        match workers s !! k with
        | None => None
        | Some wk =>
            match worker_step result wk s with
            | None => None
            | Some (wk', s') =>
                Some {| maxi := maxi s'; workers := <[k := wk']> (workers s');
                        errC := errC s'; main := main s';
                        claimed := claimed s'; drained := drained s' |}
            end
        end
    end.

Fixpoint run (sched : list Action) (s : Pool) : option Pool :=
  match sched with
  | [] => Some s
  | a :: rest =>
      match step a s with
      | None => None
      | Some s' => run rest s'
      end
  end.

(** The states the pool can be in, whatever the scheduler does. *)
Definition reachable (s : Pool) : Prop :=
  exists sched, run sched pool_start = Some s.

(** Nothing can run any more. *)
Definition quiescent (s : Pool) : Prop := forall a, step a s = None.

End Pool.

(** *** processRetentionPolicy: the shards of a retention policy *)

(** [Options], without its writers and its logger. *)
Record Options : Type := {
  o_dataDir : string;
  o_walDir : string;
  o_Verbose : bool;
  o_concurrency : Z;
  o_databaseFilter : string;
  o_retentionFilter : string;
  o_shardFilter : string;
  o_maxLogFileSize : Z;
  o_maxCacheSize : Z;
  o_batchSize : Z
}.

(** [os.FileInfo]: [Name()] and [IsDir()] *)
Record FileInfo : Type := { fi_Name : string; fi_IsDir : bool }.

Definition is_dir (n : Node) : bool :=
  match n with
  | File _ => false
  | Dir _ | IndexDir _ => true
  end.

(** The entries of a directory as [ioutil.ReadDir] returns them, sorted
    by file name. *)
Definition dir_infos (es : list (string * Node)) : list FileInfo :=
  map (fun name =>
         {| fi_Name := name;
            fi_IsDir := match ents_lookup name es with
                        | Some n => is_dir n
                        | None => false
                        end |})
      (dir_names es).

(** [ioutil.ReadDir] *)
Definition ioutil_ReadDir_infos (p : path)
  : M World (list FileInfo * option error) :=
  call (EvReadDir p) (fun fault t =>
    match fault with
    | Some msg => ([], Some (ErrIO msg), t)
    | None =>
        match fs_lookup p t with
        | Found (Dir es) => (dir_infos es, None, t)
        | Found (IndexDir _) => ([], None, t)
        | Found (File _) => ([], Some ErrNotDir, t)
        | Missing => ([], Some ErrNotExist, t)
        | NotDir => ([], Some ErrNotDir, t)
        end
    end).

(** The value of a decimal digit. *)
Definition digit_value (c : ascii) : option Z :=
  let n := Z.of_nat (nat_of_ascii c) in
  if (48 <=? n) && (n <=? 57) then Some (n - 48) else None.

Fixpoint parse_digits (s : string) (n : Z) : option Z :=
  match s with
  | EmptyString => Some n
  | String c s' =>
      match digit_value c with
      | None => None                        (* strconv.ErrSyntax *)
      | Some d =>
          if 2 ^ 64 <=? n * 10 + d then None (* strconv.ErrRange *)
          else parse_digits s' (n * 10 + d)
      end
  end.

(** [strconv.ParseUint(s, 10, 64)], keeping the value when the error is
    nil: [s] is a non-empty string of decimal digits whose value fits in
    64 bits. *)
Definition strconv_ParseUint (s : string) : option Z :=
  match s with
  | EmptyString => None
  | _ => parse_digits s 0
  end.

(** The body of the loop over the directory entries. *)
Definition add_shard (o : Options) (fi : FileInfo) (shards : list shard)
  : list shard :=
  if negb (fi_IsDir fi) then shards
  else if negb (String.eqb (o_shardFilter o) "")
          && negb (String.eqb (fi_Name fi) (o_shardFilter o)) then shards
  else
    match strconv_ParseUint (fi_Name fi) with
    | None => shards
    | Some shardID => shards ++ [ {| ID := shardID; Path := fi_Name fi |} ]
    end.

(** [processRetentionPolicy] up to the start of the workers: the shards
    of the retention policy, or the error of the listing. *)
Definition processRetentionPolicy_shards (o : Options) (dataDir : path)
  : M World (list shard + error) :=
  log Info "Rebuilding retention policy" ;;
  r <- ioutil_ReadDir_infos dataDir ;;
  let (fis, err) := r in
  match err with
  | Some e => ret (inr e)
  | None =>
      ret (inl (fold_left (fun shards fi => add_shard o fi shards) fis []))
  end.

(** The pool [processRetentionPolicy] then starts and drains: the
    schedules of [run shards (o_concurrency o)] from [pool_start]. *)

(** *** What the properties are stated with *)

(** Calls made by the loop over the TSM files. *)
Definition is_tsm_event (e : Event) : bool :=
  match e with
  | EvOpen _ | EvFileClose _ | EvNewTSMReader _ | EvReaderClose _ => true
  | EvCreateSeriesList _ (FromTSM _) _ _ _ => true
  | _ => false
  end.

(** Calls made to load the cache and to index its keys. *)
Definition is_cache_event (e : Event) : bool :=
  match e with
  | EvCacheLoad _ => true
  | EvCreateSeriesList _ FromCache _ _ _ => true
  | _ => false
  end.

Definition same_source (a c : Source) : bool :=
  match a, c with
  | FromCache, FromCache => true
  | FromTSM p, FromTSM q => bool_decide (p = q)
  | _, _ => false
  end.

(** The key slices handed to the index for source [src], in call order. *)
Definition key_batches (src : Source) (evs : list Event) : list (list bytes) :=
  omap (fun e =>
          match e with
          | EvCreateSeriesList _ src' keys _ _ =>
              if same_source src' src then Some keys else None
          | _ => None
          end) evs.

(** A call that writes to the file tree writes at the temporary path
    [tmp], or is the rename of [tmp] to the index path [final]. *)
Definition staged (tmp final : path) (e : Event) : Prop :=
  match e with
  | EvRemoveAll p | EvIndexOpen p | EvCompact p | EvWait p | EvIndexClose p =>
      p = tmp
  | EvCreateSeriesList ip _ _ _ _ => ip = tmp
  | EvRename oldpath newpath => oldpath = tmp /\ newpath = final
  | _ => True
  end.

Section BatchSpec.

Variable ParseKeyBytes : bytes -> bytes * Tags.
Variable ParseKeyBytesWithTags : bytes -> Tags -> bytes * Tags.

(** The name [n] and the tag set [t] were parsed from the key [k]: by
    [models.ParseKeyBytes] for a cache key, by
    [models.ParseKeyBytesWithTags] (into some slot of the tags batch) for
    a key of a TSM file. *)
Definition parsed_from (src : Source) (k n : bytes) (t : Tags) : Prop :=
  match src with
  | FromCache => ParseKeyBytes k = (n, t)
  | FromTSM _ => exists dst, ParseKeyBytesWithTags k dst = (n, t)
  end.

(** Three parallel slices of equal nonzero length, the i-th name and tag
    set parsed from the i-th key. *)
Definition parallel_batch (src : Source) (keys names : list bytes)
  (tags : list Tags) : Prop :=
  length keys = length names /\ length names = length tags /\
  (0 < length keys)%nat /\
  forall i k n t,
    keys !! i = Some k -> names !! i = Some n -> tags !! i = Some t ->
    parsed_from src k n t.

Definition batches_parallel (evs : list Event) : Prop :=
  forall ip src keys names tags,
    EvCreateSeriesList ip src keys names tags ∈ evs ->
    parallel_batch src keys names tags.

(** The calls of the four parts of [IndexShard] for a rebuild staged at
    [tmp] and published at [final], and of the deferred close. *)
Definition open_event (tmp final : path) (e : Event) : Prop :=
  match e with
  | EvLog _ _ => True
  | EvStat p => p = final
  | EvRemoveAll p | EvIndexOpen p => p = tmp
  | _ => False
  end.

Definition tsm_part_event (tmp : path) (e : Event) : Prop :=
  match e with
  | EvLog _ _ | EvReadDir _ | EvOpen _ | EvFileClose _
  | EvNewTSMReader _ | EvReaderClose _ => True
  | EvCreateSeriesList ip (FromTSM p) keys names tags =>
      ip = tmp /\ keys <> [] /\
      Forall3 (parsed_from (FromTSM p)) keys names tags
  | _ => False
  end.

Definition wal_part_event (tmp : path) (e : Event) : Prop :=
  match e with
  | EvLog _ _ | EvStat _ | EvReadDir _ | EvCacheLoad _ => True
  | EvCreateSeriesList ip FromCache keys names tags =>
      ip = tmp /\ keys <> [] /\ Forall3 (parsed_from FromCache) keys names tags
  | _ => False
  end.

Definition publish_event (tmp final : path) (e : Event) : Prop :=
  match e with
  | EvLog _ _ => True
  | EvCompact p | EvWait p | EvIndexClose p => p = tmp
  | EvRename oldpath newpath => oldpath = tmp /\ newpath = final
  | _ => False
  end.

(** Before the cache is loaded ([early_event]) and from then on
    ([late_event]). *)
Definition early_event (tmp final : path) (e : Event) : Prop :=
  open_event tmp final e \/ tsm_part_event tmp e \/ e = EvIndexClose tmp.

Definition late_event (tmp final : path) (e : Event) : Prop :=
  wal_part_event tmp e \/ publish_event tmp final e.

Definition shard_event (tmp final : path) (e : Event) : Prop :=
  early_event tmp final e \/ late_event tmp final e.

(** The invariant of the batching loop of [IndexTSMFile] on file [p]. *)
Definition tsm_inv (p : path) (st : TSMBatch) : Prop :=
  Forall3 (parsed_from (FromTSM p)) (keysBatch st) (namesBatch st)
    (take (ti st) (tagsBatch st)).

(** The invariant of the batching loop over the cache's keys. *)
Definition cache_inv (st : CacheBatch) : Prop :=
  Forall3 (parsed_from FromCache) (c_keysBatch st) (c_namesBatch st)
    (c_tagsBatch st).

End BatchSpec.

Section ReaderSpec.

Variable readTSM : bytes -> option (list bytes).

(** [NewTSMReader] fails on the node [n] in world [w] when the
    environment makes the call fail or [n] is not a file that
    [readTSM] accepts. *)
Definition unreadable (w : World) (p : path) (n : Node) : Prop :=
  (exists msg, faults w (S (length (trace w))) (EvNewTSMReader p) = Some msg) \/
  (forall data, n = File data -> readTSM data = None).

End ReaderSpec.

(** The index path [final] stays missing from [w] to [w']. *)
Definition unpublished (final : path) (w w' : World) : Prop :=
  fs_lookup final (fs w) = Missing -> fs_lookup final (fs w') = Missing.

(** There is an index directory at [tmp]. *)
Definition index_at (tmp : path) (w : World) : Prop :=
  exists ix, fs_lookup tmp (fs w) = Found (IndexDir ix).

(** In [w] nobody interrupts the process, no insert of source [src] into
    the index at [ip] fails, and that index is there. *)
Definition insertable (ip : path) (src : Source) (w : World) : Prop :=
  budget w = None /\
  (forall n keys names tags,
     faults w n (EvCreateSeriesList ip src keys names tags) = None) /\
  index_at ip w.

(** The loop state of [IndexTSMFile] between two iterations, for a batch
    size [b]: [ti] counts the keys of the batch being filled, which is
    not full, and the tags batch has its [b] slots. *)
Definition tsm_ready (b : nat) (st : TSMBatch) : Prop :=
  ti st = length (keysBatch st) /\ (ti st < b)%nat /\
  length (tagsBatch st) = b.

(** The batching of a key sequence as the two loops do it: [cur] is the
    batch being filled, a batch is flushed when it reaches [b] keys.  The
    result is the flushed batches and the batch left unflushed. *)
Fixpoint batches {A} (b : nat) (cur l : list A) : list (list A) * list A :=
  match l with
  | [] => ([], cur)
  | x :: l' =>
      if Nat.eqb (length (cur ++ [x])) b
      then ((cur ++ [x]) :: (batches b [] l').1, (batches b [] l').2)
      else batches b (cur ++ [x]) l'
  end.

(** With the flush of what is left after the loop. *)
Definition all_batches {A} (b : nat) (l : list A) : list (list A) :=
  (batches b [] l).1 ++
  match (batches b [] l).2 with
  | [] => []
  | r => [r]
  end.

(** [bs] cuts [l] into [ceil(length l / b)] batches, all of [b] keys but
    possibly the last. *)
Definition batched {A} (b : Z) (l : list A) (bs : list (list A)) : Prop :=
  Z.of_nat (length bs) = (Z.of_nat (length l) + b - 1) / b /\
  (forall i batch,
     bs !! i = Some batch -> (S i < length bs)%nat ->
     Z.of_nat (length batch) = b) /\
  concat bs = l.

(** The calls that publish the index: compact, wait, close, rename. *)
Definition publish_calls (tmp final : path) : list Event :=
  [ EvLog Info "compacting index"; EvCompact tmp; EvWait tmp;
    EvLog Info "Closing tsi index"; EvIndexClose tmp;
    EvLog Info "Moving tsi to permanent location"; EvRename tmp final ].

(** The calls of [IndexShard] up to the opening of the index. *)
Definition open_calls (tmp final : path) : list Event :=
  [ EvLog Info "Rebuilding shard";
    EvLog Info "Checking index path";
    EvStat final;
    EvLog Info "Opening shard";
    EvLog Info "Cleaning up partial index from previous run, if any";
    EvRemoveAll tmp;
    EvLog Info "Opening tsi index in temporary location";
    EvIndexOpen tmp ].

Definition is_rename (e : Event) : bool :=
  match e with
  | EvRename _ _ => true
  | _ => false
  end.

(** [w'] is [w] after more calls, all of them in [P]: the environment
    is the same, and a process that was left alone still is. *)
Definition extends_by (P : Event -> Prop) (w w' : World) : Prop :=
  faults w' = faults w /\
  (budget w = None -> budget w' = None) /\
  exists evs, trace w' = trace w ++ evs /\ Forall P evs.

(** A triple for the rebuild's code: started in a world satisfying [pre],
    [c] ends, however it ends, in a world related to the first one by
    [R], and when it returns [a] the world satisfies [post a]. *)
Definition hoare {A} (R : World -> World -> Prop) (pre : World -> Prop)
  (c : M World A) (post : A -> World -> Prop) : Prop :=
  forall w, pre w ->
    R w (c w).2 /\ forall a, (c w).1 = Ret a -> post a (c w).2.

(** Left alone, [c] is not interrupted, and it leaves a world that is
    left alone. *)
Definition steady {A} (c : M World A) : Prop :=
  forall w, budget w = None ->
    (c w).1 <> Interrupted /\ budget (c w).2 = None.

(** A call made for the series of a file or of the cache: a log line or
    an insert. *)
Definition series_event (e : Event) : Prop :=
  match e with
  | EvLog _ _ | EvCreateSeriesList _ _ _ _ _ => True
  | _ => False
  end.

(** The series keys handed to the index from TSM files, all inserts
    taken together in call order. *)
Definition tsm_series (evs : list Event) : list bytes :=
  concat (omap (fun e =>
                  match e with
                  | EvCreateSeriesList _ (FromTSM _) keys _ _ => Some keys
                  | _ => None
                  end) evs).

(** An insert made for [src], or a call that is no insert. *)
Definition insert_from (src : Source) (e : Event) : Prop :=
  match e with
  | EvCreateSeriesList _ src' _ _ _ => src' = src
  | _ => True
  end.

(** No call made for the TSM file [p] fails in [w]: not its opening, not
    its reading, not an insert of its series into the index at [ip]. *)
Definition file_goes_through (ip p : path) (w : World) : Prop :=
  (forall n, faults w n (EvOpen p) = None) /\
  (forall n, faults w n (EvNewTSMReader p) = None) /\
  (forall n keys names tags,
     faults w n (EvCreateSeriesList ip (FromTSM p) keys names tags) = None).

(** Nobody interrupts the process and no call fails for a reason outside
    the model. *)
Definition undisturbed (w : World) : Prop :=
  budget w = None /\ forall n ev, faults w n ev = None.

Section SeriesSpec.
Variable readTSM : bytes -> option (list bytes).
Variable SeriesAndFieldFromCompositeKey : bytes -> bytes * bytes.

(** The series keys of a node of the file tree: those of the keys of a
    file that reads as a TSM file, in the order of its index; none for a
    file that does not read and for a directory. *)
Definition node_series (n : Node) : list bytes :=
  match n with
  | File data =>
      match readTSM data with
      | Some keys =>
          map (fun key => (SeriesAndFieldFromCompositeKey key).1) keys
      | None => []
      end
  | _ => []
  end.

Definition entry_series (es : list (string * Node)) (name : string)
  : list bytes :=
  match ents_lookup name es with
  | Some n => node_series n
  | None => []
  end.

End SeriesSpec.

(** *** The worker pool *)

Definition is_returned (wk : Worker) : nat :=
  match wk with Returned => 1 | _ => 0 end.

Definition is_in_flight (wk : Worker) : nat :=
  match wk with Indexing _ | Sending _ _ => 1 | _ => 0 end.

Definition has_crashed (wk : Worker) : nat :=
  match wk with Crashed _ => 1 | _ => 0 end.

(** What the orchestrator has received so far, by where it stands: only
    [nil]s while it drains, one per shard when it returns [nil], and the
    error it returns is the first value received that is not [nil]. *)
Definition drained_by (n : nat) (o : Orchestrator)
  (ds : list (option error)) : Prop :=
  match o with
  | Spawning _ => ds = []
  | Draining i => 0 <= i <= Z.of_nat n /\ ds = replicate (Z.to_nat i) None
  | Done None => ds = replicate n None
  | Done (Some e) =>
      exists j, (j < n)%nat /\ ds = replicate j None ++ [Some e]
  end.

(** The workers started so far, by where the orchestrator stands. *)
Definition spawned_by (concurrency : Z) (o : Orchestrator) (k : nat) : Prop :=
  match o with
  | Spawning j => Z.of_nat k = j /\ j <= Z.max 0 concurrency
  | _ => Z.of_nat k = Z.max 0 concurrency
  end.




(** What holds of the pool of [n] shards between any two steps: the
    shards were claimed in cursor order, the cursor counts the claims and
    the workers that found no work, a worker finds no work only when all
    shards are claimed, and every claim is in flight, in the channel,
    drained, or lost in the crash of its worker. *)
Definition pool_inv (n : nat) (concurrency : Z) (s : Pool) : Prop :=
  claimed s = seq 0 (length (claimed s)) /\
  (length (claimed s) <= n)%nat /\
  maxi s
  = Z.of_nat (length (claimed s) + sum_list_with is_returned (workers s)) /\
  (0 < sum_list_with is_returned (workers s) -> length (claimed s) = n)%nat /\
  length (claimed s)
  = (sum_list_with is_in_flight (workers s)
     + sum_list_with has_crashed (workers s) + length (errC s)
     + length (drained s))%nat /\
  spawned_by concurrency (main s) (length (workers s)) /\
  drained_by n (main s) (drained s).


(** The calls of [IndexShard] that returned during a schedule started in
    [s]: the index of the shard and the error returned, in order of
    return. *)
Fixpoint finished (shards : list shard) (concurrency : Z)
  (sched : list Action) (s : Pool) : list (nat * option error) :=
  match sched with
  | [] => []
  | a :: rest =>
      match step shards concurrency a s with
      | None => []
      | Some s' =>
          match a with
          | RunWorker k result =>
              match workers s !! k with
              | Some (Indexing i) =>
                  match result with
                  | Returns e => [(i, e)]
                  | Panics _ => []
                  end
              | _ => []
              end
          | RunMain => []
          end ++ finished shards concurrency rest s'
      end
  end.

(** The shards workers are indexing, and the results workers are about
    to send. *)
Definition indexing (ws : list Worker) : list nat :=
  omap (fun wk => match wk with Indexing i => Some i | _ => None end) ws.

Definition sending (ws : list Worker) : list (option error) :=
  omap (fun wk => match wk with Sending _ e => Some e | _ => None end) ws.

(** The results [R] of the calls that returned are in the channel,
    drained, or about to be sent, and the calls were made on the shards
    claimed and not being indexed, but for the shards [cs] whose call
    panicked. *)
Definition results_inv (R : list (nat * option error)) (s : Pool) : Prop :=
  map snd R ≡ₚ drained s ++ errC s ++ sending (workers s) /\
  exists cs,
    map fst R ++ indexing (workers s) ++ cs ≡ₚ claimed s /\
    (died s = false -> cs = []).

(** The pool without workers, waiting for its first result. *)
Definition pool_waiting : Pool :=
  {| maxi := 0; workers := []; errC := []; main := Draining 0;
     claimed := []; drained := [] |}.

(** The pool without workers and without shards, the orchestrator
    having returned nil. *)
Definition pool_returned_nil : Pool :=
  {| maxi := 0; workers := []; errC := []; main := Done None;
     claimed := []; drained := [] |}.

(** *** The listings *)

(** The paths of the entries of [es] under [p] that have extension
    [ext]. *)
Definition entry_with_ext (p : path) (es : list (string * Node))
  (ext : string) (q : path) : Prop :=
  exists name,
    q = Join p [name] /\ is_Some (ents_lookup name es) /\
    Ext name = "." +:+ ext.

(** The shard made of a directory entry of [es]: a directory whose name
    passes the filter and is the decimal numeral of the shard's id. *)
Definition shard_entry (o : Options) (es : list (string * Node))
  (sh : shard) : Prop :=
  (exists n, ents_lookup (Path sh) es = Some n /\ is_dir n = true) /\
  (o_shardFilter o = "" \/ Path sh = o_shardFilter o) /\
  strconv_ParseUint (Path sh) = Some (ID sh).

(** The shard the loop body adds for a directory entry, if any. *)
Definition kept_shard (o : Options) (fi : FileInfo) (sh : shard) : Prop :=
  fi_IsDir fi = true /\
  (o_shardFilter o = "" \/ fi_Name fi = o_shardFilter o) /\
  strconv_ParseUint (fi_Name fi) = Some (ID sh) /\
  Path sh = fi_Name fi.

End Buildtsi.

(** * Example inputs *)

Module Examples.
Import Buildtsi.

(** ** The accessor *)

(** A decoder that accepts every block and leaves the values alone. *)
Definition decode_any {A} (block : list Byte.byte) (a : A)
  : A * option Tsm1.error := (a, None).

(** An accessor after [close]: no mapped bytes. *)
Definition closed_accessor : Tsm1.State :=
  {| Tsm1.acc := {| Tsm1.accessCount := 7; Tsm1.mu_readers := 0;
                    Tsm1.b := [] |};
     Tsm1.reads := [] |}.

(** An open accessor over eight mapped bytes. *)
Definition open_accessor : Tsm1.State :=
  {| Tsm1.acc := {| Tsm1.accessCount := 0; Tsm1.mu_readers := 0;
                    Tsm1.b := repeat Byte.x2a 8 |};
     Tsm1.reads := [] |}.

(** An entry of the open accessor, and one that ends past its eight
    bytes. *)
Definition entry_inside : Tsm1.IndexEntry :=
  {| Tsm1.MinTime := 0; Tsm1.MaxTime := 10; Tsm1.Offset := 0;
     Tsm1.Size := 8 |}.

Definition entry_stale : Tsm1.IndexEntry :=
  {| Tsm1.MinTime := 0; Tsm1.MaxTime := 10; Tsm1.Offset := 4;
     Tsm1.Size := 12 |}.

(** ** The rebuild *)

(** Stand-ins for the TSM reader, the WAL replay and the key parsers: a
    file holds one key per character, a file that starts with [!] does
    not read, the series key of a key is the key, its only tag is the
    key again. *)
Definition keys_of (data : bytes) : list bytes :=
  map (fun c => String c EmptyString) (list_ascii_of_string data).

Definition readTSM (data : bytes) : option (list bytes) :=
  match data with
  | String "!"%char _ => None
  | _ => Some (keys_of data)
  end.

Definition replayWAL (maxCacheSize : Z) (segments : list bytes)
  : option (list bytes) :=
  foldr (fun data rest =>
           match readTSM data, rest with
           | Some ks, Some ks' => Some (ks ++ ks')
           | _, _ => None
           end) (Some []) segments.

Definition SeriesAndFieldFromCompositeKey (key : bytes) : bytes * bytes :=
  (key, "value").

Definition ParseKeyBytes (key : bytes) : bytes * Tags :=
  (key, [ {| Key := "host"; Value := key |} ]).

Definition ParseKeyBytesWithTags (key : bytes) (dst : Tags) : bytes * Tags :=
  ParseKeyBytes key.

(** Shard 1: a TSM file of five keys, a TSM file that does not read, a
    file that is no TSM file; one WAL segment of three keys. *)
Definition shard_dir : Node :=
  Dir [ ("000001.tsm", File "abcde");
        ("000002.tsm", File "!garbage");
        ("notes.txt", File "zz") ].

Definition tree : Node :=
  Dir [ ("data", Dir [ ("1", shard_dir) ]);
        ("wal", Dir [ ("1", Dir [ ("_00001.wal", File "xyz") ]) ]) ].

(** The same shard, its index already built. *)
Definition tree_indexed : Node :=
  Dir [ ("data",
         Dir [ ("1", Dir [ ("000001.tsm", File "abcde");
                           ("index", IndexDir empty_index) ]) ]) ].


(** A world where no call fails and nobody interrupts. *)
Definition quiet (t : Node) : World :=
  {| fs := t; trace := []; faults := fun _ _ => None; budget := None |}.

(** A world where opening the first TSM file of the shard fails. *)
Definition open_denied : World :=
  {| fs := tree; trace := [];
     faults := fun _ ev =>
       match ev with
       | EvOpen p =>
           if bool_decide (p = ["data"; "1"; "000001.tsm"])
           then Some "permission denied" else None
       | _ => None
       end;
     budget := None |}.

(** A world where opening the second TSM file of the shard fails. *)
Definition second_denied : World :=
  {| fs := tree; trace := [];
     faults := fun _ ev =>
       match ev with
       | EvOpen p =>
           if bool_decide (p = ["data"; "1"; "000002.tsm"])
           then Some "permission denied" else None
       | _ => None
       end;
     budget := None |}.

Definition rebuild (w : World) : Outcome (option error) * World :=
  IndexShard "tsm" "wal" readTSM replayWAL SeriesAndFieldFromCompositeKey
    ParseKeyBytes ParseKeyBytesWithTags ["data"; "1"] ["wal"; "1"]
    1048576 1073741824 2 false w.

(** The shard's index once staged at the temporary path, and the world
    with it open. *)
Definition staged_index : Index :=
  NewIndex ["data"; "1"; ".index"] 1048576 2.

Definition staged_world (t : Node) : World :=
  (IndexShard_open ["data"; "1"] 1048576 2 (quiet t)).2.

(** The world of the rebuild once the index is open, with the second TSM
    file denied. *)
Definition staged_second_denied : World :=
  (IndexShard_open ["data"; "1"] 1048576 2 second_denied).2.

(** The world after the TSM files of the shard are indexed. *)
Definition tsm_done_world (t : Node) : World :=
  (IndexShard_tsm "tsm" readTSM SeriesAndFieldFromCompositeKey
     ParseKeyBytesWithTags staged_index ["data"; "1"] 2 false
     (staged_world t)).2.

(** ** The worker pool *)

Definition two_shards : list shard :=
  [ {| ID := 1; Path := "1" |}; {| ID := 2; Path := "2" |} ].

(** Two workers on two shards: the second shard fails, the orchestrator
    returns its error while the first shard is still being indexed, and
    the first worker goes on, sends its result and returns. *)
Definition schedule : list Action :=
  [ RunMain; RunMain; RunMain;
    RunWorker 0 (Returns None); RunWorker 1 (Returns None);
    RunWorker 1 (Returns (Some (ErrIO "disk full"))); RunWorker 1 (Returns None);
    RunMain;
    RunWorker 0 (Returns None); RunWorker 0 (Returns None); RunWorker 0 (Returns None);
    RunWorker 1 (Returns None) ].



Definition pool_after : Pool :=
  {| maxi := 4; workers := [Returned; Returned]; errC := [None];
     main := Done (Some (ErrIO "disk full"));
     claimed := [0; 1]%nat;
     drained := [Some (ErrIO "disk full")] |}.

(** ** More inputs *)

(** The accessor's interface with the decoder that accepts every block,
    over integers, strings and booleans. *)
Definition mmap_any : Tsm1.blockAccessor Tsm1.State :=
  Tsm1.mmap_blockAccessor
    (FloatValue := Z) (IntegerValue := Z) (UnsignedValue := Z)
    (StringValue := string) (BooleanValue := bool)
    (FloatArray := list Z) (IntegerArray := list Z)
    (UnsignedArray := list Z) (StringArray := list string)
    (BooleanArray := list bool)
    decode_any decode_any decode_any decode_any decode_any
    decode_any decode_any decode_any decode_any decode_any.

(** A reader over the open accessor. *)
Definition open_reader : Tsm1.TSMReader Tsm1.State :=
  {| Tsm1.t_mu_readers := 0; Tsm1.accessor := open_accessor |}.

(** An entry of two bytes: no room for the checksum. *)
Definition entry_short : Tsm1.IndexEntry :=
  {| Tsm1.MinTime := 0; Tsm1.MaxTime := 10; Tsm1.Offset := 0;
     Tsm1.Size := 2 |}.

(** A world where the [Stat] of the shard's index path fails. *)
Definition stat_denied : World :=
  {| fs := tree; trace := [];
     faults := fun _ ev =>
       match ev with
       | EvStat p =>
           if bool_decide (p = ["data"; "1"; "index"])
           then Some "permission denied" else None
       | _ => None
       end;
     budget := None |}.

(** A retention policy with the shards 1 and 20, a file named by a
    number and a directory that is not. *)
Definition policy_entries : list (string * Node) :=
  [ ("1", shard_dir); ("20", Dir []); ("7", File "x"); ("tmp", Dir []) ].

Definition policy_tree : Node :=
  Dir [ ("data", Dir [ ("db", Dir [ ("autogen", Dir policy_entries) ]) ]) ].

Definition options (shardFilter : string) : Options :=
  {| o_dataDir := "data"; o_walDir := "wal"; o_Verbose := false;
     o_concurrency := 2; o_databaseFilter := ""; o_retentionFilter := "";
     o_shardFilter := shardFilter; o_maxLogFileSize := 1048576;
     o_maxCacheSize := 1073741824; o_batchSize := 2 |}.

(** The entries of the shard directory once the index is staged. *)
Definition staged_entries : list (string * Node) :=
  [ (".index", IndexDir empty_index);
    ("000001.tsm", File "abcde");
    ("000002.tsm", File "!garbage");
    ("notes.txt", File "zz") ].

End Examples.

(** * Proofs *)

(** ** Fixed-width arithmetic and slices *)

Lemma wrap64_small z : in_int64 z -> wrap64 z = z.
Proof.
  unfold in_int64, wrap64. intros H.
  rewrite Z.mod_small by lia. lia.
Qed.

Lemma wrap64_range z : in_int64 (wrap64 z).
Proof.
  unfold in_int64, wrap64.
  pose proof (Z.mod_pos_bound (z + 2 ^ 63) (2 ^ 64)). lia.
Qed.

(** The sum of an [int64] and a zero-extended [uint32] either is the
    mathematical sum or has wrapped to a negative number. *)
Lemma add64_exact_or_negative a b :
  in_int64 a -> 0 <= b < 2 ^ 63 -> add64 a b = a + b \/ add64 a b < 0.
Proof.
  unfold in_int64, add64. intros Ha Hb.
  destruct (Z_lt_dec (a + b) (2 ^ 63)) as [Hlt | Hge].
  - left. apply wrap64_small. unfold in_int64. lia.
  - right. unfold wrap64.
    replace (a + b + 2 ^ 63) with ((a + b - 2 ^ 63) + 1 * 2 ^ 64) by lia.
    rewrite Z.mod_add by lia. rewrite Z.mod_small by lia. lia.
Qed.

Lemma slice_Some_bounds {A} (s : list A) lo hi bs :
  slice s lo hi = Some bs ->
  0 <= lo /\ lo <= hi /\ hi <= Z.of_nat (length s) /\
  Z.of_nat (length bs) = hi - lo.
Proof.
  unfold slice. intros H.
  destruct (0 <=? lo) eqn:E1; [|discriminate].
  destruct (lo <=? hi) eqn:E2; [|discriminate].
  destruct (hi <=? Z.of_nat (length s)) eqn:E3; [|discriminate].
  simpl in H. injection H as <-.
  apply Z.leb_le in E1, E2, E3.
  rewrite length_take, length_drop. lia.
Qed.

Lemma slice_None_bounds {A} (s : list A) lo hi :
  slice s lo hi = None ->
  lo < 0 \/ hi < lo \/ Z.of_nat (length s) < hi.
Proof.
  unfold slice. intros H.
  destruct (0 <=? lo) eqn:E1; [|apply Z.leb_gt in E1; lia].
  destruct (lo <=? hi) eqn:E2; [|apply Z.leb_gt in E2; lia].
  destruct (hi <=? Z.of_nat (length s)) eqn:E3; [|apply Z.leb_gt in E3; lia].
  discriminate.
Qed.


(** ** The accessor's bounds check *)

Section AccessorFacts.
Import Tsm1.

Context {FloatValue IntegerValue UnsignedValue StringValue BooleanValue : Type}.
Context {FloatArray IntegerArray UnsignedArray StringArray BooleanArray : Type}.
Variable DecodeFloatBlock :
  list Byte.byte -> list FloatValue -> list FloatValue * option error.
Variable DecodeFloatArrayBlock :
  list Byte.byte -> FloatArray -> FloatArray * option error.
Variable DecodeIntegerBlock :
  list Byte.byte -> list IntegerValue -> list IntegerValue * option error.
Variable DecodeIntegerArrayBlock :
  list Byte.byte -> IntegerArray -> IntegerArray * option error.
Variable DecodeUnsignedBlock :
  list Byte.byte -> list UnsignedValue -> list UnsignedValue * option error.
Variable DecodeUnsignedArrayBlock :
  list Byte.byte -> UnsignedArray -> UnsignedArray * option error.
Variable DecodeStringBlock :
  list Byte.byte -> list StringValue -> list StringValue * option error.
Variable DecodeStringArrayBlock :
  list Byte.byte -> StringArray -> StringArray * option error.
Variable DecodeBooleanBlock :
  list Byte.byte -> list BooleanValue -> list BooleanValue * option error.
Variable DecodeBooleanArrayBlock :
  list Byte.byte -> BooleanArray -> BooleanArray * option error.

(** Runs the common start [incAccess; RLock; len(m.b)] of a read. *)
Ltac run_prefix :=
  unfold bind, incAccess, RLock, RUnlock, len_b, modify, get, ret; simpl.

Ltac solve_rejected H :=
  run_prefix; apply Z.ltb_lt in H; rewrite H; reflexivity.

Section Rejected.
Variables (s : State) (entry : IndexEntry).
Hypothesis Hcheck : Z.of_nat (length (b (acc s))) < entry_end entry.

Lemma readFloatBlock_rejected vals :
  readFloatBlock DecodeFloatBlock entry vals s
  = (Ret ([], Some ErrTSMClosed), accessed s).
Proof. unfold readFloatBlock. solve_rejected Hcheck. Qed.

Lemma readFloatArrayBlock_rejected vals :
  readFloatArrayBlock DecodeFloatArrayBlock entry vals s
  = (Ret (vals, Some ErrTSMClosed), accessed s).
Proof. unfold readFloatArrayBlock. solve_rejected Hcheck. Qed.

Lemma readIntegerBlock_rejected vals :
  readIntegerBlock DecodeIntegerBlock entry vals s
  = (Ret ([], Some ErrTSMClosed), accessed s).
Proof. unfold readIntegerBlock. solve_rejected Hcheck. Qed.

Lemma readIntegerArrayBlock_rejected vals :
  readIntegerArrayBlock DecodeIntegerArrayBlock entry vals s
  = (Ret (vals, Some ErrTSMClosed), accessed s).
Proof. unfold readIntegerArrayBlock. solve_rejected Hcheck. Qed.

Lemma readUnsignedBlock_rejected vals :
  readUnsignedBlock DecodeUnsignedBlock entry vals s
  = (Ret ([], Some ErrTSMClosed), accessed s).
Proof. unfold readUnsignedBlock. solve_rejected Hcheck. Qed.

Lemma readUnsignedArrayBlock_rejected vals :
  readUnsignedArrayBlock DecodeUnsignedArrayBlock entry vals s
  = (Ret (vals, Some ErrTSMClosed), accessed s).
Proof. unfold readUnsignedArrayBlock. solve_rejected Hcheck. Qed.

Lemma readStringBlock_rejected vals :
  readStringBlock DecodeStringBlock entry vals s
  = (Ret ([], Some ErrTSMClosed), accessed s).
Proof. unfold readStringBlock. solve_rejected Hcheck. Qed.

Lemma readStringArrayBlock_rejected vals :
  readStringArrayBlock DecodeStringArrayBlock entry vals s
  = (Ret (vals, Some ErrTSMClosed), accessed s).
Proof. unfold readStringArrayBlock. solve_rejected Hcheck. Qed.

Lemma readBooleanBlock_rejected vals :
  readBooleanBlock DecodeBooleanBlock entry vals s
  = (Ret ([], Some ErrTSMClosed), accessed s).
Proof. unfold readBooleanBlock. solve_rejected Hcheck. Qed.

Lemma readBooleanArrayBlock_rejected vals :
  readBooleanArrayBlock DecodeBooleanArrayBlock entry vals s
  = (Ret (vals, Some ErrTSMClosed), accessed s).
Proof. unfold readBooleanArrayBlock. solve_rejected Hcheck. Qed.

End Rejected.

Ltac solve_sliced :=
  unfold well_sliced; run_prefix;
  match goal with |- context [?n <? ?e] => destruct (n <? e) end;
  [ left; reflexivity | ];
  unfold slice_b, bind, get, panic, modify, ret; simpl;
  let Hs := fresh "Hs" in
  match goal with
  | |- context [slice ?l ?lo ?hi] =>
      destruct (slice l lo hi) as [bs|] eqn:Hs; simpl; [ | left; reflexivity ]
  end;
  apply slice_Some_bounds in Hs;
  match goal with
  | |- context [let (_, _) := ?d in _] => destruct d as [? [?|]]
  end; simpl; right; (split; [ reflexivity | lia ]).

Lemma readFloatBlock_sliced s entry vals :
  well_sliced s (readFloatBlock DecodeFloatBlock entry vals s).2 entry.
Proof. unfold readFloatBlock. solve_sliced. Qed.

Lemma readFloatArrayBlock_sliced s entry vals :
  well_sliced s (readFloatArrayBlock DecodeFloatArrayBlock entry vals s).2 entry.
Proof. unfold readFloatArrayBlock. solve_sliced. Qed.

Lemma readIntegerBlock_sliced s entry vals :
  well_sliced s (readIntegerBlock DecodeIntegerBlock entry vals s).2 entry.
Proof. unfold readIntegerBlock. solve_sliced. Qed.

Lemma readIntegerArrayBlock_sliced s entry vals :
  well_sliced s (readIntegerArrayBlock DecodeIntegerArrayBlock entry vals s).2 entry.
Proof. unfold readIntegerArrayBlock. solve_sliced. Qed.

Lemma readUnsignedBlock_sliced s entry vals :
  well_sliced s (readUnsignedBlock DecodeUnsignedBlock entry vals s).2 entry.
Proof. unfold readUnsignedBlock. solve_sliced. Qed.

Lemma readUnsignedArrayBlock_sliced s entry vals :
  well_sliced s (readUnsignedArrayBlock DecodeUnsignedArrayBlock entry vals s).2 entry.
Proof. unfold readUnsignedArrayBlock. solve_sliced. Qed.

Lemma readStringBlock_sliced s entry vals :
  well_sliced s (readStringBlock DecodeStringBlock entry vals s).2 entry.
Proof. unfold readStringBlock. solve_sliced. Qed.

Lemma readStringArrayBlock_sliced s entry vals :
  well_sliced s (readStringArrayBlock DecodeStringArrayBlock entry vals s).2 entry.
Proof. unfold readStringArrayBlock. solve_sliced. Qed.

Lemma readBooleanBlock_sliced s entry vals :
  well_sliced s (readBooleanBlock DecodeBooleanBlock entry vals s).2 entry.
Proof. unfold readBooleanBlock. solve_sliced. Qed.

Lemma readBooleanArrayBlock_sliced s entry vals :
  well_sliced s (readBooleanArrayBlock DecodeBooleanArrayBlock entry vals s).2 entry.
Proof. unfold readBooleanArrayBlock. solve_sliced. Qed.

(** C1.  Every typed block read of the memory-mapped accessor
    ([readFloatBlock], [readIntegerBlock], [readUnsignedBlock],
    [readStringBlock], [readBooleanBlock] and their Array variants)
    compares [entry.Offset + entry.Size] with the length of the mapped
    region before it decodes: a decoder is handed bytes of the region
    only, and whenever the length is smaller than [entry.Offset +
    entry.Size] (in [int64] arithmetic, as the code computes it) the call
    returns [ErrTSMClosed], with no values, without having handed any
    byte to a decoder and with the read lock released. *)
Theorem C1_reads_are_guarded_by_the_bounds_check
  (s : State) (entry : IndexEntry)
  (fv : list FloatValue) (fa : FloatArray)
  (iv : list IntegerValue) (ia : IntegerArray)
  (uv : list UnsignedValue) (ua : UnsignedArray)
  (sv : list StringValue) (sa : StringArray)
  (bv : list BooleanValue) (ba : BooleanArray) :
  guarded s entry [] (readFloatBlock DecodeFloatBlock entry fv s) /\
  guarded s entry fa (readFloatArrayBlock DecodeFloatArrayBlock entry fa s) /\
  guarded s entry [] (readIntegerBlock DecodeIntegerBlock entry iv s) /\
  guarded s entry ia (readIntegerArrayBlock DecodeIntegerArrayBlock entry ia s) /\
  guarded s entry [] (readUnsignedBlock DecodeUnsignedBlock entry uv s) /\
  guarded s entry ua (readUnsignedArrayBlock DecodeUnsignedArrayBlock entry ua s) /\
  guarded s entry [] (readStringBlock DecodeStringBlock entry sv s) /\
  guarded s entry sa (readStringArrayBlock DecodeStringArrayBlock entry sa s) /\
  guarded s entry [] (readBooleanBlock DecodeBooleanBlock entry bv s) /\
  guarded s entry ba (readBooleanArrayBlock DecodeBooleanArrayBlock entry ba s).
Proof.
  repeat split;
    first
      [ apply readFloatBlock_sliced | apply readFloatArrayBlock_sliced
      | apply readIntegerBlock_sliced | apply readIntegerArrayBlock_sliced
      | apply readUnsignedBlock_sliced | apply readUnsignedArrayBlock_sliced
      | apply readStringBlock_sliced | apply readStringArrayBlock_sliced
      | apply readBooleanBlock_sliced | apply readBooleanArrayBlock_sliced
      | intros H;
        first
          [ apply readFloatBlock_rejected | apply readFloatArrayBlock_rejected
          | apply readIntegerBlock_rejected | apply readIntegerArrayBlock_rejected
          | apply readUnsignedBlock_rejected | apply readUnsignedArrayBlock_rejected
          | apply readStringBlock_rejected | apply readStringArrayBlock_rejected
          | apply readBooleanBlock_rejected | apply readBooleanArrayBlock_rejected ];
        exact H ].
Qed.

(** C9.  When the bounds check of a typed block read fails, the error is
    the one value [ErrTSMClosed] whether the accessor is closed (no bytes
    mapped) or open and handed an entry that reaches past the region: the
    two calls return the same thing, so a caller cannot tell a closed
    accessor from a stale or corrupt index entry. *)
Theorem C9_out_of_range_is_reported_as_closed
  (s1 s2 : State) (e1 e2 : IndexEntry)
  (fv : list FloatValue) (fa : FloatArray)
  (iv : list IntegerValue) (ia : IntegerArray)
  (uv : list UnsignedValue) (ua : UnsignedArray)
  (sv : list StringValue) (sa : StringArray)
  (bv : list BooleanValue) (ba : BooleanArray) :
  closed (acc s1) -> ~ closed (acc s2) ->
  Z.of_nat (length (b (acc s1))) < entry_end e1 ->
  Z.of_nat (length (b (acc s2))) < entry_end e2 ->
  same_closed_error [] (readFloatBlock DecodeFloatBlock e1 fv s1) (readFloatBlock DecodeFloatBlock e2 fv s2) /\
  same_closed_error fa (readFloatArrayBlock DecodeFloatArrayBlock e1 fa s1) (readFloatArrayBlock DecodeFloatArrayBlock e2 fa s2) /\
  same_closed_error [] (readIntegerBlock DecodeIntegerBlock e1 iv s1) (readIntegerBlock DecodeIntegerBlock e2 iv s2) /\
  same_closed_error ia (readIntegerArrayBlock DecodeIntegerArrayBlock e1 ia s1) (readIntegerArrayBlock DecodeIntegerArrayBlock e2 ia s2) /\
  same_closed_error [] (readUnsignedBlock DecodeUnsignedBlock e1 uv s1) (readUnsignedBlock DecodeUnsignedBlock e2 uv s2) /\
  same_closed_error ua (readUnsignedArrayBlock DecodeUnsignedArrayBlock e1 ua s1) (readUnsignedArrayBlock DecodeUnsignedArrayBlock e2 ua s2) /\
  same_closed_error [] (readStringBlock DecodeStringBlock e1 sv s1) (readStringBlock DecodeStringBlock e2 sv s2) /\
  same_closed_error sa (readStringArrayBlock DecodeStringArrayBlock e1 sa s1) (readStringArrayBlock DecodeStringArrayBlock e2 sa s2) /\
  same_closed_error [] (readBooleanBlock DecodeBooleanBlock e1 bv s1) (readBooleanBlock DecodeBooleanBlock e2 bv s2) /\
  same_closed_error ba (readBooleanArrayBlock DecodeBooleanArrayBlock e1 ba s1) (readBooleanArrayBlock DecodeBooleanArrayBlock e2 ba s2).
Proof.
  intros _ _ H1 H2. unfold same_closed_error.
  rewrite (readFloatBlock_rejected s1 e1 H1), (readFloatBlock_rejected s2 e2 H2).
  rewrite (readFloatArrayBlock_rejected s1 e1 H1), (readFloatArrayBlock_rejected s2 e2 H2).
  rewrite (readIntegerBlock_rejected s1 e1 H1), (readIntegerBlock_rejected s2 e2 H2).
  rewrite (readIntegerArrayBlock_rejected s1 e1 H1), (readIntegerArrayBlock_rejected s2 e2 H2).
  rewrite (readUnsignedBlock_rejected s1 e1 H1), (readUnsignedBlock_rejected s2 e2 H2).
  rewrite (readUnsignedArrayBlock_rejected s1 e1 H1), (readUnsignedArrayBlock_rejected s2 e2 H2).
  rewrite (readStringBlock_rejected s1 e1 H1), (readStringBlock_rejected s2 e2 H2).
  rewrite (readStringArrayBlock_rejected s1 e1 H1), (readStringArrayBlock_rejected s2 e2 H2).
  rewrite (readBooleanBlock_rejected s1 e1 H1), (readBooleanBlock_rejected s2 e2 H2).
  rewrite (readBooleanArrayBlock_rejected s1 e1 H1), (readBooleanArrayBlock_rejected s2 e2 H2).
  simpl. repeat split.
Qed.

End AccessorFacts.

(** ** The typed reads of a TSMReader over a mapped file *)

Section ReaderFacts.
Import Tsm1.

Context {FloatValue IntegerValue UnsignedValue StringValue BooleanValue : Type}.
Context {FloatArray IntegerArray UnsignedArray StringArray BooleanArray : Type}.
Variable DecodeFloatBlock :
  list Byte.byte -> list FloatValue -> list FloatValue * option error.
Variable DecodeFloatArrayBlock :
  list Byte.byte -> FloatArray -> FloatArray * option error.
Variable DecodeIntegerBlock :
  list Byte.byte -> list IntegerValue -> list IntegerValue * option error.
Variable DecodeIntegerArrayBlock :
  list Byte.byte -> IntegerArray -> IntegerArray * option error.
Variable DecodeUnsignedBlock :
  list Byte.byte -> list UnsignedValue -> list UnsignedValue * option error.
Variable DecodeUnsignedArrayBlock :
  list Byte.byte -> UnsignedArray -> UnsignedArray * option error.
Variable DecodeStringBlock :
  list Byte.byte -> list StringValue -> list StringValue * option error.
Variable DecodeStringArrayBlock :
  list Byte.byte -> StringArray -> StringArray * option error.
Variable DecodeBooleanBlock :
  list Byte.byte -> list BooleanValue -> list BooleanValue * option error.
Variable DecodeBooleanArrayBlock :
  list Byte.byte -> BooleanArray -> BooleanArray * option error.

Local Abbreviation mmap :=
  (mmap_blockAccessor DecodeFloatBlock DecodeFloatArrayBlock
     DecodeIntegerBlock DecodeIntegerArrayBlock DecodeUnsignedBlock
     DecodeUnsignedArrayBlock DecodeStringBlock DecodeStringArrayBlock
     DecodeBooleanBlock DecodeBooleanArrayBlock).

(** The bounds of a valid entry do not wrap, pass the check and cut the
    block after its checksum out of the region. *)
Lemma valid_entry_bounds m entry :
  valid_entry m entry ->
  entry_end entry = Offset entry + Size entry /\
  entry_payload entry = Offset entry + 4 /\
  (Z.of_nat (length (b m)) <? Offset entry + Size entry) = false /\
  slice (b m) (Offset entry + 4) (Offset entry + Size entry)
  = Some (payload_bytes m entry).
Proof.
  intros (HO & HS & Hend & Hlen).
  unfold entry_end, entry_payload, add64.
  rewrite !wrap64_small by (unfold in_int64; lia).
  split; [reflexivity|]. split; [reflexivity|].
  split; [apply Z.ltb_ge; lia|].
  unfold slice, payload_bytes.
  replace (0 <=? Offset entry + 4) with true by (symmetry; apply Z.leb_le; lia).
  replace (Offset entry + 4 <=? Offset entry + Size entry) with true
    by (symmetry; apply Z.leb_le; lia).
  replace (Offset entry + Size entry <=? Z.of_nat (length (b m))) with true
    by (symmetry; apply Z.leb_le; lia).
  simpl. do 2 f_equal. lia.
Qed.

(** The slice of a short entry is out of bounds although the check
    passes. *)
Lemma short_entry_bounds m entry :
  short_entry m entry ->
  (Z.of_nat (length (b m)) <? entry_end entry) = false /\
  slice (b m) (entry_payload entry) (entry_end entry) = None.
Proof.
  intros (Hend & Hbad). split; [apply Z.ltb_ge; lia|].
  unfold slice.
  destruct (0 <=? entry_payload entry) eqn:E1; [|reflexivity].
  destruct (entry_payload entry <=? entry_end entry) eqn:E2; [|reflexivity].
  apply Z.leb_le in E1, E2. lia.
Qed.

Ltac run_read :=
  unfold slice_b, incAccess, RLock, RUnlock, len_b;
  unfold bind, modify, get, ret, panic; simpl.

Ltac solve_valid H :=
  destruct (valid_entry_bounds _ _ H) as (-> & -> & Hc & Hs);
  run_read; rewrite Hc; simpl; rewrite Hs; simpl;
  unfold values_or_error;
  match goal with
  | |- context [let (_, _) := ?d in _] => destruct d as [? [?|]]
  end; reflexivity.

Ltac solve_short H :=
  destruct (short_entry_bounds _ _ H) as (Hc & Hs);
  run_read; rewrite Hc; simpl; rewrite Hs; reflexivity.

Section Valid.
Variables (s : State) (entry : IndexEntry).
Hypothesis Hvalid : valid_entry (acc s) entry.

Let s' : State :=
  {| acc := acc (accessed s);
     reads := reads s ++ [(Offset entry + 4, Offset entry + Size entry)] |}.

Lemma readFloatBlock_valid vals :
  readFloatBlock DecodeFloatBlock entry vals s
  = (Ret (values_or_error
            (DecodeFloatBlock (payload_bytes (acc s) entry) vals)), s').
Proof. unfold readFloatBlock, s'. solve_valid Hvalid. Qed.

Lemma readIntegerBlock_valid vals :
  readIntegerBlock DecodeIntegerBlock entry vals s
  = (Ret (values_or_error
            (DecodeIntegerBlock (payload_bytes (acc s) entry) vals)), s').
Proof. unfold readIntegerBlock, s'. solve_valid Hvalid. Qed.

Lemma readUnsignedBlock_valid vals :
  readUnsignedBlock DecodeUnsignedBlock entry vals s
  = (Ret (values_or_error
            (DecodeUnsignedBlock (payload_bytes (acc s) entry) vals)), s').
Proof. unfold readUnsignedBlock, s'. solve_valid Hvalid. Qed.

Lemma readStringBlock_valid vals :
  readStringBlock DecodeStringBlock entry vals s
  = (Ret (values_or_error
            (DecodeStringBlock (payload_bytes (acc s) entry) vals)), s').
Proof. unfold readStringBlock, s'. solve_valid Hvalid. Qed.

Lemma readBooleanBlock_valid vals :
  readBooleanBlock DecodeBooleanBlock entry vals s
  = (Ret (values_or_error
            (DecodeBooleanBlock (payload_bytes (acc s) entry) vals)), s').
Proof. unfold readBooleanBlock, s'. solve_valid Hvalid. Qed.

Lemma readFloatArrayBlock_valid vals :
  readFloatArrayBlock DecodeFloatArrayBlock entry vals s
  = (Ret (DecodeFloatArrayBlock (payload_bytes (acc s) entry) vals), s').
Proof. unfold readFloatArrayBlock, s'. solve_valid Hvalid. Qed.

Lemma readIntegerArrayBlock_valid vals :
  readIntegerArrayBlock DecodeIntegerArrayBlock entry vals s
  = (Ret (DecodeIntegerArrayBlock (payload_bytes (acc s) entry) vals), s').
Proof. unfold readIntegerArrayBlock, s'. solve_valid Hvalid. Qed.

Lemma readUnsignedArrayBlock_valid vals :
  readUnsignedArrayBlock DecodeUnsignedArrayBlock entry vals s
  = (Ret (DecodeUnsignedArrayBlock (payload_bytes (acc s) entry) vals), s').
Proof. unfold readUnsignedArrayBlock, s'. solve_valid Hvalid. Qed.

Lemma readStringArrayBlock_valid vals :
  readStringArrayBlock DecodeStringArrayBlock entry vals s
  = (Ret (DecodeStringArrayBlock (payload_bytes (acc s) entry) vals), s').
Proof. unfold readStringArrayBlock, s'. solve_valid Hvalid. Qed.

Lemma readBooleanArrayBlock_valid vals :
  readBooleanArrayBlock DecodeBooleanArrayBlock entry vals s
  = (Ret (DecodeBooleanArrayBlock (payload_bytes (acc s) entry) vals), s').
Proof. unfold readBooleanArrayBlock, s'. solve_valid Hvalid. Qed.

End Valid.

Section Short.
Variables (s : State) (entry : IndexEntry).
Hypothesis Hshort : short_entry (acc s) entry.

Let s' : State :=
  {| acc := {| accessCount := (accessCount (acc s) + 1) mod 2 ^ 64;
               mu_readers := S (mu_readers (acc s));
               b := b (acc s) |};
     reads := reads s |}.

Lemma readFloatBlock_short vals :
  readFloatBlock DecodeFloatBlock entry vals s
  = (Panic "slice bounds out of range", s').
Proof. unfold readFloatBlock, s'. solve_short Hshort. Qed.

Lemma readFloatArrayBlock_short vals :
  readFloatArrayBlock DecodeFloatArrayBlock entry vals s
  = (Panic "slice bounds out of range", s').
Proof. unfold readFloatArrayBlock, s'. solve_short Hshort. Qed.

Lemma readIntegerBlock_short vals :
  readIntegerBlock DecodeIntegerBlock entry vals s
  = (Panic "slice bounds out of range", s').
Proof. unfold readIntegerBlock, s'. solve_short Hshort. Qed.

Lemma readIntegerArrayBlock_short vals :
  readIntegerArrayBlock DecodeIntegerArrayBlock entry vals s
  = (Panic "slice bounds out of range", s').
Proof. unfold readIntegerArrayBlock, s'. solve_short Hshort. Qed.

Lemma readUnsignedBlock_short vals :
  readUnsignedBlock DecodeUnsignedBlock entry vals s
  = (Panic "slice bounds out of range", s').
Proof. unfold readUnsignedBlock, s'. solve_short Hshort. Qed.

Lemma readUnsignedArrayBlock_short vals :
  readUnsignedArrayBlock DecodeUnsignedArrayBlock entry vals s
  = (Panic "slice bounds out of range", s').
Proof. unfold readUnsignedArrayBlock, s'. solve_short Hshort. Qed.

Lemma readStringBlock_short vals :
  readStringBlock DecodeStringBlock entry vals s
  = (Panic "slice bounds out of range", s').
Proof. unfold readStringBlock, s'. solve_short Hshort. Qed.

Lemma readStringArrayBlock_short vals :
  readStringArrayBlock DecodeStringArrayBlock entry vals s
  = (Panic "slice bounds out of range", s').
Proof. unfold readStringArrayBlock, s'. solve_short Hshort. Qed.

Lemma readBooleanBlock_short vals :
  readBooleanBlock DecodeBooleanBlock entry vals s
  = (Panic "slice bounds out of range", s').
Proof. unfold readBooleanBlock, s'. solve_short Hshort. Qed.

Lemma readBooleanArrayBlock_short vals :
  readBooleanArrayBlock DecodeBooleanArrayBlock entry vals s
  = (Panic "slice bounds out of range", s').
Proof. unfold readBooleanArrayBlock, s'. solve_short Hshort. Qed.

End Short.

(** A read of the reader whose accessor call returns gives the result on
    and has released the reader's lock; one whose accessor call panics
    never reaches [t.mu.RUnlock()]. *)
Lemma locked_call_Ret {Acc A} (c : M Acc A) (t : TSMReader Acc) r a' :
  c (accessor t) = (Ret r, a') ->
  (t_RLock ;; r <- on_accessor c ;; t_RUnlock ;; ret r) t
  = (Ret r, {| t_mu_readers := t_mu_readers t; accessor := a' |}).
Proof.
  intros Hc. unfold bind, t_RLock, t_RUnlock, on_accessor, modify, ret. simpl.
  rewrite Hc. reflexivity.
Qed.

Lemma locked_call_Panic {Acc A} (c : M Acc A) (t : TSMReader Acc) msg a' :
  c (accessor t) = (Panic msg, a') ->
  (t_RLock ;; r <- on_accessor c ;; t_RUnlock ;; ret r) t
  = (Panic msg, {| t_mu_readers := S (t_mu_readers t); accessor := a' |}).
Proof.
  intros Hc. unfold bind, t_RLock, t_RUnlock, on_accessor, modify, ret. simpl.
  rewrite Hc. reflexivity.
Qed.

(** X1. The reads of the [Read<T>BlockAt] family on an entry whose block
    lies inside the mapped region hand the decoder exactly the bytes of
    the block after its four-byte checksum, [b[Offset+4 : Offset+Size]],
    and return what it decoded, or no values and its error when it
    fails; the access is counted and both read locks, the reader's and
    the accessor's, are released. *)
Theorem X1_value_reads_decode_the_block_after_its_checksum
  (t : TSMReader State) (entry : IndexEntry)
  (fv : list FloatValue) (iv : list IntegerValue) (uv : list UnsignedValue)
  (sv : list StringValue) (bv : list BooleanValue) :
  valid_entry (acc (accessor t)) entry ->
  let blk := payload_bytes (acc (accessor t)) entry in
  let t' := after_read t [(Offset entry + 4, Offset entry + Size entry)] in
  ReadFloatBlockAt (H := mmap) entry fv t
  = (Ret (values_or_error (DecodeFloatBlock blk fv)), t') /\
  ReadIntegerBlockAt (H := mmap) entry iv t
  = (Ret (values_or_error (DecodeIntegerBlock blk iv)), t') /\
  ReadUnsignedBlockAt (H := mmap) entry uv t
  = (Ret (values_or_error (DecodeUnsignedBlock blk uv)), t') /\
  ReadStringBlockAt (H := mmap) entry sv t
  = (Ret (values_or_error (DecodeStringBlock blk sv)), t') /\
  ReadBooleanBlockAt (H := mmap) entry bv t
  = (Ret (values_or_error (DecodeBooleanBlock blk bv)), t').
Proof.
  intros Hvalid blk t'. subst blk t'. unfold after_read.
  split_and!.
  - apply locked_call_Ret. simpl. apply readFloatBlock_valid, Hvalid.
  - apply locked_call_Ret. simpl. apply readIntegerBlock_valid, Hvalid.
  - apply locked_call_Ret. simpl. apply readUnsignedBlock_valid, Hvalid.
  - apply locked_call_Ret. simpl. apply readStringBlock_valid, Hvalid.
  - apply locked_call_Ret. simpl. apply readBooleanBlock_valid, Hvalid.
Qed.

(** X2. The reads of the [Read<T>ArrayBlockAt] family on an entry whose
    block lies inside the mapped region hand the decoder the same bytes
    and return the array as the decoder left it together with the
    decoder's error, also when the decoder fails; both read locks are
    released. *)
Theorem X2_array_reads_pass_the_decoder_result_on
  (t : TSMReader State) (entry : IndexEntry)
  (fa : FloatArray) (ia : IntegerArray) (ua : UnsignedArray)
  (sa : StringArray) (ba : BooleanArray) :
  valid_entry (acc (accessor t)) entry ->
  let blk := payload_bytes (acc (accessor t)) entry in
  let t' := after_read t [(Offset entry + 4, Offset entry + Size entry)] in
  ReadFloatArrayBlockAt (H := mmap) entry fa t
  = (Ret (DecodeFloatArrayBlock blk fa), t') /\
  ReadIntegerArrayBlockAt (H := mmap) entry ia t
  = (Ret (DecodeIntegerArrayBlock blk ia), t') /\
  ReadUnsignedArrayBlockAt (H := mmap) entry ua t
  = (Ret (DecodeUnsignedArrayBlock blk ua), t') /\
  ReadStringArrayBlockAt (H := mmap) entry sa t
  = (Ret (DecodeStringArrayBlock blk sa), t') /\
  ReadBooleanArrayBlockAt (H := mmap) entry ba t
  = (Ret (DecodeBooleanArrayBlock blk ba), t').
Proof.
  intros Hvalid blk t'. subst blk t'. unfold after_read.
  split_and!.
  - apply locked_call_Ret. simpl. apply readFloatArrayBlock_valid, Hvalid.
  - apply locked_call_Ret. simpl. apply readIntegerArrayBlock_valid, Hvalid.
  - apply locked_call_Ret. simpl. apply readUnsignedArrayBlock_valid, Hvalid.
  - apply locked_call_Ret. simpl. apply readStringArrayBlock_valid, Hvalid.
  - apply locked_call_Ret. simpl. apply readBooleanArrayBlock_valid, Hvalid.
Qed.

(** X3. An entry that passes the bounds check while its block is shorter
    than the checksum ([Size < 4]) or starts before the region makes each
    of the ten reads panic on the slice expression; the unlock calls are
    not deferred, so the panic leaves both read locks held, and nothing
    was handed to a decoder. *)
Theorem X3_short_entry_panics_with_both_read_locks_held
  (t : TSMReader State) (entry : IndexEntry)
  (fv : list FloatValue) (fa : FloatArray)
  (iv : list IntegerValue) (ia : IntegerArray)
  (uv : list UnsignedValue) (ua : UnsignedArray)
  (sv : list StringValue) (sa : StringArray)
  (bv : list BooleanValue) (ba : BooleanArray) :
  short_entry (acc (accessor t)) entry ->
  let stuck {A} : Outcome A * TSMReader State :=
    (Panic "slice bounds out of range", stuck_in_read t) in
  ReadFloatBlockAt (H := mmap) entry fv t = stuck /\
  ReadFloatArrayBlockAt (H := mmap) entry fa t = stuck /\
  ReadIntegerBlockAt (H := mmap) entry iv t = stuck /\
  ReadIntegerArrayBlockAt (H := mmap) entry ia t = stuck /\
  ReadUnsignedBlockAt (H := mmap) entry uv t = stuck /\
  ReadUnsignedArrayBlockAt (H := mmap) entry ua t = stuck /\
  ReadStringBlockAt (H := mmap) entry sv t = stuck /\
  ReadStringArrayBlockAt (H := mmap) entry sa t = stuck /\
  ReadBooleanBlockAt (H := mmap) entry bv t = stuck /\
  ReadBooleanArrayBlockAt (H := mmap) entry ba t = stuck.
Proof.
  intros Hshort stuck. subst stuck. unfold stuck_in_read.
  split_and!.
  - apply locked_call_Panic. simpl. apply readFloatBlock_short, Hshort.
  - apply locked_call_Panic. simpl. apply readFloatArrayBlock_short, Hshort.
  - apply locked_call_Panic. simpl. apply readIntegerBlock_short, Hshort.
  - apply locked_call_Panic. simpl. apply readIntegerArrayBlock_short, Hshort.
  - apply locked_call_Panic. simpl. apply readUnsignedBlock_short, Hshort.
  - apply locked_call_Panic. simpl. apply readUnsignedArrayBlock_short, Hshort.
  - apply locked_call_Panic. simpl. apply readStringBlock_short, Hshort.
  - apply locked_call_Panic. simpl. apply readStringArrayBlock_short, Hshort.
  - apply locked_call_Panic. simpl. apply readBooleanBlock_short, Hshort.
  - apply locked_call_Panic. simpl. apply readBooleanArrayBlock_short, Hshort.
Qed.

(** X4. Through the reader, an entry that ends past the mapped region
    makes each of the ten reads return [ErrTSMClosed] beside no values
    (the array untouched); nothing is handed to a decoder and both read
    locks are released. *)
Theorem X4_reader_reports_an_entry_past_the_region_as_closed
  (t : TSMReader State) (entry : IndexEntry)
  (fv : list FloatValue) (fa : FloatArray)
  (iv : list IntegerValue) (ia : IntegerArray)
  (uv : list UnsignedValue) (ua : UnsignedArray)
  (sv : list StringValue) (sa : StringArray)
  (bv : list BooleanValue) (ba : BooleanArray) :
  Z.of_nat (length (b (acc (accessor t)))) < entry_end entry ->
  let t' := after_read t [] in
  ReadFloatBlockAt (H := mmap) entry fv t
  = (Ret ([], Some ErrTSMClosed), t') /\
  ReadFloatArrayBlockAt (H := mmap) entry fa t
  = (Ret (fa, Some ErrTSMClosed), t') /\
  ReadIntegerBlockAt (H := mmap) entry iv t
  = (Ret ([], Some ErrTSMClosed), t') /\
  ReadIntegerArrayBlockAt (H := mmap) entry ia t
  = (Ret (ia, Some ErrTSMClosed), t') /\
  ReadUnsignedBlockAt (H := mmap) entry uv t
  = (Ret ([], Some ErrTSMClosed), t') /\
  ReadUnsignedArrayBlockAt (H := mmap) entry ua t
  = (Ret (ua, Some ErrTSMClosed), t') /\
  ReadStringBlockAt (H := mmap) entry sv t
  = (Ret ([], Some ErrTSMClosed), t') /\
  ReadStringArrayBlockAt (H := mmap) entry sa t
  = (Ret (sa, Some ErrTSMClosed), t') /\
  ReadBooleanBlockAt (H := mmap) entry bv t
  = (Ret ([], Some ErrTSMClosed), t') /\
  ReadBooleanArrayBlockAt (H := mmap) entry ba t
  = (Ret (ba, Some ErrTSMClosed), t').
Proof.
  intros Hcheck t'. subst t'. unfold after_read. rewrite app_nil_r.
  assert (Hs : {| acc := acc (accessed (accessor t));
                  reads := reads (accessor t) |} = accessed (accessor t))
    by reflexivity.
  rewrite Hs.
  split_and!; apply locked_call_Ret; simpl.
  - apply readFloatBlock_rejected, Hcheck.
  - apply readFloatArrayBlock_rejected, Hcheck.
  - apply readIntegerBlock_rejected, Hcheck.
  - apply readIntegerArrayBlock_rejected, Hcheck.
  - apply readUnsignedBlock_rejected, Hcheck.
  - apply readUnsignedArrayBlock_rejected, Hcheck.
  - apply readStringBlock_rejected, Hcheck.
  - apply readStringArrayBlock_rejected, Hcheck.
  - apply readBooleanBlock_rejected, Hcheck.
  - apply readBooleanArrayBlock_rejected, Hcheck.
Qed.

End ReaderFacts.

(** ** The file tree *)

Section TreeFacts.
Import Buildtsi.

Lemma ents_lookup_remove a c es :
  ents_lookup a (ents_remove c es)
  = if String.eqb c a then None else ents_lookup a es.
Proof.
  induction es as [|[n v] es IH]; simpl.
  - destruct (String.eqb c a); reflexivity.
  - destruct (String.eqb n c) eqn:Enc.
    + apply String.eqb_eq in Enc. subst n. rewrite IH.
      destruct (String.eqb c a); reflexivity.
    + simpl. rewrite IH.
      destruct (String.eqb n a) eqn:Ena; [|reflexivity].
      apply String.eqb_eq in Ena. subst n. rewrite String.eqb_sym, Enc.
      reflexivity.
Qed.

Lemma ents_lookup_put a c v es :
  ents_lookup a (ents_put c v es)
  = if String.eqb c a then Some v else ents_lookup a es.
Proof.
  unfold ents_put. simpl. rewrite ents_lookup_remove.
  destruct (String.eqb c a); reflexivity.
Qed.

Lemma fs_remove_step x p es :
  p <> [] ->
  fs_remove (x :: p) (Dir es)
  = match ents_lookup x es with
    | Some n' => Dir (ents_put x (fs_remove p n') es)
    | None => Dir es
    end.
Proof. destruct p; [congruence | reflexivity]. Qed.

(** Removing one entry of a directory leaves its siblings alone. *)
Lemma fs_lookup_remove_sibling d a c t :
  a <> c ->
  fs_lookup (d ++ [a]) (fs_remove (d ++ [c]) t) = fs_lookup (d ++ [a]) t.
Proof.
  intros Hne. revert t. induction d as [|x d IH]; intros t.
  - destruct t as [data|es|ix]; simpl; try reflexivity.
    rewrite ents_lookup_remove.
    destruct (String.eqb c a) eqn:E; [|reflexivity].
    apply String.eqb_eq in E. congruence.
  - destruct t as [data|es|ix]; try reflexivity.
    change ((x :: d) ++ [c]) with (x :: (d ++ [c])).
    change ((x :: d) ++ [a]) with (x :: (d ++ [a])).
    rewrite fs_remove_step by (destruct d; discriminate).
    destruct (ents_lookup x es) as [n'|] eqn:El.
    + cbn [fs_lookup]. rewrite ents_lookup_put, String.eqb_refl, El. apply IH.
    + reflexivity.
Qed.

(** A path that was removed is missing. *)
Lemma fs_lookup_remove_same p t n :
  p <> [] -> fs_lookup p t = Found n -> fs_lookup p (fs_remove p t) = Missing.
Proof.
  revert t. induction p as [|x p IH]; intros t Hne Hf; [congruence|].
  destruct t as [data|es|ix]; try discriminate.
  cbn [fs_lookup] in Hf. cbn [fs_remove].
  destruct (ents_lookup x es) as [n'|] eqn:El; [|discriminate].
  destruct p as [|y p'].
  - cbn [fs_lookup]. rewrite ents_lookup_remove, String.eqb_refl. reflexivity.
  - cbn [fs_lookup]. rewrite ents_lookup_put, String.eqb_refl.
    apply IH; [discriminate | exact Hf].
Qed.

(** What was put at a path is found there. *)
Lemma fs_lookup_put_same p v t t' :
  fs_put p v t = Some t' -> fs_lookup p t' = Found v.
Proof.
  revert t t'. induction p as [|x p IH]; intros t t' Hp.
  - simpl in Hp. injection Hp as <-. reflexivity.
  - destruct t as [data|es|ix]; try discriminate.
    cbn [fs_put] in Hp.
    destruct (fs_put p v (default (Dir []) (ents_lookup x es))) as [n'|] eqn:E;
      [|discriminate].
    injection Hp as <-. cbn [fs_lookup].
    rewrite ents_lookup_put, String.eqb_refl. eapply IH, E.
Qed.

(** Putting one entry into a directory leaves its siblings alone. *)
Lemma fs_lookup_put_sibling d a c v t t' :
  a <> c -> fs_put (d ++ [c]) v t = Some t' ->
  fs_lookup (d ++ [a]) t' = fs_lookup (d ++ [a]) t.
Proof.
  intros Hne. revert t t'. induction d as [|x d IH]; intros t t' Hp.
  - destruct t as [data|es|ix]; try discriminate.
    simpl in Hp. injection Hp as <-.
    change ([] ++ [a]) with [a]. cbn [fs_lookup].
    rewrite ents_lookup_put.
    destruct (String.eqb c a) eqn:E; [|reflexivity].
    apply String.eqb_eq in E. congruence.
  - destruct t as [data|es|ix]; try discriminate.
    change ((x :: d) ++ [c]) with (x :: (d ++ [c])) in Hp.
    change ((x :: d) ++ [a]) with (x :: (d ++ [a])).
    cbn [fs_put] in Hp.
    destruct (fs_put (d ++ [c]) v (default (Dir []) (ents_lookup x es)))
      as [n'|] eqn:E; [|discriminate].
    injection Hp as <-. cbn [fs_lookup].
    rewrite ents_lookup_put, String.eqb_refl.
    rewrite (IH _ _ E).
    destruct (ents_lookup x es) as [n0|]; [reflexivity|].
    simpl. destruct d; reflexivity.
Qed.

(** A path that exists can be overwritten. *)
Lemma fs_put_found p v t n :
  fs_lookup p t = Found n -> exists t', fs_put p v t = Some t'.
Proof.
  revert t. induction p as [|x p IH]; intros t Hf.
  - eexists. reflexivity.
  - destruct t as [data|es|ix]; try discriminate.
    cbn [fs_lookup] in Hf. cbn [fs_put].
    destruct (ents_lookup x es) as [n'|] eqn:El; [|discriminate].
    destruct (IH _ Hf) as [t' Ht']. simpl. rewrite Ht'. eexists. reflexivity.
Qed.

(** After an entry of a directory is removed the directory is still
    there. *)
Lemma fs_lookup_parent_after_remove d a t n :
  fs_lookup (d ++ [a]) t = Found n ->
  exists es, fs_lookup d (fs_remove (d ++ [a]) t) = Found (Dir es).
Proof.
  revert t. induction d as [|x d IH]; intros t Hf.
  - destruct t as [data|es|ix]; try discriminate.
    eexists. reflexivity.
  - destruct t as [data|es|ix]; try discriminate.
    change ((x :: d) ++ [a]) with (x :: (d ++ [a])) in *.
    cbn [fs_lookup] in Hf.
    rewrite fs_remove_step by (destruct d; discriminate).
    destruct (ents_lookup x es) as [n'|] eqn:El; [|discriminate].
    cbn [fs_lookup]. rewrite ents_lookup_put, String.eqb_refl.
    apply IH, Hf.
Qed.

(** An entry can be put into a directory that exists. *)
Lemma fs_put_in_dir d c v t es :
  fs_lookup d t = Found (Dir es) -> exists t', fs_put (d ++ [c]) v t = Some t'.
Proof.
  revert t. induction d as [|x d IH]; intros t Hf.
  - simpl in Hf. injection Hf as ->. eexists. reflexivity.
  - destruct t as [data|es0|ix]; try discriminate.
    change ((x :: d) ++ [c]) with (x :: (d ++ [c])).
    cbn [fs_lookup] in Hf. cbn [fs_put].
    destruct (ents_lookup x es0) as [n'|] eqn:El; [|discriminate].
    destruct (IH _ Hf) as [t' Ht']. cbn [default]. simpl. rewrite Ht'.
    eexists. reflexivity.
Qed.

End TreeFacts.

(** ** Batching *)

Section BatchFacts.
Import Buildtsi.
Context {A : Type}.

Lemma batches_spec (b : nat) (l cur : list A) :
  (0 < b)%nat -> (length cur < b)%nat ->
  concat (batches b cur l).1 ++ (batches b cur l).2 = cur ++ l /\
  Forall (fun c => length c = b) (batches b cur l).1 /\
  (length (batches b cur l).2 < b)%nat.
Proof.
  intros Hb. revert cur. induction l as [|x l IH]; intros cur Hcur.
  - simpl. rewrite app_nil_r. auto.
  - simpl. destruct (Nat.eqb (length (cur ++ [x])) b) eqn:E.
    + apply Nat.eqb_eq in E. destruct (IH [] Hb) as (H1 & H2 & H3).
      cbn [fst snd]. split; [|split].
      * simpl. rewrite <- app_assoc, H1. simpl. rewrite <- app_assoc.
        reflexivity.
      * constructor; assumption.
      * exact H3.
    + apply Nat.eqb_neq in E.
      assert (Hlt : (length (cur ++ [x]) < b)%nat).
      { rewrite length_app in *. simpl in *. lia. }
      destruct (IH (cur ++ [x]) Hlt) as (H1 & H2 & H3).
      split; [|split]; try assumption.
      rewrite H1, <- app_assoc. reflexivity.
Qed.

Lemma length_concat_uniform (b : nat) (bs : list (list A)) :
  Forall (fun c => length c = b) bs -> length (concat bs) = (length bs * b)%nat.
Proof.
  induction 1 as [|c bs Hc _ IH]; [reflexivity|].
  simpl. rewrite length_app, IH, Hc. reflexivity.
Qed.

(** The batches cut the sequence into [ceil(k/b)] pieces, all full but
    possibly the last. *)
Lemma all_batches_batched (b : Z) (l : list A) :
  0 < b -> batched b l (all_batches (Z.to_nat b) l).
Proof.
  intros Hb. unfold batched, all_batches.
  destruct (batches_spec (Z.to_nat b) l []) as (H1 & H2 & H3);
    [lia | simpl; lia |].
  set (bs := (batches (Z.to_nat b) [] l).1) in *.
  set (r := (batches (Z.to_nat b) [] l).2) in *.
  simpl in H1.
  assert (Hlen : length l = (length bs * Z.to_nat b + length r)%nat).
  { rewrite <- H1, length_app, (length_concat_uniform _ _ H2). reflexivity. }
  split; [|split].
  - rewrite Hlen, length_app.
    destruct r as [|y r'].
    + simpl. apply Z.div_unique with (r := b - 1); [lia|]. nia.
    + simpl length in *.
      apply Z.div_unique with (r := Z.of_nat (length r')); [lia|].
      nia.
  - intros i batch Hi Hlt.
    assert (Hin : bs !! i = Some batch).
    { destruct r as [|y r'].
      - rewrite app_nil_r in Hi. exact Hi.
      - rewrite length_app in Hlt. simpl in Hlt.
        rewrite lookup_app_l in Hi by lia. exact Hi. }
    rewrite Forall_lookup in H2. rewrite (H2 _ _ Hin). lia.
  - rewrite concat_app. rewrite <- H1. f_equal.
    destruct r; simpl; [reflexivity | rewrite app_nil_r; reflexivity].
Qed.

End BatchFacts.

(** ** The rebuild: running calls *)

Section RunFacts.
Import Buildtsi.

Lemma bind_Ret {S A B} (c : M S A) (k : A -> M S B) s a s' :
  c s = (Ret a, s') -> bind c k s = k a s'.
Proof. unfold bind. intros ->. reflexivity. Qed.

Lemma bind_Panic {S A B} (c : M S A) (k : A -> M S B) s msg s' :
  c s = (Panic msg, s') -> bind c k s = (Panic msg, s').
Proof. unfold bind. intros ->. reflexivity. Qed.

Lemma bind_Interrupted {S A B} (c : M S A) (k : A -> M S B) s s' :
  c s = (Interrupted, s') -> bind c k s = (Interrupted, s').
Proof. unfold bind. intros ->. reflexivity. Qed.

(** A call either is refused because the process is out of budget, or
    happens: it is appended to the trace and acts on the file tree. *)
Lemma call_cases {A} (ev : Event) (sem : option string -> Node -> A * Node) w :
  call ev sem w = (Interrupted, w) /\ budget w = Some O
  \/ budget w <> Some O /\
     call ev sem w
     = (Ret (sem (faults w (length (trace w)) ev) (fs w)).1,
        {| fs := (sem (faults w (length (trace w)) ev) (fs w)).2;
           trace := trace w ++ [ev];
           faults := faults w;
           budget := Nat.pred <$> budget w |}).
Proof.
  unfold call. destruct (budget w) as [[|n]|] eqn:Hb.
  - left. split; reflexivity.
  - right. split; [discriminate|].
    destruct (sem _ _); reflexivity.
  - right. split; [discriminate|].
    destruct (sem _ _); reflexivity.
Qed.

(** With nobody to interrupt it, a call happens. *)
Lemma call_run {A} (ev : Event) (sem : option string -> Node -> A * Node) w :
  budget w = None ->
  call ev sem w
  = (Ret (sem (faults w (length (trace w)) ev) (fs w)).1,
     {| fs := (sem (faults w (length (trace w)) ev) (fs w)).2;
        trace := trace w ++ [ev];
        faults := faults w;
        budget := None |}).
Proof.
  intros Hb. destruct (call_cases ev sem w) as [[_ H] | [_ H]].
  - congruence.
  - rewrite H, Hb. reflexivity.
Qed.

Lemma log_run lvl msg w :
  budget w = None ->
  log lvl msg w
  = (Ret tt, {| fs := fs w; trace := trace w ++ [EvLog lvl msg];
                faults := faults w; budget := None |}).
Proof. intros Hb. unfold log. rewrite call_run by exact Hb. reflexivity. Qed.

(** [makeslice] accepts a size from zero up to the allocation limit. *)
Lemma out_of_range_false n :
  0 <= n -> slice_header_size * n <= maxAlloc -> out_of_range n = false.
Proof.
  intros H0 Hfits. unfold out_of_range.
  apply orb_false_intro; [apply Z.ltb_ge; lia | apply Z.ltb_ge; exact Hfits].
Qed.

Lemma out_of_range_negative n : n < 0 -> out_of_range n = true.
Proof.
  intros Hn. unfold out_of_range.
  replace (n <? 0) with true by (symmetry; apply Z.ltb_lt; lia). reflexivity.
Qed.

Lemma out_of_range_beyond n :
  maxAlloc < slice_header_size * n -> out_of_range n = true.
Proof.
  intros Hn. unfold out_of_range. apply orb_true_intro. right.
  apply Z.ltb_lt. exact Hn.
Qed.

End RunFacts.

(** ** A program logic for the rebuild *)

Section HoareFacts.
Import Buildtsi.

Variable R : World -> World -> Prop.
Hypothesis R_refl : forall w, R w w.
Hypothesis R_trans : forall w1 w2 w3, R w1 w2 -> R w2 w3 -> R w1 w3.

Lemma hoare_weaken {A} (pre pre' : World -> Prop) (c : M World A)
  (post post' : A -> World -> Prop) :
  hoare R pre c post ->
  (forall w, pre' w -> pre w) -> (forall a w, post a w -> post' a w) ->
  hoare R pre' c post'.
Proof.
  intros H Hpre Hpost w Hw. destruct (H w (Hpre w Hw)) as [HR Hp].
  split; [exact HR|]. intros a Ha. apply Hpost, Hp, Ha.
Qed.

Lemma hoare_ret {A} (pre : World -> Prop) (a : A) (post : A -> World -> Prop) :
  (forall w, pre w -> post a w) -> hoare R pre (ret a) post.
Proof.
  intros H w Hw. split; [apply R_refl|]. simpl. intros a' [= <-]. apply H, Hw.
Qed.

Lemma hoare_panic {A} (pre : World -> Prop) msg (post : A -> World -> Prop) :
  hoare R pre (panic msg) post.
Proof. intros w Hw. split; [apply R_refl|]. simpl. discriminate. Qed.

Lemma hoare_bind {A B} (pre : World -> Prop) (c : M World A)
  (mid : A -> World -> Prop) (k : A -> M World B) (post : B -> World -> Prop) :
  hoare R pre c mid -> (forall a, hoare R (mid a) (k a) post) ->
  hoare R pre (bind c k) post.
Proof.
  intros Hc Hk w Hw. unfold bind. destruct (Hc w Hw) as [HR Hmid].
  destruct (c w) as [[a|msg|] w1]; simpl in *.
  - destruct (Hk a w1 (Hmid a eq_refl)) as [HR' Hpost].
    split; [eapply R_trans; eauto | exact Hpost].
  - split; [exact HR | discriminate].
  - split; [exact HR | discriminate].
Qed.

(** [defer]: the deferred call runs after a return and after a panic, so
    it has to keep [R] from any world. *)
Lemma hoare_defer {A} (pre : World -> Prop) (cleanup : M World unit)
  (body : M World A) (mid post : A -> World -> Prop) :
  hoare R pre body mid ->
  hoare R (fun _ => True) cleanup (fun _ _ => True) ->
  (forall a, hoare R (mid a) cleanup (fun _ => post a)) ->
  hoare R pre (defer cleanup body) post.
Proof.
  intros Hb Hany Hc w Hw. unfold defer. destruct (Hb w Hw) as [HR Hmid].
  destruct (body w) as [[a|msg|] w1]; simpl in *.
  - destruct (Hc a w1 (Hmid a eq_refl)) as [HR' Hpost].
    destruct (cleanup w1) as [[u|msg|] w2]; simpl in *.
    + split; [eapply R_trans; eauto|]. intros a' [= <-]. apply (Hpost u eq_refl).
    + split; [eapply R_trans; eauto | discriminate].
    + split; [eapply R_trans; eauto | discriminate].
  - destruct (Hany w1 I) as [HR' _].
    destruct (cleanup w1) as [[u|msg'|] w2]; simpl in *;
      (split; [eapply R_trans; eauto | discriminate]).
  - split; [exact HR | discriminate].
Qed.

(** A loop: [Inv st] holds of the world at the start of an iteration in
    loop state [st]; [Exit v] holds when the body returns [v] from the
    enclosing function. *)
Lemma hoare_for_each {X St Rt} (Inv : St -> World -> Prop)
  (Exit : Rt -> World -> Prop) (body : X -> St -> M World (St + Rt)) xs :
  (forall x st, hoare R (Inv st) (body x st)
     (fun r w => match r with inl st' => Inv st' w | inr v => Exit v w end)) ->
  forall st, hoare R (Inv st) (for_each xs body st)
     (fun r w => match r with inl st' => Inv st' w | inr v => Exit v w end).
Proof.
  intros Hb. induction xs as [|x xs IH]; intros st.
  - apply hoare_ret. auto.
  - simpl. eapply hoare_bind; [apply Hb|].
    intros [st'|v]; [apply IH | apply hoare_ret; auto].
Qed.

Lemma hoare_call {A} (pre : World -> Prop) ev
  (sem : option string -> Node -> A * Node) (post : A -> World -> Prop) :
  (forall w, pre w ->
     let r := sem (faults w (length (trace w)) ev) (fs w) in
     let w' := {| fs := r.2; trace := trace w ++ [ev];
                  faults := faults w; budget := Nat.pred <$> budget w |} in
     R w w' /\ post r.1 w') ->
  hoare R pre (call ev sem) post.
Proof.
  intros H w Hw. destruct (call_cases ev sem w) as [[-> _] | [_ ->]]; simpl.
  - split; [apply R_refl | discriminate].
  - destruct (H w Hw) as [HR Hp]. split; [exact HR|].
    intros a [= <-]. exact Hp.
Qed.

End HoareFacts.

Section ExtendsFacts.
Import Buildtsi.

Lemma extends_by_refl P w : extends_by P w w.
Proof.
  split; [reflexivity|]. split; [auto|]. exists []. rewrite app_nil_r.
  split; [reflexivity | constructor].
Qed.

Lemma extends_by_trans P w1 w2 w3 :
  extends_by P w1 w2 -> extends_by P w2 w3 -> extends_by P w1 w3.
Proof.
  intros (Hf1 & Hb1 & e1 & Ht1 & HP1) (Hf2 & Hb2 & e2 & Ht2 & HP2).
  split; [congruence|]. split; [auto|].
  exists (e1 ++ e2). split.
  - rewrite Ht2, Ht1, app_assoc. reflexivity.
  - apply Forall_app; split; assumption.
Qed.

Lemma extends_by_weaken (P Q : Event -> Prop) w w' :
  (forall e, P e -> Q e) -> extends_by P w w' -> extends_by Q w w'.
Proof.
  intros HPQ (Hf & Hb & evs & Ht & HP). split; [exact Hf|].
  split; [exact Hb|]. exists evs.
  split; [exact Ht|]. eapply Forall_impl; eauto.
Qed.

Lemma extends_by_one P ev w t :
  P ev ->
  extends_by P w {| fs := t; trace := trace w ++ [ev];
                    faults := faults w; budget := Nat.pred <$> budget w |}.
Proof.
  intros HP. split; [reflexivity|]. split; [cbn; intros ->; reflexivity|].
  exists [ev]. split; [reflexivity|].
  constructor; [exact HP | constructor].
Qed.

Lemma take_S_insert {T} (l : list T) i x y :
  l !! i = Some y -> take (S i) (<[i := x]> l) = take i l ++ [x].
Proof.
  intros Hl. assert (Hlt : (i < length l)%nat) by (eapply lookup_lt_Some; eauto).
  rewrite (take_S_r _ _ x) by (apply list_lookup_insert_eq; exact Hlt).
  rewrite take_insert_ge by lia. reflexivity.
Qed.

(** Steps with nothing to remember about the world. *)
Lemma hoare_bind_any {A B} R (c : M World A) (k : A -> M World B)
  (post : B -> World -> Prop) :
  (forall w1 w2 w3, R w1 w2 -> R w2 w3 -> R w1 w3) ->
  hoare R (fun _ => True) c (fun _ _ => True) ->
  (forall a, hoare R (fun _ => True) (k a) post) ->
  hoare R (fun _ => True) (bind c k) post.
Proof.
  intros Ht Hc Hk. eapply hoare_bind; [exact Ht | exact Hc |].
  intros a. eapply hoare_weaken; [apply Hk | auto | auto].
Qed.

Lemma hoare_call_event {A} P ev (sem : option string -> Node -> A * Node) :
  P ev ->
  hoare (extends_by P) (fun _ => True) (call ev sem) (fun _ _ => True).
Proof.
  intros HP. apply hoare_call; [apply extends_by_refl|].
  intros w _. split; [|exact I]. apply extends_by_one, HP.
Qed.

Lemma hoare_defer_any {A} R (cleanup : M World unit) (body : M World A)
  (post : A -> World -> Prop) :
  (forall w1 w2 w3, R w1 w2 -> R w2 w3 -> R w1 w3) ->
  hoare R (fun _ => True) body (fun a _ => forall w, post a w) ->
  hoare R (fun _ => True) cleanup (fun _ _ => True) ->
  hoare R (fun _ => True) (defer cleanup body) post.
Proof.
  intros Ht Hb Hc. eapply hoare_defer; [exact Ht | exact Hb | exact Hc |].
  intros a w Hw. destruct (Hc w I) as [HR _]. split; [exact HR|].
  intros _ _. apply Hw.
Qed.

Lemma hoare_for_each_any {X St Rt} R
  (body : X -> St -> M World (St + Rt)) xs st :
  (forall w, R w w) ->
  (forall w1 w2 w3, R w1 w2 -> R w2 w3 -> R w1 w3) ->
  (forall x st, hoare R (fun _ => True) (body x st) (fun _ _ => True)) ->
  hoare R (fun _ => True) (for_each xs body st) (fun _ _ => True).
Proof.
  intros Hr Ht Hb. eapply hoare_weaken.
  - apply (hoare_for_each R Hr Ht (fun _ _ => True) (fun _ _ => True)).
    intros x st'. eapply hoare_weaken; [apply Hb | auto |].
    intros [?|?] ? _; exact I.
  - auto.
  - auto.
Qed.

Lemma hoare_rel_weaken {A} (R R' : World -> World -> Prop) pre
  (c : M World A) post :
  (forall w w', R w w' -> R' w w') -> hoare R pre c post -> hoare R' pre c post.
Proof.
  intros HRR H w Hw. destruct (H w Hw) as [HR Hp]. split; [apply HRR, HR | exact Hp].
Qed.

Lemma defer_bind_Ret {S A B} (cleanup : M S unit) (c : M S A)
  (k : A -> M S B) s a s' :
  c s = (Ret a, s') -> defer cleanup (bind c k) s = defer cleanup (k a) s'.
Proof. intros H. unfold defer. rewrite (bind_Ret _ _ _ _ _ H). reflexivity. Qed.

(** Steps under an invariant [I] of the world. *)
Lemma hoare_bind_inv {A B} R (I : World -> Prop) (c : M World A)
  (k : A -> M World B) (post : B -> World -> Prop) :
  (forall w1 w2 w3, R w1 w2 -> R w2 w3 -> R w1 w3) ->
  hoare R I c (fun _ => I) ->
  (forall a, hoare R I (k a) post) ->
  hoare R I (bind c k) post.
Proof. intros Ht Hc Hk. eapply hoare_bind; [exact Ht | exact Hc | exact Hk]. Qed.

Lemma hoare_defer_inv {A} R (I : World -> Prop) (cleanup : M World unit)
  (body : M World A) :
  (forall w1 w2 w3, R w1 w2 -> R w2 w3 -> R w1 w3) ->
  hoare R I body (fun _ => I) ->
  hoare R (fun _ => True) cleanup (fun _ _ => True) ->
  hoare R I cleanup (fun _ => I) ->
  hoare R I (defer cleanup body) (fun _ => I).
Proof.
  intros Ht Hb Hany Hc. eapply hoare_defer; [exact Ht | exact Hb | exact Hany |].
  intros a. exact Hc.
Qed.

Lemma hoare_for_each_inv {X St Rt} R (I : World -> Prop)
  (body : X -> St -> M World (St + Rt)) xs st :
  (forall w, R w w) ->
  (forall w1 w2 w3, R w1 w2 -> R w2 w3 -> R w1 w3) ->
  (forall x st, hoare R I (body x st) (fun _ => I)) ->
  hoare R I (for_each xs body st) (fun _ => I).
Proof.
  intros Hr Ht Hb. eapply hoare_weaken.
  - apply (hoare_for_each R Hr Ht (fun _ => I) (fun _ => I)).
    intros x st'. eapply hoare_weaken; [apply Hb | auto |].
    intros [?|?] ? H; exact H.
  - auto.
  - intros [?|?] ? H; exact H.
Qed.

(** A call that leaves the file tree alone keeps what depends on the
    file tree only. *)
Lemma hoare_call_same {A} R (I : World -> Prop) ev
  (sem : option string -> Node -> A * Node) :
  (forall w, R w w) ->
  (forall fault t, (sem fault t).2 = t) ->
  (forall w tr bud, R w {| fs := fs w; trace := tr; faults := faults w; budget := bud |}) ->
  (forall w tr bud, I w ->
     I {| fs := fs w; trace := tr; faults := faults w; budget := bud |}) ->
  hoare R I (call ev sem) (fun _ => I).
Proof.
  intros Hr Hsame HR HI. apply hoare_call; [exact Hr|].
  intros w Hw. cbv zeta. rewrite Hsame. split; [apply HR | apply HI, Hw].
Qed.

Lemma hoare_pre {A} R (pre pre' : World -> Prop) (c : M World A) post :
  (forall w, pre' w -> pre w) -> hoare R pre c post -> hoare R pre' c post.
Proof. intros Hpre H. eapply hoare_weaken; [exact H | exact Hpre | auto]. Qed.

Lemma hoare_bind_ret_eq {S A B} (a : A) (k : A -> M S B) s :
  bind (ret a) k s = k a s.
Proof. reflexivity. Qed.

Lemma defer_Ret {S A} (cleanup : M S unit) (body : M S A) s a s1 u s2 :
  body s = (Ret a, s1) -> cleanup s1 = (Ret u, s2) ->
  defer cleanup body s = (Ret a, s2).
Proof. intros Hb Hc. unfold defer. rewrite Hb, Hc. reflexivity. Qed.

Lemma hoare_bind_panic {A B} R pre msg (k : A -> M World B) post :
  (forall w, R w w) -> hoare R pre (bind (panic msg) k) post.
Proof. intros Hr w _. split; [apply Hr | discriminate]. Qed.

Lemma hoare_bind_ret {A B} R pre (a : A) (k : A -> M World B) post :
  hoare R pre (k a) post -> hoare R pre (bind (ret a) k) post.
Proof. intros H. exact H. Qed.

Lemma hoare_pure_pre {A} R (P : Prop) (c : M World A) post :
  (P -> hoare R (fun _ => True) c post) -> hoare R (fun _ => P) c post.
Proof. intros H w HP. apply (H HP w I). Qed.

End ExtendsFacts.

(** ** The rebuild: properties *)

Section RebuildFacts.
Import Buildtsi.

Variable TSMFileExtension WALFileExtension : string.
Variable readTSM : bytes -> option (list bytes).
Variable replayWAL : Z -> list bytes -> option (list bytes).
Variable SeriesAndFieldFromCompositeKey : bytes -> bytes * bytes.
Variable ParseKeyBytes : bytes -> bytes * Tags.
Variable ParseKeyBytesWithTags : bytes -> Tags -> bytes * Tags.

Local Abbreviation IndexShard :=
  (IndexShard TSMFileExtension WALFileExtension readTSM replayWAL
     SeriesAndFieldFromCompositeKey ParseKeyBytes ParseKeyBytesWithTags).
Local Abbreviation IndexShard_tsm :=
  (IndexShard_tsm TSMFileExtension readTSM SeriesAndFieldFromCompositeKey
     ParseKeyBytesWithTags).
Local Abbreviation IndexShard_wal :=
  (IndexShard_wal WALFileExtension replayWAL SeriesAndFieldFromCompositeKey
     ParseKeyBytes).
Local Abbreviation IndexTSMFile :=
  (IndexTSMFile readTSM SeriesAndFieldFromCompositeKey ParseKeyBytesWithTags).
Local Abbreviation IndexTSMFile_body :=
  (IndexTSMFile_body SeriesAndFieldFromCompositeKey ParseKeyBytesWithTags).
Local Abbreviation IndexShard_cache_body :=
  (IndexShard_cache_body SeriesAndFieldFromCompositeKey ParseKeyBytes).
Local Abbreviation collectTSMFiles := (collectTSMFiles TSMFileExtension).
Local Abbreviation collectWALFiles := (collectWALFiles WALFileExtension).
Local Abbreviation NewTSMReader := (NewTSMReader readTSM).
Local Abbreviation CacheLoader_Load := (CacheLoader_Load replayWAL).
Local Abbreviation parsed_from := (parsed_from ParseKeyBytes ParseKeyBytesWithTags).
Local Abbreviation parallel_batch :=
  (parallel_batch ParseKeyBytes ParseKeyBytesWithTags).
Local Abbreviation shard_event :=
  (shard_event ParseKeyBytes ParseKeyBytesWithTags).
Local Abbreviation early_event :=
  (early_event ParseKeyBytes ParseKeyBytesWithTags).
Local Abbreviation late_event :=
  (late_event ParseKeyBytes ParseKeyBytesWithTags).
Local Abbreviation tsm_part_event :=
  (tsm_part_event ParseKeyBytes ParseKeyBytesWithTags).
Local Abbreviation wal_part_event :=
  (wal_part_event ParseKeyBytes ParseKeyBytesWithTags).
Local Abbreviation unreadable := (unreadable readTSM).
Local Abbreviation node_series :=
  (node_series readTSM SeriesAndFieldFromCompositeKey).
Local Abbreviation entry_series :=
  (entry_series readTSM SeriesAndFieldFromCompositeKey).
Local Abbreviation tsm_inv := (tsm_inv ParseKeyBytes ParseKeyBytesWithTags).
Local Abbreviation cache_inv := (cache_inv ParseKeyBytes ParseKeyBytesWithTags).
Local Abbreviation batches_parallel :=
  (batches_parallel ParseKeyBytes ParseKeyBytesWithTags).

(** Takes the next call of the program apart: interrupted, or done. *)
Ltac next_call :=
  match goal with
  | |- context [bind (call ?ev ?sem) ?k ?w] =>
      let Hb := fresh "Hb" in
      let Hc := fresh "Hc" in
      destruct (call_cases ev sem w) as [[Hc Hb] | [Hb Hc]];
      [ rewrite (bind_Interrupted _ k _ _ Hc)
      | rewrite (bind_Ret _ k _ _ _ Hc) ];
      clear Hc; cbv beta; cbn [fs trace faults budget fst snd]
  end.

(** The same for a call in tail position. *)
Ltac last_call :=
  match goal with
  | |- context [call ?ev ?sem ?w] =>
      let Hb := fresh "Hb" in
      let Hc := fresh "Hc" in
      destruct (call_cases ev sem w) as [[Hc Hb] | [Hb Hc]];
      rewrite Hc; clear Hc; cbv beta; cbn [fs trace faults budget fst snd]
  end.
(** *** The calls a rebuild makes *)

(** Walks through code whose calls all satisfy the event predicate of
    the relation; what is left are the predicate at each call, the
    postconditions at the returns and the loops. *)
Ltac walk :=
  repeat
    lazymatch goal with
    | |- hoare _ _ (bind (ret _) _) _ => apply hoare_bind_ret
    | |- hoare _ _ (bind (panic _) _) _ =>
        apply hoare_bind_panic; apply extends_by_refl
    | |- hoare _ _ (bind (if ?c then _ else _) _) _ => destruct c eqn:?
    | |- hoare _ _ (bind (for_each _ _ _) _) _ => fail
    | |- hoare _ _ (bind _ _) _ =>
        eapply hoare_bind_any; [apply extends_by_trans | | intros ?]
    | |- hoare _ _ (for_each _ _ _) _ =>
        apply hoare_for_each_any;
        [apply extends_by_refl | apply extends_by_trans | intros ? ?]
    | |- hoare _ _ (ret _) _ => apply hoare_ret; [apply extends_by_refl | intros ? _]
    | |- hoare _ _ (panic _) _ => apply hoare_panic; apply extends_by_refl
    | |- hoare _ _ (call _ _) _ => apply hoare_call_event
    | |- hoare _ _ (defer _ _) _ =>
        eapply hoare_defer_any; [apply extends_by_trans | | ]
    | |- hoare _ _ (if ?c then _ else _) _ => destruct c eqn:?
    | |- hoare _ _ (match ?x with _ => _ end) _ => destruct x eqn:?
    | |- hoare _ _ (let (_, _) := ?x in _) _ => destruct x eqn:?
    end.

(** Closes the goals [walk] leaves for calls that are no inserts. *)
Ltac plain_event :=
  solve [ intros; exact I
        | unfold open_event, Buildtsi.tsm_part_event, Buildtsi.wal_part_event,
            publish_event; simpl; intuition (auto; congruence) ].

Section Staged.
Variables (index_ : Index) (tmp : path).
Hypothesis Hidx : idx_path index_ = tmp.

Lemma IndexTSMFile_body_events p batchSize verboseLogging r i st :
  tsm_inv p st ->
  hoare (extends_by (tsm_part_event tmp)) (fun _ => True)
    (IndexTSMFile_body index_ p batchSize verboseLogging r i st)
    (fun res _ => match res with inl st' => tsm_inv p st' | inr _ => True end).
Proof.
  intros Hinv. unfold Buildtsi.IndexTSMFile_body, index.
  destruct (tagsBatch st !! ti st) as [dst|] eqn:Hdst.
  2:{ walk. }
  assert (Hnext : Forall3 (parsed_from (FromTSM p))
            (keysBatch st ++ [(SeriesAndFieldFromCompositeKey (KeyAt r i)).1])
            (namesBatch st ++ [(ParseKeyBytesWithTags (SeriesAndFieldFromCompositeKey (KeyAt r i)).1 dst).1])
            (take (S (ti st)) (<[ti st := (ParseKeyBytesWithTags (SeriesAndFieldFromCompositeKey (KeyAt r i)).1 dst).2]> (tagsBatch st)))).
  { rewrite (take_S_insert _ _ _ _ Hdst). apply Forall3_app; [exact Hinv|].
    constructor; [|constructor]. exists dst. apply surjective_pairing. }
  unfold CreateSeriesListIfNotExists, log. walk; try plain_event.
  all: first
    [ repeat split; simpl; [exact Hidx | destruct (keysBatch st); discriminate | exact Hnext]
    | unfold Buildtsi.tsm_inv; simpl; constructor
    | unfold Buildtsi.tsm_inv; simpl; exact Hnext ].
Qed.

Lemma IndexTSMFile_events p batchSize verboseLogging :
  hoare (extends_by (tsm_part_event tmp)) (fun _ => True)
    (IndexTSMFile index_ p batchSize verboseLogging) (fun _ _ => True).
Proof.
  unfold Buildtsi.IndexTSMFile, os_Open, File_Close, NewTSMReader,
    TSMReader_Close, make_cap, make_len, log.
  walk; try plain_event.
  eapply hoare_bind with
    (mid := fun r _ => match r with inl st' => tsm_inv p st' | inr _ => True end);
    [apply extends_by_trans | |].
  - eapply hoare_weaken.
    + apply (hoare_for_each _ (extends_by_refl _) (extends_by_trans _)
               (fun st _ => tsm_inv p st) (fun _ _ => True)).
      intros x st. apply hoare_pure_pre. apply IndexTSMFile_body_events.
    + intros w _. constructor.
    + auto.
  - intros [st|e].
    + apply hoare_pure_pre. intros Hinv.
      unfold CreateSeriesListIfNotExists. walk; try plain_event.
      repeat split; simpl; [exact Hidx | | exact Hinv].
      destruct (keysBatch st); [discriminate | discriminate].
    + walk. plain_event.
Qed.

Lemma IndexShard_tsm_events dataDir batchSize verboseLogging :
  hoare (extends_by (tsm_part_event tmp)) (fun _ => True)
    (IndexShard_tsm index_ dataDir batchSize verboseLogging) (fun _ _ => True).
Proof.
  unfold Buildtsi.IndexShard_tsm, Buildtsi.collectTSMFiles, ioutil_ReadDir, log.
  walk; try plain_event.
  apply IndexTSMFile_events.
Qed.

Lemma IndexShard_cache_body_events batchSize verboseLogging key st :
  cache_inv st ->
  hoare (extends_by (wal_part_event tmp)) (fun _ => True)
    (IndexShard_cache_body index_ batchSize verboseLogging key st)
    (fun res _ => match res with inl st' => cache_inv st' | inr _ => True end).
Proof.
  intros Hinv. unfold Buildtsi.IndexShard_cache_body.
  assert (Hnext : Forall3 (parsed_from FromCache)
            (c_keysBatch st ++ [(SeriesAndFieldFromCompositeKey key).1])
            (c_namesBatch st ++ [(ParseKeyBytes (SeriesAndFieldFromCompositeKey key).1).1])
            (c_tagsBatch st ++ [(ParseKeyBytes (SeriesAndFieldFromCompositeKey key).1).2])).
  { apply Forall3_app; [exact Hinv|].
    constructor; [|constructor]. apply surjective_pairing. }
  unfold CreateSeriesListIfNotExists, log. walk; try plain_event.
  all: first
    [ repeat split; simpl; [exact Hidx | destruct (c_keysBatch st); discriminate | exact Hnext]
    | unfold Buildtsi.cache_inv; simpl; constructor
    | unfold Buildtsi.cache_inv; simpl; exact Hnext ].
Qed.

Lemma IndexShard_wal_events walDir maxCacheSize batchSize verboseLogging :
  hoare (extends_by (wal_part_event tmp)) (fun _ => True)
    (IndexShard_wal index_ walDir maxCacheSize batchSize verboseLogging)
    (fun _ _ => True).
Proof.
  unfold Buildtsi.IndexShard_wal, Buildtsi.collectWALFiles, ioutil_ReadDir,
    os_Stat, Buildtsi.CacheLoader_Load, make_cap, log.
  walk; try plain_event.
  all: eapply hoare_bind with
    (mid := fun r _ => match r with inl st' => cache_inv st' | inr _ => True end);
    [apply extends_by_trans | |].
  all: try (eapply hoare_weaken;
    [ apply (hoare_for_each _ (extends_by_refl _) (extends_by_trans _)
               (fun st _ => cache_inv st) (fun _ _ => True));
      intros x st; apply hoare_pure_pre; apply IndexShard_cache_body_events
    | intros w _; constructor
    | auto ]).
  all: intros [st|e];
    [ apply hoare_pure_pre; intros Hinv;
      unfold CreateSeriesListIfNotExists; walk; try plain_event;
      repeat split; simpl; [exact Hidx | | exact Hinv];
      destruct (c_keysBatch st); [discriminate | discriminate]
    | walk; plain_event ].
Qed.

Lemma Index_Close_events P :
  P (EvIndexClose tmp) ->
  hoare (extends_by P) (fun _ => True) (Index_Close index_ ;; ret tt)
    (fun _ _ => True).
Proof.
  intros HP. unfold Index_Close. rewrite Hidx. walk; [exact HP | exact I].
Qed.

Lemma IndexShard_publish_events final :
  hoare (extends_by (publish_event tmp final)) (fun _ => True)
    (IndexShard_publish index_ tmp final) (fun _ _ => True).
Proof.
  unfold Buildtsi.IndexShard_publish, Index_Compact, Index_Wait, Index_Close,
    os_Rename, log.
  rewrite Hidx. walk; try plain_event.
Qed.

End Staged.

Lemma IndexShard_open_events dataDir maxLogFileSize batchSize :
  hoare (extends_by
           (open_event (Join dataDir [".index"]) (Join dataDir ["index"])))
    (fun _ => True)
    (IndexShard_open dataDir maxLogFileSize batchSize)
    (fun o _ => match o with
                | inl i => idx_path i = Join dataDir [".index"]
                | inr _ => True
                end).
Proof.
  unfold IndexShard_open, os_Stat, os_RemoveAll, Index_Open, log.
  walk; plain_event.
Qed.
(** *** The phases of a rebuild *)

Lemma early_of_open tmp final e : open_event tmp final e -> early_event tmp final e.
Proof. intros H. left. exact H. Qed.

Lemma early_of_tsm tmp final e : tsm_part_event tmp e -> early_event tmp final e.
Proof. intros H. right. left. exact H. Qed.

Lemma late_of_wal tmp final e : wal_part_event tmp e -> late_event tmp final e.
Proof. intros H. left. exact H. Qed.

Lemma late_of_publish tmp final e : publish_event tmp final e -> late_event tmp final e.
Proof. intros H. right. exact H. Qed.

(** What follows a completed TSM part: the WAL part, the publication and
    the deferred close. *)
Lemma IndexShard_rest_events index_ dataDir walDir maxCacheSize batchSize
  verboseLogging :
  let tmp := Join dataDir [".index"] in
  let final := Join dataDir ["index"] in
  idx_path index_ = tmp ->
  hoare (extends_by (late_event tmp final)) (fun _ => True)
    (defer (Index_Close index_ ;; ret tt)
       (l <- IndexShard_wal index_ walDir maxCacheSize batchSize verboseLogging ;;
        match l with
        | inr e => ret e
        | inl _ => IndexShard_publish index_ tmp final
        end))
    (fun _ _ => True).
Proof.
  intros tmp final Hidx.
  eapply hoare_defer_any; [apply extends_by_trans | |].
  - eapply hoare_bind_any; [apply extends_by_trans | |].
    + eapply hoare_rel_weaken; [|apply (IndexShard_wal_events _ _ Hidx)].
      intros w w'. apply extends_by_weaken, late_of_wal.
    + intros [[]|e].
      * eapply hoare_rel_weaken; [|eapply hoare_weaken;
          [apply (IndexShard_publish_events _ _ Hidx final) | auto | auto]].
        intros w w'. apply extends_by_weaken, late_of_publish.
      * apply hoare_ret; [apply extends_by_refl | auto].
  - apply (Index_Close_events _ _ Hidx). right. simpl. reflexivity.
Qed.

Lemma IndexShard_phases dataDir walDir maxLogFileSize maxCacheSize batchSize
  verboseLogging w :
  let tmp := Join dataDir [".index"] in
  let final := Join dataDir ["index"] in
  let run := IndexShard dataDir walDir maxLogFileSize maxCacheSize batchSize
               verboseLogging w in
  extends_by (early_event tmp final) w run.2 \/
  exists index_ w0 w1,
    IndexShard_open dataDir maxLogFileSize batchSize w = (Ret (inl index_), w0) /\
    idx_path index_ = tmp /\
    IndexShard_tsm index_ dataDir batchSize verboseLogging w0
    = (Ret (inl tt), w1) /\
    extends_by (open_event tmp final) w w0 /\
    extends_by (tsm_part_event tmp) w0 w1 /\
    extends_by (late_event tmp final) w1 run.2.
Proof.
  intros tmp final run. subst run. unfold Buildtsi.IndexShard.
  destruct (IndexShard_open_events dataDir maxLogFileSize batchSize w I)
    as [HRo Hpo].
  fold tmp final in HRo.
  destruct (IndexShard_open dataDir maxLogFileSize batchSize w)
    as [[[index_|e]|msg|] w0] eqn:Eo; simpl in HRo.
  2,3,4: left; unfold bind; rewrite Eo; simpl;
    eapply extends_by_weaken; [apply early_of_open | exact HRo].
  rewrite (bind_Ret _ _ _ _ _ Eo).
  assert (Hidx : idx_path index_ = tmp) by (apply (Hpo _ eq_refl)).
  destruct (IndexShard_tsm_events index_ tmp Hidx dataDir batchSize
              verboseLogging w0 I) as [HRt _].
  destruct (IndexShard_tsm index_ dataDir batchSize verboseLogging w0)
    as [[[[]|e]|msg|] w1] eqn:Et; simpl in HRt.
  - right. exists index_, w0, w1.
    split; [first [exact Eo | reflexivity]|]. split; [exact Hidx|].
    split; [first [exact Et | reflexivity]|].
    split; [exact HRo|]. split; [exact HRt|].
    rewrite (defer_bind_Ret _ _ _ _ _ _ Et).
    apply (IndexShard_rest_events index_ dataDir walDir maxCacheSize batchSize
             verboseLogging Hidx w1 I).
  - left. rewrite (defer_bind_Ret _ _ _ _ _ _ Et).
    eapply extends_by_trans; [eapply extends_by_weaken; [apply early_of_open | exact HRo]|].
    eapply extends_by_trans; [eapply extends_by_weaken; [apply early_of_tsm | exact HRt]|].
    assert (Hc : hoare (extends_by (early_event tmp final)) (fun _ => True)
              (defer (Index_Close index_ ;; ret tt) (ret e)) (fun _ _ => True)).
    { eapply hoare_defer_any; [apply extends_by_trans | |].
      - apply hoare_ret; [apply extends_by_refl | auto].
      - apply (Index_Close_events _ _ Hidx). right. right. reflexivity. }
    apply (Hc w1 I).
  - left. unfold defer. rewrite (bind_Panic _ _ _ _ _ Et).
    eapply extends_by_trans; [eapply extends_by_weaken; [apply early_of_open | exact HRo]|].
    eapply extends_by_trans; [eapply extends_by_weaken; [apply early_of_tsm | exact HRt]|].
    destruct (Index_Close_events index_ tmp Hidx (early_event tmp final)
                (or_intror (or_intror eq_refl)) w1 I) as [Hc _].
    destruct ((Index_Close index_ ;; ret tt) w1) as [[u|m|] w2]; exact Hc.
  - left. unfold defer. rewrite (bind_Interrupted _ _ _ _ Et). simpl.
    eapply extends_by_trans; [eapply extends_by_weaken; [apply early_of_open | exact HRo]|].
    eapply extends_by_weaken; [apply early_of_tsm | exact HRt].
Qed.

(** *** Order and shape of the inserts *)

Lemma Forall3_parallel src keys names tags :
  keys <> [] -> Forall3 (parsed_from src) keys names tags ->
  parallel_batch src keys names tags.
Proof.
  intros Hne HF. split; [eapply Forall3_length_lm; eauto|].
  split.
  { rewrite <- (Forall3_length_lm _ _ _ _ HF). eapply Forall3_length_lr; eauto. }
  split; [destruct keys; [congruence | simpl; lia]|].
  intros i k n t Hk Hn Ht. eapply Forall3_lookup_lmr; eauto.
Qed.

Lemma shard_event_parallel tmp final ip src keys names tags :
  shard_event tmp final (EvCreateSeriesList ip src keys names tags) ->
  parallel_batch src keys names tags.
Proof.
  intros [[H | [H | H]] | [H | H]]; simpl in H; try contradiction;
    try discriminate.
  - destruct src; [|contradiction].
    destruct H as (_ & Hne & HF). apply Forall3_parallel; assumption.
  - destruct src; [contradiction|].
    destruct H as (_ & Hne & HF). apply Forall3_parallel; assumption.
Qed.

Lemma shard_events_parallel tmp final evs :
  Forall (shard_event tmp final) evs -> batches_parallel evs.
Proof.
  intros HF ip src keys names tags Hin.
  rewrite Forall_forall in HF. eapply shard_event_parallel, HF, Hin.
Qed.

Lemma early_not_cache tmp final e :
  early_event tmp final e -> is_cache_event e = false.
Proof.
  intros [H | [H | ->]]; [| |reflexivity]; destruct e; simpl in *;
    try contradiction; try reflexivity.
  destruct src; [reflexivity | contradiction].
Qed.

Lemma late_not_tsm tmp final e :
  late_event tmp final e -> is_tsm_event e = false.
Proof.
  intros [H | H]; destruct e; simpl in *; try contradiction; try reflexivity.
  destruct src; [contradiction | reflexivity].
Qed.

(** Every call of a rebuild is one of its four parts'. *)
Lemma IndexShard_events dataDir walDir maxLogFileSize maxCacheSize batchSize
  verboseLogging w :
  extends_by (shard_event (Join dataDir [".index"]) (Join dataDir ["index"])) w
    (IndexShard dataDir walDir maxLogFileSize maxCacheSize batchSize
       verboseLogging w).2.
Proof.
  destruct (IndexShard_phases dataDir walDir maxLogFileSize maxCacheSize
              batchSize verboseLogging w)
    as [H | (index_ & w0 & w1 & _ & _ & _ & Ho & Ht & Hl)].
  - eapply extends_by_weaken; [|exact H]. intros e He. left. exact He.
  - eapply extends_by_trans;
      [eapply extends_by_weaken; [|exact Ho]; intros e He; left; left; exact He|].
    eapply extends_by_trans;
      [eapply extends_by_weaken; [|exact Ht];
       intros e He; left; right; left; exact He|].
    eapply extends_by_weaken; [|exact Hl]. intros e He. right. exact He.
Qed.

(** C10.  Every call to [CreateSeriesListIfNotExists] that a rebuild
    makes, in a run of [IndexShard] (from its TSM files and from the
    cache) and in a run of [IndexTSMFile] on its own, passes three
    parallel slices (keys, names, tag sets) of equal nonzero length, the
    i-th name and the i-th tag set being parsed from the i-th key. *)
Theorem C10_inserts_take_parallel_slices
  (dataDir walDir : path) (maxLogFileSize maxCacheSize batchSize : Z)
  (verboseLogging : bool) (index_ : Index) (p : path) (w : World) :
  (exists evs,
     trace (IndexShard dataDir walDir maxLogFileSize maxCacheSize batchSize
              verboseLogging w).2 = trace w ++ evs /\
     batches_parallel evs) /\
  (exists evs,
     trace (IndexTSMFile index_ p batchSize verboseLogging w).2
     = trace w ++ evs /\
     batches_parallel evs).
Proof.
  split.
  - destruct (IndexShard_events dataDir walDir maxLogFileSize maxCacheSize
                batchSize verboseLogging w) as (_ & _ & evs & Ht & HF).
    exists evs. split; [exact Ht|]. eapply shard_events_parallel, HF.
  - destruct (IndexTSMFile_events index_ (idx_path index_) eq_refl p batchSize
                verboseLogging w I) as [(_ & _ & evs & Ht & HF) _].
    exists evs. split; [exact Ht|].
    apply (shard_events_parallel (idx_path index_) []).
    eapply Forall_impl; [exact HF|]. intros e He. left. right. left. exact He.
Qed.

(** C8.  In a run of [IndexShard], either no call concerns the cache, or
    the loop over the TSM files had run to its end (the TSM part returned
    normally) at a point of the trace before which no call concerns the
    cache (no cache load, no insert of a cache key) and after which no
    call concerns a TSM file (no open, no read, no insert of a TSM key):
    every series key taken from a TSM file is inserted before any key
    taken from the cache. *)
Theorem C8_tsm_series_are_indexed_before_cache_series
  (dataDir walDir : path) (maxLogFileSize maxCacheSize batchSize : Z)
  (verboseLogging : bool) (w : World) :
  let run := IndexShard dataDir walDir maxLogFileSize maxCacheSize batchSize
               verboseLogging w in
  (exists evs,
     trace run.2 = trace w ++ evs /\
     Forall (fun e => is_cache_event e = false) evs) \/
  (exists index_ w0 w1 evs1 evs2,
     IndexShard_open dataDir maxLogFileSize batchSize w
     = (Ret (inl index_), w0) /\
     IndexShard_tsm index_ dataDir batchSize verboseLogging w0
     = (Ret (inl tt), w1) /\
     trace w1 = trace w ++ evs1 /\
     trace run.2 = trace w1 ++ evs2 /\
     Forall (fun e => is_cache_event e = false) evs1 /\
     Forall (fun e => is_tsm_event e = false) evs2).
Proof.
  intros run. subst run.
  destruct (IndexShard_phases dataDir walDir maxLogFileSize maxCacheSize
              batchSize verboseLogging w)
    as [(_ & _ & evs & Ht & HF)
       | (index_ & w0 & w1 & Eo & _ & Et & Ho & Htsm & Hl)].
  - left. exists evs. split; [exact Ht|].
    eapply Forall_impl; [exact HF|]. apply early_not_cache.
  - right.
    destruct Ho as (_ & _ & e0 & Ht0 & HF0).
    destruct Htsm as (_ & _ & e1 & Ht1 & HF1).
    destruct Hl as (_ & _ & e2 & Ht2 & HF2).
    exists index_, w0, w1, (e0 ++ e1), e2.
    split; [exact Eo|]. split; [exact Et|].
    split; [rewrite Ht1, Ht0, app_assoc; reflexivity|].
    split; [exact Ht2|]. split.
    + apply Forall_app. split.
      * eapply Forall_impl; [exact HF0|]. intros e He.
        apply (early_not_cache (Join dataDir [".index"]) (Join dataDir ["index"])).
        left. exact He.
      * eapply Forall_impl; [exact HF1|]. intros e He.
        apply (early_not_cache (Join dataDir [".index"]) (Join dataDir ["index"])).
        right. left. exact He.
    + eapply Forall_impl; [exact HF2|]. apply late_not_tsm.
Qed.

(** *** A shard that has an index *)

Lemma IndexShard_open_skip dataDir maxLogFileSize batchSize w :
  fs_lookup (Join dataDir ["index"]) (fs w) <> Missing ->
  let run := IndexShard_open dataDir maxLogFileSize batchSize w in
  fs run.2 = fs w /\
  (exists k, trace run.2 = trace w ++ take k (skip_events dataDir)) /\
  (run.1 = Ret (inr None) \/ run.1 = Interrupted) /\
  (budget w = None ->
   run.1 = Ret (inr None) /\ trace run.2 = trace w ++ skip_events dataDir).
Proof.
  intros Hfound run. subst run.
  unfold IndexShard_open, log, os_Stat.
  assert (Hstop : forall k tr,
    tr = trace w ++ take k (skip_events dataDir) ->
    budget w <> None ->
    fs w = fs w /\
    (exists k, tr = trace w ++ take k (skip_events dataDir)) /\
    (@Interrupted (Index + option error) = Ret (inr None) \/
     @Interrupted (Index + option error) = Interrupted) /\
    (budget w = None ->
     @Interrupted (Index + option error) = Ret (inr None) /\
     tr = trace w ++ skip_events dataDir)).
  { intros k tr Htr Hb. split; [reflexivity|]. split; [exists k; exact Htr|].
    split; [right; reflexivity|]. intros Hn. contradiction. }
  next_call.
  { apply (Hstop 0%nat); [cbn; rewrite app_nil_r; reflexivity | congruence]. }
  next_call.
  { apply (Hstop 1%nat); [reflexivity | ].
    intros Hn; rewrite Hn in *; discriminate. }
  next_call.
  { apply (Hstop 2%nat); [rewrite <- app_assoc; reflexivity | ].
    intros Hn; rewrite Hn in *; discriminate. }
  assert (Hst : forall fault : option string,
    exists err,
      match fault with
      | Some msg => (Some (ErrIO msg), fs w)
      | None =>
          match fs_lookup (Join dataDir ["index"]) (fs w) with
          | Found _ => (None, fs w)
          | Missing => (Some ErrNotExist, fs w)
          | NotDir => (Some ErrNotDir, fs w)
          end
      end = (err, fs w) /\ negb (os_IsNotExist err) = true).
  { intros [msg|]; [eexists; split; reflexivity|].
    destruct (fs_lookup (Join dataDir ["index"]) (fs w));
      [eexists; split; reflexivity | congruence | eexists; split; reflexivity]. }
  match goal with
  | |- context [faults w ?n ?ev] =>
      destruct (Hst (faults w n ev)) as (err & Hsem & Hskip)
  end.
  rewrite Hsem. cbn [fst snd]. rewrite Hskip.
  next_call.
  { apply (Hstop 3%nat); [rewrite <- !app_assoc; reflexivity | ].
    intros Hn; rewrite Hn in *; discriminate. }
  unfold ret; cbn [fst snd fs trace]. rewrite <- !app_assoc.
  split; [reflexivity|]. split; [exists 4%nat; reflexivity|].
  split; [left; reflexivity|]. intros _. split; reflexivity.
Qed.

(** C4.  When the shard's index path [<shard>/index] exists, [IndexShard]
    leaves the file tree as it found it: it makes no call besides log
    calls and the one [os.Stat] of the index path (no removal of the
    temporary directory, no index opened, no insert, no rename), and,
    unless the process is killed, it returns nil. *)
Theorem C4_existing_index_shard_is_skipped
  (dataDir walDir : path) (maxLogFileSize maxCacheSize batchSize : Z)
  (verboseLogging : bool) (w : World) (n : Node) :
  fs_lookup (Join dataDir ["index"]) (fs w) = Found n ->
  let run := IndexShard dataDir walDir maxLogFileSize maxCacheSize
               batchSize verboseLogging w in
  fs run.2 = fs w /\
  (exists k, trace run.2 = trace w ++ take k (skip_events dataDir)) /\
  (run.1 = Ret None \/ run.1 = Interrupted) /\
  (budget w = None ->
   run.1 = Ret None /\ trace run.2 = trace w ++ skip_events dataDir).
Proof.
  intros Hfound run. subst run. unfold Buildtsi.IndexShard, bind.
  assert (Hne : fs_lookup (Join dataDir ["index"]) (fs w) <> Missing)
    by (rewrite Hfound; discriminate).
  destruct (IndexShard_open_skip dataDir maxLogFileSize batchSize w Hne)
    as (Hfs & Htr & Hres & Hnone).
  destruct (IndexShard_open dataDir maxLogFileSize batchSize w)
    as [[[index_|e]|msg|] w0]; simpl in *.
  - destruct Hres as [Hres | Hres]; discriminate.
  - destruct Hres as [Hres | Hres]; [|discriminate].
    injection Hres as ->. split; [exact Hfs|]. split; [exact Htr|].
    split; [left; reflexivity|]. intros Hb.
    destruct (Hnone Hb) as [_ Ht]. split; [reflexivity | exact Ht].
  - destruct Hres as [Hres | Hres]; discriminate.
  - split; [exact Hfs|]. split; [exact Htr|]. split; [right; reflexivity|].
    intros Hb. destruct (Hnone Hb) as [Hr _]. discriminate.
Qed.

(** *** A TSM file that cannot be read *)

(** Runs the next call of a program that nobody interrupts. *)
Ltac run_call :=
  match goal with
  | |- context [bind (call ?ev ?sem) ?k ?w] =>
      rewrite (bind_Ret (call ev sem) k w _ _
                 (call_run ev sem w ltac:(first [assumption | reflexivity])));
      cbv beta; cbn [fs trace faults budget fst snd]
  | |- context [call ?ev ?sem ?w] =>
      rewrite (call_run ev sem w ltac:(first [assumption | reflexivity]));
      cbv beta; cbn [fs trace faults budget fst snd]
  end.

Lemma IndexTSMFile_skips index_ p batchSize verboseLogging w n :
  budget w = None ->
  faults w (length (trace w)) (EvOpen p) = None ->
  fs_lookup p (fs w) = Found n ->
  unreadable w p n ->
  IndexTSMFile index_ p batchSize verboseLogging w
  = (Ret None,
     {| fs := fs w;
        trace := trace w ++ [EvOpen p; EvNewTSMReader p;
                             EvLog Warn "Unable to read, skipping";
                             EvFileClose p];
        faults := faults w;
        budget := None |}).
Proof.
  intros Hb Hfault Hfound Hbad.
  unfold Buildtsi.IndexTSMFile, os_Open, File_Close, Buildtsi.NewTSMReader, log.
  run_call. rewrite Hfault, Hfound. cbn [fst snd].
  unfold defer.
  assert (Hlen : length (trace w ++ [EvOpen p]) = S (length (trace w))).
  { rewrite length_app. simpl. lia. }
  assert (Hrd : exists e,
    (match faults w (S (length (trace w))) (EvNewTSMReader p) with
     | Some msg => (None, Some (ErrIO msg), fs w)
     | None =>
         match n with
         | File data =>
             match readTSM data with
             | Some keys => (Some {| r_path := p; r_keys := keys |}, None, fs w)
             | None => (None, Some (ErrIO "cannot read TSM file"), fs w)
             end
         | _ => (None, Some (ErrIO "is a directory"), fs w)
         end
     end) = (@None TSMReader, Some e, fs w)).
  { destruct (faults w (S (length (trace w))) (EvNewTSMReader p)) as [msg|] eqn:E;
      [eexists; reflexivity|].
    destruct Hbad as [[msg Hm] | Hbad]; [congruence|].
    destruct n as [data| |]; [|eexists; reflexivity | eexists; reflexivity].
    rewrite (Hbad data eq_refl). eexists; reflexivity. }
  destruct Hrd as [e Hrd].
  run_call. cbn [f_path f_node]. rewrite Hlen, Hrd. cbn [fst snd].
  run_call. unfold ret. run_call.
  rewrite <- !app_assoc. reflexivity.
Qed.

Lemma IndexTSMFile_open_fails index_ p batchSize verboseLogging w :
  budget w = None ->
  (exists msg, faults w (length (trace w)) (EvOpen p) = Some msg) \/
  (forall n, fs_lookup p (fs w) <> Found n) ->
  exists e,
    IndexTSMFile index_ p batchSize verboseLogging w
    = (Ret (Some e),
       {| fs := fs w; trace := trace w ++ [EvOpen p];
          faults := faults w; budget := None |}).
Proof.
  intros Hb Hbad.
  unfold Buildtsi.IndexTSMFile, os_Open.
  run_call.
  destruct (faults w (length (trace w)) (EvOpen p)) as [msg|] eqn:E.
  { eexists. reflexivity. }
  destruct Hbad as [[msg Hm] | Hbad]; [congruence|].
  destruct (fs_lookup p (fs w)) as [n| |] eqn:El.
  - exfalso. eapply Hbad. reflexivity.
  - eexists. reflexivity.
  - eexists. reflexivity.
Qed.

(** *** The file tree during a rebuild *)

Lemma unpublished_refl final w : unpublished final w w.
Proof. intros H. exact H. Qed.

Lemma unpublished_trans final w1 w2 w3 :
  unpublished final w1 w2 -> unpublished final w2 w3 -> unpublished final w1 w3.
Proof. intros H1 H2 H. apply H2, H1, H. Qed.

(** Walks through code under an invariant of the world; what is left
    are the calls. *)
Ltac walk_inv :=
  repeat
    lazymatch goal with
    | |- hoare _ _ (bind (ret _) _) _ => apply hoare_bind_ret
    | |- hoare _ _ (bind (panic _) _) _ =>
        apply hoare_bind_panic; apply unpublished_refl
    | |- hoare _ _ (bind (if ?c then _ else _) _) _ => destruct c eqn:?
    | |- hoare _ _ (bind (match ?x with _ => _ end) _) _ => destruct x eqn:?
    | |- hoare _ _ (bind _ _) _ =>
        eapply hoare_bind_inv; [apply unpublished_trans | | intros ?]
    | |- hoare _ _ (for_each _ _ _) _ =>
        apply hoare_for_each_inv;
        [apply unpublished_refl | apply unpublished_trans | intros ? ?]
    | |- hoare _ _ (ret _) _ =>
        apply hoare_ret; [apply unpublished_refl | intros ? ?]
    | |- hoare _ _ (panic _) _ => apply hoare_panic; apply unpublished_refl
    | |- hoare _ _ (defer _ _) _ =>
        eapply hoare_defer_inv; [apply unpublished_trans | | | ]
    | |- hoare _ _ (if ?c then _ else _) _ => destruct c eqn:?
    | |- hoare _ _ (match ?x with _ => _ end) _ => destruct x eqn:?
    | |- hoare _ _ (let (_, _) := ?x in _) _ => destruct x eqn:?
    end.

(** Closes the goal of a call that leaves the file tree alone. *)
Ltac same_tree :=
  apply hoare_call_same;
  [ apply unpublished_refl
  | intros ? ?; cbn;
    repeat (match goal with
            | |- context [match ?x with _ => _ end] =>
                lazymatch x with
                | context [match _ with _ => _ end] => fail
                | _ => destruct x
                end
            end; cbn);
    reflexivity
  | intros ? ? ? H; exact H
  | intros ? ? ? H; exact H ].

Section StagedTree.
Variables (index_ : Index) (dataDir : path).
Let tmp := Join dataDir [".index"].
Let final := Join dataDir ["index"].
Hypothesis Hidx : idx_path index_ = tmp.

Lemma index_name_ne : "index" <> ".index".
Proof. discriminate. Qed.

(** Putting an index directory at the temporary path keeps the index
    path missing and leaves an index at the temporary path. *)
Lemma put_index_at_tmp t t' ix w tr bud :
  fs_put tmp (IndexDir ix) t = Some t' ->
  fs w = t ->
  unpublished final w {| fs := t'; trace := tr; faults := faults w; budget := bud |}
  /\ index_at tmp {| fs := t'; trace := tr; faults := faults w; budget := bud |}.
Proof.
  intros Hput <-. split.
  - intros Hm. simpl. unfold final, tmp, Join in *.
    rewrite (fs_lookup_put_sibling dataDir "index" ".index" _ _ _
               index_name_ne Hput). exact Hm.
  - exists ix. simpl. eapply fs_lookup_put_same, Hput.
Qed.

Lemma CreateSeriesListIfNotExists_tree src keys names tagsSlice :
  hoare (unpublished final) (index_at tmp)
    (CreateSeriesListIfNotExists index_ src keys names tagsSlice)
    (fun _ => index_at tmp).
Proof.
  unfold CreateSeriesListIfNotExists. rewrite Hidx.
  apply hoare_call; [apply unpublished_refl|].
  intros w HI. cbv zeta.
  destruct (faults w (length (trace w)) _) as [msg|];
    [split; [intros H; exact H | exact HI]|].
  destruct (fs_lookup tmp (fs w)) as [[data|es|ix]| |] eqn:El;
    try (split; [intros H; exact H | exact HI]).
  destruct (fs_put tmp _ (fs w)) as [t'|] eqn:Ep;
    [|split; [intros H; exact H | exact HI]].
  eapply put_index_at_tmp; [exact Ep | reflexivity].
Qed.

Lemma IndexTSMFile_tree p batchSize verboseLogging :
  hoare (unpublished final) (index_at tmp)
    (IndexTSMFile index_ p batchSize verboseLogging) (fun _ => index_at tmp).
Proof.
  unfold Buildtsi.IndexTSMFile, Buildtsi.IndexTSMFile_body, os_Open, File_Close,
    Buildtsi.NewTSMReader, TSMReader_Close, make_cap, make_len, index, log.
  walk_inv; try same_tree; try assumption;
    try apply CreateSeriesListIfNotExists_tree.
Qed.

Lemma IndexShard_tsm_tree batchSize verboseLogging :
  hoare (unpublished final) (index_at tmp)
    (IndexShard_tsm index_ dataDir batchSize verboseLogging)
    (fun _ => index_at tmp).
Proof.
  unfold Buildtsi.IndexShard_tsm, Buildtsi.collectTSMFiles, ioutil_ReadDir, log.
  walk_inv; try same_tree; try assumption.
  apply IndexTSMFile_tree.
Qed.

Lemma IndexShard_wal_tree walDir maxCacheSize batchSize verboseLogging :
  hoare (unpublished final) (index_at tmp)
    (IndexShard_wal index_ walDir maxCacheSize batchSize verboseLogging)
    (fun _ => index_at tmp).
Proof.
  unfold Buildtsi.IndexShard_wal, Buildtsi.IndexShard_cache_body,
    Buildtsi.collectWALFiles, ioutil_ReadDir, os_Stat,
    Buildtsi.CacheLoader_Load, make_cap, log.
  walk_inv; try same_tree; try assumption;
    try apply CreateSeriesListIfNotExists_tree.
Qed.

Lemma Index_Close_tree (I : World -> Prop) :
  (forall w tr bud, I w ->
     I {| fs := fs w; trace := tr; faults := faults w; budget := bud |}) ->
  hoare (unpublished final) I (Index_Close index_ ;; ret tt) (fun _ => I).
Proof.
  intros HI. unfold Index_Close.
  eapply hoare_bind_inv; [apply unpublished_trans | | intros ?].
  - apply hoare_call_same;
      [ apply unpublished_refl
      | intros [?|] ?; reflexivity
      | intros ? ? ? H; exact H
      | exact HI ].
  - apply hoare_ret; [apply unpublished_refl | auto].
Qed.

End StagedTree.

Section OpenTree.
Variable dataDir : path.
Let tmp := Join dataDir [".index"].
Let final := Join dataDir ["index"].

(** [IndexShard] gets an index to work with only at the temporary path,
    only when the index path is missing, and the index it gets is empty
    whatever was at the temporary path before. *)
Lemma IndexShard_open_tree maxLogFileSize batchSize :
  hoare (unpublished final) (fun _ => True)
    (IndexShard_open dataDir maxLogFileSize batchSize)
    (fun o w0 =>
       match o with
       | inl i =>
           idx_path i = tmp /\
           fs_lookup tmp (fs w0) = Found (IndexDir empty_index) /\
           fs_lookup final (fs w0) = Missing
       | inr _ => True
       end).
Proof.
  unfold IndexShard_open, log, os_Stat, os_RemoveAll, Index_Open.
  fold tmp final.
  eapply hoare_bind_inv; [apply unpublished_trans | same_tree | intros _].
  eapply hoare_bind_inv; [apply unpublished_trans | same_tree | intros _].
  eapply hoare_bind with
    (mid := fun err w =>
       os_IsNotExist err = true -> fs_lookup final (fs w) = Missing);
    [apply unpublished_trans | | intros err].
  { apply hoare_call; [apply unpublished_refl|]. intros w _. cbv zeta.
    destruct (faults w (length (trace w)) _) as [msg|]; cbn.
    - split; [intros H; exact H | discriminate].
    - destruct (fs_lookup final (fs w)) eqn:El; cbn;
        (split; [intros H; exact H | try discriminate; auto]). }
  destruct (negb (os_IsNotExist err)) eqn:Eskip.
  { apply hoare_pre with (pre := fun _ => True); [auto|].
    eapply hoare_bind_inv; [apply unpublished_trans | same_tree | intros _].
    apply hoare_ret; [apply unpublished_refl | auto]. }
  apply negb_false_iff in Eskip.
  apply hoare_pre with
    (pre := fun w => fs_lookup final (fs w) = Missing); [auto|].
  eapply hoare_bind_inv; [apply unpublished_trans | same_tree | intros _].
  eapply hoare_bind_inv; [apply unpublished_trans | same_tree | intros _].
  eapply hoare_bind with
    (mid := fun e w =>
       fs_lookup final (fs w) = Missing /\
       (e = None -> fs_lookup tmp (fs w) = Missing));
    [apply unpublished_trans | | intros e].
  { apply hoare_call; [apply unpublished_refl|]. intros w Hm. cbv zeta.
    destruct (faults w (length (trace w)) _) as [msg|]; cbn.
    - split; [intros H; exact H | split; [exact Hm | discriminate]].
    - destruct (fs_lookup tmp (fs w)) as [n| |] eqn:El; cbn.
      + assert (Hs : fs_lookup final (fs_remove tmp (fs w)) = Missing).
        { unfold final, tmp, Join.
          rewrite (fs_lookup_remove_sibling dataDir "index" ".index");
            [exact Hm | discriminate]. }
        split; [intros _; exact Hs|]. split; [exact Hs|]. intros _.
        eapply fs_lookup_remove_same; [|exact El].
        unfold tmp, Join. destruct dataDir; discriminate.
      + split; [intros H; exact H | split; [exact Hm | auto]].
      + split; [intros H; exact H | split; [exact Hm | discriminate]]. }
  destruct e as [e|].
  { apply hoare_ret; [apply unpublished_refl | auto]. }
  apply hoare_pre with
    (pre := fun w => fs_lookup final (fs w) = Missing /\
                     fs_lookup tmp (fs w) = Missing);
    [intros w [H1 H2]; auto|].
  eapply hoare_bind_inv; [apply unpublished_trans | | intros _].
  { apply hoare_call_same;
      [ apply unpublished_refl | intros ? ?; reflexivity
      | intros ? ? ? H; exact H | intros ? ? ? H; exact H ]. }
  eapply hoare_bind with
    (mid := fun e w =>
       e = None ->
       fs_lookup tmp (fs w) = Found (IndexDir empty_index) /\
       fs_lookup final (fs w) = Missing);
    [apply unpublished_trans | | intros e].
  { apply hoare_call; [apply unpublished_refl|]. intros w [Hm Ht]. cbv zeta.
    cbn [idx_path NewIndex].
    destruct (faults w (length (trace w)) _) as [msg|]; cbn.
    - split; [intros H; exact H | discriminate].
    - rewrite Ht.
      destruct (fs_put tmp (IndexDir empty_index) (fs w)) as [t'|] eqn:Ep; cbn.
      + assert (Hs : fs_lookup final t' = Missing).
        { unfold final, tmp, Join in *.
          rewrite (fs_lookup_put_sibling dataDir "index" ".index" _ _ _
                     index_name_ne Ep). exact Hm. }
        split; [intros _; exact Hs|]. intros _. split; [|exact Hs].
        eapply fs_lookup_put_same, Ep.
      + split; [intros H; exact H | discriminate]. }
  destruct e as [e|].
  - apply hoare_ret; [apply unpublished_refl | auto].
  - apply hoare_ret; [apply unpublished_refl|]. intros w H.
    destruct (H eq_refl) as [H1 H2]. split; [reflexivity|]. split; assumption.
Qed.

End OpenTree.

(** *** Publishing the index *)

(** The rename of the temporary path to a missing index path moves the
    node. *)
Lemma fs_rename_staged d t n :
  fs_lookup (d ++ [".index"]) t = Found n ->
  fs_lookup (d ++ ["index"]) t = Missing ->
  (fs_rename (d ++ [".index"]) (d ++ ["index"]) t).1 = None /\
  fs_lookup (d ++ ["index"])
    (fs_rename (d ++ [".index"]) (d ++ ["index"]) t).2 = Found n /\
  fs_lookup (d ++ [".index"])
    (fs_rename (d ++ [".index"]) (d ++ ["index"]) t).2 = Missing.
Proof.
  intros Htmp Hfinal. unfold fs_rename. rewrite Htmp, Hfinal.
  unfold parent. rewrite removelast_last.
  destruct (fs_lookup_parent_after_remove d ".index" t n Htmp) as [es Hes].
  rewrite Hes.
  destruct (fs_put_in_dir d "index" n _ es Hes) as [t'' Ep].
  rewrite Ep. cbn. split; [reflexivity|]. split.
  - eapply fs_lookup_put_same, Ep.
  - rewrite (fs_lookup_put_sibling d ".index" "index" _ _ _
               (fun H => index_name_ne (eq_sym H)) Ep).
    eapply fs_lookup_remove_same; [|exact Htmp]. destruct d; discriminate.
Qed.

Section Publish.
Variables (index_ : Index) (dataDir : path).
Let tmp := Join dataDir [".index"].
Let final := Join dataDir ["index"].
Hypothesis Hidx : idx_path index_ = tmp.

(** What [Index.Compact] does to a tree with an index at the temporary
    path and nothing at the index path. *)
Lemma compact_staged t ix0 :
  fs_lookup tmp t = Found (IndexDir ix0) ->
  fs_lookup final t = Missing ->
  exists t',
    match fs_lookup tmp t with
    | Found (IndexDir ix) =>
        match fs_put tmp
                (IndexDir {| series := series ix; compacted := true |}) t with
        | Some t' => (tt, t')
        | None => (tt, t)
        end
    | _ => (tt, t)
    end = (tt, t') /\
    fs_lookup tmp t'
    = Found (IndexDir {| series := series ix0; compacted := true |}) /\
    fs_lookup final t' = Missing.
Proof.
  intros Htmp Hfinal. rewrite Htmp.
  destruct (fs_put_found tmp
              (IndexDir {| series := series ix0; compacted := true |}) t _ Htmp)
    as [t' Hp].
  rewrite Hp. exists t'. split; [reflexivity|]. split.
  - eapply fs_lookup_put_same, Hp.
  - unfold final, tmp, Join in *.
    rewrite (fs_lookup_put_sibling dataDir "index" ".index" _ _ _
               index_name_ne Hp). exact Hfinal.
Qed.

(** The publication either leaves the index path missing, or returns nil
    after exactly the calls compact, wait, close and rename, with the
    compacted index at the index path and nothing left at the temporary
    path. *)
Lemma IndexShard_publish_cases w ix0 :
  fs_lookup tmp (fs w) = Found (IndexDir ix0) ->
  fs_lookup final (fs w) = Missing ->
  let run := IndexShard_publish index_ tmp final w in
  fs_lookup final (fs run.2) = Missing \/
  (run.1 = Ret None /\
   trace run.2 = trace w ++ publish_calls tmp final /\
   fs_lookup final (fs run.2)
   = Found (IndexDir {| series := series ix0; compacted := true |}) /\
   fs_lookup tmp (fs run.2) = Missing).
Proof.
  intros Htmp Hfinal run. subst run.
  unfold Buildtsi.IndexShard_publish, Index_Compact, Index_Wait, Index_Close,
    os_Rename, log.
  rewrite Hidx.
  next_call; [left; exact Hfinal|].
  next_call; [left; exact Hfinal|].
  destruct (compact_staged (fs w) ix0 Htmp Hfinal) as (t' & Hc & Htmp' & Hfinal').
  rewrite Hc. cbn [fst snd].
  next_call; [left; exact Hfinal'|].
  next_call; [left; exact Hfinal'|].
  next_call; [left; exact Hfinal'|].
  match goal with
  | |- context [faults w ?n ?ev] => destruct (faults w n ev) as [msg|]
  end; cbn [fst snd].
  { left. exact Hfinal'. }
  next_call; [left; exact Hfinal'|].
  last_call; [left; exact Hfinal'|].
  match goal with
  | |- context [faults w ?n ?ev] => destruct (faults w n ev) as [msg|]
  end; cbn [fst snd].
  { left. exact Hfinal'. }
  destruct (fs_rename_staged dataDir t' _ Htmp' Hfinal') as (Hnil & Hf & Ht).
  right. unfold tmp, final, Join. rewrite Hnil. split; [reflexivity|].
  split; [rewrite <- !app_assoc; reflexivity|].
  split; assumption.
Qed.


End Publish.

(** *** Staging and publication *)

Lemma IndexShard_open_trace dataDir maxLogFileSize batchSize w index_ w0 :
  IndexShard_open dataDir maxLogFileSize batchSize w = (Ret (inl index_), w0) ->
  trace w0
  = trace w ++ open_calls (Join dataDir [".index"]) (Join dataDir ["index"]).
Proof.
  unfold IndexShard_open, log, os_Stat, os_RemoveAll, Index_Open.
  cbn [idx_path NewIndex].
  next_call; [discriminate|].
  next_call; [discriminate|].
  next_call; [discriminate|].
  match goal with
  | |- context [negb (os_IsNotExist ?e)] => destruct (negb (os_IsNotExist e))
  end.
  { next_call; [discriminate|]. unfold ret. discriminate. }
  next_call; [discriminate|].
  next_call; [discriminate|].
  next_call; [discriminate|].
  match goal with
  | |- context [match ?e with Some _ => ret _ | None => _ end] =>
      destruct e as [e0|]
  end; [unfold ret; discriminate|].
  next_call; [discriminate|].
  next_call; [discriminate|].
  match goal with
  | |- context [match ?e with Some _ => ret _ | None => _ end] =>
      destruct e as [e0|]
  end; [unfold ret; discriminate|].
  unfold ret. intros [= <- <-]. cbn [trace].
  rewrite <- !app_assoc. reflexivity.
Qed.

(** The deferred [tsiIndex.Close()] leaves the file tree alone and makes
    at most its one call. *)
Lemma defer_close_world {A} index_ (body : M World A) w :
  let r := defer (Index_Close index_ ;; ret tt) body w in
  fs r.2 = fs (body w).2 /\
  (trace r.2 = trace (body w).2 \/
   trace r.2 = trace (body w).2 ++ [EvIndexClose (idx_path index_)]).
Proof.
  unfold defer, Index_Close.
  destruct (body w) as [[a|msg|] w3]; cbn [fst snd].
  3: split; [reflexivity | left; reflexivity].
  all: next_call; [split; [reflexivity | left; reflexivity]|];
    unfold ret; cbn [fst snd fs trace];
    match goal with
    | |- context [faults ?w' ?n ?ev] => destruct (faults w' n ev)
    end; cbn [fst snd]; (split; [reflexivity | right; reflexivity]).
Qed.

Lemma open_event_not_rename tmp final e :
  open_event tmp final e -> is_rename e = false.
Proof. destruct e; simpl; intros H; try reflexivity; contradiction. Qed.

Lemma tsm_part_event_not_rename tmp e :
  tsm_part_event tmp e -> is_rename e = false.
Proof. destruct e; simpl; intros H; try reflexivity; contradiction. Qed.

Lemma wal_part_event_not_rename tmp e :
  wal_part_event tmp e -> is_rename e = false.
Proof. destruct e; simpl; intros H; try reflexivity; contradiction. Qed.

Lemma shard_event_staged tmp final e :
  shard_event tmp final e -> staged tmp final e.
Proof.
  intros [[H | [H | ->]] | [H | H]]; [| |reflexivity| |];
    destruct e; simpl in *; try contradiction; try exact I; try assumption.
  - destruct src; [apply H | contradiction].
  - destruct src; [contradiction | apply H].
Qed.

Section Body.
Variables (index_ : Index) (dataDir walDir : path).
Variables (maxCacheSize batchSize : Z) (verboseLogging : bool).
Let tmp := Join dataDir [".index"].
Let final := Join dataDir ["index"].
Hypothesis Hidx : idx_path index_ = tmp.

(** The three parts of [IndexShard] that run with the index open. *)
Lemma IndexShard_body_cases w0 :
  index_at tmp w0 ->
  fs_lookup final (fs w0) = Missing ->
  let body :=
    (l <- IndexShard_tsm index_ dataDir batchSize verboseLogging ;;
     match l with
     | inr e => ret e
     | inl _ =>
         l <- IndexShard_wal index_ walDir maxCacheSize batchSize
                verboseLogging ;;
         match l with
         | inr e => ret e
         | inl _ => IndexShard_publish index_ tmp final
         end
     end) in
  fs_lookup final (fs (body w0).2) = Missing \/
  exists ix evs,
    (body w0).1 = Ret None /\
    trace (body w0).2 = trace w0 ++ evs ++ publish_calls tmp final /\
    Forall (fun e => is_rename e = false) evs /\
    fs_lookup final (fs (body w0).2) = Found (IndexDir ix) /\
    compacted ix = true /\
    fs_lookup tmp (fs (body w0).2) = Missing.
Proof.
  intros Hat Hfin body. subst body.
  destruct (IndexShard_tsm_tree index_ dataDir Hidx batchSize verboseLogging
              w0 Hat) as [HR1 Hp1].
  destruct (IndexShard_tsm_events index_ tmp Hidx dataDir batchSize
              verboseLogging w0 I) as [(_ & _ & evs1 & Ht1 & HF1) _].
  destruct (IndexShard_tsm index_ dataDir batchSize verboseLogging w0)
    as [[[[]|e]|msg|] w1] eqn:Et; cbn [fst snd] in *.
  2: left; rewrite (bind_Ret _ _ _ _ _ Et); apply HR1, Hfin.
  2: left; rewrite (bind_Panic _ _ _ _ _ Et); apply HR1, Hfin.
  2: left; rewrite (bind_Interrupted _ _ _ _ Et); apply HR1, Hfin.
  rewrite (bind_Ret _ _ _ _ _ Et).
  assert (Hat1 : index_at tmp w1) by (apply (Hp1 _ eq_refl)).
  assert (Hfin1 : fs_lookup final (fs w1) = Missing) by (apply HR1, Hfin).
  destruct (IndexShard_wal_tree index_ dataDir Hidx walDir maxCacheSize
              batchSize verboseLogging w1 Hat1) as [HR2 Hp2].
  destruct (IndexShard_wal_events index_ tmp Hidx walDir maxCacheSize batchSize
              verboseLogging w1 I) as [(_ & _ & evs2 & Ht2 & HF2) _].
  destruct (IndexShard_wal index_ walDir maxCacheSize batchSize verboseLogging w1)
    as [[[[]|e]|msg|] w2] eqn:Ew; cbn [fst snd] in *.
  2: left; rewrite (bind_Ret _ _ _ _ _ Ew); apply HR2, Hfin1.
  2: left; rewrite (bind_Panic _ _ _ _ _ Ew); apply HR2, Hfin1.
  2: left; rewrite (bind_Interrupted _ _ _ _ Ew); apply HR2, Hfin1.
  rewrite (bind_Ret _ _ _ _ _ Ew).
  destruct (Hp2 _ eq_refl) as [ix0 Hat2].
  assert (Hfin2 : fs_lookup final (fs w2) = Missing) by (apply HR2, Hfin1).
  destruct (IndexShard_publish_cases index_ dataDir Hidx w2 ix0 Hat2 Hfin2)
    as [Hm | (Hr & Ht & Hf & Hg)].
  - left. exact Hm.
  - right. exists {| series := series ix0; compacted := true |}, (evs1 ++ evs2).
    split; [exact Hr|]. split.
    { fold tmp final in Ht. rewrite Ht, Ht2, Ht1, <- !app_assoc. reflexivity. }
    split.
    { apply Forall_app. split.
      - eapply Forall_impl; [exact HF1|]. apply tsm_part_event_not_rename.
      - eapply Forall_impl; [exact HF2|]. apply wal_part_event_not_rename. }
    split; [exact Hf|]. split; [reflexivity | exact Hg].
Qed.

End Body.

(** C2.  A run of [IndexShard] on a shard directory, however it ends
    (return, panic, or the process killed between two calls):
    - stages the index at the temporary path [<shard>/.index] only: every
      call that writes (remove, index open, insert, compact, close) is
      aimed at it, and the one rename is from it to [<shard>/index];
    - gets an index to work with only after it removed the temporary
      path, and the index it then opens there is empty, whatever a
      previous run left behind;
    - when the index path was missing at the start, either leaves it
      missing, or its last calls are compact, wait, close and the rename
      (followed at most by the deferred close), no rename was made
      before, and the index path then holds the compacted index while
      the temporary path is gone. *)
Theorem C2_index_is_staged_then_published_by_one_rename
  (dataDir walDir : path) (maxLogFileSize maxCacheSize batchSize : Z)
  (verboseLogging : bool) (w : World) :
  let tmp := Join dataDir [".index"] in
  let final := Join dataDir ["index"] in
  let run := IndexShard dataDir walDir maxLogFileSize maxCacheSize batchSize
               verboseLogging w in
  (exists evs, trace run.2 = trace w ++ evs /\ Forall (staged tmp final) evs) /\
  (forall index_ w0,
     IndexShard_open dataDir maxLogFileSize batchSize w
     = (Ret (inl index_), w0) ->
     idx_path index_ = tmp /\
     trace w0 = trace w ++ open_calls tmp final /\
     fs_lookup tmp (fs w0) = Found (IndexDir empty_index)) /\
  (fs_lookup final (fs w) = Missing ->
   fs_lookup final (fs run.2) = Missing \/
   exists ix pre post,
     fs_lookup final (fs run.2) = Found (IndexDir ix) /\
     compacted ix = true /\
     fs_lookup tmp (fs run.2) = Missing /\
     trace run.2 = trace w ++ pre ++ publish_calls tmp final ++ post /\
     Forall (fun e => is_rename e = false) pre /\
     (post = [] \/ post = [EvIndexClose tmp])).
Proof.
  intros tmp final run. split; [|split].
  - destruct (IndexShard_events dataDir walDir maxLogFileSize maxCacheSize
                batchSize verboseLogging w) as (_ & _ & evs & Ht & HF).
    exists evs. split; [exact Ht|].
    eapply Forall_impl; [exact HF|]. apply shard_event_staged.
  - intros index_ w0 Eo.
    destruct (IndexShard_open_tree dataDir maxLogFileSize batchSize w I)
      as [_ Hp].
    rewrite Eo in Hp. destruct (Hp _ eq_refl) as (Hidx & Htmp & _).
    split; [exact Hidx|]. split; [|exact Htmp].
    eapply IndexShard_open_trace, Eo.
  - intros Hfin. subst run. unfold Buildtsi.IndexShard.
    destruct (IndexShard_open_tree dataDir maxLogFileSize batchSize w I)
      as [HR0 Hp0].
    destruct (IndexShard_open_events dataDir maxLogFileSize batchSize w I)
      as [(_ & _ & evs0 & Ht0 & HF0) _].
    destruct (IndexShard_open dataDir maxLogFileSize batchSize w)
      as [[[index_|e]|msg|] w0] eqn:Eo; cbn [fst snd] in *.
    2: left; rewrite (bind_Ret _ _ _ _ _ Eo); apply HR0, Hfin.
    2: left; rewrite (bind_Panic _ _ _ _ _ Eo); apply HR0, Hfin.
    2: left; rewrite (bind_Interrupted _ _ _ _ Eo); apply HR0, Hfin.
    rewrite (bind_Ret _ _ _ _ _ Eo).
    destruct (Hp0 _ eq_refl) as (Hidx & Htmp0 & Hfin0).
    match goal with
    | |- context [defer ?cl ?body w0] =>
        destruct (defer_close_world index_ body w0) as [Hfs Htr];
        destruct (IndexShard_body_cases index_ dataDir walDir maxCacheSize
                    batchSize verboseLogging Hidx w0
                    (ex_intro _ empty_index Htmp0) Hfin0)
          as [Hm | (ix & evs & Hr & Ht & HF & Hf & Hc & Hg)]
    end.
    + left. rewrite Hfs. exact Hm.
    + right. rewrite Hidx in Htr.
      destruct Htr as [Htr | Htr].
      * exists ix, (evs0 ++ evs), []. rewrite Hfs.
        split; [exact Hf|]. split; [exact Hc|]. split; [exact Hg|].
        split; [rewrite Htr, Ht, Ht0, app_nil_r, <- !app_assoc; reflexivity|].
        split; [|left; reflexivity].
        apply Forall_app. split; [|exact HF].
        eapply Forall_impl; [exact HF0|]. apply open_event_not_rename.
      * exists ix, (evs0 ++ evs), [EvIndexClose tmp]. rewrite Hfs.
        split; [exact Hf|]. split; [exact Hc|]. split; [exact Hg|].
        split; [rewrite Htr, Ht, Ht0, <- !app_assoc; reflexivity|].
        split; [|right; reflexivity].
        apply Forall_app. split; [|exact HF].
        eapply Forall_impl; [exact HF0|]. apply open_event_not_rename.
Qed.

(** *** A shard without a WAL directory *)



(** The deferred close of a body that returned, with nobody to interrupt
    it. *)
Lemma defer_close_Ret {A} index_ (body : M World A) w a w3 :
  body w = (Ret a, w3) ->
  budget w3 = None ->
  defer (Index_Close index_ ;; ret tt) body w
  = (Ret a,
     {| fs := fs w3; trace := trace w3 ++ [EvIndexClose (idx_path index_)];
        faults := faults w3; budget := None |}).
Proof.
  intros Hbody Hb. unfold defer, Index_Close. rewrite Hbody.
  run_call. unfold ret.
  destruct (faults w3 (length (trace w3)) (EvIndexClose (idx_path index_)));
    reflexivity.
Qed.


(** *** Batches *)

Lemma same_source_refl src : same_source src src = true.
Proof. destruct src; simpl; [apply bool_decide_eq_true_2|]; reflexivity. Qed.

Lemma key_batches_app src evs1 evs2 :
  key_batches src (evs1 ++ evs2) = key_batches src evs1 ++ key_batches src evs2.
Proof. unfold key_batches. apply omap_app. Qed.

Lemma key_batches_insert ip src keys names tags :
  key_batches src [EvCreateSeriesList ip src keys names tags] = [keys].
Proof. unfold key_batches. simpl. rewrite same_source_refl. reflexivity. Qed.

Lemma Z_eqb_nat n b :
  0 < b -> (Z.of_nat n =? b) = Nat.eqb n (Z.to_nat b).
Proof.
  intros Hb. destruct (Z.eqb_spec (Z.of_nat n) b) as [E|E];
    destruct (Nat.eqb_spec n (Z.to_nat b)) as [E'|E']; try reflexivity; lia.
Qed.

(** An insert that the environment lets through. *)
Lemma insert_run index_ src keys names tagsSlice w :
  insertable (idx_path index_) src w ->
  exists w',
    CreateSeriesListIfNotExists index_ src keys names tagsSlice w
    = (Ret None, w') /\
    trace w'
    = trace w ++ [EvCreateSeriesList (idx_path index_) src keys names tagsSlice] /\
    insertable (idx_path index_) src w'.
Proof.
  intros (Hb & Hf & ix & Hix). unfold CreateSeriesListIfNotExists.
  run_call. rewrite Hf, Hix.
  destruct (fs_put_found (idx_path index_)
              (IndexDir (add_series ix (zip3 keys names tagsSlice))) (fs w) _ Hix)
    as [t' Hp].
  rewrite Hp. eexists. split; [reflexivity|]. split; [reflexivity|].
  split; [reflexivity|]. split; [exact Hf|].
  eexists. cbn [fs]. eapply fs_lookup_put_same, Hp.
Qed.

(** The per-series log line of verbose runs. *)
Lemma verbose_log_run (verboseLogging : bool) ip src w :
  insertable ip src w ->
  exists w' evs,
    (if verboseLogging then log Info "Series" else ret tt) w = (Ret tt, w') /\
    trace w' = trace w ++ evs /\
    key_batches src evs = [] /\
    insertable ip src w'.
Proof.
  intros Hins. destruct verboseLogging.
  - destruct Hins as (Hb & Hf & Hix). unfold log. run_call.
    eexists _, [EvLog Info "Series"]. split; [reflexivity|].
    split; [reflexivity|]. split; [reflexivity|].
    split; [reflexivity|]. split; [exact Hf | exact Hix].
  - exists w, []. split; [reflexivity|]. rewrite app_nil_r.
    split; [reflexivity|]. split; [reflexivity | exact Hins].
Qed.

Section CacheLoop.
Variables (index_ : Index) (batchSize : Z) (verboseLogging : bool).
Hypothesis Hpos : 0 < batchSize.
Let b := Z.to_nat batchSize.
Let ip := idx_path index_.
Let sk (key : bytes) : bytes := (SeriesAndFieldFromCompositeKey key).1.

Lemma IndexShard_cache_body_run key st w :
  insertable ip FromCache w ->
  exists st1 w1 evs,
    IndexShard_cache_body index_ batchSize verboseLogging key st w
    = (Ret (inl st1), w1) /\
    trace w1 = trace w ++ evs /\
    insertable ip FromCache w1 /\
    key_batches FromCache evs
    = (if Nat.eqb (length (c_keysBatch st ++ [sk key])) b
       then [c_keysBatch st ++ [sk key]] else []) /\
    c_keysBatch st1
    = (if Nat.eqb (length (c_keysBatch st ++ [sk key])) b
       then [] else c_keysBatch st ++ [sk key]).
Proof.
  intros Hins. unfold Buildtsi.IndexShard_cache_body. fold (sk key).
  destruct (ParseKeyBytes (sk key)) as [name tags].
  destruct (verbose_log_run verboseLogging ip FromCache w Hins)
    as (w1 & evs1 & E1 & Ht1 & Hk1 & Hins1).
  rewrite (bind_Ret _ _ _ _ _ E1).
  rewrite (Z_eqb_nat _ _ Hpos). fold b.
  destruct (Nat.eqb (length (c_keysBatch st ++ [sk key])) b).
  - destruct (insert_run index_ FromCache (c_keysBatch st ++ [sk key])
                (c_namesBatch st ++ [name]) (c_tagsBatch st ++ [tags]) w1 Hins1)
      as (w2 & E2 & Ht2 & Hins2).
    rewrite (bind_Ret _ _ _ _ _ E2).
    eexists _, w2, _. split; [reflexivity|].
    split; [rewrite Ht2, Ht1, <- app_assoc; reflexivity|].
    split; [exact Hins2|]. split; [|reflexivity].
    rewrite key_batches_app, Hk1, key_batches_insert. reflexivity.
  - eexists _, w1, evs1. split; [reflexivity|]. split; [exact Ht1|].
    split; [exact Hins1|]. split; [exact Hk1 | reflexivity].
Qed.

Lemma IndexShard_cache_loop_run keys :
  forall st w,
    insertable ip FromCache w ->
    exists st' w' evs,
      for_each keys (IndexShard_cache_body index_ batchSize verboseLogging) st w
      = (Ret (inl st'), w') /\
      trace w' = trace w ++ evs /\
      insertable ip FromCache w' /\
      key_batches FromCache evs
      = (batches b (c_keysBatch st) (map sk keys)).1 /\
      c_keysBatch st' = (batches b (c_keysBatch st) (map sk keys)).2.
Proof.
  induction keys as [|key keys IH]; intros st w Hins.
  - exists st, w, []. rewrite app_nil_r. simpl. auto.
  - destruct (IndexShard_cache_body_run key st w Hins)
      as (st1 & w1 & evs1 & E1 & Ht1 & Hins1 & Hk1 & Hs1).
    destruct (IH st1 w1 Hins1) as (st' & w' & evs & E & Ht & Hins' & Hk & Hs).
    exists st', w', (evs1 ++ evs).
    split; [simpl; rewrite (bind_Ret _ _ _ _ _ E1); exact E|].
    split; [rewrite Ht, Ht1, <- app_assoc; reflexivity|].
    split; [exact Hins'|].
    rewrite key_batches_app, Hk1, Hk, Hs, Hs1. simpl.
    destruct (Nat.eqb (length (c_keysBatch st ++ [sk key])) b);
      split; reflexivity.
Qed.

End CacheLoop.

(** The listing of a WAL directory that is there. *)
Lemma collectWALFiles_run walDir es w :
  budget w = None ->
  walDir <> [] ->
  (forall n, faults w n (EvStat walDir) = None) ->
  (forall n, faults w n (EvReadDir walDir) = None) ->
  fs_lookup walDir (fs w) = Found (Dir es) ->
  collectWALFiles walDir w
  = (Ret (map (fun name => Join walDir [name])
            (filter (fun name => Ext name = "." +:+ WALFileExtension)
               (dir_names es)), None),
     {| fs := fs w; trace := trace w ++ [EvStat walDir; EvReadDir walDir];
        faults := faults w; budget := None |}).
Proof.
  intros Hb Hne Hstat Hread Hdir.
  unfold Buildtsi.collectWALFiles, os_Stat, ioutil_ReadDir.
  rewrite bool_decide_eq_false_2 by exact Hne.
  run_call. rewrite Hstat, Hdir. cbn [fst snd os_IsNotExist].
  run_call. rewrite Hread, Hdir. cbn [fst snd].
  rewrite <- app_assoc. reflexivity.
Qed.

Section CacheBatches.
Variables (index_ : Index) (walDir : path) (maxCacheSize batchSize : Z).
Variable verboseLogging : bool.
Hypothesis Hpos : 0 < batchSize.
Hypothesis Hfits : slice_header_size * batchSize <= maxAlloc.

(** The WAL part of [IndexShard] on a WAL directory that can be listed
    and replayed, with inserts that do not fail: the key slices handed to
    the index are the batches of the cache's keys. *)
Lemma IndexShard_wal_batches w es ds keys :
  insertable (idx_path index_) FromCache w ->
  walDir <> [] ->
  (forall n, faults w n (EvStat walDir) = None) ->
  (forall n, faults w n (EvReadDir walDir) = None) ->
  (forall n ps, faults w n (EvCacheLoad ps) = None) ->
  fs_lookup walDir (fs w) = Found (Dir es) ->
  read_files
    (map (fun name => Join walDir [name])
       (filter (fun name => Ext name = "." +:+ WALFileExtension) (dir_names es)))
    (fs w) = Some ds ->
  replayWAL maxCacheSize ds = Some keys ->
  exists w' evs,
    IndexShard_wal index_ walDir maxCacheSize batchSize verboseLogging w
    = (Ret (inl tt), w') /\
    trace w' = trace w ++ evs /\
    key_batches FromCache evs
    = all_batches (Z.to_nat batchSize)
        (map (fun key => (SeriesAndFieldFromCompositeKey key).1) keys).
Proof.
  intros (Hb & Hf & Hix) Hne Hstat Hread Hload Hdir Hfiles Hreplay.
  unfold Buildtsi.IndexShard_wal.
  rewrite (bind_Ret _ _ _ _ _
             (collectWALFiles_run walDir es w Hb Hne Hstat Hread Hdir)).
  unfold log, Buildtsi.CacheLoader_Load, make_cap.
  run_call. run_call. rewrite Hload, Hfiles, Hreplay. cbn [fst snd].
  run_call.
  rewrite (out_of_range_false batchSize) by (lia || exact Hfits).
  rewrite !hoare_bind_ret_eq.
  match goal with
  | |- context [bind (for_each _ _ ?st) _ ?w1] =>
      destruct (IndexShard_cache_loop_run index_ batchSize verboseLogging Hpos
                  (Keys {| cache_keys := keys |}) st w1)
        as (st' & w' & evs & E & Ht & Hins' & Hk & Hs);
      [split; [reflexivity | split; [exact Hf | exact Hix]]|]
  end.
  rewrite (bind_Ret _ _ _ _ _ E).
  cbn [Keys cache_keys c_keysBatch] in Hk, Hs.
  unfold all_batches. rewrite <- Hk, <- Hs.
  destruct (c_keysBatch st') as [|k0 ks0] eqn:Erest.
  - cbn [length Z.of_nat Z.ltb Z.compare]. eexists w', _.
    split; [reflexivity|]. split.
    + rewrite Ht. cbn [trace]. rewrite <- !app_assoc. reflexivity.
    + rewrite !key_batches_app, app_nil_r. reflexivity.
  - replace (0 <? Z.of_nat (length (k0 :: ks0))) with true
      by (symmetry; apply Z.ltb_lt; simpl length; lia).
    destruct (insert_run index_ FromCache (k0 :: ks0) (c_namesBatch st')
                (c_tagsBatch st') w' Hins') as (w2 & E2 & Ht2 & _).
    rewrite (bind_Ret _ _ _ _ _ E2).
    eexists w2, _. split; [reflexivity|]. split.
    + rewrite Ht2, Ht. cbn [trace]. rewrite <- !app_assoc. reflexivity.
    + rewrite !key_batches_app, key_batches_insert. reflexivity.
Qed.

End CacheBatches.

Lemma map_KeyAt_seq p keys :
  map (KeyAt {| r_path := p; r_keys := keys |}) (seq 0 (length keys)) = keys.
Proof.
  apply list_eq. intros i. rewrite list_lookup_fmap.
  destruct (keys !! i) as [k|] eqn:E.
  - rewrite lookup_seq_lt by (eapply lookup_lt_Some; eauto). simpl.
    unfold KeyAt. cbn [r_keys]. f_equal. apply nth_lookup_Some with (d := "") in E.
    exact E.
  - rewrite lookup_seq_ge by (apply lookup_ge_None; exact E). reflexivity.
Qed.

Section TSMLoop.
Variables (index_ : Index) (p : path) (batchSize : Z) (verboseLogging : bool).
Variable r : TSMReader.
Hypothesis Hpos : 0 < batchSize.
Let b := Z.to_nat batchSize.
Let ip := idx_path index_.
Let sk (i : nat) : bytes := (SeriesAndFieldFromCompositeKey (KeyAt r i)).1.

Lemma IndexTSMFile_body_run i st w :
  insertable ip (FromTSM p) w ->
  tsm_ready b st ->
  exists st1 w1 evs,
    IndexTSMFile_body index_ p batchSize verboseLogging r i st w
    = (Ret (inl st1), w1) /\
    trace w1 = trace w ++ evs /\
    insertable ip (FromTSM p) w1 /\
    tsm_ready b st1 /\
    key_batches (FromTSM p) evs
    = (if Nat.eqb (length (keysBatch st ++ [sk i])) b
       then [keysBatch st ++ [sk i]] else []) /\
    keysBatch st1
    = (if Nat.eqb (length (keysBatch st ++ [sk i])) b
       then [] else keysBatch st ++ [sk i]).
Proof.
  intros Hins (Hti & Hlt & Hlen).
  unfold Buildtsi.IndexTSMFile_body, index. fold (sk i).
  destruct (lookup_lt_is_Some_2 (tagsBatch st) (ti st)) as [dst Hdst]; [lia|].
  rewrite Hdst, hoare_bind_ret_eq.
  destruct (ParseKeyBytesWithTags (sk i) dst) as [name tags].
  destruct (verbose_log_run verboseLogging ip (FromTSM p) w Hins)
    as (w1 & evs1 & E1 & Ht1 & Hk1 & Hins1).
  rewrite (bind_Ret _ _ _ _ _ E1).
  rewrite (Z_eqb_nat _ _ Hpos). fold b.
  destruct (Nat.eqb (length (keysBatch st ++ [sk i])) b) eqn:Efull.
  - destruct (insert_run index_ (FromTSM p) (keysBatch st ++ [sk i])
                (namesBatch st ++ [name])
                (take (S (ti st)) (<[ti st := tags]> (tagsBatch st))) w1 Hins1)
      as (w2 & E2 & Ht2 & Hins2).
    rewrite (bind_Ret _ _ _ _ _ E2).
    eexists _, w2, _. split; [reflexivity|].
    split; [rewrite Ht2, Ht1, <- app_assoc; reflexivity|].
    split; [exact Hins2|]. split.
    { split; [reflexivity|]. cbn [ti tagsBatch]. rewrite length_insert.
      split; [lia | exact Hlen]. }
    split; [|reflexivity].
    rewrite key_batches_app, Hk1, key_batches_insert. reflexivity.
  - eexists _, w1, evs1. split; [reflexivity|]. split; [exact Ht1|].
    split; [exact Hins1|]. split.
    { apply Nat.eqb_neq in Efull. rewrite length_app in Efull. simpl in Efull.
      unfold tsm_ready. cbn [ti keysBatch tagsBatch].
      rewrite length_insert, length_app. simpl.
      split; [lia|]. split; [lia | exact Hlen]. }
    split; [exact Hk1 | reflexivity].
Qed.

Lemma IndexTSMFile_loop_run n :
  forall i st w,
    insertable ip (FromTSM p) w ->
    tsm_ready b st ->
    exists st' w' evs,
      for_each (seq i n)
        (IndexTSMFile_body index_ p batchSize verboseLogging r) st w
      = (Ret (inl st'), w') /\
      trace w' = trace w ++ evs /\
      insertable ip (FromTSM p) w' /\
      key_batches (FromTSM p) evs
      = (batches b (keysBatch st) (map sk (seq i n))).1 /\
      keysBatch st' = (batches b (keysBatch st) (map sk (seq i n))).2.
Proof.
  induction n as [|n IH]; intros i st w Hins Hready.
  - exists st, w, []. rewrite app_nil_r. simpl. auto.
  - destruct (IndexTSMFile_body_run i st w Hins Hready)
      as (st1 & w1 & evs1 & E1 & Ht1 & Hins1 & Hready1 & Hk1 & Hs1).
    destruct (IH (S i) st1 w1 Hins1 Hready1)
      as (st' & w' & evs & E & Ht & Hins' & Hk & Hs).
    exists st', w', (evs1 ++ evs).
    split; [simpl; rewrite (bind_Ret _ _ _ _ _ E1); exact E|].
    split; [rewrite Ht, Ht1, <- app_assoc; reflexivity|].
    split; [exact Hins'|].
    rewrite key_batches_app, Hk1, Hk, Hs, Hs1. simpl.
    destruct (Nat.eqb (length (keysBatch st ++ [sk i])) b);
      split; reflexivity.
Qed.

End TSMLoop.

(** [IndexTSMFile] on a file that opens and reads, with inserts that do
    not fail: the key slices handed to the index are the batches of the
    file's keys. *)
Lemma IndexTSMFile_batches index_ p batchSize verboseLogging w data keys :
  0 < batchSize ->
  slice_header_size * batchSize <= maxAlloc ->
  insertable (idx_path index_) (FromTSM p) w ->
  (forall n, faults w n (EvOpen p) = None) ->
  (forall n, faults w n (EvNewTSMReader p) = None) ->
  fs_lookup p (fs w) = Found (File data) ->
  readTSM data = Some keys ->
  exists w' evs,
    IndexTSMFile index_ p batchSize verboseLogging w = (Ret None, w') /\
    trace w' = trace w ++ evs /\
    key_batches (FromTSM p) evs
    = all_batches (Z.to_nat batchSize)
        (map (fun key => (SeriesAndFieldFromCompositeKey key).1) keys).
Proof.
  intros Hpos Hfits (Hb & Hf & Hix) Hopen Hreader Hfile Hread.
  unfold Buildtsi.IndexTSMFile, os_Open, Buildtsi.NewTSMReader.
  run_call. rewrite Hopen, Hfile. cbn [fst snd].
  set (w1 := {| fs := fs w; trace := trace w ++ [EvOpen p];
                faults := faults w; budget := None |}).
  set (r := {| r_path := p; r_keys := keys |}).
  (* the body under the two defers *)
  assert (Hbody : exists w3 evs,
    (keysBatch0 <- make_cap batchSize ;;
     namesBatch0 <- make_cap batchSize ;;
     tagsBatch0 <- make_len [] batchSize ;;
     l <- for_each (seq 0 (KeyCount r))
            (IndexTSMFile_body index_ p batchSize verboseLogging r)
            {| keysBatch := keysBatch0; namesBatch := namesBatch0;
               tagsBatch := tagsBatch0; ti := 0 |} ;;
     match l with
     | inr e => ret e
     | inl st =>
         if 0 <? Z.of_nat (length (keysBatch st)) then
           err <- CreateSeriesListIfNotExists index_ (FromTSM p)
                    (keysBatch st) (namesBatch st)
                    (take (ti st) (tagsBatch st)) ;;
           match err with
           | Some e => ret (Some (ErrCreatingSeries e))
           | None => ret None
           end
         else ret None
     end)
      {| fs := fs w; trace := trace w1 ++ [EvNewTSMReader p];
         faults := faults w; budget := None |}
    = (Ret None, w3) /\
    trace w3 = (trace w1 ++ [EvNewTSMReader p]) ++ evs /\
    budget w3 = None /\
    key_batches (FromTSM p) evs
    = all_batches (Z.to_nat batchSize)
        (map (fun key => (SeriesAndFieldFromCompositeKey key).1) keys)).
  { unfold make_cap, make_len.
    rewrite (out_of_range_false batchSize) by (lia || exact Hfits).
    rewrite !hoare_bind_ret_eq.
    match goal with
    | |- context [bind (for_each _ _ ?st) _ ?w2] =>
        destruct (IndexTSMFile_loop_run index_ p batchSize verboseLogging r Hpos
                    (KeyCount r) 0%nat st w2)
          as (st' & w' & evs & E & Ht & Hins' & Hk & Hs);
        [ split; [reflexivity | split; [exact Hf | exact Hix]]
        | split; [reflexivity|]; cbn [ti tagsBatch];
          rewrite length_replicate; split; [lia | reflexivity]
        | ]
    end.
    rewrite (bind_Ret _ _ _ _ _ E).
    cbn [keysBatch] in Hk, Hs.
    assert (Hkeys : map (fun i => (SeriesAndFieldFromCompositeKey (KeyAt r i)).1)
                      (seq 0 (KeyCount r))
                    = map (fun key => (SeriesAndFieldFromCompositeKey key).1) keys).
    { transitivity (map (fun key => (SeriesAndFieldFromCompositeKey key).1)
                      (map (KeyAt r) (seq 0 (length keys)))).
      - rewrite map_map. reflexivity.
      - subst r. rewrite map_KeyAt_seq. reflexivity. }
    rewrite Hkeys in Hk, Hs. unfold all_batches. rewrite <- Hk, <- Hs.
    destruct (keysBatch st') as [|k0 ks0] eqn:Erest.
    - cbn [length Z.of_nat Z.ltb Z.compare]. eexists w', _.
      split; [reflexivity|]. split; [exact Ht|].
      split; [apply Hins'|]. rewrite app_nil_r. reflexivity.
    - replace (0 <? Z.of_nat (length (k0 :: ks0))) with true
        by (symmetry; apply Z.ltb_lt; simpl length; lia).
      destruct (insert_run index_ (FromTSM p) (k0 :: ks0) (namesBatch st')
                  (take (ti st') (tagsBatch st')) w' Hins')
        as (w2 & E2 & Ht2 & Hins2).
      rewrite (bind_Ret _ _ _ _ _ E2).
      eexists w2, _. split; [reflexivity|]. split.
      + rewrite Ht2, Ht, <- app_assoc. reflexivity.
      + split; [apply Hins2|].
        rewrite key_batches_app, key_batches_insert. reflexivity. }
  destruct Hbody as (w3 & evs & E3 & Ht3 & Hb3 & Hk3).
  assert (Hinner : exists w4,
    defer (File_Close {| f_path := p; f_node := File data |})
      (o <- call (EvNewTSMReader p)
              (fun fault t =>
                 match fault with
                 | Some msg => (None, Some (ErrIO msg), t)
                 | None =>
                     match readTSM data with
                     | Some keys0 =>
                         (Some {| r_path := p; r_keys := keys0 |}, None, t)
                     | None => (None, Some (ErrIO "cannot read TSM file"), t)
                     end
                 end) ;;
       match o with
       | (_, Some e) => log Warn "Unable to read, skipping" ;; ret None
       | (None, None) => panic "nil reader"
       | (Some r0, None) =>
           defer (TSMReader_Close r0)
             (keysBatch0 <- make_cap batchSize ;;
              namesBatch0 <- make_cap batchSize ;;
              tagsBatch0 <- make_len [] batchSize ;;
              l <- for_each (seq 0 (KeyCount r0))
                     (IndexTSMFile_body index_ p batchSize verboseLogging r0)
                     {| keysBatch := keysBatch0; namesBatch := namesBatch0;
                        tagsBatch := tagsBatch0; ti := 0 |} ;;
              match l with
              | inr e => ret e
              | inl st =>
                  if 0 <? Z.of_nat (length (keysBatch st)) then
                    err <- CreateSeriesListIfNotExists index_ (FromTSM p)
                             (keysBatch st) (namesBatch st)
                             (take (ti st) (tagsBatch st)) ;;
                    match err with
                    | Some e => ret (Some (ErrCreatingSeries e))
                    | None => ret None
                    end
                  else ret None
              end)
       end) w1
    = (Ret None, w4) /\
    trace w4 = trace w3 ++ [EvReaderClose p; EvFileClose p]).
  { eexists. split.
    - eapply defer_Ret.
      + subst w1. run_call. rewrite Hreader, Hread. cbn [fst snd].
        eapply defer_Ret; [exact E3|].
        unfold TSMReader_Close. cbn [r_path]. run_call. reflexivity.
      + unfold File_Close. cbn [f_path]. run_call. reflexivity.
    - cbn [trace]. rewrite <- app_assoc. reflexivity. }
  destruct Hinner as (w4 & E4 & Ht4).
  cbn [f_path f_node] in *.
  exists w4, ([EvOpen p; EvNewTSMReader p] ++ evs ++ [EvReaderClose p; EvFileClose p]).
  split; [exact E4|]. split.
  - rewrite Ht4, Ht3. subst w1. cbn [trace]. rewrite <- !app_assoc. reflexivity.
  - rewrite !key_batches_app, Hk3. cbn. rewrite app_nil_r. reflexivity.
Qed.

(** *** A batch size the batches cannot be made for *)

Lemma defer_Panic {S A} (cleanup : M S unit) (body : M S A) s msg s1 u s2 :
  body s = (Panic msg, s1) -> cleanup s1 = (Ret u, s2) ->
  defer cleanup body s = (Panic msg, s2).
Proof. intros Hb Hc. unfold defer. rewrite Hb, Hc. reflexivity. Qed.

(** [IndexTSMFile] on a file that opens and reads, with a batch size
    that [make] refuses, or of zero: it panics before any insert, and the
    deferred calls close the reader and the file. *)
Lemma IndexTSMFile_batch_panic index_ p batchSize verboseLogging w data keys :
  budget w = None ->
  faults w (length (trace w)) (EvOpen p) = None ->
  faults w (S (length (trace w))) (EvNewTSMReader p) = None ->
  fs_lookup p (fs w) = Found (File data) ->
  readTSM data = Some keys ->
  out_of_range batchSize = true \/ (batchSize = 0 /\ keys <> []) ->
  exists msg,
    IndexTSMFile index_ p batchSize verboseLogging w
    = (Panic msg,
       {| fs := fs w;
          trace := trace w ++ [EvOpen p; EvNewTSMReader p;
                               EvReaderClose p; EvFileClose p];
          faults := faults w; budget := None |}).
Proof.
  intros Hb Hopen Hreader Hfile Hread Hsize.
  unfold Buildtsi.IndexTSMFile, os_Open, Buildtsi.NewTSMReader.
  assert (Hlen : length (trace w ++ [EvOpen p]) = S (length (trace w))).
  { rewrite length_app. simpl. lia. }
  run_call. rewrite Hopen, Hfile. cbn [fst snd].
  assert (Hbody : exists msg,
    (keysBatch0 <- make_cap batchSize ;;
     namesBatch0 <- make_cap batchSize ;;
     tagsBatch0 <- make_len [] batchSize ;;
     l <- for_each (seq 0 (KeyCount {| r_path := p; r_keys := keys |}))
            (IndexTSMFile_body index_ p batchSize verboseLogging
               {| r_path := p; r_keys := keys |})
            {| keysBatch := keysBatch0; namesBatch := namesBatch0;
               tagsBatch := tagsBatch0; ti := 0 |} ;;
     match l with
     | inr e => ret e
     | inl st =>
         if 0 <? Z.of_nat (length (keysBatch st)) then
           err <- CreateSeriesListIfNotExists index_ (FromTSM p)
                    (keysBatch st) (namesBatch st)
                    (take (ti st) (tagsBatch st)) ;;
           match err with
           | Some e => ret (Some (ErrCreatingSeries e))
           | None => ret None
           end
         else ret None
     end)
      {| fs := fs w; trace := (trace w ++ [EvOpen p]) ++ [EvNewTSMReader p];
         faults := faults w; budget := None |}
    = (Panic msg,
       {| fs := fs w; trace := (trace w ++ [EvOpen p]) ++ [EvNewTSMReader p];
          faults := faults w; budget := None |})).
  { unfold make_cap, make_len. destruct Hsize as [Hout | [-> Hkeys]].
    - rewrite Hout. eexists. reflexivity.
    - destruct keys as [|k keys]; [contradiction|].
      eexists. reflexivity. }
  destruct Hbody as [msg Hbody]. exists msg.
  eapply defer_Panic.
  - run_call. cbn [f_path f_node]. rewrite Hlen, Hreader, Hread. cbn [fst snd].
    eapply defer_Panic; [exact Hbody|].
    unfold TSMReader_Close. cbn [r_path]. run_call. reflexivity.
  - unfold File_Close. cbn [f_path]. run_call.
    rewrite <- !app_assoc. reflexivity.
Qed.

(** The WAL part of [IndexShard] on a WAL directory that can be listed
    and replayed, with a batch size that [make] refuses: it panics once
    the cache is loaded, before any insert. *)
Lemma IndexShard_wal_batch_panic index_ walDir maxCacheSize batchSize
  verboseLogging w es ds keys :
  budget w = None ->
  walDir <> [] ->
  (forall n, faults w n (EvStat walDir) = None) ->
  (forall n, faults w n (EvReadDir walDir) = None) ->
  (forall n ps, faults w n (EvCacheLoad ps) = None) ->
  fs_lookup walDir (fs w) = Found (Dir es) ->
  read_files
    (map (fun name => Join walDir [name])
       (filter (fun name => Ext name = "." +:+ WALFileExtension) (dir_names es)))
    (fs w) = Some ds ->
  replayWAL maxCacheSize ds = Some keys ->
  out_of_range batchSize = true ->
  exists msg w' evs,
    IndexShard_wal index_ walDir maxCacheSize batchSize verboseLogging w
    = (Panic msg, w') /\
    trace w' = trace w ++ evs /\
    key_batches FromCache evs = [].
Proof.
  intros Hb Hne Hstat Hread Hload Hdir Hfiles Hreplay Hout.
  unfold Buildtsi.IndexShard_wal.
  rewrite (bind_Ret _ _ _ _ _
             (collectWALFiles_run walDir es w Hb Hne Hstat Hread Hdir)).
  unfold log, Buildtsi.CacheLoader_Load, make_cap.
  run_call. run_call. rewrite Hload, Hfiles, Hreplay. cbn [fst snd].
  run_call. rewrite Hout.
  eexists _, _, _. split; [reflexivity|]. split.
  - cbn [trace]. rewrite <- !app_assoc. reflexivity.
  - reflexivity.
Qed.

(** C3, amended. Batch boundaries. For a batch size [b > 0] that [make]
    accepts ([b] slice headers within the allocation limit) and a source
    whose enumeration yields [k] keys — one TSM file that opens and
    reads, or the cache replayed from the WAL segments — in a run that is
    not interrupted and whose inserts do not fail, the rebuild returns
    without error and the [CreateSeriesListIfNotExists] calls it issued
    for that source number [ceil(k/b) = (k + b - 1) / b]; every batch but
    possibly the last holds exactly [b] keys, and the batches concatenated
    are the series keys of the enumerated keys, in order, none dropped.
    For a batch size beyond the limit the allocation of the batches
    panics and no insert is issued for the source: [IndexTSMFile] only
    opens and closes the file and its reader, and the WAL part of
    [IndexShard] stops once the cache is loaded. *)
Theorem C3_batches_cut_the_enumerated_keys
  index_ (batchSize : Z) (verboseLogging : bool) :
  0 < batchSize ->
  (slice_header_size * batchSize <= maxAlloc ->
   (forall p w data keys,
      insertable (idx_path index_) (FromTSM p) w ->
      (forall n, faults w n (EvOpen p) = None) ->
      (forall n, faults w n (EvNewTSMReader p) = None) ->
      fs_lookup p (fs w) = Found (File data) ->
      readTSM data = Some keys ->
      exists w' evs,
        IndexTSMFile index_ p batchSize verboseLogging w = (Ret None, w') /\
        trace w' = trace w ++ evs /\
        batched batchSize
          (map (fun key => (SeriesAndFieldFromCompositeKey key).1) keys)
          (key_batches (FromTSM p) evs)) /\
   (forall walDir maxCacheSize w es ds keys,
      insertable (idx_path index_) FromCache w ->
      walDir <> [] ->
      (forall n, faults w n (EvStat walDir) = None) ->
      (forall n, faults w n (EvReadDir walDir) = None) ->
      (forall n ps, faults w n (EvCacheLoad ps) = None) ->
      fs_lookup walDir (fs w) = Found (Dir es) ->
      read_files
        (map (fun name => Join walDir [name])
           (filter (fun name => Ext name = "." +:+ WALFileExtension)
              (dir_names es))) (fs w) = Some ds ->
      replayWAL maxCacheSize ds = Some keys ->
      exists w' evs,
        IndexShard_wal index_ walDir maxCacheSize batchSize verboseLogging w
        = (Ret (inl tt), w') /\
        trace w' = trace w ++ evs /\
        batched batchSize
          (map (fun key => (SeriesAndFieldFromCompositeKey key).1) keys)
          (key_batches FromCache evs))) /\
  (maxAlloc < slice_header_size * batchSize ->
   (forall p w data keys,
      budget w = None ->
      (forall n, faults w n (EvOpen p) = None) ->
      (forall n, faults w n (EvNewTSMReader p) = None) ->
      fs_lookup p (fs w) = Found (File data) ->
      readTSM data = Some keys ->
      exists msg w',
        IndexTSMFile index_ p batchSize verboseLogging w = (Panic msg, w') /\
        trace w'
        = trace w ++ [EvOpen p; EvNewTSMReader p;
                      EvReaderClose p; EvFileClose p]) /\
   (forall walDir maxCacheSize w es ds keys,
      budget w = None ->
      walDir <> [] ->
      (forall n, faults w n (EvStat walDir) = None) ->
      (forall n, faults w n (EvReadDir walDir) = None) ->
      (forall n ps, faults w n (EvCacheLoad ps) = None) ->
      fs_lookup walDir (fs w) = Found (Dir es) ->
      read_files
        (map (fun name => Join walDir [name])
           (filter (fun name => Ext name = "." +:+ WALFileExtension)
              (dir_names es))) (fs w) = Some ds ->
      replayWAL maxCacheSize ds = Some keys ->
      exists msg w' evs,
        IndexShard_wal index_ walDir maxCacheSize batchSize verboseLogging w
        = (Panic msg, w') /\
        trace w' = trace w ++ evs /\
        key_batches FromCache evs = [])).
Proof.
  intros Hpos. split.
  - intros Hfits. split.
    + intros p w data keys Hins Hopen Hreader Hfile Hread.
      destruct (IndexTSMFile_batches index_ p batchSize verboseLogging w data
                  keys Hpos Hfits Hins Hopen Hreader Hfile Hread)
        as (w' & evs & E & Ht & Hk).
      exists w', evs. rewrite Hk.
      split; [exact E|]. split; [exact Ht|].
      apply all_batches_batched, Hpos.
    + intros walDir maxCacheSize w es ds keys Hins Hdir Hstat Hlist Hload
        Hfound Hfiles Hreplay.
      destruct (IndexShard_wal_batches index_ walDir maxCacheSize batchSize
                  verboseLogging Hpos Hfits w es ds keys Hins Hdir Hstat Hlist
                  Hload Hfound Hfiles Hreplay)
        as (w' & evs & E & Ht & Hk).
      exists w', evs. rewrite Hk.
      split; [exact E|]. split; [exact Ht|].
      apply all_batches_batched, Hpos.
  - intros Hbig. pose proof (out_of_range_beyond batchSize Hbig) as Hout.
    split.
    + intros p w data keys Hb Hopen Hreader Hfile Hread.
      destruct (IndexTSMFile_batch_panic index_ p batchSize verboseLogging w
                  data keys Hb (Hopen _) (Hreader _) Hfile Hread
                  (or_introl Hout)) as [msg E].
      eexists msg, _. split; [exact E | reflexivity].
    + intros walDir maxCacheSize w es ds keys Hb Hdir Hstat Hlist Hload
        Hfound Hfiles Hreplay.
      exact (IndexShard_wal_batch_panic index_ walDir maxCacheSize batchSize
               verboseLogging w es ds keys Hb Hdir Hstat Hlist Hload Hfound
               Hfiles Hreplay Hout).
Qed.

(** *** The listings: collectTSMFiles, collectWALFiles and the shards *)

Lemma elem_of_insert_sorted (x y : string) l :
  y ∈ insert_sorted x l <-> y = x \/ y ∈ l.
Proof.
  induction l as [|z l IH]; simpl.
  - rewrite list_elem_of_singleton, elem_of_nil. tauto.
  - destruct (String.leb x z).
    + rewrite elem_of_cons. tauto.
    + rewrite !elem_of_cons, IH. tauto.
Qed.

Lemma elem_of_sort_names (y : string) l : y ∈ sort_names l <-> y ∈ l.
Proof.
  induction l as [|x l IH]; simpl; [tauto|].
  rewrite elem_of_insert_sorted, elem_of_cons, IH. tauto.
Qed.

Lemma NoDup_insert_sorted (x : string) l :
  x ∉ l -> NoDup l -> NoDup (insert_sorted x l).
Proof.
  induction l as [|z l IH]; simpl; intros Hx Hl.
  - apply NoDup_singleton.
  - destruct (String.leb x z).
    + apply NoDup_cons. split; assumption.
    + apply NoDup_cons in Hl as [Hz Hl].
      apply not_elem_of_cons in Hx as [Hxz Hx].
      apply NoDup_cons. split.
      * rewrite elem_of_insert_sorted. intros [->|Hin]; [congruence | tauto].
      * apply IH; assumption.
Qed.

Lemma NoDup_sort_names l : NoDup l -> NoDup (sort_names l).
Proof.
  induction l as [|x l IH]; simpl; intros Hl; [constructor|].
  apply NoDup_cons in Hl as [Hx Hl].
  apply NoDup_insert_sorted; [|apply IH, Hl].
  rewrite elem_of_sort_names. exact Hx.
Qed.

Lemma elem_of_names name (es : list (string * Node)) :
  name ∈ map fst es <-> is_Some (ents_lookup name es).
Proof.
  induction es as [|[n v] es IH]; simpl.
  - rewrite elem_of_nil. split; [tauto | intros [x Hx]; discriminate].
  - rewrite elem_of_cons, IH.
    destruct (String.eqb_spec n name) as [->|Hne].
    + split; [eauto | tauto].
    + split; [intros [->|H]; [congruence | exact H] | tauto].
Qed.

(** A listing names each entry of the directory once. *)
Lemma elem_of_dir_names name es :
  name ∈ dir_names es <-> is_Some (ents_lookup name es).
Proof.
  unfold dir_names.
  rewrite elem_of_sort_names, elem_of_remove_dups. apply elem_of_names.
Qed.

Lemma NoDup_dir_names es : NoDup (dir_names es).
Proof. apply NoDup_sort_names, NoDup_remove_dups. Qed.

(** The paths a collector keeps of a listing. *)
Lemma kept_entries p es ext :
  let paths :=
    map (fun name => Join p [name])
      (filter (fun name => Ext name = "." +:+ ext) (dir_names es)) in
  NoDup paths /\ forall q, q ∈ paths <-> entry_with_ext p es ext q.
Proof.
  intros paths. subst paths. split.
  - apply NoDup_fmap_2.
    + intros a c Hac. unfold Join in Hac. apply app_inv_head in Hac.
      congruence.
    + apply NoDup_filter, NoDup_dir_names.
  - intros q. unfold entry_with_ext. rewrite list_elem_of_fmap. split.
    + intros (name & -> & Hin). apply list_elem_of_filter in Hin as [Hext Hin].
      exists name. rewrite <- elem_of_dir_names. auto.
    + intros (name & -> & Hin & Hext). exists name. split; [reflexivity|].
      apply list_elem_of_filter. rewrite elem_of_dir_names. auto.
Qed.

(** X5. [collectTSMFiles] on a directory that can be listed makes the one
    call [ReadDir], changes nothing, and returns, each once, the paths of
    the entries whose name has the extension of TSM files: regular files
    and directories alike, a name with a further extension after it is
    left out. *)
Theorem X5_collectTSMFiles_returns_the_entries_with_the_tsm_extension
  (p : path) (w : World) (es : list (string * Node)) :
  budget w <> Some 0%nat ->
  faults w (length (trace w)) (EvReadDir p) = None ->
  fs_lookup p (fs w) = Found (Dir es) ->
  exists paths w',
    collectTSMFiles p w = (Ret (paths, None), w') /\
    fs w' = fs w /\
    trace w' = trace w ++ [EvReadDir p] /\
    NoDup paths /\
    forall q, q ∈ paths <-> entry_with_ext p es TSMFileExtension q.
Proof.
  intros Hb Hfault Hfound.
  unfold Buildtsi.collectTSMFiles, ioutil_ReadDir.
  destruct (call_cases (EvReadDir p)
              (fun fault t =>
                 match fault with
                 | Some msg => ([], Some (ErrIO msg), t)
                 | None =>
                     match fs_lookup p t with
                     | Found (Dir es) => (dir_names es, None, t)
                     | Found (IndexDir _) => ([], None, t)
                     | Found (File _) => ([], Some ErrNotDir, t)
                     | Missing => ([], Some ErrNotExist, t)
                     | NotDir => ([], Some ErrNotDir, t)
                     end
                 end) w) as [[_ Hz] | [_ Hc]]; [contradiction|].
  rewrite (bind_Ret _ _ _ _ _ Hc), Hfault, Hfound. cbn [fst snd].
  eexists _, _. split; [reflexivity|]. cbn [fs trace].
  split; [reflexivity|]. split; [reflexivity|].
  apply kept_entries.
Qed.

(** X6. [collectWALFiles] on the empty path returns [os.ErrNotExist]
    without a call.  On a directory that can be listed it returns, each
    once, the paths of the entries with the extension of WAL segments,
    after the calls [Stat] and [ReadDir]; only a not-exist error of
    [Stat] stops it, any other failure of [Stat] is ignored and the
    directory is listed all the same. *)
Theorem X6_collectWALFiles_lists_the_segments_whatever_stat_fails_with
  (p : path) (w : World) (es : list (string * Node)) :
  collectWALFiles [] w = (Ret ([], Some ErrNotExist), w) /\
  (p <> [] ->
   budget w = None ->
   faults w (S (length (trace w))) (EvReadDir p) = None ->
   fs_lookup p (fs w) = Found (Dir es) ->
   exists paths w',
     collectWALFiles p w = (Ret (paths, None), w') /\
     fs w' = fs w /\
     trace w' = trace w ++ [EvStat p; EvReadDir p] /\
     NoDup paths /\
     forall q, q ∈ paths <-> entry_with_ext p es WALFileExtension q).
Proof.
  split; [reflexivity|].
  intros Hp Hb Hfault Hfound.
  unfold Buildtsi.collectWALFiles, os_Stat, ioutil_ReadDir.
  rewrite bool_decide_eq_false_2 by exact Hp.
  assert (Hlen : length (trace w ++ [EvStat p]) = S (length (trace w))).
  { rewrite length_app. simpl. lia. }
  run_call. rewrite Hfound.
  destruct (faults w (length (trace w)) (EvStat p)) as [msg|];
    cbn [fst snd os_IsNotExist];
    run_call; rewrite Hlen, Hfault, Hfound; cbn [fst snd];
    (eexists _, _; split; [reflexivity|]; cbn [fs trace];
     split; [reflexivity|]; split; [rewrite <- app_assoc; reflexivity|];
     apply kept_entries).
Qed.

Lemma digit_value_range c d : digit_value c = Some d -> 0 <= d <= 9.
Proof.
  unfold digit_value.
  destruct ((48 <=? Z.of_nat (nat_of_ascii c))
            && (Z.of_nat (nat_of_ascii c) <=? 57)) eqn:E; [|discriminate].
  intros [= <-]. apply andb_true_iff in E as [E1 E2].
  apply Z.leb_le in E1, E2. lia.
Qed.

Lemma parse_digits_range s : forall n v,
  0 <= n < 2 ^ 64 -> parse_digits s n = Some v -> 0 <= v < 2 ^ 64.
Proof.
  induction s as [|c s IH]; simpl; intros n v Hn Hv.
  - injection Hv as <-. exact Hn.
  - destruct (digit_value c) as [d|] eqn:Ed; [|discriminate].
    apply digit_value_range in Ed.
    destruct (2 ^ 64 <=? n * 10 + d) eqn:E; [discriminate|].
    apply Z.leb_gt in E. apply (IH (n * 10 + d)); [lia | exact Hv].
Qed.

Lemma strconv_ParseUint_range s v :
  strconv_ParseUint s = Some v -> 0 <= v < 2 ^ 64.
Proof.
  unfold strconv_ParseUint. destruct s as [|c s]; [discriminate|].
  apply parse_digits_range. lia.
Qed.

Lemma add_shard_cases o fi shards :
  add_shard o fi shards = shards /\ (forall sh, ~ kept_shard o fi sh)
  \/ exists sh, add_shard o fi shards = shards ++ [sh] /\ kept_shard o fi sh.
Proof.
  unfold add_shard, kept_shard.
  destruct (fi_IsDir fi); simpl.
  2:{ left. split; [reflexivity|]. intros sh (H & _). discriminate. }
  destruct (String.eqb_spec (o_shardFilter o) "") as [Hf|Hf]; simpl.
  - destruct (strconv_ParseUint (fi_Name fi)) as [v|] eqn:Ev.
    + right. eexists {| ID := v; Path := fi_Name fi |}. simpl. auto.
    + left. split; [reflexivity|]. intros sh (_ & _ & H & _). discriminate.
  - destruct (String.eqb_spec (fi_Name fi) (o_shardFilter o)) as [Hn|Hn]; simpl.
    + destruct (strconv_ParseUint (fi_Name fi)) as [v|] eqn:Ev.
      * right. eexists {| ID := v; Path := fi_Name fi |}. simpl. auto.
      * left. split; [reflexivity|]. intros sh (_ & _ & H & _). discriminate.
    + left. split; [reflexivity|]. intros sh (_ & [H|H] & _); contradiction.
Qed.

Lemma kept_shard_unique o fi sh sh' :
  kept_shard o fi sh -> kept_shard o fi sh' -> sh = sh'.
Proof.
  intros (_ & _ & H1 & H2) (_ & _ & H1' & H2').
  destruct sh, sh'. simpl in *. congruence.
Qed.

Lemma shards_of_listing o fis : forall acc,
  let shards := fold_left (fun shards fi => add_shard o fi shards) fis acc in
  (forall sh, sh ∈ shards <-> sh ∈ acc \/ exists fi, fi ∈ fis /\ kept_shard o fi sh) /\
  sublist (map Path shards) (map Path acc ++ map fi_Name fis).
Proof.
  induction fis as [|fi fis IH]; intros acc; simpl.
  - split.
    + intros sh. split; [auto|]. intros [H | (fi & Hfi & _)]; [exact H|].
      apply elem_of_nil in Hfi. contradiction.
    + rewrite app_nil_r. reflexivity.
  - destruct (IH (add_shard o fi acc)) as [Hin Hsub].
    destruct (add_shard_cases o fi acc) as [[Heq Hno] | (sh0 & Heq & Hkept)];
      rewrite Heq in *.
    + split.
      * intros sh. rewrite Hin. split.
        -- intros [H | (fi' & Hfi' & Hk)]; [auto|].
           right. exists fi'. rewrite elem_of_cons. auto.
        -- intros [H | (fi' & Hfi' & Hk)]; [auto|].
           apply elem_of_cons in Hfi' as [->|Hfi'];
             [exfalso; eapply Hno; eauto | eauto].
      * etransitivity; [exact Hsub|].
        apply sublist_app; [reflexivity|]. apply sublist_cons. reflexivity.
    + split.
      * intros sh. rewrite Hin, elem_of_app, list_elem_of_singleton. split.
        -- intros [[H | ->] | (fi' & Hfi' & Hk)]; [auto | |].
           ++ right. exists fi. rewrite elem_of_cons. auto.
           ++ right. exists fi'. rewrite elem_of_cons. auto.
        -- intros [H | (fi' & Hfi' & Hk)]; [auto|].
           apply elem_of_cons in Hfi' as [->|Hfi']; [|eauto].
           left. right. eapply kept_shard_unique; eauto.
      * etransitivity; [exact Hsub|].
        rewrite map_app, <- app_assoc. simpl.
        destruct Hkept as (_ & _ & _ & ->). reflexivity.
Qed.

Lemma dir_infos_names es : map fi_Name (dir_infos es) = dir_names es.
Proof.
  unfold dir_infos. rewrite map_map. simpl. apply map_id.
Qed.

Lemma NoDup_all_equal {A} (a : A) (l : list A) :
  NoDup l -> (forall x, x ∈ l -> x = a) -> (length l <= 1)%nat.
Proof.
  destruct l as [|x [|y l]]; simpl; intros Hnd Hall; [lia | lia |].
  exfalso. apply NoDup_cons in Hnd as [Hx _]. apply Hx.
  rewrite (Hall x), <- (Hall y); rewrite !elem_of_cons; auto.
Qed.

(** X7. On a retention policy directory that can be listed, the shards
    [processRetentionPolicy] hands to its workers are exactly the
    entries that are directories, pass the shard filter when one is set,
    and whose name is a decimal numeral of a 64-bit number, the shard's
    id; files and other names are skipped without an error.  No
    directory is taken twice, and with a shard filter there is at most
    one shard. *)
Theorem X7_shards_are_the_numbered_directories_passing_the_filter
  (o : Options) (dataDir : path) (w : World) (es : list (string * Node)) :
  budget w = None ->
  faults w (S (length (trace w))) (EvReadDir dataDir) = None ->
  fs_lookup dataDir (fs w) = Found (Dir es) ->
  exists shards w',
    processRetentionPolicy_shards o dataDir w = (Ret (inl shards), w') /\
    fs w' = fs w /\
    (forall sh, sh ∈ shards <-> shard_entry o es sh) /\
    NoDup (map Path shards) /\
    Forall (fun sh => 0 <= ID sh < 2 ^ 64) shards /\
    (o_shardFilter o <> "" -> (length shards <= 1)%nat).
Proof.
  intros Hb Hfault Hfound.
  unfold processRetentionPolicy_shards, ioutil_ReadDir_infos, log.
  assert (Hlen : length (trace w ++ [EvLog Info "Rebuilding retention policy"])
                 = S (length (trace w))).
  { rewrite length_app. simpl. lia. }
  run_call. run_call. rewrite Hlen, Hfault, Hfound. cbn [fst snd].
  destruct (shards_of_listing o (dir_infos es) []) as [Hin Hsub].
  simpl in Hsub. rewrite dir_infos_names in Hsub.
  set (shards := fold_left (fun shards fi => add_shard o fi shards)
                   (dir_infos es) []) in *.
  assert (Hchar : forall sh, sh ∈ shards <-> shard_entry o es sh).
  { intros sh. rewrite Hin. unfold shard_entry, kept_shard, dir_infos. split.
    - intros [H | (fi & Hfi & Hd & Hf & Hp & Hn)];
        [apply elem_of_nil in H; contradiction|].
      apply list_elem_of_fmap in Hfi as (name & -> & Hname).
      simpl in *. rewrite Hn.
      destruct (ents_lookup name es) as [n|]; [|discriminate].
      split; [eauto|]. split; assumption.
    - intros ((n & Hn & Hd) & Hf & Hp). right.
      exists {| fi_Name := Path sh;
                fi_IsDir := match ents_lookup (Path sh) es with
                            | Some n => is_dir n
                            | None => false
                            end |}.
      split.
      + apply list_elem_of_fmap. exists (Path sh). split; [reflexivity|].
        apply elem_of_dir_names. rewrite Hn. eauto.
      + simpl. rewrite Hn. auto. }
  assert (Hnd : NoDup (map Path shards)).
  { eapply sublist_NoDup; [apply NoDup_dir_names | exact Hsub]. }
  eexists shards, _. split; [reflexivity|]. cbn [fs].
  split; [reflexivity|]. split; [exact Hchar|]. split; [exact Hnd|]. split.
  - apply Forall_forall. intros sh Hsh. apply Hchar in Hsh as (_ & _ & Hp).
    eapply strconv_ParseUint_range, Hp.
  - intros Hfilter. rewrite <- (length_map Path).
    apply (NoDup_all_equal (o_shardFilter o)); [exact Hnd|].
    intros name Hname. apply list_elem_of_fmap in Hname as (sh & -> & Hsh).
    apply Hchar in Hsh as (_ & [Hf|Hf] & _); [contradiction | exact Hf].
Qed.

(** *** What the result of a rebuild says about the index path *)

Lemma hoare_any {A} (c : M World A) :
  hoare (fun _ _ => True) (fun _ => True) c (fun _ _ => True).
Proof. intros w _. split; [exact I | intros; exact I]. Qed.

(** Follows the results of code, whatever its calls do. *)
Ltac walk_result :=
  repeat
    lazymatch goal with
    | |- hoare _ _ (bind (ret _) _) _ => apply hoare_bind_ret
    | |- hoare _ _ (bind (panic _) _) _ => apply hoare_bind_panic; auto
    | |- hoare _ _ (bind (if ?c then _ else _) _) _ => destruct c eqn:?
    | |- hoare _ _ (bind (for_each _ _ _) _) _ => fail
    | |- hoare _ _ (bind _ _) _ =>
        eapply hoare_bind_any; [auto | apply hoare_any | intros ?]
    | |- hoare _ _ (for_each _ _ _) _ => fail
    | |- hoare _ _ (ret _) _ => apply hoare_ret; [auto | intros ? _]
    | |- hoare _ _ (panic _) _ => apply hoare_panic; auto
    | |- hoare _ _ (if ?c then _ else _) _ => destruct c eqn:?
    | |- hoare _ _ (match ?x with _ => _ end) _ => destruct x eqn:?
    | |- hoare _ _ (let (_, _) := ?x in _) _ => destruct x eqn:?
    end.

(** A loop whose body leaves the function only with an error leaves it
    only with an error. *)
Lemma for_each_exit_error {X St} (body : X -> St -> M World (St + option error))
  xs st :
  (forall x st,
     hoare (fun _ _ => True) (fun _ => True) (body x st)
       (fun r _ => r <> inr None)) ->
  hoare (fun _ _ => True) (fun _ => True) (for_each xs body st)
    (fun r _ => r <> inr None).
Proof.
  intros Hbody. eapply hoare_weaken.
  - apply (hoare_for_each (fun _ _ => True) (fun _ => I) (fun _ _ _ _ _ => I)
             (fun _ _ => True) (fun v _ => v <> None)).
    intros x st'. eapply hoare_weaken; [apply Hbody | auto |].
    intros [st''|v] w Hr; [exact I | congruence].
  - auto.
  - intros [st'|v] w Hr; [discriminate | congruence].
Qed.

(** The part of [IndexShard] for the TSM files and the part for the WAL
    return from [IndexShard] only with an error. *)
Lemma IndexShard_tsm_result index_ dataDir batchSize verboseLogging :
  hoare (fun _ _ => True) (fun _ => True)
    (IndexShard_tsm index_ dataDir batchSize verboseLogging)
    (fun r _ => r <> inr None).
Proof.
  unfold Buildtsi.IndexShard_tsm. walk_result; try discriminate.
  apply for_each_exit_error. intros p st. walk_result; discriminate.
Qed.

Lemma IndexShard_wal_result index_ walDir maxCacheSize batchSize
  verboseLogging :
  hoare (fun _ _ => True) (fun _ => True)
    (IndexShard_wal index_ walDir maxCacheSize batchSize verboseLogging)
    (fun r _ => r <> inr None).
Proof.
  unfold Buildtsi.IndexShard_wal, make_cap. walk_result; try discriminate.
  all: eapply hoare_bind with (mid := fun r _ => r <> inr None);
    [ auto
    | apply for_each_exit_error; intros key st;
      unfold Buildtsi.IndexShard_cache_body;
      destruct (ParseKeyBytes _) as [name tags];
      walk_result; discriminate
    | intros [st|e]; apply hoare_pure_pre; intros Hr;
      walk_result; try discriminate; congruence ].
Qed.

Section Outcome.
Variables (index_ : Index) (dataDir walDir : path).
Variables (maxCacheSize batchSize : Z) (verboseLogging : bool).
Let tmp := Join dataDir [".index"].
Let final := Join dataDir ["index"].
Hypothesis Hidx : idx_path index_ = tmp.

(** The publication returns nil exactly when it has renamed the index
    into place. *)
Lemma IndexShard_publish_outcome w ix0 :
  fs_lookup tmp (fs w) = Found (IndexDir ix0) ->
  fs_lookup final (fs w) = Missing ->
  let run := IndexShard_publish index_ tmp final w in
  (run.1 <> Ret None /\ fs_lookup final (fs run.2) = Missing) \/
  (run.1 = Ret None /\
   fs_lookup final (fs run.2)
   = Found (IndexDir {| series := series ix0; compacted := true |}) /\
   fs_lookup tmp (fs run.2) = Missing).
Proof.
  intros Htmp Hfinal run. subst run.
  unfold Buildtsi.IndexShard_publish, Index_Compact, Index_Wait, Index_Close,
    os_Rename, log.
  rewrite Hidx.
  next_call; [left; split; [discriminate | exact Hfinal]|].
  next_call; [left; split; [discriminate | exact Hfinal]|].
  destruct (compact_staged dataDir (fs w) ix0 Htmp Hfinal)
    as (t' & Hc & Htmp' & Hfinal').
  fold tmp in Hc. rewrite Hc. cbn [fst snd].
  next_call; [left; split; [discriminate | exact Hfinal']|].
  next_call; [left; split; [discriminate | exact Hfinal']|].
  next_call; [left; split; [discriminate | exact Hfinal']|].
  match goal with
  | |- context [faults w ?n ?ev] => destruct (faults w n ev) as [msg|]
  end; cbn [fst snd].
  { left. split; [discriminate | exact Hfinal']. }
  next_call; [left; split; [discriminate | exact Hfinal']|].
  last_call; [left; split; [discriminate | exact Hfinal']|].
  match goal with
  | |- context [faults w ?n ?ev] => destruct (faults w n ev) as [msg|]
  end; cbn [fst snd].
  { left. split; [discriminate | exact Hfinal']. }
  destruct (fs_rename_staged dataDir t' _ Htmp' Hfinal') as (Hnil & Hf & Ht).
  right. unfold tmp, final, Join. rewrite Hnil. split; [reflexivity|].
  split; assumption.
Qed.

(** The three parts of [IndexShard] that run with the index open return
    nil exactly when the index is renamed into place; an error or a
    panic leaves the index path missing. *)
Lemma IndexShard_body_outcome w0 :
  index_at tmp w0 ->
  fs_lookup final (fs w0) = Missing ->
  let body :=
    (l <- IndexShard_tsm index_ dataDir batchSize verboseLogging ;;
     match l with
     | inr e => ret e
     | inl _ =>
         l <- IndexShard_wal index_ walDir maxCacheSize batchSize
                verboseLogging ;;
         match l with
         | inr e => ret e
         | inl _ => IndexShard_publish index_ tmp final
         end
     end) in
  (body w0).1 = Interrupted \/
  ((body w0).1 <> Ret None /\ fs_lookup final (fs (body w0).2) = Missing) \/
  ((body w0).1 = Ret None /\
   exists ix,
     fs_lookup final (fs (body w0).2) = Found (IndexDir ix) /\
     compacted ix = true /\
     fs_lookup tmp (fs (body w0).2) = Missing).
Proof.
  intros Hat Hfin body. subst body.
  destruct (IndexShard_tsm_tree index_ dataDir Hidx batchSize verboseLogging
              w0 Hat) as [HR1 Hp1].
  destruct (IndexShard_tsm_result index_ dataDir batchSize verboseLogging w0 I)
    as [_ Hv1].
  destruct (IndexShard_tsm index_ dataDir batchSize verboseLogging w0)
    as [[[[]|e]|msg|] w1] eqn:Et; cbn [fst snd] in *.
  2:{ right. left. rewrite (bind_Ret _ _ _ _ _ Et). cbn. split.
      - intros [= ->]. apply (Hv1 _ eq_refl). reflexivity.
      - apply HR1, Hfin. }
  2:{ right. left. rewrite (bind_Panic _ _ _ _ _ Et). cbn.
      split; [discriminate | apply HR1, Hfin]. }
  2:{ left. rewrite (bind_Interrupted _ _ _ _ Et). reflexivity. }
  rewrite (bind_Ret _ _ _ _ _ Et).
  assert (Hat1 : index_at tmp w1) by (apply (Hp1 _ eq_refl)).
  assert (Hfin1 : fs_lookup final (fs w1) = Missing) by (apply HR1, Hfin).
  destruct (IndexShard_wal_tree index_ dataDir Hidx walDir maxCacheSize
              batchSize verboseLogging w1 Hat1) as [HR2 Hp2].
  destruct (IndexShard_wal_result index_ walDir maxCacheSize batchSize
              verboseLogging w1 I) as [_ Hv2].
  destruct (IndexShard_wal index_ walDir maxCacheSize batchSize verboseLogging w1)
    as [[[[]|e]|msg|] w2] eqn:Ew; cbn [fst snd] in *.
  2:{ right. left. rewrite (bind_Ret _ _ _ _ _ Ew). cbn. split.
      - intros [= ->]. apply (Hv2 _ eq_refl). reflexivity.
      - apply HR2, Hfin1. }
  2:{ right. left. rewrite (bind_Panic _ _ _ _ _ Ew). cbn.
      split; [discriminate | apply HR2, Hfin1]. }
  2:{ left. rewrite (bind_Interrupted _ _ _ _ Ew). reflexivity. }
  rewrite (bind_Ret _ _ _ _ _ Ew).
  destruct (Hp2 _ eq_refl) as [ix0 Hat2].
  assert (Hfin2 : fs_lookup final (fs w2) = Missing) by (apply HR2, Hfin1).
  destruct (IndexShard_publish_outcome w2 ix0 Hat2 Hfin2)
    as [[Hr Hm] | (Hr & Hf & Hg)].
  - right. left. split; assumption.
  - right. right. split; [exact Hr|].
    exists {| series := series ix0; compacted := true |}.
    split; [exact Hf|]. split; [reflexivity | exact Hg].
Qed.

End Outcome.

(** What the deferred close of the index does to the result of the body:
    nothing, unless the process is killed before it. *)
Lemma defer_close_result {A} index_ (body : M World A) w :
  let r := defer (Index_Close index_ ;; ret tt) body w in
  r.1 = (body w).1 \/ r.1 = Interrupted.
Proof.
  unfold defer, Index_Close.
  destruct (body w) as [[a|msg|] w3]; cbn [fst snd].
  3: left; reflexivity.
  all: next_call; [right; reflexivity|];
    unfold ret; cbn [fst snd]; left; reflexivity.
Qed.

(** With the index path missing and a [Stat] that does not fail,
    [IndexShard] does not take the shard for an indexed one. *)
Lemma IndexShard_open_no_skip dataDir maxLogFileSize batchSize w w0 :
  fs_lookup (Join dataDir ["index"]) (fs w) = Missing ->
  faults w (length (trace w) + 2) (EvStat (Join dataDir ["index"])) = None ->
  IndexShard_open dataDir maxLogFileSize batchSize w <> (Ret (inr None), w0).
Proof.
  intros Hm Hf.
  unfold IndexShard_open, log, os_Stat, os_RemoveAll, Index_Open.
  cbn [idx_path NewIndex].
  next_call; [discriminate|].
  next_call; [discriminate|].
  next_call; [discriminate|].
  match goal with
  | |- context [faults w ?n (EvStat _)] =>
      replace n with (length (trace w) + 2)%nat
        by (rewrite ?length_app; simpl; lia)
  end.
  rewrite Hf, Hm. cbn [fst snd os_IsNotExist negb].
  next_call; [discriminate|].
  next_call; [discriminate|].
  next_call; [discriminate|].
  match goal with
  | |- context [match ?e with Some _ => ret _ | None => _ end] =>
      destruct e as [e0|]
  end; [unfold ret; discriminate|].
  next_call; [discriminate|].
  next_call; [discriminate|].
  match goal with
  | |- context [match ?e with Some _ => ret _ | None => _ end] =>
      destruct e as [e0|]
  end; unfold ret; discriminate.
Qed.

(** The result of [IndexShard] on a shard without an index. *)
Lemma IndexShard_outcome dataDir walDir maxLogFileSize maxCacheSize batchSize
  verboseLogging w :
  let tmp := Join dataDir [".index"] in
  let final := Join dataDir ["index"] in
  let run := IndexShard dataDir walDir maxLogFileSize maxCacheSize batchSize
               verboseLogging w in
  fs_lookup final (fs w) = Missing ->
  ((forall e, run.1 = Ret (Some e) -> fs_lookup final (fs run.2) = Missing) /\
   (forall msg, run.1 = Panic msg -> fs_lookup final (fs run.2) = Missing)) /\
  (faults w (length (trace w) + 2) (EvStat final) = None ->
   run.1 = Ret None ->
   exists ix,
     fs_lookup final (fs run.2) = Found (IndexDir ix) /\
     compacted ix = true /\
     fs_lookup tmp (fs run.2) = Missing).
Proof.
  intros tmp final run Hm. subst run. unfold Buildtsi.IndexShard.
  destruct (IndexShard_open_tree dataDir maxLogFileSize batchSize w I)
    as [HR0 Hp0].
  pose proof (IndexShard_open_no_skip dataDir maxLogFileSize batchSize w) as Hns.
  destruct (IndexShard_open dataDir maxLogFileSize batchSize w)
    as [[[index_|r]|msg|] w0] eqn:Eo; cbn [fst snd] in *.
  - rewrite (bind_Ret _ _ _ _ _ Eo).
    destruct (Hp0 _ eq_refl) as (Hidx & Htmp & Hfin).
    set (body := (l <- IndexShard_tsm index_ dataDir batchSize verboseLogging ;;
                  match l with
                  | inr e => ret e
                  | inl _ =>
                      l <- IndexShard_wal index_ walDir maxCacheSize batchSize
                             verboseLogging ;;
                      match l with
                      | inr e => ret e
                      | inl _ =>
                          IndexShard_publish index_ (Join dataDir [".index"])
                            (Join dataDir ["index"])
                      end
                  end)).
    destruct (defer_close_world index_ body w0) as [Hfs _].
    destruct (defer_close_result index_ body w0) as [Hres | Hres];
      rewrite Hfs, Hres.
    2:{ split; [split; intros; discriminate | intros; discriminate]. }
    destruct (IndexShard_body_outcome index_ dataDir walDir maxCacheSize
                batchSize verboseLogging Hidx w0
                (ex_intro _ empty_index Htmp) Hfin)
      as [Hi | [[Hne Hmiss] | [Hnil Hpub]]].
    + fold body in Hi. rewrite Hi.
      split; [split; intros; discriminate | intros; discriminate].
    + fold body in Hne, Hmiss.
      split; [split; intros; exact Hmiss|]. intros _ Hr. contradiction.
    + fold body in Hnil, Hpub. rewrite Hnil.
      split; [split; intros; discriminate|].
      intros _ _. exact Hpub.
  - rewrite (bind_Ret _ _ _ _ _ Eo). unfold ret. cbn [fst snd].
    split; [split; intros; apply HR0, Hm|].
    intros Hf [= ->]. exfalso. eapply Hns; eauto.
  - rewrite (bind_Panic _ _ _ _ _ Eo). cbn [fst snd].
    split; [split; intros; apply HR0, Hm | intros; discriminate].
  - rewrite (bind_Interrupted _ _ _ _ Eo). cbn [fst snd].
    split; [split; intros; discriminate | intros; discriminate].
Qed.

(** X10. On a shard whose index path is missing, the result of
    [IndexShard] tells whether the index is there: when it returns an
    error or panics, the index path is still missing; when it returns
    nil (the [Stat] of the index path not having failed), the index path
    holds the compacted index and the temporary path is gone. *)
Theorem X10_nil_means_published_and_an_error_means_unpublished
  (dataDir walDir : path) (maxLogFileSize maxCacheSize batchSize : Z)
  (verboseLogging : bool) (w : World) :
  let tmp := Join dataDir [".index"] in
  let final := Join dataDir ["index"] in
  let run := IndexShard dataDir walDir maxLogFileSize maxCacheSize batchSize
               verboseLogging w in
  fs_lookup final (fs w) = Missing ->
  (forall e, run.1 = Ret (Some e) -> fs_lookup final (fs run.2) = Missing) /\
  (forall msg, run.1 = Panic msg -> fs_lookup final (fs run.2) = Missing) /\
  (faults w (length (trace w) + 2) (EvStat final) = None ->
   run.1 = Ret None ->
   exists ix,
     fs_lookup final (fs run.2) = Found (IndexDir ix) /\
     compacted ix = true /\
     fs_lookup tmp (fs run.2) = Missing).
Proof.
  intros tmp final run Hm.
  destruct (IndexShard_outcome dataDir walDir maxLogFileSize maxCacheSize
              batchSize verboseLogging w Hm) as [[He Hp] Hnil].
  split; [exact He|]. split; [exact Hp | exact Hnil].
Qed.

(** X11. When the [Stat] of the index path fails for another reason than
    the path not existing, [IndexShard] takes the index for present: it
    logs that the index already exists and returns nil after four calls,
    having changed nothing, although there may be no index at the index
    path. *)
Theorem X11_a_failing_stat_makes_the_shard_count_as_indexed
  (dataDir walDir : path) (maxLogFileSize maxCacheSize batchSize : Z)
  (verboseLogging : bool) (w : World) (msg : string) :
  budget w = None ->
  faults w (length (trace w) + 2) (EvStat (Join dataDir ["index"])) = Some msg ->
  IndexShard dataDir walDir maxLogFileSize maxCacheSize batchSize
    verboseLogging w
  = (Ret None,
     {| fs := fs w; trace := trace w ++ skip_events dataDir;
        faults := faults w; budget := None |}).
Proof.
  intros Hb Hf.
  unfold Buildtsi.IndexShard, IndexShard_open, log, os_Stat.
  unfold bind at 1. unfold bind at 1.
  run_call. run_call. run_call.
  match goal with
  | |- context [faults w ?n (EvStat _)] =>
      replace n with (length (trace w) + 2)%nat
        by (rewrite ?length_app; simpl; lia)
  end.
  rewrite Hf. cbn [fst snd os_IsNotExist negb].
  run_call. unfold ret. cbn [fst snd].
  rewrite <- !app_assoc. reflexivity.
Qed.

(** X12. A shard that [IndexShard] has rebuilt is skipped by the next
    run: after a run that returned nil on a shard whose index path was
    missing, a second run, whatever its arguments for the WAL directory,
    the sizes and the logging, leaves the file tree as the first run
    left it, makes no call besides those of a skipped shard, and returns
    nil unless the process is killed. *)
Theorem X12_a_rebuilt_shard_is_skipped_by_the_next_run
  (dataDir walDir walDir' : path)
  (maxLogFileSize maxCacheSize batchSize : Z)
  (maxLogFileSize' maxCacheSize' batchSize' : Z)
  (verboseLogging verboseLogging' : bool) (w : World) :
  let final := Join dataDir ["index"] in
  let first := IndexShard dataDir walDir maxLogFileSize maxCacheSize batchSize
                 verboseLogging w in
  let second := IndexShard dataDir walDir' maxLogFileSize' maxCacheSize'
                  batchSize' verboseLogging' first.2 in
  fs_lookup final (fs w) = Missing ->
  faults w (length (trace w) + 2) (EvStat final) = None ->
  first.1 = Ret None ->
  fs second.2 = fs first.2 /\
  (exists k, trace second.2 = trace first.2 ++ take k (skip_events dataDir)) /\
  (second.1 = Ret None \/ second.1 = Interrupted) /\
  (budget first.2 = None -> second.1 = Ret None).
Proof.
  intros final first second Hm Hf Hnil.
  destruct (IndexShard_outcome dataDir walDir maxLogFileSize maxCacheSize
              batchSize verboseLogging w Hm) as [_ Hpub].
  destruct (Hpub Hf Hnil) as (ix & Hfound & _ & _).
  fold first in Hfound.
  assert (Hthere : fs_lookup (Join dataDir ["index"]) (fs first.2) <> Missing).
  { intros Hx. pose proof (eq_trans (eq_sym Hfound) Hx) as Hz.
    discriminate Hz. }
  destruct (IndexShard_open_skip dataDir maxLogFileSize' batchSize' first.2
              Hthere) as (Hfs & Htr & Hres & Hquiet).
  destruct (IndexShard_open dataDir maxLogFileSize' batchSize' first.2)
    as [o w'] eqn:Eo. cbn [fst snd] in *.
  destruct Hres as [-> | ->].
  - assert (Hs : second = (Ret None, w')).
    { subst second. unfold Buildtsi.IndexShard.
      rewrite (bind_Ret _ _ _ _ _ Eo). reflexivity. }
    rewrite Hs. cbn [fst snd].
    split; [exact Hfs|]. split; [exact Htr|].
    split; [left; reflexivity | intros; reflexivity].
  - assert (Hs : second = (Interrupted, w')).
    { subst second. unfold Buildtsi.IndexShard.
      rewrite (bind_Interrupted _ _ _ _ Eo). reflexivity. }
    rewrite Hs. cbn [fst snd].
    split; [exact Hfs|]. split; [exact Htr|].
    split; [right; reflexivity|]. intros Hb.
    destruct (Hquiet Hb) as [Hr _]. discriminate.
Qed.

(** *** A batch size that is not positive *)

(** X13. [IndexTSMFile] needs a positive batch size: on a TSM file that
    opens and reads, a negative batch size makes it panic when it
    allocates the batches, and a batch size of zero makes it panic on the
    first key of the file, at its slot of the empty tags batch.  Nothing
    is inserted, and the deferred calls close the reader and the file
    before the panic goes on. *)
Theorem X13_IndexTSMFile_panics_without_a_positive_batch_size
  (index_ : Index) (p : path) (batchSize : Z) (verboseLogging : bool)
  (w : World) (data : bytes) (keys : list bytes) :
  budget w = None ->
  faults w (length (trace w)) (EvOpen p) = None ->
  faults w (S (length (trace w))) (EvNewTSMReader p) = None ->
  fs_lookup p (fs w) = Found (File data) ->
  readTSM data = Some keys ->
  batchSize < 0 \/ (batchSize = 0 /\ keys <> []) ->
  exists msg,
    IndexTSMFile index_ p batchSize verboseLogging w
    = (Panic msg,
       {| fs := fs w;
          trace := trace w ++ [EvOpen p; EvNewTSMReader p;
                               EvReaderClose p; EvFileClose p];
          faults := faults w; budget := None |}).
Proof.
  intros Hb Hopen Hreader Hfile Hread Hsize.
  apply (IndexTSMFile_batch_panic index_ p batchSize verboseLogging w data
           keys Hb Hopen Hreader Hfile Hread).
  destruct Hsize as [Hneg | Hzero]; [left | right; exact Hzero].
  apply out_of_range_negative, Hneg.
Qed.

Section CacheUnbatched.
Variables (index_ : Index) (verboseLogging : bool).
Let ip := idx_path index_.
Let sk (key : bytes) : bytes := (SeriesAndFieldFromCompositeKey key).1.

(** With a batch size of zero the loop over the cache's keys never
    flushes. *)
Lemma IndexShard_cache_loop_unbatched keys :
  forall st w,
    insertable ip FromCache w ->
    exists st' w' evs,
      for_each keys (IndexShard_cache_body index_ 0 verboseLogging) st w
      = (Ret (inl st'), w') /\
      trace w' = trace w ++ evs /\
      insertable ip FromCache w' /\
      key_batches FromCache evs = [] /\
      c_keysBatch st' = c_keysBatch st ++ map sk keys.
Proof.
  induction keys as [|key keys IH]; intros st w Hins.
  - exists st, w, []. rewrite !app_nil_r. simpl. auto.
  - simpl for_each. unfold Buildtsi.IndexShard_cache_body at 1. fold (sk key).
    destruct (ParseKeyBytes (sk key)) as [name tags].
    destruct (verbose_log_run verboseLogging ip FromCache w Hins)
      as (w1 & evs1 & E1 & Ht1 & Hk1 & Hins1).
    rewrite (bind_Ret _ (fun r => match r with
                                  | inl st' => for_each keys _ st'
                                  | inr v => ret (inr v)
                                  end) w
               (inl {| c_keysBatch := c_keysBatch st ++ [sk key];
                       c_namesBatch := c_namesBatch st ++ [name];
                       c_tagsBatch := c_tagsBatch st ++ [tags] |}) w1).
    2:{ rewrite (bind_Ret _ _ _ _ _ E1).
        replace (Z.of_nat (length (c_keysBatch st ++ [sk key])) =? 0) with false
          by (symmetry; apply Z.eqb_neq; rewrite length_app; simpl; lia).
        reflexivity. }
    destruct (IH {| c_keysBatch := c_keysBatch st ++ [sk key];
                    c_namesBatch := c_namesBatch st ++ [name];
                    c_tagsBatch := c_tagsBatch st ++ [tags] |} w1 Hins1)
      as (st' & w' & evs & E & Ht & Hins' & Hk & Hs).
    exists st', w', (evs1 ++ evs). split; [exact E|].
    split; [rewrite Ht, Ht1, <- app_assoc; reflexivity|].
    split; [exact Hins'|]. split.
    + rewrite key_batches_app, Hk1, Hk. reflexivity.
    + rewrite Hs. cbn [c_keysBatch]. rewrite <- app_assoc. reflexivity.
Qed.

(** X14. With a batch size of zero the loop over the cache's keys in
    [IndexShard] never finds its batch full: on a WAL directory that can
    be listed and replayed, with inserts that do not fail, all series
    keys of the cache are handed to the index in one call after the
    loop, whatever their number (and in no call when the cache is
    empty). *)
Theorem X14_batch_size_zero_inserts_the_cache_in_one_call
  (walDir : path) (maxCacheSize : Z) (w : World)
  (es : list (string * Node)) (ds keys : list bytes) :
  insertable (idx_path index_) FromCache w ->
  walDir <> [] ->
  (forall n, faults w n (EvStat walDir) = None) ->
  (forall n, faults w n (EvReadDir walDir) = None) ->
  (forall n ps, faults w n (EvCacheLoad ps) = None) ->
  fs_lookup walDir (fs w) = Found (Dir es) ->
  read_files
    (map (fun name => Join walDir [name])
       (filter (fun name => Ext name = "." +:+ WALFileExtension) (dir_names es)))
    (fs w) = Some ds ->
  replayWAL maxCacheSize ds = Some keys ->
  exists w' evs,
    IndexShard_wal index_ walDir maxCacheSize 0 verboseLogging w
    = (Ret (inl tt), w') /\
    trace w' = trace w ++ evs /\
    key_batches FromCache evs
    = match keys with
      | [] => []
      | _ :: _ =>
          [map (fun key => (SeriesAndFieldFromCompositeKey key).1) keys]
      end.
Proof.
  intros (Hb & Hf & Hix) Hne Hstat Hread Hload Hdir Hfiles Hreplay.
  unfold Buildtsi.IndexShard_wal.
  rewrite (bind_Ret _ _ _ _ _
             (collectWALFiles_run walDir es w Hb Hne Hstat Hread Hdir)).
  unfold log, Buildtsi.CacheLoader_Load, make_cap.
  run_call. run_call. rewrite Hload, Hfiles, Hreplay. cbn [fst snd].
  run_call. rewrite (out_of_range_false 0) by (vm_compute; discriminate).
  rewrite !hoare_bind_ret_eq.
  match goal with
  | |- context [bind (for_each _ _ ?st) _ ?w1] =>
      destruct (IndexShard_cache_loop_unbatched
                  (Keys {| cache_keys := keys |}) st w1)
        as (st' & w' & evs & E & Ht & Hins' & Hk & Hs);
      [split; [reflexivity | split; [exact Hf | exact Hix]]|]
  end.
  rewrite (bind_Ret _ _ _ _ _ E).
  cbn [Keys cache_keys c_keysBatch app] in Hs. fold sk. rewrite Hs.
  destruct keys as [|k0 keys0].
  - cbn [map length Z.of_nat Z.ltb Z.compare]. eexists w', _.
    split; [reflexivity|]. split.
    + rewrite Ht. cbn [trace]. rewrite <- !app_assoc. reflexivity.
    + rewrite !key_batches_app, Hk. reflexivity.
  - replace (0 <? Z.of_nat (length (map sk (k0 :: keys0)))) with true
      by (symmetry; apply Z.ltb_lt; simpl length; lia).
    destruct (insert_run index_ FromCache (map sk (k0 :: keys0))
                (c_namesBatch st') (c_tagsBatch st') w' Hins')
      as (w2 & E2 & Ht2 & _).
    rewrite (bind_Ret _ _ _ _ _ E2).
    eexists w2, _. split; [reflexivity|]. split.
    + rewrite Ht2, Ht. cbn [trace]. rewrite <- !app_assoc. reflexivity.
    + rewrite !key_batches_app, Hk, key_batches_insert. reflexivity.
Qed.

End CacheUnbatched.

(** *** What is opened is closed *)

Lemma steady_ret {A} (a : A) : steady (ret a).
Proof. intros w Hb. split; [discriminate | exact Hb]. Qed.

Lemma steady_panic {A} msg : steady (@panic World A msg).
Proof. intros w Hb. split; [discriminate | exact Hb]. Qed.

Lemma steady_call {A} ev (sem : option string -> Node -> A * Node) :
  steady (call ev sem).
Proof.
  intros w Hb. rewrite (call_run ev sem w Hb). split; [discriminate | reflexivity].
Qed.

Lemma steady_bind {A B} (c : M World A) (k : A -> M World B) :
  steady c -> (forall a, steady (k a)) -> steady (bind c k).
Proof.
  intros Hc Hk w Hb. destruct (Hc w Hb) as [Hn Hb1]. unfold bind.
  destruct (c w) as [[a|msg|] w1]; cbn [fst snd] in *.
  - apply Hk, Hb1.
  - split; [discriminate | exact Hb1].
  - contradiction.
Qed.

Lemma steady_for_each {X St R} (body : X -> St -> M World (St + R)) xs :
  (forall x st, steady (body x st)) -> forall st, steady (for_each xs body st).
Proof.
  intros Hbody. induction xs as [|x xs IH]; intros st; simpl.
  - apply steady_ret.
  - apply steady_bind; [apply Hbody|].
    intros [st'|v]; [apply IH | apply steady_ret].
Qed.

Lemma steady_defer {A} (cleanup : M World unit) (body : M World A) :
  steady cleanup -> steady body -> steady (defer cleanup body).
Proof.
  intros Hc Hbody w Hb. destruct (Hbody w Hb) as [Hn Hb1]. unfold defer.
  destruct (body w) as [[a|msg|] w1]; cbn [fst snd] in *; [| |contradiction];
    destruct (Hc w1 Hb1) as [Hn2 Hb2];
    destruct (cleanup w1) as [[u|msg2|] w2]; cbn [fst snd] in *;
    try contradiction; (split; [discriminate | exact Hb2]).
Qed.

(** Walks through code that only a call could interrupt. *)
Ltac walk_steady :=
  repeat
    lazymatch goal with
    | |- steady (bind (if ?c then _ else _) _) => destruct c
    | |- steady (bind _ _) => apply steady_bind; [|intros ?]
    | |- steady (for_each _ _ _) => apply steady_for_each; intros ? ?
    | |- steady (ret _) => apply steady_ret
    | |- steady (panic _) => apply steady_panic
    | |- steady (call _ _) => apply steady_call
    | |- steady (defer _ _) => apply steady_defer
    | |- steady (if ?c then _ else _) => destruct c
    | |- steady (match ?x with _ => _ end) => destruct x
    | |- steady (let (_, _) := ?x in _) => destruct x
    end.

(** A deferred call that cannot fail, after a body that was not
    interrupted: the call is made last, whatever the body's result. *)
Lemma defer_call_last {A} ev (body : M World A) w :
  (body w).1 <> Interrupted -> budget (body w).2 = None ->
  defer (call ev (fun _ t => (tt, t))) body w
  = ((body w).1,
     {| fs := fs (body w).2; trace := trace (body w).2 ++ [ev];
        faults := faults (body w).2; budget := None |}).
Proof.
  intros Hn Hb. unfold defer.
  destruct (body w) as [[a|msg|] w1]; cbn [fst snd] in *; [| |contradiction];
    rewrite (call_run _ _ w1 Hb); reflexivity.
Qed.

Lemma defer_close_last {A} index_ (body : M World A) w :
  (body w).1 <> Interrupted -> budget (body w).2 = None ->
  defer (Index_Close index_ ;; ret tt) body w
  = ((body w).1,
     {| fs := fs (body w).2;
        trace := trace (body w).2 ++ [EvIndexClose (idx_path index_)];
        faults := faults (body w).2; budget := None |}).
Proof.
  intros Hn Hb. unfold defer, Index_Close.
  destruct (body w) as [[a|msg|] w1]; cbn [fst snd] in *; [| |contradiction];
    run_call; unfold ret;
    destruct (faults w1 (length (trace w1)) (EvIndexClose (idx_path index_)));
    reflexivity.
Qed.

(** A call that returned, with nobody to interrupt it. *)
Lemma call_Ret_inv {A} ev (sem : option string -> Node -> A * Node) w a w' :
  budget w = None ->
  call ev sem w = (Ret a, w') ->
  a = (sem (faults w (length (trace w)) ev) (fs w)).1 /\
  w' = {| fs := (sem (faults w (length (trace w)) ev) (fs w)).2;
          trace := trace w ++ [ev]; faults := faults w; budget := None |}.
Proof.
  intros Hb E. rewrite (call_run ev sem w Hb) in E.
  injection E as <- <-. split; reflexivity.
Qed.

(** The batching of [IndexTSMFile] under its two deferred closes: log
    lines and inserts only, and no interruption. *)
Lemma IndexTSMFile_inner (index_ : Index) (p : path) (batchSize : Z)
  (verboseLogging : bool) (r : TSMReader) :
  let inner :=
    (keysBatch0 <- make_cap batchSize ;;
     namesBatch0 <- make_cap batchSize ;;
     tagsBatch0 <- make_len [] batchSize ;;
     l <- for_each (seq 0 (KeyCount r))
            (IndexTSMFile_body index_ p batchSize verboseLogging r)
            {| keysBatch := keysBatch0; namesBatch := namesBatch0;
               tagsBatch := tagsBatch0; ti := 0 |} ;;
     match l with
     | inr e => ret e
     | inl st =>
         if 0 <? Z.of_nat (length (keysBatch st)) then
           err <- CreateSeriesListIfNotExists index_ (FromTSM p)
                    (keysBatch st) (namesBatch st)
                    (take (ti st) (tagsBatch st)) ;;
           match err with
           | Some e => ret (Some (ErrCreatingSeries e))
           | None => ret None
           end
         else ret None
     end) in
  steady inner /\
  hoare (extends_by series_event) (fun _ => True) inner (fun _ _ => True).
Proof.
  intros inner. subst inner. split.
  - unfold make_cap, make_len, Buildtsi.IndexTSMFile_body, index,
      CreateSeriesListIfNotExists, log.
    walk_steady.
  - unfold make_cap, make_len, Buildtsi.IndexTSMFile_body, index,
      CreateSeriesListIfNotExists, log.
    walk.
    all: try (eapply hoare_bind_any; [apply extends_by_trans | | intros ?]).
    all: walk.
    all: try exact I.
Qed.

(** X15. A run of [IndexTSMFile] that nobody interrupts is not
    interrupted, and it closes what it opened, last and in reverse
    order.  When [os.Open] fails there is nothing to close: the error is
    returned after that one call.  When the file opens and
    [tsm1.NewTSMReader] fails, the run logs the warning, closes the file
    and returns nil.  When the reader opens too, then whatever comes
    next, nil, the error of an insert or a panic, the calls after the
    opening of the reader are log lines and inserts only, followed by the
    close of the reader and then the close of the file. *)
Theorem X15_IndexTSMFile_closes_the_reader_and_then_the_file
  (index_ : Index) (p : path) (batchSize : Z) (verboseLogging : bool)
  (w : World) :
  budget w = None ->
  let run := IndexTSMFile index_ p batchSize verboseLogging w in
  run.1 <> Interrupted /\
  (forall o e w1,
     os_Open p w = (Ret (o, Some e), w1) ->
     run.1 = Ret (Some e) /\ trace run.2 = trace w ++ [EvOpen p]) /\
  (forall f w1,
     os_Open p w = (Ret (Some f, None), w1) ->
     (forall o e w2,
        NewTSMReader f w1 = (Ret (o, Some e), w2) ->
        run.1 = Ret None /\
        trace run.2
        = trace w ++ [EvOpen p; EvNewTSMReader p;
                      EvLog Warn "Unable to read, skipping"; EvFileClose p]) /\
     (forall r w2,
        NewTSMReader f w1 = (Ret (Some r, None), w2) ->
        exists evs,
          trace run.2
          = trace w ++ [EvOpen p; EvNewTSMReader p] ++ evs
            ++ [EvReaderClose p; EvFileClose p] /\
          Forall series_event evs)).
Proof.
  intros Hb run. subst run. split; [|split].
  - assert (Hst : steady (IndexTSMFile index_ p batchSize verboseLogging)).
    { unfold Buildtsi.IndexTSMFile, os_Open, File_Close,
        Buildtsi.NewTSMReader, TSMReader_Close, make_cap, make_len,
        Buildtsi.IndexTSMFile_body, index, CreateSeriesListIfNotExists, log.
      walk_steady. }
    apply (Hst w Hb).
  - intros o e w1 Hopen.
    unfold Buildtsi.IndexTSMFile. rewrite (bind_Ret _ _ _ _ _ Hopen).
    unfold os_Open in Hopen.
    apply (call_Ret_inv _ _ _ _ _ Hb) in Hopen as [_ ->].
    destruct o; split; reflexivity.
  - intros f w1 Hopen.
    unfold Buildtsi.IndexTSMFile. rewrite (bind_Ret _ _ _ _ _ Hopen).
    unfold os_Open in Hopen.
    apply (call_Ret_inv _ _ _ _ _ Hb) in Hopen as [Hf ->].
    assert (Hpath : f_path f = p).
    { destruct (faults w (length (trace w)) (EvOpen p)); [discriminate|].
      destruct (fs_lookup p (fs w)); try discriminate.
      injection Hf as ->. reflexivity. }
    assert (Hfs : (fun fault t =>
                     match fault with
                     | Some msg => (@None OSFile, Some (ErrIO msg), t)
                     | None =>
                         match fs_lookup p t with
                         | Found n =>
                             (Some {| f_path := p; f_node := n |}, None, t)
                         | Missing => (None, Some ErrNotExist, t)
                         | NotDir => (None, Some ErrNotDir, t)
                         end
                     end) (faults w (length (trace w)) (EvOpen p)) (fs w)
                  = (Some f, None, fs w)).
    { destruct (faults w (length (trace w)) (EvOpen p)); [discriminate|].
      destruct (fs_lookup p (fs w)); try discriminate.
      cbn [fst] in Hf. rewrite Hf. reflexivity. }
    rewrite Hfs. cbn [snd]. clear Hfs Hf.
    set (w1 := {| fs := fs w; trace := trace w ++ [EvOpen p];
                  faults := faults w; budget := None |}).
    split.
    + intros o e w2 Hread.
      rewrite (defer_Ret (File_Close f) _ w1 None
                 {| fs := fs w2;
                    trace := trace w2 ++ [EvLog Warn "Unable to read, skipping"];
                    faults := faults w2; budget := None |} tt
                 {| fs := fs w2;
                    trace := (trace w2
                              ++ [EvLog Warn "Unable to read, skipping"])
                             ++ [EvFileClose p];
                    faults := faults w2; budget := None |}).
      * unfold Buildtsi.NewTSMReader in Hread.
        apply (call_Ret_inv _ _ w1 _ _ eq_refl) in Hread as [_ ->].
        cbn [fst snd trace]. rewrite Hpath. split; [reflexivity|].
        unfold w1. cbn [trace]. rewrite <- !app_assoc. reflexivity.
      * rewrite (bind_Ret _ _ _ _ _ Hread).
        assert (Hb2 : budget w2 = None).
        { unfold Buildtsi.NewTSMReader in Hread.
          apply (call_Ret_inv _ _ w1 _ _ eq_refl) in Hread as [_ ->].
          reflexivity. }
        destruct o; rewrite (bind_Ret _ _ _ _ _ (log_run _ _ w2 Hb2));
          reflexivity.
      * unfold File_Close. rewrite Hpath. run_call. reflexivity.
    + intros r w2 Hread.
      match goal with
      | |- context [defer (File_Close f) ?b w1] => set (body := b)
      end.
      destruct (IndexTSMFile_inner index_ p batchSize verboseLogging r)
        as [Hst Hev].
      match type of Hst with steady ?i => set (inner := i) in * end.
      assert (Hw2 : w2 = {| fs := fs w1;
                            trace := trace w1 ++ [EvNewTSMReader p];
                            faults := faults w1; budget := None |}
                    /\ r_path r = p).
      { unfold Buildtsi.NewTSMReader in Hread.
        apply (call_Ret_inv _ _ w1 _ _ eq_refl) in Hread as [Hr ->].
        rewrite Hpath in *.
        destruct (faults w1 (length (trace w1)) (EvNewTSMReader p));
          [discriminate|].
        destruct (f_node f) as [data| |]; try discriminate.
        destruct (readTSM data); try discriminate.
        injection Hr as ->. split; reflexivity. }
      destruct Hw2 as [Hw2 Hrp].
      assert (Hb2 : budget w2 = None) by (rewrite Hw2; reflexivity).
      destruct (Hst w2 Hb2) as [Hni Hbi].
      destruct (Hev w2 I) as [(_ & _ & evs & Ht & HF) _].
      assert (Hbody :
        body w1
        = ((inner w2).1,
           {| fs := fs (inner w2).2;
              trace := trace (inner w2).2 ++ [EvReaderClose p];
              faults := faults (inner w2).2; budget := None |})).
      { subst body. rewrite (bind_Ret _ _ _ _ _ Hread).
        unfold TSMReader_Close. rewrite Hrp.
        apply defer_call_last; assumption. }
      unfold File_Close. rewrite Hpath.
      rewrite (defer_call_last (EvFileClose p) body w1);
        rewrite Hbody; cbn [fst snd budget trace];
        [ | exact Hni | reflexivity ].
      exists evs. split; [|exact HF].
      rewrite Ht, Hw2. unfold w1. cbn [trace].
      rewrite <- !app_assoc. reflexivity.
Qed.

(** The parts of [IndexShard] that run with the index open are not
    interrupted in a process that is left alone. *)
Lemma IndexShard_body_steady index_ dataDir walDir maxCacheSize batchSize
  verboseLogging tmp final :
  steady
    (l <- IndexShard_tsm index_ dataDir batchSize verboseLogging ;;
     match l with
     | inr e => ret e
     | inl _ =>
         l <- IndexShard_wal index_ walDir maxCacheSize batchSize
                verboseLogging ;;
         match l with
         | inr e => ret e
         | inl _ => IndexShard_publish index_ tmp final
         end
     end).
Proof.
  unfold Buildtsi.IndexShard_tsm, Buildtsi.IndexShard_wal,
    Buildtsi.IndexShard_publish, Buildtsi.collectTSMFiles,
    Buildtsi.collectWALFiles, Buildtsi.IndexTSMFile,
    Buildtsi.IndexTSMFile_body, Buildtsi.IndexShard_cache_body,
    Buildtsi.NewTSMReader, Buildtsi.CacheLoader_Load, TSMReader_Close,
    File_Close, os_Open, os_Stat, os_Rename, ioutil_ReadDir, Index_Compact,
    Index_Wait, Index_Close, CreateSeriesListIfNotExists, make_cap, make_len,
    index, log.
  walk_steady.
Qed.

(** X16. In a run of [IndexShard] that nobody interrupts and that opened
    the index, the last call is the deferred close of the index, whether
    the run returns nil, returns an error or panics; a run that returns
    nil has then closed the index twice, once before the rename and once
    after it. *)
Theorem X16_an_opened_index_is_closed_last
  (dataDir walDir : path) (maxLogFileSize maxCacheSize batchSize : Z)
  (verboseLogging : bool) (w : World) (index_ : Index) (w0 : World) :
  let tmp := Join dataDir [".index"] in
  let final := Join dataDir ["index"] in
  let run := IndexShard dataDir walDir maxLogFileSize maxCacheSize batchSize
               verboseLogging w in
  budget w = None ->
  IndexShard_open dataDir maxLogFileSize batchSize w = (Ret (inl index_), w0) ->
  run.1 <> Interrupted /\
  exists evs,
    trace run.2 = trace w0 ++ evs ++ [EvIndexClose tmp] /\
    (run.1 = Ret None -> exists evs', evs = evs' ++ publish_calls tmp final).
Proof.
  intros tmp final run Hb Hopen. subst run.
  destruct (IndexShard_open_events dataDir maxLogFileSize batchSize w I)
    as [(_ & Hb0 & _) Hp0].
  destruct (IndexShard_open_tree dataDir maxLogFileSize batchSize w I)
    as [_ Hq0].
  rewrite Hopen in Hb0, Hp0, Hq0. cbn [fst snd] in *.
  specialize (Hb0 Hb). pose proof (Hp0 _ eq_refl) as Hidx.
  destruct (Hq0 _ eq_refl) as (_ & Htmp & Hfin).
  unfold Buildtsi.IndexShard. rewrite (bind_Ret _ _ _ _ _ Hopen).
  match goal with
  | |- context [defer _ ?b w0] => set (body := b)
  end.
  destruct (IndexShard_body_steady index_ dataDir walDir maxCacheSize batchSize
              verboseLogging (Join dataDir [".index"]) (Join dataDir ["index"])
              w0 Hb0) as [Hni Hbn].
  fold body in Hni, Hbn.
  rewrite (defer_close_last index_ body w0 Hni Hbn). cbn [fst snd trace].
  split; [exact Hni|].
  pose proof (IndexShard_body_cases index_ dataDir walDir maxCacheSize
                batchSize verboseLogging Hidx w0
                (ex_intro _ empty_index Htmp) Hfin) as Hcases.
  pose proof (IndexShard_body_outcome index_ dataDir walDir maxCacheSize
                batchSize verboseLogging Hidx w0
                (ex_intro _ empty_index Htmp) Hfin) as Hout.
  cbv zeta in Hcases, Hout. fold body in Hcases, Hout.
  assert (Hext : exists evs, trace (body w0).2 = trace w0 ++ evs).
  { destruct (IndexShard_tsm_events index_ tmp Hidx dataDir batchSize
                verboseLogging w0 I) as [(_ & _ & evs1 & Ht1 & _) _].
    subst body.
    destruct (IndexShard_tsm index_ dataDir batchSize verboseLogging w0)
      as [[[[]|e]|msg|] w1] eqn:Et; cbn [fst snd] in *.
    2: rewrite (bind_Ret _ _ _ _ _ Et); exists evs1; exact Ht1.
    2: rewrite (bind_Panic _ _ _ _ _ Et); exists evs1; exact Ht1.
    2: rewrite (bind_Interrupted _ _ _ _ Et); exists evs1; exact Ht1.
    rewrite (bind_Ret _ _ _ _ _ Et).
    destruct (IndexShard_wal_events index_ tmp Hidx walDir maxCacheSize
                batchSize verboseLogging w1 I) as [(_ & _ & evs2 & Ht2 & _) _].
    assert (Ht12 : forall w2, trace w2 = trace w1 ++ evs2 ->
                   exists evs, trace w2 = trace w0 ++ evs).
    { intros w2 H2. exists (evs1 ++ evs2).
      rewrite H2, Ht1, app_assoc. reflexivity. }
    destruct (IndexShard_wal index_ walDir maxCacheSize batchSize
                verboseLogging w1) as [[[[]|e]|msg|] w2] eqn:Ew;
      cbn [fst snd] in *.
    2: rewrite (bind_Ret _ _ _ _ _ Ew); apply Ht12, Ht2.
    2: rewrite (bind_Panic _ _ _ _ _ Ew); apply Ht12, Ht2.
    2: rewrite (bind_Interrupted _ _ _ _ Ew); apply Ht12, Ht2.
    rewrite (bind_Ret _ _ _ _ _ Ew).
    destruct (IndexShard_publish_events index_ tmp Hidx final w2 I)
      as [(_ & _ & evs3 & Ht3 & _) _].
    exists (evs1 ++ evs2 ++ evs3).
    unfold tmp, final in Ht3. rewrite Ht3, Ht2, Ht1, <- !app_assoc.
    reflexivity. }
  destruct Hext as [evs Hevs]. exists evs. rewrite Hidx. split.
  - rewrite Hevs, <- app_assoc. reflexivity.
  - intros Hnil.
    destruct Hout as [Hi | [[Hne _] | (_ & ix & Hfound & _)]];
      [congruence | contradiction |].
    destruct Hcases as [Hmiss | (ix' & evs' & _ & Ht & _)];
      [unfold tmp, final in *; congruence|].
    exists evs'. rewrite Ht in Hevs. apply app_inv_head in Hevs.
    symmetry. exact Hevs.
Qed.

(** *** The series of all TSM files of a shard *)

Lemma fs_lookup_app p q t :
  fs_lookup (p ++ q) t
  = match fs_lookup p t with
    | Found n => fs_lookup q n
    | Missing => Missing
    | NotDir => NotDir
    end.
Proof.
  revert t. induction p as [|c p IH]; intros t; [reflexivity|].
  simpl. destruct t as [data|es|ix]; try reflexivity.
  destruct (ents_lookup c es); [apply IH | reflexivity].
Qed.

Lemma fs_lookup_entry d name t es :
  fs_lookup d t = Found (Dir es) ->
  fs_lookup (d ++ [name]) t
  = match ents_lookup name es with
    | Some n => Found n
    | None => Missing
    end.
Proof.
  intros Hd. rewrite fs_lookup_app, Hd. simpl.
  destruct (ents_lookup name es); reflexivity.
Qed.

Lemma tsm_series_app evs1 evs2 :
  tsm_series (evs1 ++ evs2) = tsm_series evs1 ++ tsm_series evs2.
Proof. unfold tsm_series. rewrite omap_app, concat_app. reflexivity. Qed.

(** The inserts of a trace that are all made for one TSM file. *)
Lemma tsm_series_one_file p evs :
  Forall (insert_from (FromTSM p)) evs ->
  tsm_series evs = concat (key_batches (FromTSM p) evs).
Proof.
  induction 1 as [|e evs He _ IH]; [reflexivity|].
  change (e :: evs) with ([e] ++ evs).
  rewrite tsm_series_app, key_batches_app, concat_app, IH. f_equal.
  destruct e; try reflexivity. simpl in He. subst src.
  rewrite key_batches_insert. unfold tsm_series. simpl.
  reflexivity.
Qed.

Section Coverage.
Variables (index_ : Index) (dataDir : path).
Variables (batchSize : Z) (verboseLogging : bool).
Variable es : list (string * Node).
Let tmp := Join dataDir [".index"].
Let final := Join dataDir ["index"].
Hypothesis Hidx : idx_path index_ = tmp.
Hypothesis Hpos : 0 < batchSize.
Hypothesis Hfits : slice_header_size * batchSize <= maxAlloc.

(** An insert leaves the other entries of the shard directory alone. *)
Lemma CreateSeriesListIfNotExists_sibling name v src keys names tagsSlice :
  name <> ".index" ->
  hoare (unpublished final)
    (fun w => fs_lookup (dataDir ++ [name]) (fs w) = v)
    (CreateSeriesListIfNotExists index_ src keys names tagsSlice)
    (fun _ w => fs_lookup (dataDir ++ [name]) (fs w) = v).
Proof.
  intros Hname. unfold CreateSeriesListIfNotExists. rewrite Hidx.
  apply hoare_call; [apply unpublished_refl|].
  intros w HI. cbv zeta.
  destruct (faults w (length (trace w)) _) as [msg|];
    [split; [intros H; exact H | exact HI]|].
  destruct (fs_lookup tmp (fs w)) as [[data|es0|ix]| |] eqn:El;
    try (split; [intros H; exact H | exact HI]).
  destruct (fs_put tmp _ (fs w)) as [t'|] eqn:Ep;
    [|split; [intros H; exact H | exact HI]].
  cbn [fst snd]. split.
  - intros Hm. cbn [fs]. unfold final, tmp, Join in *.
    rewrite (fs_lookup_put_sibling dataDir "index" ".index" _ _ _
               index_name_ne Ep). exact Hm.
  - cbn [fs]. unfold tmp, Join in Ep.
    rewrite (fs_lookup_put_sibling dataDir name ".index" _ _ _ Hname Ep).
    exact HI.
Qed.

Lemma IndexTSMFile_sibling p name v :
  name <> ".index" ->
  hoare (unpublished final)
    (fun w => fs_lookup (dataDir ++ [name]) (fs w) = v)
    (IndexTSMFile index_ p batchSize verboseLogging)
    (fun _ w => fs_lookup (dataDir ++ [name]) (fs w) = v).
Proof.
  intros Hname.
  unfold Buildtsi.IndexTSMFile, Buildtsi.IndexTSMFile_body, os_Open, File_Close,
    Buildtsi.NewTSMReader, TSMReader_Close, make_cap, make_len, index, log.
  walk_inv; try same_tree; try assumption;
    try (apply CreateSeriesListIfNotExists_sibling; exact Hname).
Qed.

(** The inserts of [IndexTSMFile] are made for its file. *)
Lemma IndexTSMFile_own_inserts p :
  hoare (extends_by (insert_from (FromTSM p))) (fun _ => True)
    (IndexTSMFile index_ p batchSize verboseLogging) (fun _ _ => True).
Proof.
  unfold Buildtsi.IndexTSMFile, Buildtsi.IndexTSMFile_body, os_Open, File_Close,
    Buildtsi.NewTSMReader, TSMReader_Close, make_cap, make_len, index,
    CreateSeriesListIfNotExists, log.
  walk.
  all: try (eapply hoare_bind_any; [apply extends_by_trans | | intros ?]).
  all: walk.
  all: try exact I; try reflexivity.
Qed.

(** [IndexTSMFile] on an entry of the shard directory, in a run that
    nobody interrupts and in which no call for the file fails: the series
    keys it hands to the index are those of the entry, and the world it
    leaves is as fit for the next file. *)
Lemma IndexTSMFile_entry_run p n w :
  budget w = None -> file_goes_through tmp p w -> index_at tmp w ->
  fs_lookup p (fs w) = Found n ->
  exists w' evs,
    IndexTSMFile index_ p batchSize verboseLogging w = (Ret None, w') /\
    trace w' = trace w ++ evs /\
    tsm_series evs = node_series n /\
    Forall (tsm_part_event tmp) evs /\
    budget w' = None /\ faults w' = faults w /\ index_at tmp w' /\
    forall name, name <> ".index" ->
      fs_lookup (dataDir ++ [name]) (fs w')
      = fs_lookup (dataDir ++ [name]) (fs w).
Proof.
  intros Hb (Hqo & Hqr & Hqi) Hat Hfound.
  assert (Hrun : exists w' evs,
    IndexTSMFile index_ p batchSize verboseLogging w = (Ret None, w') /\
    trace w' = trace w ++ evs /\
    (Forall (insert_from (FromTSM p)) evs -> tsm_series evs = node_series n)).
  { assert (Hcases : (exists data keys, n = File data /\ readTSM data = Some keys)
                      \/ (forall data, n = File data -> readTSM data = None)).
    { destruct n as [data| |]; [|right; discriminate | right; discriminate].
      destruct (readTSM data) as [keys|] eqn:Hread.
      - left. eauto.
      - right. intros data' [= <-]. exact Hread. }
    destruct Hcases as [(data & keys & -> & Hread) | Hbad].
    - destruct (IndexTSMFile_batches index_ p batchSize verboseLogging w
                  data keys Hpos Hfits) as (w' & evs & E & Ht & Hk);
        [ split; [exact Hb | split; [rewrite Hidx; exact Hqi
                                    | rewrite Hidx; exact Hat]]
        | exact Hqo | exact Hqr | exact Hfound | exact Hread | ].
      exists w', evs. split; [exact E|]. split; [exact Ht|].
      intros Hown. rewrite (tsm_series_one_file p evs Hown), Hk.
      unfold Buildtsi.node_series. rewrite Hread.
      destruct (all_batches_batched batchSize
                  (map (fun key => (SeriesAndFieldFromCompositeKey key).1) keys)
                  Hpos) as (_ & _ & Hcat). exact Hcat.
    - eexists _, _. split.
      + apply (IndexTSMFile_skips index_ p batchSize verboseLogging w n Hb
                 (Hqo _) Hfound). right. exact Hbad.
      + cbn [trace]. split; [reflexivity|]. intros _.
        destruct n as [data| |]; try reflexivity.
        unfold Buildtsi.node_series. rewrite (Hbad data eq_refl).
        reflexivity. }
  destruct Hrun as (w' & evs & E & Ht & Hser).
  destruct (IndexTSMFile_own_inserts p w I)
    as [(Hfaults & Hbud & evs' & Ht' & Hown) _].
  destruct (IndexTSMFile_events index_ tmp Hidx p batchSize verboseLogging w I)
    as [(_ & _ & evs'' & Ht'' & Hpart) _].
  destruct (IndexTSMFile_tree index_ dataDir Hidx p batchSize verboseLogging
              w Hat) as [_ Hat'].
  rewrite E in Hfaults, Hbud, Ht', Ht'', Hat'. cbn [fst snd] in *.
  assert (evs' = evs) as ->.
  { rewrite Ht in Ht'. apply app_inv_head in Ht'. congruence. }
  assert (evs'' = evs) as ->.
  { rewrite Ht in Ht''. apply app_inv_head in Ht''. congruence. }
  exists w', evs. split; [exact E|]. split; [exact Ht|].
  split; [exact (Hser Hown)|]. split; [exact Hpart|].
  split; [exact (Hbud Hb)|]. split; [exact Hfaults|].
  split; [exact (Hat' None eq_refl)|].
  intros name Hname.
  destruct (IndexTSMFile_sibling p name _ Hname w eq_refl) as [_ Hs].
  rewrite E in Hs. exact (Hs None eq_refl).
Qed.

(** The loop of [IndexShard] over the TSM files, on entries of the shard
    directory other than the temporary index, none of whose calls
    fails. *)
Lemma IndexShard_tsm_loop_run names : forall w,
  budget w = None -> index_at tmp w ->
  (forall name, name ∈ names ->
     name <> ".index" /\
     file_goes_through tmp (Join dataDir [name]) w /\
     exists n, ents_lookup name es = Some n /\
               fs_lookup (dataDir ++ [name]) (fs w) = Found n) ->
  exists w' evs,
    for_each (map (fun name => Join dataDir [name]) names)
      (fun p (_ : unit) =>
         log Info "Processing tsm file" ;;
         err <- IndexTSMFile index_ p batchSize verboseLogging ;;
         match err with
         | Some e => ret (inr (Some e))
         | None => ret (inl tt)
         end) tt w
    = (Ret (inl tt), w') /\
    trace w' = trace w ++ evs /\
    tsm_series evs = concat (map (entry_series es) names) /\
    Forall (tsm_part_event tmp) evs /\
    budget w' = None /\ faults w' = faults w /\ index_at tmp w' /\
    forall name, name <> ".index" ->
      fs_lookup (dataDir ++ [name]) (fs w')
      = fs_lookup (dataDir ++ [name]) (fs w).
Proof.
  induction names as [|name names IH]; intros w Hb Hat Hnames.
  - exists w, []. rewrite app_nil_r.
    split; [reflexivity|]. split; [reflexivity|]. split; [reflexivity|].
    split; [constructor|]. split; [exact Hb|]. split; [reflexivity|].
    split; [exact Hat|]. reflexivity.
  - destruct (Hnames name) as (Hname & Hthrough & n & Hent & Hfound);
      [apply elem_of_cons; left; reflexivity|].
    cbn [map for_each].
    set (w1 := {| fs := fs w;
                  trace := trace w ++ [EvLog Info "Processing tsm file"];
                  faults := faults w; budget := None |}).
    destruct (IndexTSMFile_entry_run (Join dataDir [name]) n w1)
      as (w2 & evs & E & Ht & Hser & Hpart & Hb2 & Hf2 & Hat2 & Hsib);
      [ reflexivity | exact Hthrough | exact Hat | exact Hfound | ].
    assert (Hbody :
      (log Info "Processing tsm file" ;;
       err <- IndexTSMFile index_ (Join dataDir [name]) batchSize
                verboseLogging ;;
       match err with
       | Some e => ret (inr (Some e))
       | None => ret (inl tt)
       end) w = (Ret (@inl unit (option error) tt), w2)).
    { unfold log. run_call. fold w1. rewrite (bind_Ret _ _ _ _ _ E).
      reflexivity. }
    rewrite (bind_Ret _ _ _ _ _ Hbody).
    destruct (IH w2 Hb2 Hat2)
      as (w' & evs' & E' & Ht' & Hser' & Hpart' & Hb' & Hf' & Hat' & Hsib').
    { intros name' Hin.
      destruct (Hnames name') as (Hname' & Hthrough' & n' & Hent' & Hfound');
        [apply elem_of_cons; right; exact Hin|].
      split; [exact Hname'|]. split.
      - destruct Hthrough' as (Ho & Hr & Hi).
        split; [|split]; intros; rewrite Hf2; unfold w1; cbn [faults];
          first [apply Ho | apply Hr | apply Hi].
      - exists n'. split; [exact Hent'|].
        rewrite (Hsib name' Hname'). exact Hfound'. }
    exists w', ([EvLog Info "Processing tsm file"] ++ evs ++ evs').
    split; [exact E'|].
    split; [rewrite Ht', Ht; unfold w1; cbn [trace];
            rewrite <- !app_assoc; reflexivity|].
    split.
    { rewrite !tsm_series_app, Hser, Hser'. cbn [map concat].
      unfold Buildtsi.entry_series at 2. rewrite Hent. reflexivity. }
    split.
    { apply Forall_app. split; [repeat constructor|].
      apply Forall_app. split; assumption. }
    split; [exact Hb'|]. split; [rewrite Hf', Hf2; reflexivity|].
    split; [exact Hat'|].
    intros name' Hname'. rewrite (Hsib' name' Hname'), (Hsib name' Hname').
    reflexivity.
Qed.

(** The listing of the shard directory by [collectTSMFiles]. *)
Lemma collectTSMFiles_run w :
  budget w = None ->
  faults w (length (trace w)) (EvReadDir dataDir) = None ->
  fs_lookup dataDir (fs w) = Found (Dir es) ->
  collectTSMFiles dataDir w
  = (Ret (map (fun name => Join dataDir [name])
            (filter (fun name => Ext name = "." +:+ TSMFileExtension)
               (dir_names es)), None),
     {| fs := fs w; trace := trace w ++ [EvReadDir dataDir];
        faults := faults w; budget := None |}).
Proof.
  intros Hb Hq Hdir.
  unfold Buildtsi.collectTSMFiles, ioutil_ReadDir.
  run_call. rewrite Hq, Hdir. reflexivity.
Qed.

(** An entry the loop gets from the listing. *)
Lemma listed_entry w name :
  TSMFileExtension <> "index" ->
  fs_lookup dataDir (fs w) = Found (Dir es) ->
  name ∈ filter (fun name => Ext name = "." +:+ TSMFileExtension)
           (dir_names es) ->
  name <> ".index" /\
  exists n, ents_lookup name es = Some n /\
            fs_lookup (dataDir ++ [name]) (fs w) = Found n.
Proof.
  intros Hext Hdir Hin. apply list_elem_of_filter in Hin as [Hname Hin].
  split.
  - intros ->. apply Hext.
    change (Ext ".index") with ".index" in Hname.
    change ("." +:+ TSMFileExtension)
      with (String "." TSMFileExtension) in Hname.
    congruence.
  - apply elem_of_dir_names in Hin as [n Hn]. exists n.
    split; [exact Hn|].
    rewrite (fs_lookup_entry _ name _ _ Hdir), Hn. reflexivity.
Qed.

End Coverage.

Lemma for_each_app_Ret {S X St R} (xs ys : list X)
  (body : X -> St -> M S (St + R)) st s st' s' :
  for_each xs body st s = (Ret (inl st'), s') ->
  for_each (xs ++ ys) body st s = for_each ys body st' s'.
Proof.
  revert st s. induction xs as [|x xs IH]; intros st s E.
  - simpl in E. unfold ret in E. injection E as <- <-. reflexivity.
  - simpl in *. unfold bind in *.
    destruct (body x st s) as [[[st1|v]|msg|] s1]; try discriminate.
    apply IH, E.
Qed.

(** C5, amended.  A TSM file that opens but that [tsm1.NewTSMReader]
    cannot read is skipped: [IndexTSMFile] logs the failure as a warning,
    makes no insert and returns nil, so that the loop of [IndexShard]
    goes on with the next file.  A file that fails to open is not:
    [IndexTSMFile] returns the error of [os.Open] after that one call,
    without logging anything; and when, in a run of [IndexShard] that
    has opened the index and in which nothing else fails, the opening of
    one of the listed TSM files fails, [IndexShard] returns that error:
    after the failed open its only call is the deferred close of the
    index, there is no rename, and the index path is still missing. *)
Theorem C5_unreadable_file_is_skipped_open_error_is_returned
  (dataDir walDir : path) (maxLogFileSize maxCacheSize batchSize : Z)
  (verboseLogging : bool) :
  (forall index_ p w n,
     budget w = None ->
     faults w (length (trace w)) (EvOpen p) = None ->
     fs_lookup p (fs w) = Found n ->
     unreadable w p n ->
     IndexTSMFile index_ p batchSize verboseLogging w
     = (Ret None,
        {| fs := fs w;
           trace := trace w ++ [EvOpen p; EvNewTSMReader p;
                                EvLog Warn "Unable to read, skipping";
                                EvFileClose p];
           faults := faults w;
           budget := None |})) /\
  (forall index_ p w o e w1,
     os_Open p w = (Ret (o, Some e), w1) ->
     IndexTSMFile index_ p batchSize verboseLogging w = (Ret (Some e), w1) /\
     fs w1 = fs w /\ trace w1 = trace w ++ [EvOpen p]) /\
  (forall w index_ w0 es done name rest msg,
     let tmp := Join dataDir [".index"] in
     let final := Join dataDir ["index"] in
     let p := Join dataDir [name] in
     budget w = None ->
     0 < batchSize ->
     slice_header_size * batchSize <= maxAlloc ->
     TSMFileExtension <> "index" ->
     IndexShard_open dataDir maxLogFileSize batchSize w
     = (Ret (inl index_), w0) ->
     fs_lookup dataDir (fs w0) = Found (Dir es) ->
     filter (fun name => Ext name = "." +:+ TSMFileExtension) (dir_names es)
     = done ++ name :: rest ->
     (forall n, faults w n (EvOpen p) = Some msg) ->
     (forall n ev, ev <> EvOpen p -> faults w n ev = None) ->
     exists w' evs,
       IndexShard dataDir walDir maxLogFileSize maxCacheSize batchSize
         verboseLogging w
       = (Ret (Some (ErrIO msg)), w') /\
       fs_lookup final (fs w') = Missing /\
       trace w' = trace w0 ++ evs ++ [EvOpen p; EvIndexClose tmp] /\
       Forall (fun e => is_rename e = false) evs).
Proof.
  split; [|split].
  - intros index_ p w n Hb. apply IndexTSMFile_skips, Hb.
  - intros index_ p w o e w1 Hopen.
    unfold Buildtsi.IndexTSMFile. rewrite (bind_Ret _ _ _ _ _ Hopen).
    split; [destruct o; reflexivity|].
    unfold os_Open in Hopen.
    destruct (call_cases (EvOpen p)
                (fun fault t =>
                   match fault with
                   | Some msg => (None, Some (ErrIO msg), t)
                   | None =>
                       match fs_lookup p t with
                       | Found n =>
                           (Some {| f_path := p; f_node := n |}, None, t)
                       | Missing => (None, Some ErrNotExist, t)
                       | NotDir => (None, Some ErrNotDir, t)
                       end
                   end) w) as [[Hi _] | [_ Hc]].
    + rewrite Hi in Hopen. discriminate.
    + rewrite Hc in Hopen. injection Hopen as _ <-. cbn [fs trace].
      split; [|reflexivity].
      destruct (faults w (length (trace w)) (EvOpen p)); [reflexivity|].
      destruct (fs_lookup p (fs w)); reflexivity.
  - intros w index_ w0 es done name rest msg tmp final p
      Hb Hpos Hfits Hext Hopen Hdir Hlist Hdenied Hquiet.
    destruct (IndexShard_open_tree dataDir maxLogFileSize batchSize w I)
      as [_ Hp0].
    destruct (IndexShard_open_events dataDir maxLogFileSize batchSize w I)
      as [(Hf0 & Hb0 & _) _].
    rewrite Hopen in Hp0, Hf0, Hb0. cbn [fst snd] in *.
    destruct (Hp0 _ eq_refl) as (Hidx & Htmp & Hfin).
    specialize (Hb0 Hb).
    assert (Hat : index_at tmp w0) by (exists empty_index; exact Htmp).
    assert (Hnodup : NoDup (done ++ name :: rest)).
    { rewrite <- Hlist. apply NoDup_filter, NoDup_dir_names. }
    (* the listing and the files before the one that does not open *)
    set (w1 := {| fs := fs w0;
                  trace := (trace w0 ++ [EvReadDir dataDir])
                           ++ [EvLog Info "Iterating over tsm files"];
                  faults := faults w0; budget := None |}).
    destruct (IndexShard_tsm_loop_run index_ dataDir batchSize verboseLogging
                es Hidx Hpos Hfits done w1)
      as (w2 & evs & E & Ht & _ & Hpart & Hb2 & Hf2 & _ & Hsib);
      [reflexivity | exact Hat | |].
    { intros name' Hin.
      destruct (listed_entry dataDir es w0 name' Hext Hdir) as [Hne Hn].
      { rewrite Hlist. apply elem_of_app. left. exact Hin. }
      split; [exact Hne|]. split; [|exact Hn].
      assert (Hother : Join dataDir [name'] <> p).
      { unfold p, Join. intros Heq. apply app_inv_head in Heq.
        injection Heq as ->.
        apply NoDup_app in Hnodup as (_ & Hnot & _).
        apply (Hnot name Hin). apply elem_of_cons. left. reflexivity. }
      unfold w1. split; [|split]; intros; cbn [faults]; rewrite Hf0;
        apply Hquiet; congruence. }
    assert (Htsm :
      IndexShard_tsm index_ dataDir batchSize verboseLogging w0
      = (Ret (inr (Some (ErrIO msg))),
         {| fs := fs w2;
            trace := (trace w2 ++ [EvLog Info "Processing tsm file"])
                     ++ [EvOpen p];
            faults := faults w2; budget := None |})).
    { unfold Buildtsi.IndexShard_tsm.
      rewrite (bind_Ret _ _ _ _ _
                 (collectTSMFiles_run dataDir es w0 Hb0
                    ltac:(rewrite Hf0; apply Hquiet; discriminate) Hdir)).
      rewrite Hlist, map_app.
      match goal with
      | |- context [bind (log ?l ?m) ?k ?wx] =>
          rewrite (bind_Ret (log l m) k wx _ _ (log_run l m wx eq_refl))
      end.
      cbn [fs trace faults budget]. fold w1.
      rewrite (for_each_app_Ret _ _ _ _ _ _ _ E).
      cbn [map for_each]. fold p.
      assert (Hbody :
        (log Info "Processing tsm file" ;;
         err <- IndexTSMFile index_ p batchSize verboseLogging ;;
         match err with
         | Some e => ret (inr (Some e))
         | None => ret (inl tt)
         end) w2
        = (Ret (@inr unit (option error) (Some (ErrIO msg))),
           {| fs := fs w2;
              trace := (trace w2 ++ [EvLog Info "Processing tsm file"])
                       ++ [EvOpen p];
              faults := faults w2; budget := None |})).
      { unfold log. run_call.
        match goal with
        | |- context [bind (IndexTSMFile _ _ _ _) ?k ?wx] =>
            rewrite (bind_Ret (IndexTSMFile index_ p batchSize verboseLogging)
                       k wx (Some (ErrIO msg))
                       {| fs := fs w2;
                          trace := (trace w2
                                    ++ [EvLog Info "Processing tsm file"])
                                   ++ [EvOpen p];
                          faults := faults w2; budget := None |})
        end; [reflexivity|].
        unfold Buildtsi.IndexTSMFile, os_Open. run_call.
        rewrite Hf2. unfold w1. cbn [faults].
        rewrite Hf0, Hdenied. reflexivity. }
      rewrite (bind_Ret _ _ _ _ _ Hbody). reflexivity. }
    unfold Buildtsi.IndexShard. rewrite (bind_Ret _ _ _ _ _ Hopen).
    erewrite defer_close_Ret;
      [ | rewrite (bind_Ret _ _ _ _ _ Htsm); reflexivity | reflexivity ].
    eexists _, ([EvReadDir dataDir; EvLog Info "Iterating over tsm files"]
                ++ evs ++ [EvLog Info "Processing tsm file"]).
    split; [reflexivity|]. cbn [fs trace].
    split; [|split].
    + unfold final, Join.
      rewrite (Hsib "index" index_name_ne). exact Hfin.
    + unfold tmp. rewrite Ht, Hidx. unfold w1. cbn [trace].
      rewrite <- !app_assoc. reflexivity.
    + apply Forall_app. split; [repeat constructor|].
      apply Forall_app. split; [|repeat constructor].
      eapply Forall_impl; [exact Hpart|].
      intros e. apply tsm_part_event_not_rename.
Qed.

(** X17. With a positive batch size that [make] accepts, nobody
    interrupting and no call failing, the loop of [IndexShard] over the
    TSM files falls through to the WAL phase, and the series keys it has
    handed to the index, all inserts taken together, are those of the
    entries of the shard directory with the extension of TSM files,
    entry by entry in the order of the listing: all the keys of an entry
    that reads as a TSM file, none for one that does not. *)
Theorem X17_the_tsm_phase_indexes_every_readable_tsm_file_in_listing_order
  (index_ : Index) (dataDir : path) (batchSize : Z) (verboseLogging : bool)
  (w : World) (es : list (string * Node)) :
  0 < batchSize ->
  slice_header_size * batchSize <= maxAlloc ->
  TSMFileExtension <> "index" ->
  undisturbed w ->
  idx_path index_ = Join dataDir [".index"] ->
  index_at (Join dataDir [".index"]) w ->
  fs_lookup dataDir (fs w) = Found (Dir es) ->
  exists w' evs,
    IndexShard_tsm index_ dataDir batchSize verboseLogging w
    = (Ret (inl tt), w') /\
    trace w' = trace w ++ evs /\
    tsm_series evs
    = concat (map (entry_series es)
                (filter (fun name => Ext name = "." +:+ TSMFileExtension)
                   (dir_names es))).
Proof.
  intros Hpos Hfits Hext [Hb Hq] Hidx Hat Hdir.
  unfold Buildtsi.IndexShard_tsm.
  rewrite (bind_Ret _ _ _ _ _
             (collectTSMFiles_run dataDir es w Hb (Hq _ _) Hdir)).
  unfold log. run_call.
  match goal with
  | |- context [for_each _ _ tt ?w1] =>
      destruct (IndexShard_tsm_loop_run index_ dataDir batchSize verboseLogging
                  es Hidx Hpos Hfits
                  (filter (fun name => Ext name = "." +:+ TSMFileExtension)
                     (dir_names es)) w1)
        as (w' & evs & E & Ht & Hser & _)
  end.
  - reflexivity.
  - exact Hat.
  - intros name Hin.
    destruct (listed_entry dataDir es w name Hext Hdir Hin) as [Hne Hn].
    split; [exact Hne|]. split; [|exact Hn].
    split; [|split]; intros; apply Hq.
  - exists w', ([EvReadDir dataDir; EvLog Info "Iterating over tsm files"] ++ evs).
    split; [exact E|]. split.
    + rewrite Ht. cbn [trace]. rewrite <- !app_assoc. reflexivity.
    + rewrite tsm_series_app. exact Hser.
Qed.

End RebuildFacts.

(** ** The worker pool of processRetentionPolicy *)

Section PoolFacts.
Import Buildtsi.

Lemma sum_list_with_insert {A} (f : A -> nat) (l : list A) k x y :
  l !! k = Some x ->
  (sum_list_with f (<[k := y]> l) + f x = sum_list_with f l + f y)%nat.
Proof.
  revert k. induction l as [|a l IH]; intros [|k] Hk; simpl in *;
    try discriminate.
  - injection Hk as ->. lia.
  - specialize (IH k Hk). lia.
Qed.

Lemma sum_list_with_snoc {A} (f : A -> nat) (l : list A) x :
  sum_list_with f (l ++ [x]) = (sum_list_with f l + f x)%nat.
Proof. rewrite sum_list_with_app. simpl. lia. Qed.

Lemma returned_lt_length (ws : list Worker) k wk :
  ws !! k = Some wk -> is_returned wk = 0%nat ->
  (sum_list_with is_returned ws < length ws)%nat.
Proof.
  assert (Hle : forall l : list Worker,
             (sum_list_with is_returned l <= length l)%nat).
  { induction l as [|a l IH]; simpl; [lia|]. destruct a; simpl; lia. }
  revert k. induction ws as [|a ws IH]; intros [|k] Hk H0; simpl in *;
    try discriminate.
  - injection Hk as ->. rewrite H0. specialize (Hle ws). lia.
  - specialize (IH k Hk H0). destruct a; simpl; lia.
Qed.

Lemma Forall_insert_worker (P : Worker -> Prop) ws k wk :
  Forall P ws -> P wk -> Forall P (<[k := wk]> ws).
Proof. intros. apply Forall_insert; assumption. Qed.

(** The process is alive when no worker has crashed. *)
Lemma alive_no_crash (ws : list Worker) :
  existsb is_crashed ws = false <-> sum_list_with has_crashed ws = 0%nat.
Proof.
  induction ws as [|wk ws IH]; simpl; [tauto|].
  destruct wk; simpl; rewrite ?IH; try tauto.
  split; [discriminate | lia].
Qed.



Variable shards : list shard.
Variable concurrency : Z.
Hypothesis Hfits : Z.of_nat (length shards) + concurrency < 2 ^ 32.

Let n := length shards.
Local Abbreviation step := (step shards concurrency).
Local Abbreviation run := (run shards concurrency).
Local Abbreviation inv := (pool_inv n concurrency).

Ltac pool_auto :=
  split_and!; try assumption; try lia; try (simpl; lia).

Lemma pool_start_inv : inv pool_start.
Proof.
  unfold pool_inv, pool_start; simpl.
  repeat split; try lia; try constructor.
Qed.

(** The cursor does not wrap: the worker at the head of its loop reads
    the number of steps the cursor took before it. *)
Lemma cursor_exact s k :
  inv s -> workers s !! k = Some AtLoop ->
  atomic_AddUint32 (maxi s) 1 = maxi s + 1 /\
  wrap32 (atomic_AddUint32 (maxi s) 1 - 1) = maxi s /\
  0 <= maxi s.
Proof.
  intros (_ & Hle & Hmaxi & _ & _ & Hsp & _) Hk.
  pose proof (returned_lt_length _ _ _ Hk eq_refl) as Hlt.
  assert (Hws : Z.of_nat (length (workers s)) <= Z.max 0 concurrency).
  { unfold spawned_by in Hsp. destruct (main s); lia. }
  assert (Hc : 0 < concurrency).
  { apply lookup_lt_Some in Hk. lia. }
  fold n in Hfits.
  assert (Hb : 0 <= maxi s /\ maxi s + 1 < 2 ^ 32) by lia.
  unfold atomic_AddUint32, wrap32.
  rewrite (Z.mod_small (maxi s + 1)) by lia.
  replace (maxi s + 1 - 1) with (maxi s) by lia.
  rewrite Z.mod_small by lia. lia.
Qed.

Lemma main_step_inv s s' :
  inv s -> main_step shards concurrency s = Some s' -> inv s'.
Proof.
  intros (Hseq & Hle & Hmaxi & Hret & Hcount & Hsp & Hdr) Hstep.
  unfold main_step, cap_errC in Hstep. fold n in Hstep.
  destruct (main s) as [k | i | e] eqn:Hmain; [| |discriminate].
  - (* spawning *)
    simpl in Hsp, Hdr. destruct Hsp as [Hk Hkc].
    destruct (k <? concurrency) eqn:Ek; injection Hstep as <-;
      unfold pool_inv; cbn [claimed maxi workers errC main drained].
    + apply Z.ltb_lt in Ek.
      rewrite !sum_list_with_snoc, length_app. simpl.
      rewrite !Nat.add_0_r.
      pool_auto.
    + apply Z.ltb_ge in Ek.
      pool_auto.
      simpl. split; [lia | assumption].
  - (* draining *)
    simpl in Hsp, Hdr. destruct Hdr as [Hi Hds].
    destruct (i <? Z.of_nat n) eqn:Ei.
    + apply Z.ltb_lt in Ei.
      destruct (errC s) as [|e rest] eqn:Echan; [discriminate|].
      injection Hstep as <-.
      unfold pool_inv; cbn [claimed maxi workers errC main drained].
      simpl in Hcount. rewrite length_app. simpl.
      pool_auto.
      * destruct e; exact Hsp.
      * destruct e as [err|]; simpl.
        -- exists (Z.to_nat i). split; [lia|]. rewrite Hds. reflexivity.
        -- split; [lia|]. rewrite Hds.
           replace (Z.to_nat (i + 1)) with (S (Z.to_nat i)) by lia.
           rewrite replicate_S_end. reflexivity.
    + apply Z.ltb_ge in Ei. injection Hstep as <-.
      unfold pool_inv; cbn [claimed maxi workers errC main drained].
      pool_auto.
      simpl. rewrite Hds. f_equal. lia.
Qed.

Lemma worker_step_inv s s' k result :
  inv s -> step (RunWorker k result) s = Some s' -> inv s'.
Proof.
  intros Hinv Hstep. unfold Buildtsi.step in Hstep.
  destruct (died s); [discriminate|].
  destruct (workers s !! k) as [wk|] eqn:Hk; [|discriminate].
  destruct wk as [| i | i e | | msg]; simpl in Hstep; try discriminate.
  - (* the cursor *)
    destruct (cursor_exact s k Hinv Hk) as (Hnew & Hi & Hpos).
    rewrite Hi, Hnew in Hstep.
    destruct Hinv as (Hseq & Hle & Hmaxi & Hret & Hcount & Hsp & Hdr).
    fold n in Hstep.
    pose proof (sum_list_with_insert is_returned _ k AtLoop Returned Hk) as HR.
    pose proof (sum_list_with_insert is_in_flight _ k AtLoop Returned Hk) as HF.
    pose proof (sum_list_with_insert has_crashed _ k AtLoop Returned Hk) as HC.
    simpl in HR, HF, HC.
    destruct (Z.of_nat n <=? maxi s) eqn:En.
    + apply Z.leb_le in En. injection Hstep as <-.
      unfold pool_inv; cbn [claimed maxi workers errC main drained].
      rewrite length_insert.
      pool_auto.
    + apply Z.leb_gt in En.
      assert (HR0 : sum_list_with is_returned (workers s) = 0%nat).
      { destruct (sum_list_with is_returned (workers s)) eqn:E0; [reflexivity|].
        assert (length (claimed s) = n) by (apply Hret; lia). lia. }
      assert (Hm : Z.to_nat (maxi s) = length (claimed s)) by lia.
      destruct (shards !! Z.to_nat (maxi s)) as [sh|] eqn:Esh.
      2:{ apply lookup_ge_None in Esh. fold n in Esh. lia. }
      injection Hstep as <-.
      pose proof (sum_list_with_insert is_returned _ k AtLoop
                    (Indexing (Z.to_nat (maxi s))) Hk) as HR'.
      pose proof (sum_list_with_insert is_in_flight _ k AtLoop
                    (Indexing (Z.to_nat (maxi s))) Hk) as HF'.
      pose proof (sum_list_with_insert has_crashed _ k AtLoop
                    (Indexing (Z.to_nat (maxi s))) Hk) as HC'.
      simpl in HR', HF', HC'.
      unfold pool_inv; cbn [claimed maxi workers errC main drained].
      rewrite length_insert, length_app. simpl.
      pool_auto.
      rewrite Hm, Nat.add_1_r, seq_S, <- Hseq. reflexivity.
  - (* IndexShard returns, or panics and the claim is lost *)
    destruct Hinv as (Hseq & Hle & Hmaxi & Hret & Hcount & Hsp & Hdr).
    destruct result as [e|msg]; injection Hstep as <-;
      match goal with
      | |- inv {| workers := <[k := ?y]> _ |} =>
          pose proof (sum_list_with_insert is_returned _ k (Indexing i) y Hk)
            as HR;
          pose proof (sum_list_with_insert is_in_flight _ k (Indexing i) y Hk)
            as HF;
          pose proof (sum_list_with_insert has_crashed _ k (Indexing i) y Hk)
            as HC
      end;
      simpl in HR, HF, HC;
      unfold pool_inv; cbn [claimed maxi workers errC main drained];
      rewrite length_insert;
      pool_auto.
  - (* the send *)
    destruct (Z.of_nat (length (errC s)) <? cap_errC shards) eqn:Ecap;
      [|discriminate].
    injection Hstep as <-.
    destruct Hinv as (Hseq & Hle & Hmaxi & Hret & Hcount & Hsp & Hdr).
    pose proof (sum_list_with_insert is_returned _ k (Sending i e) AtLoop Hk)
      as HR.
    pose proof (sum_list_with_insert is_in_flight _ k (Sending i e) AtLoop Hk)
      as HF.
    pose proof (sum_list_with_insert has_crashed _ k (Sending i e) AtLoop Hk)
      as HC.
    simpl in HR, HF, HC.
    unfold pool_inv; cbn [claimed maxi workers errC main drained].
    rewrite length_insert, length_app. simpl.
    pool_auto.
Qed.

Lemma step_inv a s s' : inv s -> step a s = Some s' -> inv s'.
Proof.
  destruct a as [|k result].
  - intros Hinv Hstep. unfold Buildtsi.step in Hstep.
    destruct (died s); [discriminate|]. eapply main_step_inv; eauto.
  - apply worker_step_inv.
Qed.

Lemma run_inv sched : forall s s', inv s -> run sched s = Some s' -> inv s'.
Proof.
  induction sched as [|a sched IH]; intros s s' Hinv Hrun; simpl in Hrun.
  - injection Hrun as <-. exact Hinv.
  - fold step in Hrun. destruct (step a s) as [s1|] eqn:E; [|discriminate].
    eapply IH; [|exact Hrun]. eapply step_inv; eauto.
Qed.











End PoolFacts.

(** ** The worker pool: no workers, and where the result comes from *)

Section PoolResults.
Import Buildtsi.

Variable shards : list shard.
Variable concurrency : Z.

Local Abbreviation step := (step shards concurrency).
Local Abbreviation run := (run shards concurrency).
Local Abbreviation finished := (finished shards concurrency).

(** The states of a pool that starts no worker. *)
Lemma run_without_workers sched : forall s s',
  concurrency <= 0 ->
  s = pool_start \/ s = pool_waiting \/
  (shards = [] /\ s = pool_returned_nil) ->
  run sched s = Some s' ->
  s' = pool_start \/ s' = pool_waiting \/
  (shards = [] /\ s' = pool_returned_nil).
Proof.
  induction sched as [|a sched IH]; intros s s' Hc Hs Hrun; simpl in Hrun.
  - injection Hrun as <-. exact Hs.
  - fold step in Hrun. destruct (step a s) as [s1|] eqn:E; [|discriminate].
    apply (IH s1 s' Hc); [|exact Hrun]. clear IH Hrun.
    unfold Buildtsi.step in E.
    destruct a as [|k result].
    + unfold main_step, cap_errC in E.
      destruct Hs as [-> | [-> | [Hn ->]]]; simpl in E.
      * replace (0 <? concurrency) with false in E
          by (symmetry; apply Z.ltb_ge; exact Hc).
        injection E as <-. right. left. reflexivity.
      * destruct shards as [|sh shs]; simpl in E.
        -- injection E as <-. right. right. split; reflexivity.
        -- discriminate.
      * discriminate.
    + destruct Hs as [-> | [-> | [Hn ->]]]; simpl in E; discriminate.
Qed.

(** X8. With a concurrency of zero or less no worker is started and no
    shard is ever claimed.  When the retention policy has a shard the
    orchestrator, after its first step, waits for a result on the
    channel that nobody sends: the pool is at rest and
    [processRetentionPolicy] never returns.  Without a shard the
    orchestrator returns nil at its second step, and the pool is at rest
    only then. *)
Theorem X8_without_workers_nothing_is_indexed_and_nothing_returns
  (sched : list Action) (s : Pool) :
  concurrency <= 0 ->
  run sched pool_start = Some s ->
  workers s = [] /\ claimed s = [] /\
  (shards <> [] ->
   (forall e, main s <> Done e) /\
   run [RunMain] pool_start = Some pool_waiting /\
   quiescent shards concurrency pool_waiting) /\
  (shards = [] ->
   run [RunMain; RunMain] pool_start = Some pool_returned_nil /\
   (quiescent shards concurrency s -> s = pool_returned_nil) /\
   (forall e, main s = Done e -> e = None)).
Proof.
  intros Hc Hrun.
  pose proof (run_without_workers sched pool_start s Hc (or_introl eq_refl) Hrun)
    as Hs.
  assert (Hfirst : run [RunMain] pool_start = Some pool_waiting).
  { simpl. unfold Buildtsi.step, main_step. simpl.
    replace (0 <? concurrency) with false
      by (symmetry; apply Z.ltb_ge; exact Hc).
    reflexivity. }
  split; [destruct Hs as [-> | [-> | [_ ->]]]; reflexivity|].
  split; [destruct Hs as [-> | [-> | [_ ->]]]; reflexivity|].
  split.
  - intros Hne. split; [|split].
    + intros e. destruct Hs as [-> | [-> | [Hn ->]]];
        [discriminate | discriminate | contradiction].
    + exact Hfirst.
    + intros [|k result]; [|reflexivity].
      unfold Buildtsi.step, main_step, cap_errC. simpl.
      destruct shards; [contradiction | reflexivity].
  - intros Hnil. split; [|split].
    + simpl. unfold Buildtsi.step, main_step, cap_errC. simpl.
      replace (0 <? concurrency) with false
        by (symmetry; apply Z.ltb_ge; exact Hc).
      simpl. rewrite Hnil. reflexivity.
    + intros Hq. destruct Hs as [-> | [-> | [_ ->]]]; [| |reflexivity].
      * pose proof (Hq RunMain) as Hm.
        unfold Buildtsi.step, main_step in Hm. simpl in Hm.
        destruct (0 <? concurrency); discriminate.
      * pose proof (Hq RunMain) as Hm.
        unfold Buildtsi.step, main_step, cap_errC in Hm. simpl in Hm.
        rewrite Hnil in Hm. discriminate.
    + intros e He. destruct Hs as [-> | [-> | [_ ->]]]; simpl in He;
        [discriminate | discriminate | congruence].
Qed.

Lemma omap_middle {A B} (f : A -> option B) (l1 l2 : list A) x :
  omap f (l1 ++ x :: l2) = omap f l1 ++ option_list (f x) ++ omap f l2.
Proof. rewrite omap_app. simpl. destruct (f x); reflexivity. Qed.

Lemma omap_insert_Permutation {A B} (f : A -> option B) (l : list A) k x y :
  l !! k = Some x ->
  omap f (<[k := y]> l) ++ option_list (f x)
  ≡ₚ omap f l ++ option_list (f y).
Proof.
  intros Hk.
  rewrite insert_take_drop by (eapply lookup_lt_Some; exact Hk).
  rewrite <- (take_drop_middle l k x Hk) at 3.
  rewrite !omap_middle.
  generalize (omap f (take k l)) (omap f (drop (S k) l)) (option_list (f x))
    (option_list (f y)).
  intros T D X Y. rewrite <- !app_assoc. apply Permutation_app_head.
  rewrite (Permutation_app_comm D X), (Permutation_app_comm D Y).
  rewrite !app_assoc. apply Permutation_app_tail, Permutation_app_comm.
Qed.

(** The return of [IndexShard] that a step is, if it is one. *)
Lemma finished_cons a sched s s' :
  step a s = Some s' ->
  finished (a :: sched) s
  = match a with
    | RunWorker k result =>
        match workers s !! k with
        | Some (Indexing i) =>
            match result with
            | Returns e => [(i, e)]
            | Panics _ => []
            end
        | _ => []
        end
    | RunMain => []
    end ++ finished sched s'.
Proof. intros E. simpl. fold step. rewrite E. reflexivity. Qed.

Lemma omap_singleton {A B} (f : A -> option B) x :
  omap f [x] = option_list (f x).
Proof. simpl. destruct (f x); reflexivity. Qed.

Lemma sending_insert ws k x y :
  ws !! k = Some x ->
  sending (<[k := y]> ws) ++ sending [x] ≡ₚ sending ws ++ sending [y].
Proof.
  intros Hk. unfold sending. rewrite !omap_singleton.
  exact (omap_insert_Permutation
           (fun wk => match wk with Sending _ e => Some e | _ => None end)
           ws k x y Hk).
Qed.

Lemma indexing_insert ws k x y :
  ws !! k = Some x ->
  indexing (<[k := y]> ws) ++ indexing [x] ≡ₚ indexing ws ++ indexing [y].
Proof.
  intros Hk. unfold indexing. rewrite !omap_singleton.
  exact (omap_insert_Permutation
           (fun wk => match wk with Indexing i => Some i | _ => None end)
           ws k x y Hk).
Qed.

(** The invariant of the results while the process is alive. *)
Lemma results_alive R s :
  map snd R ≡ₚ drained s ++ errC s ++ sending (workers s) ->
  map fst R ++ indexing (workers s) ≡ₚ claimed s ->
  results_inv R s.
Proof.
  intros Hv Hi. split; [exact Hv|]. exists [].
  rewrite app_nil_r. split; [exact Hi | reflexivity].
Qed.

Lemma died_insert (ws : list Worker) k x msg :
  ws !! k = Some x -> existsb is_crashed (<[k := Crashed msg]> ws) = true.
Proof.
  revert k. induction ws as [|a ws IH]; intros [|k] Hk; simpl in *;
    try discriminate; [reflexivity|].
  rewrite (IH k Hk). apply orb_true_r.
Qed.

(** What the move of worker [k] to [y] does to the two lists. *)
Ltac worker_moves Hk y :=
  let Hs := fresh "Hs" in
  let Hx := fresh "Hx" in
  pose proof (sending_insert _ _ _ y Hk) as Hs;
  pose proof (indexing_insert _ _ _ y Hk) as Hx;
  simpl (sending [_]) in Hs; simpl (indexing [_]) in Hx;
  rewrite ?app_nil_r in Hs; rewrite ?app_nil_r in Hx;
  apply results_alive; cbn [workers claimed errC drained main maxi].

Lemma step_results a s s' R :
  results_inv R s -> step a s = Some s' ->
  results_inv
    (R ++ match a with
          | RunWorker k result =>
              match workers s !! k with
              | Some (Indexing i) =>
                  match result with
                  | Returns e => [(i, e)]
                  | Panics _ => []
                  end
              | _ => []
              end
          | RunMain => []
          end) s'.
Proof.
  intros (Hv & cs & Hi & Hcs) E. unfold Buildtsi.step in E.
  destruct (died s) eqn:Hd; [discriminate|].
  rewrite (Hcs eq_refl), app_nil_r in Hi. clear Hcs cs.
  destruct a as [|k result].
  - rewrite app_nil_r. unfold main_step in E.
    destruct (main s) as [j | i | e]; [| |discriminate].
    + destruct (j <? concurrency); injection E as <-; apply results_alive;
        simpl; unfold sending, indexing; rewrite ?omap_app; simpl;
        rewrite ?app_nil_r; assumption.
    + destruct (i <? cap_errC shards).
      * destruct (errC s) as [|e rest] eqn:Echan; [discriminate|].
        injection E as <-. apply results_alive; simpl; [|exact Hi].
        rewrite Hv. rewrite <- !app_assoc. simpl. reflexivity.
      * injection E as <-. apply results_alive; assumption.
  - destruct (workers s !! k) as [wk|] eqn:Hk; [|discriminate].
    destruct wk as [| i | i e | | msg]; simpl in E; try discriminate.
    + rewrite app_nil_r.
      destruct (Z.of_nat (length shards) <=? _).
      * injection E as <-. worker_moves Hk Returned.
        -- rewrite Hs. exact Hv.
        -- rewrite Hx. exact Hi.
      * destruct (shards !! _) as [sh|]; injection E as <-.
        -- match goal with
           | |- results_inv _ {| workers := <[k := ?y]> _ |} =>
               worker_moves Hk y
           end.
           ++ rewrite Hs. exact Hv.
           ++ rewrite Hx, app_assoc, Hi. reflexivity.
        -- worker_moves Hk (Crashed "index out of range").
           ++ rewrite Hs. exact Hv.
           ++ rewrite Hx. exact Hi.
    + destruct result as [e|msg]; injection E as <-.
      * worker_moves Hk (Sending i e).
        -- rewrite map_app, Hs, Hv. simpl. rewrite <- !app_assoc.
           reflexivity.
        -- rewrite map_app. simpl. rewrite <- Hi, <- Hx.
           rewrite <- !app_assoc. apply Permutation_app_head.
           apply Permutation_app_comm.
      * rewrite app_nil_r.
        pose proof (sending_insert _ _ _ (Crashed msg) Hk) as Hs.
        pose proof (indexing_insert _ _ _ (Crashed msg) Hk) as Hx.
        simpl (sending [_]) in Hs. simpl (indexing [_]) in Hx.
        rewrite ?app_nil_r in Hs. rewrite ?app_nil_r in Hx.
        split; cbn [workers claimed errC drained main maxi].
        -- rewrite Hs. exact Hv.
        -- exists [i]. split.
           ++ rewrite Hx. exact Hi.
           ++ unfold died. cbn [workers].
              rewrite (died_insert _ _ _ msg Hk). discriminate.
    + destruct (Z.of_nat (length (errC s)) <? cap_errC shards); [|discriminate].
      injection E as <-. rewrite app_nil_r. worker_moves Hk AtLoop.
      * rewrite Hv, <- Hs. rewrite <- !app_assoc.
        do 2 apply Permutation_app_head. apply Permutation_app_comm.
      * rewrite Hx. exact Hi.
Qed.

Lemma run_results sched : forall s s' R,
  results_inv R s -> run sched s = Some s' ->
  results_inv (R ++ finished sched s) s'.
Proof.
  induction sched as [|a sched IH]; intros s s' R HR Hrun.
  - simpl in *. injection Hrun as <-. rewrite app_nil_r. exact HR.
  - simpl in Hrun. fold step in Hrun.
    destruct (step a s) as [s1|] eqn:E; [|discriminate].
    rewrite (finished_cons a sched s s1 E), app_assoc.
    apply (IH s1 s'); [|exact Hrun]. apply step_results; assumption.
Qed.

Lemma not_in_flight_idle (ws : list Worker) :
  sum_list_with is_in_flight ws = 0%nat -> indexing ws = [] /\ sending ws = [].
Proof.
  induction ws as [|wk ws IH]; simpl; intros H0; [auto|].
  destruct wk; simpl in *; try discriminate; apply IH; lia.
Qed.

Hypothesis Hfits : Z.of_nat (length shards) + concurrency < 2 ^ 32.

(** X9. What [processRetentionPolicy] returns comes from the shards:
    when it returns nil, [IndexShard] has returned for every shard, once
    each, and every one of these calls returned nil; when it returns an
    error, that error was returned by the call of [IndexShard] on one of
    the shards. *)
Theorem X9_the_result_is_nil_only_when_every_shard_returned_nil
  (sched : list Action) (s : Pool) :
  run sched pool_start = Some s ->
  let R := finished sched pool_start in
  (main s = Done None ->
   map fst R ≡ₚ seq 0 (length shards) /\ Forall (fun r => r.2 = None) R) /\
  (forall e, main s = Done (Some e) ->
   exists i, (i < length shards)%nat /\ (i, Some e) ∈ R).
Proof.
  intros Hrun R.
  pose proof (run_inv shards concurrency Hfits sched _ _
                (pool_start_inv shards concurrency) Hrun) as Hinv.
  assert (HR : results_inv R s).
  { apply (run_results sched pool_start s []); [|exact Hrun].
    apply results_alive; reflexivity. }
  destruct HR as (Hv & cs & Hi & Hcs).
  destruct Hinv as (Hseq & Hle & _ & _ & Hcount & _ & Hdr).
  split.
  - intros Hmain. rewrite Hmain in Hdr. simpl in Hdr.
    rewrite Hdr, length_replicate in Hcount.
    assert (Hidle : sum_list_with is_in_flight (workers s) = 0%nat) by lia.
    assert (Hchan : errC s = []) by (apply length_zero_iff_nil; lia).
    assert (Halive : died s = false) by (apply alive_no_crash; lia).
    rewrite (Hcs Halive), app_nil_r in Hi.
    apply not_in_flight_idle in Hidle as [Hx Hs].
    rewrite Hx, app_nil_r in Hi. rewrite Hs, Hchan, Hdr in Hv.
    simpl in Hv. rewrite app_nil_r in Hv. split.
    + rewrite Hi, Hseq.
      replace (length (claimed s)) with (length shards) by lia. reflexivity.
    + assert (Hall : Forall (fun e => e = None) (map snd R)).
      { rewrite Hv. apply Forall_replicate. reflexivity. }
      rewrite Forall_fmap in Hall. exact Hall.
  - intros e Hmain. rewrite Hmain in Hdr. simpl in Hdr.
    destruct Hdr as (j & _ & Hdr).
    assert (He : Some e ∈ map snd R).
    { rewrite Hv, Hdr. rewrite !elem_of_app, list_elem_of_singleton. auto. }
    apply list_elem_of_fmap in He as ([i e'] & He' & Hin). simpl in He'.
    subst e'. exists i. split; [|exact Hin].
    assert (Hic : i ∈ claimed s).
    { rewrite <- Hi, elem_of_app. left.
      apply list_elem_of_fmap. exists (i, Some e). auto. }
    rewrite Hseq in Hic. apply elem_of_seq in Hic. lia.
Qed.

End PoolResults.

(** ** The claims on the example inputs *)

Section OnExamples.
Import Buildtsi Examples.

Local Abbreviation tmp := ["data"; "1"; ".index"].
Local Abbreviation final := ["data"; "1"; "index"].
Local Abbreviation tsm1 := ["data"; "1"; "000001.tsm"].
Local Abbreviation tsm2 := ["data"; "1"; "000002.tsm"].

(** A read of the closed accessor and a read of the open accessor with a
    stale entry return the same [ErrTSMClosed]. *)
Lemma C9_closed_and_stale_reads_agree :
  Tsm1.closed (Tsm1.acc closed_accessor) /\
  ~ Tsm1.closed (Tsm1.acc open_accessor) /\
  Z.of_nat (length (Tsm1.b (Tsm1.acc closed_accessor)))
  < Tsm1.entry_end entry_inside /\
  Z.of_nat (length (Tsm1.b (Tsm1.acc open_accessor)))
  < Tsm1.entry_end entry_stale /\
  Tsm1.same_closed_error []
    (Tsm1.readFloatBlock decode_any entry_inside [1; 2] closed_accessor)
    (Tsm1.readFloatBlock decode_any entry_stale [1; 2] open_accessor) /\
  Tsm1.same_closed_error [true]
    (Tsm1.readBooleanArrayBlock decode_any entry_inside [true] closed_accessor)
    (Tsm1.readBooleanArrayBlock decode_any entry_stale [true] open_accessor).
Proof.
  assert (H1 : Tsm1.closed (Tsm1.acc closed_accessor)) by reflexivity.
  assert (H2 : ~ Tsm1.closed (Tsm1.acc open_accessor)) by (vm_compute; discriminate).
  assert (H3 : Z.of_nat (length (Tsm1.b (Tsm1.acc closed_accessor)))
               < Tsm1.entry_end entry_inside) by (vm_compute; reflexivity).
  assert (H4 : Z.of_nat (length (Tsm1.b (Tsm1.acc open_accessor)))
               < Tsm1.entry_end entry_stale) by (vm_compute; reflexivity).
  split; [exact H1|]. split; [exact H2|]. split; [exact H3|].
  split; [exact H4|].
  pose proof (C9_out_of_range_is_reported_as_closed
                (FloatValue := Z) (IntegerValue := Z) (UnsignedValue := Z)
                (StringValue := string) (BooleanValue := bool)
                (FloatArray := list Z) (IntegerArray := list Z)
                (UnsignedArray := list Z) (StringArray := list string)
                (BooleanArray := list bool)
                decode_any decode_any decode_any decode_any decode_any
                decode_any decode_any decode_any decode_any decode_any
                closed_accessor open_accessor entry_inside entry_stale
                [1; 2] [] [] [] [] [] [] [] [] [true] H1 H2 H3 H4) as H.
  split; [apply H|]. apply H.
Defined.

(** The shard whose index is built is left alone. *)
Lemma C4_indexed_shard_is_left_alone :
  fs_lookup final (fs (quiet tree_indexed)) = Found (IndexDir empty_index) /\
  fs (rebuild (quiet tree_indexed)).2 = fs (quiet tree_indexed) /\
  (rebuild (quiet tree_indexed)).1 = Ret None /\
  trace (rebuild (quiet tree_indexed)).2 = skip_events ["data"; "1"].
Proof.
  split; [reflexivity|].
  destruct (C4_existing_index_shard_is_skipped "tsm" "wal" readTSM replayWAL
              SeriesAndFieldFromCompositeKey ParseKeyBytes
              ParseKeyBytesWithTags ["data"; "1"] ["wal"; "1"]
              1048576 1073741824 2 false (quiet tree_indexed)
              (IndexDir empty_index) eq_refl)
    as (Hfs & _ & _ & Hquiet).
  destruct (Hquiet eq_refl) as [Hret Htrace].
  split; [exact Hfs|]. split; [exact Hret | exact Htrace].
Defined.

(** The TSM file that does not read is skipped; the one that does not
    open makes [IndexTSMFile] return the error of [os.Open], and the
    rebuild of the shard returns it after the first file was indexed. *)
Lemma C5_second_file_is_skipped_first_is_denied :
  budget (quiet tree) = None /\
  IndexTSMFile readTSM SeriesAndFieldFromCompositeKey ParseKeyBytesWithTags
    staged_index tsm2 2 false (quiet tree)
  = (Ret None,
     {| fs := tree;
        trace := [EvOpen tsm2; EvNewTSMReader tsm2;
                  EvLog Warn "Unable to read, skipping"; EvFileClose tsm2];
        faults := faults (quiet tree); budget := None |}) /\
  os_Open tsm1 open_denied
  = (Ret (None, Some (ErrIO "permission denied")),
     {| fs := tree; trace := [EvOpen tsm1];
        faults := faults open_denied; budget := None |}) /\
  IndexTSMFile readTSM SeriesAndFieldFromCompositeKey ParseKeyBytesWithTags
    staged_index tsm1 2 false open_denied
  = (Ret (Some (ErrIO "permission denied")),
     {| fs := tree; trace := [EvOpen tsm1];
        faults := faults open_denied; budget := None |}) /\
  IndexShard_open ["data"; "1"] 1048576 2 second_denied
  = (Ret (inl staged_index), staged_second_denied) /\
  exists w' evs,
    rebuild second_denied = (Ret (Some (ErrIO "permission denied")), w') /\
    fs_lookup final (fs w') = Missing /\
    trace w'
    = trace staged_second_denied ++ evs ++ [EvOpen tsm2; EvIndexClose tmp] /\
    Forall (fun e => is_rename e = false) evs.
Proof.
  pose proof (C5_unreadable_file_is_skipped_open_error_is_returned
                "tsm" "wal" readTSM replayWAL SeriesAndFieldFromCompositeKey
                ParseKeyBytes ParseKeyBytesWithTags ["data"; "1"] ["wal"; "1"]
                1048576 1073741824 2 false) as (Hskip & Hdenied & Hshard).
  assert (Hopen : os_Open tsm1 open_denied
                  = (Ret (None, Some (ErrIO "permission denied")),
                     {| fs := tree; trace := [EvOpen tsm1];
                        faults := faults open_denied; budget := None |}))
    by reflexivity.
  assert (Hstaged : IndexShard_open ["data"; "1"] 1048576 2 second_denied
                    = (Ret (inl staged_index), staged_second_denied))
    by (vm_compute; reflexivity).
  split; [reflexivity|]. split.
  { apply (Hskip staged_index tsm2 (quiet tree) (File "!garbage")).
    - reflexivity.
    - reflexivity.
    - reflexivity.
    - right. intros data Hdata. injection Hdata as <-. reflexivity. }
  split; [exact Hopen|].
  split; [exact (proj1 (Hdenied staged_index tsm1 open_denied _ _ _ Hopen))|].
  split; [exact Hstaged|].
  apply (Hshard second_denied staged_index staged_second_denied
           staged_entries ["000001.tsm"] "000002.tsm" [] "permission denied").
  - reflexivity.
  - lia.
  - vm_compute. discriminate.
  - discriminate.
  - exact Hstaged.
  - vm_compute. reflexivity.
  - vm_compute. reflexivity.
  - intros n. reflexivity.
  - intros n ev Hne. destruct ev; try reflexivity.
    simpl. destruct (bool_decide (p = tsm2)) eqn:Ep; [|reflexivity].
    apply bool_decide_eq_true in Ep. subst p. contradiction.
Defined.

(** The file that cannot be opened is not skipped: [IndexTSMFile] logs
    nothing and returns the error, and the rebuild of the shard stops
    with it. *)
Lemma C5_open_error_is_not_skipped :
  let run :=
    IndexTSMFile readTSM SeriesAndFieldFromCompositeKey ParseKeyBytesWithTags
      staged_index tsm1 2 false open_denied in
  run.1 = Ret (Some (ErrIO "permission denied")) /\
  run.1 <> Ret None /\
  trace run.2 = [EvOpen tsm1] /\
  (rebuild open_denied).1 = Ret (Some (ErrIO "permission denied")) /\
  fs_lookup final (fs (rebuild open_denied).2) = Missing.
Proof.
  vm_compute. split; [reflexivity|]. split; [discriminate|].
  split; [reflexivity|]. split; reflexivity.
Qed.

(** The rebuild of the example shard stages at [.index] and publishes by
    the rename. *)
Lemma C2_example_shard_is_published_by_rename :
  IndexShard_open ["data"; "1"] 1048576 2 (quiet tree)
  = (Ret (inl staged_index), staged_world tree) /\
  fs_lookup final (fs (quiet tree)) = Missing /\
  (idx_path staged_index = tmp /\
   trace (staged_world tree) = open_calls tmp final /\
   fs_lookup tmp (fs (staged_world tree)) = Found (IndexDir empty_index)) /\
  (fs_lookup final (fs (rebuild (quiet tree)).2) = Missing \/
   exists ix pre post,
     fs_lookup final (fs (rebuild (quiet tree)).2) = Found (IndexDir ix) /\
     compacted ix = true /\
     fs_lookup tmp (fs (rebuild (quiet tree)).2) = Missing /\
     trace (rebuild (quiet tree)).2
     = trace (quiet tree) ++ pre ++ publish_calls tmp final ++ post /\
     Forall (fun e => is_rename e = false) pre /\
     (post = [] \/ post = [EvIndexClose tmp])).
Proof.
  assert (Hopen : IndexShard_open ["data"; "1"] 1048576 2 (quiet tree)
                  = (Ret (inl staged_index), staged_world tree))
    by (vm_compute; reflexivity).
  assert (Hmissing : fs_lookup final (fs (quiet tree)) = Missing)
    by reflexivity.
  split; [exact Hopen|]. split; [exact Hmissing|].
  destruct (C2_index_is_staged_then_published_by_one_rename "tsm" "wal"
              readTSM replayWAL SeriesAndFieldFromCompositeKey ParseKeyBytes
              ParseKeyBytesWithTags ["data"; "1"] ["wal"; "1"]
              1048576 1073741824 2 false (quiet tree))
    as (_ & Hstaged & Hfinal).
  split; [exact (Hstaged _ _ Hopen) | exact (Hfinal Hmissing)].
Defined.


(** Five keys of a TSM file and three keys of the cache, in batches of
    two. *)
Lemma C3_five_and_three_keys_in_batches_of_two :
  0 < 2 /\
  slice_header_size * 2 <= maxAlloc /\
  (exists w' evs,
     IndexTSMFile readTSM SeriesAndFieldFromCompositeKey ParseKeyBytesWithTags
       staged_index tsm1 2 false (staged_world tree)
     = (Ret None, w') /\
     trace w' = trace (staged_world tree) ++ evs /\
     batched 2 ["a"; "b"; "c"; "d"; "e"] (key_batches (FromTSM tsm1) evs)) /\
  (exists w' evs,
     IndexShard_wal "wal" replayWAL SeriesAndFieldFromCompositeKey
       ParseKeyBytes staged_index ["wal"; "1"] 1073741824 2 false
       (tsm_done_world tree)
     = (Ret (inl tt), w') /\
     trace w' = trace (tsm_done_world tree) ++ evs /\
     batched 2 ["x"; "y"; "z"] (key_batches FromCache evs)).
Proof.
  assert (Hpos : 0 < 2) by lia.
  assert (Hfits : slice_header_size * 2 <= maxAlloc)
    by (vm_compute; discriminate).
  split; [exact Hpos|]. split; [exact Hfits|].
  destruct (C3_batches_cut_the_enumerated_keys "wal" readTSM replayWAL
              SeriesAndFieldFromCompositeKey ParseKeyBytes
              ParseKeyBytesWithTags staged_index 2 false Hpos)
    as [Hsmall _].
  destruct (Hsmall Hfits) as [Htsm Hcache].
  split.
  - apply (Htsm tsm1 (staged_world tree) "abcde" (keys_of "abcde")).
    + split; [reflexivity|].
      split; [intros; reflexivity|].
      exists empty_index. vm_compute. reflexivity.
    + intros n. reflexivity.
    + intros n. reflexivity.
    + vm_compute. reflexivity.
    + reflexivity.
  - apply (Hcache ["wal"; "1"] 1073741824 (tsm_done_world tree)
             [("_00001.wal", File "xyz")] ["xyz"] ["x"; "y"; "z"]).
    + split; [reflexivity|].
      split; [intros; reflexivity|].
      eexists. vm_compute. reflexivity.
    + discriminate.
    + intros n. reflexivity.
    + intros n. reflexivity.
    + intros n ps. reflexivity.
    + vm_compute. reflexivity.
    + vm_compute. reflexivity.
    + reflexivity.
Defined.

(** With a batch size of [2^62] the five keys of the first TSM file are
    not handed to the index in one batch: the allocation of the batches
    panics and no insert is made. *)
Lemma C3_batch_size_beyond_the_allocation_limit_panics :
  let run :=
    IndexTSMFile readTSM SeriesAndFieldFromCompositeKey ParseKeyBytesWithTags
      staged_index tsm1 (2 ^ 62) false (staged_world tree) in
  0 < 2 ^ 62 /\
  readTSM "abcde" = Some ["a"; "b"; "c"; "d"; "e"] /\
  fs_lookup tsm1 (fs (staged_world tree)) = Found (File "abcde") /\
  (Z.of_nat 5 + 2 ^ 62 - 1) / 2 ^ 62 = 1 /\
  run.1 = Panic "makeslice: cap out of range" /\
  trace run.2
  = trace (staged_world tree)
    ++ [EvOpen tsm1; EvNewTSMReader tsm1; EvReaderClose tsm1;
        EvFileClose tsm1] /\
  key_batches (FromTSM tsm1)
    [EvOpen tsm1; EvNewTSMReader tsm1; EvReaderClose tsm1; EvFileClose tsm1]
  = [] /\
  ~ batched (2 ^ 62) ["a"; "b"; "c"; "d"; "e"] [].
Proof.
  intros run. split; [reflexivity|]. split; [reflexivity|].
  split; [vm_compute; reflexivity|]. split; [reflexivity|].
  split; [vm_compute; reflexivity|]. split; [vm_compute; reflexivity|].
  split; [reflexivity|].
  intros (_ & _ & Hcat). discriminate.
Qed.


(** A read of the whole mapped region hands its last four bytes to the
    decoder. *)
Lemma X1_read_of_the_whole_region :
  Tsm1.valid_entry (Tsm1.acc (Tsm1.accessor open_reader)) entry_inside /\
  Tsm1.ReadFloatBlockAt (H := mmap_any) entry_inside [1; 2] open_reader
  = (Ret ([1; 2], None), Tsm1.after_read open_reader [(4, 8)]) /\
  Tsm1.ReadStringBlockAt (H := mmap_any) entry_inside ["a"] open_reader
  = (Ret (["a"], None), Tsm1.after_read open_reader [(4, 8)]).
Proof.
  assert (Hvalid : Tsm1.valid_entry (Tsm1.acc (Tsm1.accessor open_reader))
                     entry_inside).
  { unfold Tsm1.valid_entry. simpl. lia. }
  split; [exact Hvalid|].
  destruct (X1_value_reads_decode_the_block_after_its_checksum
              (FloatValue := Z) (IntegerValue := Z) (UnsignedValue := Z)
              (StringValue := string) (BooleanValue := bool)
              (FloatArray := list Z) (IntegerArray := list Z)
              (UnsignedArray := list Z) (StringArray := list string)
              (BooleanArray := list bool)
              decode_any decode_any decode_any decode_any decode_any
              decode_any decode_any decode_any decode_any decode_any
              open_reader entry_inside [1; 2] [] [] ["a"] [] Hvalid)
    as (Hf & _ & _ & Hs & _).
  split; [exact Hf | exact Hs].
Defined.

Lemma X2_array_read_of_the_whole_region :
  Tsm1.valid_entry (Tsm1.acc (Tsm1.accessor open_reader)) entry_inside /\
  Tsm1.ReadBooleanArrayBlockAt (H := mmap_any) entry_inside [true] open_reader
  = (Ret ([true], None), Tsm1.after_read open_reader [(4, 8)]).
Proof.
  assert (Hvalid : Tsm1.valid_entry (Tsm1.acc (Tsm1.accessor open_reader))
                     entry_inside).
  { unfold Tsm1.valid_entry. simpl. lia. }
  split; [exact Hvalid|].
  destruct (X2_array_reads_pass_the_decoder_result_on
              (FloatValue := Z) (IntegerValue := Z) (UnsignedValue := Z)
              (StringValue := string) (BooleanValue := bool)
              (FloatArray := list Z) (IntegerArray := list Z)
              (UnsignedArray := list Z) (StringArray := list string)
              (BooleanArray := list bool)
              decode_any decode_any decode_any decode_any decode_any
              decode_any decode_any decode_any decode_any decode_any
              open_reader entry_inside [] [] [] [] [true] Hvalid)
    as (_ & _ & _ & _ & Hb).
  exact Hb.
Defined.

(** A read of the two-byte entry panics and leaves the reader locked. *)
Lemma X3_two_byte_entry_panics :
  Tsm1.short_entry (Tsm1.acc (Tsm1.accessor open_reader)) entry_short /\
  Tsm1.ReadIntegerBlockAt (H := mmap_any) entry_short [1] open_reader
  = (Panic "slice bounds out of range", Tsm1.stuck_in_read open_reader) /\
  Tsm1.t_mu_readers (Tsm1.stuck_in_read open_reader) = 1%nat.
Proof.
  assert (Hshort : Tsm1.short_entry (Tsm1.acc (Tsm1.accessor open_reader))
                     entry_short).
  { unfold Tsm1.short_entry. vm_compute. split; [discriminate|].
    right. reflexivity. }
  split; [exact Hshort|].
  destruct (X3_short_entry_panics_with_both_read_locks_held
              (FloatValue := Z) (IntegerValue := Z) (UnsignedValue := Z)
              (StringValue := string) (BooleanValue := bool)
              (FloatArray := list Z) (IntegerArray := list Z)
              (UnsignedArray := list Z) (StringArray := list string)
              (BooleanArray := list bool)
              decode_any decode_any decode_any decode_any decode_any
              decode_any decode_any decode_any decode_any decode_any
              open_reader entry_short [] [] [1] [] [] [] [] [] [] [] Hshort)
    as (_ & _ & Hi & _).
  split; [exact Hi | reflexivity].
Defined.

(** A read of the stale entry through the reader reports a closed file. *)
Lemma X4_stale_entry_through_the_reader :
  Z.of_nat (length (Tsm1.b (Tsm1.acc (Tsm1.accessor open_reader))))
  < Tsm1.entry_end entry_stale /\
  Tsm1.ReadUnsignedBlockAt (H := mmap_any) entry_stale [5] open_reader
  = (Ret ([], Some Tsm1.ErrTSMClosed), Tsm1.after_read open_reader []) /\
  Tsm1.ReadUnsignedArrayBlockAt (H := mmap_any) entry_stale [5] open_reader
  = (Ret ([5], Some Tsm1.ErrTSMClosed), Tsm1.after_read open_reader []).
Proof.
  assert (Hpast : Z.of_nat (length (Tsm1.b (Tsm1.acc (Tsm1.accessor open_reader))))
                  < Tsm1.entry_end entry_stale) by (vm_compute; reflexivity).
  split; [exact Hpast|].
  destruct (X4_reader_reports_an_entry_past_the_region_as_closed
              (FloatValue := Z) (IntegerValue := Z) (UnsignedValue := Z)
              (StringValue := string) (BooleanValue := bool)
              (FloatArray := list Z) (IntegerArray := list Z)
              (UnsignedArray := list Z) (StringArray := list string)
              (BooleanArray := list bool)
              decode_any decode_any decode_any decode_any decode_any
              decode_any decode_any decode_any decode_any decode_any
              open_reader entry_stale [] [] [] [] [5] [5] [] [] [] [] Hpast)
    as (_ & _ & _ & _ & Hu & Hua & _).
  split; [exact Hu | exact Hua].
Defined.

(** The TSM files of the example shard: the two files with the
    extension, not the notes. *)
Lemma X5_tsm_files_of_the_example_shard :
  budget (quiet tree) <> Some 0%nat /\
  exists paths w',
    collectTSMFiles "tsm" ["data"; "1"] (quiet tree) = (Ret (paths, None), w') /\
    trace w' = [EvReadDir ["data"; "1"]] /\
    NoDup paths /\
    tsm1 ∈ paths /\ tsm2 ∈ paths /\ ["data"; "1"; "notes.txt"] ∉ paths.
Proof.
  assert (Hb : budget (quiet tree) <> Some 0%nat) by discriminate.
  split; [exact Hb|].
  destruct (X5_collectTSMFiles_returns_the_entries_with_the_tsm_extension
              "tsm" readTSM SeriesAndFieldFromCompositeKey ParseKeyBytes
              ParseKeyBytesWithTags ["data"; "1"] (quiet tree)
              [ ("000001.tsm", File "abcde");
                ("000002.tsm", File "!garbage");
                ("notes.txt", File "zz") ] Hb eq_refl eq_refl)
    as (paths & w' & Hrun & _ & Htrace & Hnodup & Hin).
  exists paths, w'. split; [exact Hrun|]. split; [exact Htrace|].
  split; [exact Hnodup|].
  split; [|split].
  - apply Hin. exists "000001.tsm". split; [reflexivity|].
    split; [eexists; reflexivity | reflexivity].
  - apply Hin. exists "000002.tsm". split; [reflexivity|].
    split; [eexists; reflexivity | reflexivity].
  - intros Hnotes. apply Hin in Hnotes as (name & Hq & _ & Hext).
    injection Hq as <-. vm_compute in Hext. discriminate.
Defined.

(** The WAL segments of the example shard, and the empty path. *)
Lemma X6_wal_segments_of_the_example_shard :
  collectWALFiles "wal" [] (quiet tree)
  = (Ret ([], Some ErrNotExist), quiet tree) /\
  exists paths w',
    collectWALFiles "wal" ["wal"; "1"] (quiet tree) = (Ret (paths, None), w') /\
    trace w' = [EvStat ["wal"; "1"]; EvReadDir ["wal"; "1"]] /\
    ["wal"; "1"; "_00001.wal"] ∈ paths.
Proof.
  destruct (X6_collectWALFiles_lists_the_segments_whatever_stat_fails_with
              "tsm" "wal" readTSM SeriesAndFieldFromCompositeKey ParseKeyBytes
              ParseKeyBytesWithTags ["wal"; "1"] (quiet tree)
              [ ("_00001.wal", File "xyz") ])
    as [Hempty Hlist].
  split; [exact Hempty|].
  destruct Hlist as (paths & w' & Hrun & _ & Htrace & _ & Hin);
    [discriminate | reflexivity | reflexivity | reflexivity |].
  exists paths, w'. split; [exact Hrun|]. split; [exact Htrace|].
  apply Hin. exists "_00001.wal". split; [reflexivity|].
  split; [eexists; reflexivity | reflexivity].
Defined.

(** The shards of the example retention policy: 1 and 20, not the file
    7 and not the directory tmp. *)
Lemma X7_shards_of_the_example_policy :
  budget (quiet policy_tree) = None /\
  fs_lookup ["data"; "db"; "autogen"] (fs (quiet policy_tree))
  = Found (Dir policy_entries) /\
  exists shards w',
    processRetentionPolicy_shards (options "") ["data"; "db"; "autogen"]
      (quiet policy_tree)
    = (Ret (inl shards), w') /\
    ({| ID := 1; Path := "1" |} ∈ shards) /\
    ({| ID := 20; Path := "20" |} ∈ shards) /\
    ({| ID := 7; Path := "7" |} ∉ shards) /\
    NoDup (map Path shards).
Proof.
  split; [reflexivity|]. split; [reflexivity|].
  destruct (X7_shards_are_the_numbered_directories_passing_the_filter
              "tsm" readTSM SeriesAndFieldFromCompositeKey ParseKeyBytes
              ParseKeyBytesWithTags (options "") ["data"; "db"; "autogen"]
              (quiet policy_tree) policy_entries eq_refl eq_refl eq_refl)
    as (shards & w' & Hrun & _ & Hin & Hnodup & _).
  exists shards, w'. split; [exact Hrun|].
  split; [|split; [|split; [|exact Hnodup]]].
  - apply Hin. split; [eexists; split; reflexivity|].
    split; [left; reflexivity | reflexivity].
  - apply Hin. split; [eexists; split; reflexivity|].
    split; [left; reflexivity | reflexivity].
  - intros H7. apply Hin in H7 as [(n & Hn & Hd) _].
    vm_compute in Hn. injection Hn as <-. discriminate.
Defined.

(** Two shards and no worker: the orchestrator waits for ever.  No
    shard and no worker: it returns nil at its second step. *)
Lemma X8_two_shards_and_no_worker :
  0 <= 0 /\
  run two_shards 0 [RunMain] pool_start = Some pool_waiting /\
  claimed pool_waiting = [] /\
  (forall e, main pool_waiting <> Done e) /\
  quiescent two_shards 0 pool_waiting /\
  run [] 0 [RunMain; RunMain] pool_start = Some pool_returned_nil /\
  main pool_returned_nil = Done None.
Proof.
  assert (Hc : 0 <= 0) by lia.
  assert (Hrun : run two_shards 0 [RunMain] pool_start = Some pool_waiting)
    by reflexivity.
  assert (Hnone : run [] 0 [] pool_start = Some pool_start) by reflexivity.
  split; [exact Hc|]. split; [exact Hrun|].
  destruct (X8_without_workers_nothing_is_indexed_and_nothing_returns
              two_shards 0 [RunMain] pool_waiting Hc Hrun)
    as (_ & Hclaimed & Hsome & _).
  destruct (X8_without_workers_nothing_is_indexed_and_nothing_returns
              [] 0 [] pool_start Hc Hnone)
    as (_ & _ & _ & Hempty).
  split; [exact Hclaimed|].
  destruct Hsome as (Hmain & _ & Hq); [discriminate|].
  split; [exact Hmain|]. split; [exact Hq|].
  split; [exact (proj1 (Hempty eq_refl)) | reflexivity].
Defined.

(** The error the example pool returns is the result of one of its two
    shards. *)
Lemma X9_the_error_of_the_example_pool :
  Z.of_nat (length two_shards) + 2 < 2 ^ 32 /\
  run two_shards 2 schedule pool_start = Some pool_after /\
  exists i,
    (i < length two_shards)%nat /\
    (i, Some (ErrIO "disk full")) ∈ finished two_shards 2 schedule pool_start.
Proof.
  assert (Hfits : Z.of_nat (length two_shards) + 2 < 2 ^ 32)
    by (vm_compute; reflexivity).
  assert (Hrun : run two_shards 2 schedule pool_start = Some pool_after)
    by (vm_compute; reflexivity).
  split; [exact Hfits|]. split; [exact Hrun|].
  destruct (X9_the_result_is_nil_only_when_every_shard_returned_nil
              two_shards 2 Hfits schedule pool_after Hrun) as [_ Herr].
  exact (Herr (ErrIO "disk full") eq_refl).
Defined.

(** The rebuild of the example shard returns nil, and the index is
    there. *)
Lemma X10_example_rebuild_returns_nil_and_publishes :
  fs_lookup final (fs (quiet tree)) = Missing /\
  (rebuild (quiet tree)).1 = Ret None /\
  exists ix,
    fs_lookup final (fs (rebuild (quiet tree)).2) = Found (IndexDir ix) /\
    compacted ix = true /\
    fs_lookup tmp (fs (rebuild (quiet tree)).2) = Missing.
Proof.
  assert (Hmissing : fs_lookup final (fs (quiet tree)) = Missing)
    by reflexivity.
  assert (Hnil : (rebuild (quiet tree)).1 = Ret None)
    by (vm_compute; reflexivity).
  split; [exact Hmissing|]. split; [exact Hnil|].
  destruct (X10_nil_means_published_and_an_error_means_unpublished
              "tsm" "wal" readTSM replayWAL SeriesAndFieldFromCompositeKey
              ParseKeyBytes ParseKeyBytesWithTags ["data"; "1"] ["wal"; "1"]
              1048576 1073741824 2 false (quiet tree) Hmissing)
    as (_ & _ & Hpublished).
  exact (Hpublished eq_refl Hnil).
Defined.

(** With a [Stat] that fails the example shard is taken for indexed and
    nothing is built. *)
Lemma X11_stat_denied_skips_the_example_shard :
  budget stat_denied = None /\
  rebuild stat_denied
  = (Ret None,
     {| fs := tree; trace := skip_events ["data"; "1"];
        faults := faults stat_denied; budget := None |}) /\
  fs_lookup final tree = Missing.
Proof.
  split; [reflexivity|]. split; [|reflexivity].
  exact (X11_a_failing_stat_makes_the_shard_count_as_indexed
           "tsm" "wal" readTSM replayWAL SeriesAndFieldFromCompositeKey
           ParseKeyBytes ParseKeyBytesWithTags ["data"; "1"] ["wal"; "1"]
           1048576 1073741824 2 false stat_denied "permission denied"
           eq_refl eq_refl).
Defined.

(** A second run on the rebuilt example shard, with another batch size
    and verbose, changes nothing. *)
Lemma X12_second_run_on_the_example_shard :
  let second :=
    IndexShard "tsm" "wal" readTSM replayWAL SeriesAndFieldFromCompositeKey
      ParseKeyBytes ParseKeyBytesWithTags ["data"; "1"] []
      1048576 1073741824 5 true (rebuild (quiet tree)).2 in
  fs_lookup final (fs (quiet tree)) = Missing /\
  (rebuild (quiet tree)).1 = Ret None /\
  fs second.2 = fs (rebuild (quiet tree)).2 /\
  second.1 = Ret None.
Proof.
  intros second.
  assert (Hmissing : fs_lookup final (fs (quiet tree)) = Missing)
    by reflexivity.
  assert (Hnil : (rebuild (quiet tree)).1 = Ret None)
    by (vm_compute; reflexivity).
  split; [exact Hmissing|]. split; [exact Hnil|].
  destruct (X12_a_rebuilt_shard_is_skipped_by_the_next_run
              "tsm" "wal" readTSM replayWAL SeriesAndFieldFromCompositeKey
              ParseKeyBytes ParseKeyBytesWithTags ["data"; "1"] ["wal"; "1"] []
              1048576 1073741824 2 1048576 1073741824 5 false true
              (quiet tree) Hmissing eq_refl Hnil)
    as (Hfs & _ & _ & Hquiet).
  split; [exact Hfs|]. apply Hquiet. vm_compute. reflexivity.
Defined.

(** With a batch size of zero the first TSM file of the example shard
    makes [IndexTSMFile] panic. *)
Lemma X13_batch_size_zero_on_the_first_file :
  budget (quiet tree) = None /\
  fs_lookup tsm1 (fs (quiet tree)) = Found (File "abcde") /\
  readTSM "abcde" = Some (keys_of "abcde") /\
  exists msg,
    IndexTSMFile readTSM SeriesAndFieldFromCompositeKey ParseKeyBytesWithTags
      staged_index tsm1 0 false (quiet tree)
    = (Panic msg,
       {| fs := tree;
          trace := [EvOpen tsm1; EvNewTSMReader tsm1;
                    EvReaderClose tsm1; EvFileClose tsm1];
          faults := faults (quiet tree); budget := None |}).
Proof.
  split; [reflexivity|]. split; [reflexivity|]. split; [reflexivity|].
  apply (X13_IndexTSMFile_panics_without_a_positive_batch_size
           readTSM SeriesAndFieldFromCompositeKey ParseKeyBytesWithTags
           staged_index tsm1 0 false (quiet tree) "abcde" (keys_of "abcde")
           eq_refl eq_refl eq_refl eq_refl eq_refl).
  right. split; [reflexivity | discriminate].
Defined.

(** With a batch size of zero the three keys of the example cache go to
    the index in one call. *)
Lemma X14_three_cache_keys_in_one_call :
  insertable (idx_path staged_index) FromCache (tsm_done_world tree) /\
  exists w' evs,
    IndexShard_wal "wal" replayWAL SeriesAndFieldFromCompositeKey
      ParseKeyBytes staged_index ["wal"; "1"] 1073741824 0 false
      (tsm_done_world tree)
    = (Ret (inl tt), w') /\
    trace w' = trace (tsm_done_world tree) ++ evs /\
    key_batches FromCache evs = [["x"; "y"; "z"]].
Proof.
  assert (Hins : insertable (idx_path staged_index) FromCache
                   (tsm_done_world tree)).
  { split; [reflexivity|]. split; [intros; reflexivity|].
    eexists. vm_compute. reflexivity. }
  split; [exact Hins|].
  apply (X14_batch_size_zero_inserts_the_cache_in_one_call
           "wal" replayWAL SeriesAndFieldFromCompositeKey ParseKeyBytes
           staged_index false ["wal"; "1"] 1073741824 (tsm_done_world tree)
           [("_00001.wal", File "xyz")] ["xyz"] ["x"; "y"; "z"] Hins).
  - discriminate.
  - intros n. reflexivity.
  - intros n. reflexivity.
  - intros n ps. reflexivity.
  - vm_compute. reflexivity.
  - vm_compute. reflexivity.
  - reflexivity.
Defined.

(** The calls of [IndexTSMFile] on the first file of the example shard
    end with the two closes. *)
Lemma X15_first_file_is_closed :
  let run :=
    IndexTSMFile readTSM SeriesAndFieldFromCompositeKey ParseKeyBytesWithTags
      staged_index tsm1 2 false (staged_world tree) in
  let f := {| f_path := tsm1; f_node := File "abcde" |} in
  let r := {| r_path := tsm1; r_keys := keys_of "abcde" |} in
  budget (staged_world tree) = None /\
  (exists w1 w2,
     os_Open tsm1 (staged_world tree) = (Ret (Some f, None), w1) /\
     NewTSMReader readTSM f w1 = (Ret (Some r, None), w2)) /\
  run.1 = Ret None /\
  exists evs,
    trace run.2
    = trace (staged_world tree) ++ [EvOpen tsm1; EvNewTSMReader tsm1] ++ evs
      ++ [EvReaderClose tsm1; EvFileClose tsm1] /\
    Forall series_event evs.
Proof.
  intros run f r.
  assert (Hb : budget (staged_world tree) = None) by reflexivity.
  assert (Hopen : os_Open tsm1 (staged_world tree)
                  = (Ret (Some f, None), (os_Open tsm1 (staged_world tree)).2))
    by (vm_compute; reflexivity).
  assert (Hread : NewTSMReader readTSM f (os_Open tsm1 (staged_world tree)).2
                  = (Ret (Some r, None),
                     (NewTSMReader readTSM f
                        (os_Open tsm1 (staged_world tree)).2).2))
    by (vm_compute; reflexivity).
  split; [exact Hb|]. split; [eexists _, _; split; [exact Hopen | exact Hread]|].
  split; [vm_compute; reflexivity|].
  destruct (X15_IndexTSMFile_closes_the_reader_and_then_the_file
              readTSM SeriesAndFieldFromCompositeKey ParseKeyBytesWithTags
              staged_index tsm1 2 false (staged_world tree) Hb)
    as (_ & _ & Hopened).
  destruct (Hopened f _ Hopen) as [_ Hclosed].
  exact (Hclosed r _ Hread).
Defined.

(** The rebuild of the example shard ends with the close of the index,
    after the rename. *)
Lemma X16_example_rebuild_closes_the_index_last :
  budget (quiet tree) = None /\
  IndexShard_open ["data"; "1"] 1048576 2 (quiet tree)
  = (Ret (inl staged_index), staged_world tree) /\
  exists evs',
    trace (rebuild (quiet tree)).2
    = trace (staged_world tree)
      ++ (evs' ++ publish_calls tmp final) ++ [EvIndexClose tmp].
Proof.
  assert (Hopen : IndexShard_open ["data"; "1"] 1048576 2 (quiet tree)
                  = (Ret (inl staged_index), staged_world tree))
    by (vm_compute; reflexivity).
  split; [reflexivity|]. split; [exact Hopen|].
  destruct (X16_an_opened_index_is_closed_last
              "tsm" "wal" readTSM replayWAL SeriesAndFieldFromCompositeKey
              ParseKeyBytes ParseKeyBytesWithTags ["data"; "1"] ["wal"; "1"]
              1048576 1073741824 2 false (quiet tree) staged_index
              (staged_world tree) eq_refl Hopen)
    as (_ & evs & Htrace & Hnil).
  destruct Hnil as [evs' ->]; [vm_compute; reflexivity|].
  exists evs'. exact Htrace.
Defined.

(** The TSM phase on the example shard indexes the five keys of the
    first file; the second file does not read and the notes are no TSM
    file. *)
Lemma X17_series_of_the_example_shard :
  0 < 2 /\
  undisturbed (staged_world tree) /\
  index_at tmp (staged_world tree) /\
  fs_lookup ["data"; "1"] (fs (staged_world tree)) = Found (Dir staged_entries) /\
  exists w' evs,
    IndexShard_tsm "tsm" readTSM SeriesAndFieldFromCompositeKey
      ParseKeyBytesWithTags staged_index ["data"; "1"] 2 false
      (staged_world tree)
    = (Ret (inl tt), w') /\
    trace w' = trace (staged_world tree) ++ evs /\
    tsm_series evs = ["a"; "b"; "c"; "d"; "e"].
Proof.
  assert (Hpos : 0 < 2) by lia.
  assert (Hw : undisturbed (staged_world tree))
    by (split; [reflexivity | intros; reflexivity]).
  assert (Hat : index_at tmp (staged_world tree))
    by (exists empty_index; vm_compute; reflexivity).
  assert (Hdir : fs_lookup ["data"; "1"] (fs (staged_world tree))
                 = Found (Dir staged_entries)) by (vm_compute; reflexivity).
  split; [exact Hpos|]. split; [exact Hw|]. split; [exact Hat|].
  split; [exact Hdir|].
  assert (Hext : "tsm" <> "index") by discriminate.
  assert (Hfits : slice_header_size * 2 <= maxAlloc)
    by (vm_compute; discriminate).
  destruct (X17_the_tsm_phase_indexes_every_readable_tsm_file_in_listing_order
              "tsm" readTSM replayWAL SeriesAndFieldFromCompositeKey
              ParseKeyBytes ParseKeyBytesWithTags staged_index ["data"; "1"] 2 false
              (staged_world tree) staged_entries Hpos Hfits Hext Hw eq_refl
              Hat Hdir)
    as (w' & evs & Hrun & Htrace & Hseries).
  exists w', evs. split; [exact Hrun|]. split; [exact Htrace|].
  rewrite Hseries. vm_compute. reflexivity.
Defined.

End OnExamples.
